(** * Chord / DHash: a shallow embedding of the ring arithmetic, routing
      tables, IDA codec and Merkle store, with the properties of the
      specification stated over it.

    Keys are [boost::multiprecision::uint256_t] values, modelled as [Z]
    with the 256-bit wrap-around and the reduction by [keys_in_ring]
    written out where the source performs them.  Code that throws returns
    an explicit outcome.  The SHA-1 based constructor
    [ChordKey(str, false)] is a parameter of the Merkle store. *)

From Stdlib Require Import String Ascii ZArith List Bool Lia Arith Sorted DecimalString.
Import ListNotations.
Open Scope Z_scope.

(* ===================================================================== *)
(** * Part I: definitions                                                *)
(* ===================================================================== *)

(** ** The C++ conversions the code relies on *)

Module Std.

(** [std::to_string] of an [int]. *)
Definition to_string (val : Z) : string :=
  NilZero.string_of_int (Z.to_int val).

(** An [int] converted to [size_t], as the usual arithmetic conversions
    do when an [int] is compared with a [size()]: a negative value
    becomes its sum with [2 ^ 64]. *)
Definition size_t (x : Z) : Z :=
  if x <? 0 then x + 18446744073709551616 else x.

End Std.

(** ** key.h: [GenericKey<16, 32>] *)

Module Key.

(** [keys_in_ring_ = pow(cpp_int(key_base), key_len)] for [ChordKey]. *)
Definition key_base : Z := 16.
Definition key_len : Z := 32.
Definition keys_in_ring : Z := key_base ^ key_len.

(** Storage of a value in a [uint256_t]. *)
Definition uint256 (x : Z) : Z := x mod 2 ^ 256.

(** [GenericKey::InBetween], called on the key holding [value]. *)
Definition InBetween (value lower_bound upper_bound : Z) (inclusive : bool)
  : bool :=
  if lower_bound =? upper_bound then
    if value =? upper_bound then true else false
  else
    let mod_lower_bound := lower_bound mod keys_in_ring in
    let mod_upper_bound := upper_bound mod keys_in_ring in
    let mod_value := value mod keys_in_ring in
    if lower_bound <? upper_bound then
      if inclusive
      then (mod_lower_bound <=? mod_value) && (mod_value <=? upper_bound)
      else (mod_lower_bound <? mod_value) && (mod_value <? upper_bound)
    else
      negb (if inclusive
            then (mod_upper_bound <? mod_value) && (mod_value <? mod_lower_bound)
            else (mod_upper_bound <=? mod_value) && (mod_value <=? mod_lower_bound)).

(** [operator + (const KeyType &, const KeyType &)]. *)
Definition add (key1 key2 : Z) : Z :=
  uint256 (uint256 (key1 + key2) mod keys_in_ring).

(** [operator - (const KeyType &, const KeyType &)]: the difference is
    taken on signed [cpp_int]s. *)
Definition sub (key1 key2 : Z) : Z :=
  let diff := key1 - key2 in
  if diff >? 0 then uint256 diff else uint256 (keys_in_ring + diff).

(** [operator + (const KeyType &, T number)]. *)
Definition add_num (key number : Z) : Z :=
  uint256 (uint256 (key + number) mod keys_in_ring).

(** [operator - (const KeyType &, T number)]: here the difference is a
    [uint256_t] before it is widened. *)
Definition sub_num (key number : Z) : Z :=
  let diff := uint256 (key - number) in
  if diff >? 0 then uint256 diff else uint256 (keys_in_ring + diff).

(** The ring of identifiers, and clockwise distance on it. *)
Definition in_ring (k : Z) : Prop := 0 <= k < keys_in_ring.
Definition cw_dist (from to : Z) : Z := (to - from) mod keys_in_ring.

(** The case analysis of section 4.1 on reduced values.  In the wrap
    case the answer is membership in the wrap segment from [lo] round to
    [hi], the complement of the stretch between [hi] and [lo]; the flag
    applies to both endpoints of the segment, so an inclusive query
    removes the open interval and an exclusive query the closed one. *)
Definition in_between_cases (k lo hi : Z) (inclusive : bool) : bool :=
  if lo =? hi then k =? hi
  else if lo <? hi then
    if inclusive then (lo <=? k) && (k <=? hi) else (lo <? k) && (k <? hi)
  else
    negb (if inclusive then (hi <? k) && (k <? lo)
          else (hi <=? k) && (k <=? lo)).

(** Modular arithmetic as section 4.1 states it. *)
Definition add_spec (a b : Z) : Z := (a + b) mod keys_in_ring.
Definition sub_spec (a b : Z) : Z := (a - b + keys_in_ring) mod keys_in_ring.

End Key.

(** ** remote_peer.h: the descriptor of a peer *)

Record RemotePeer : Type := mkRemotePeer {
  id_ : Z;
  min_key_ : Z;
  ip_addr_ : string;
  port_ : Z
}.

(** ** finger_table.h *)

Module FingerTable.

Record Finger : Type := mkFinger {
  lower_bound_ : Z;
  upper_bound_ : Z;
  successor_ : RemotePeer
}.

Definition set_successor (f : Finger) (p : RemotePeer) : Finger :=
  mkFinger (lower_bound_ f) (upper_bound_ f) p.

(** [FingerTable::AdjustFingers]; the call leaves [inclusive] to its
    default, [true]. *)
Definition AdjustFingers (table_ : list Finger) (new_peer : RemotePeer)
  : list Finger :=
  map (fun finger =>
         if Key.InBetween (lower_bound_ finger)
                          (min_key_ new_peer) (id_ new_peer) true
         then set_successor finger new_peer
         else finger)
      table_.

(** [FingerTable::Lookup]; [None] stands for the [runtime_error]. *)
Fixpoint Lookup (table_ : list Finger) (key : Z) : option RemotePeer :=
  match table_ with
  | [] => None
  | finger :: rest =>
      if Key.InBetween key (lower_bound_ finger) (upper_bound_ finger) true
      then Some (successor_ finger)
      else Lookup rest key
  end.

(** Membership in the clockwise arcs [[lo, hi]] and [(lo, hi]]. *)
Definition in_closed_arc (k lo hi : Z) : bool :=
  Key.cw_dist lo k <=? Key.cw_dist lo hi.
Definition in_left_open_arc (k lo hi : Z) : bool :=
  (0 <? Key.cw_dist lo k) && (Key.cw_dist lo k <=? Key.cw_dist lo hi).

(** What the specification says of [AdjustFingers], for an arbitrary
    test [sel] of a finger's lower bound against the new peer. *)
Definition adjusts_exactly (sel : Z -> RemotePeer -> bool)
           (table_ : list Finger) (p : RemotePeer) : Prop :=
  length (AdjustFingers table_ p) = length table_ /\
  forall i f, nth_error table_ i = Some f ->
    nth_error (AdjustFingers table_ p) i =
      Some (if sel (lower_bound_ f) p then set_successor f p else f).

Definition sel_left_open (lower : Z) (p : RemotePeer) : bool :=
  in_left_open_arc lower (min_key_ p) (id_ p).
Definition sel_closed (lower : Z) (p : RemotePeer) : bool :=
  in_closed_arc lower (min_key_ p) (id_ p).

(** [num_entries_ = ChordKey::BinaryLen()], that is [log2(16) * 32]. *)
Definition num_entries : Z := 128.

(** [FingerTable::GetNthRange]: the sums and the remainders are taken on
    [cpp_int]s, the decrement of the upper bound on a [uint256_t]. *)
Definition GetNthRange (starting_key_ : Z) (n : Z) : Z * Z :=
  let lb_increment_value := 2 ^ n in
  let lower_bound :=
    Key.uint256 ((starting_key_ + lb_increment_value) mod Key.keys_in_ring) in
  let ub_increment_value := 2 ^ (n + 1) in
  let upper_bound :=
    Key.uint256
      (Key.uint256 ((starting_key_ + ub_increment_value) mod Key.keys_in_ring)
       - 1) in
  (lower_bound, upper_bound).

(** [FingerTable::ReplaceDeadPeer]. *)
Definition ReplaceDeadPeer (table_ : list Finger)
           (dead_peer replacement : RemotePeer) : list Finger :=
  map (fun finger =>
         if id_ (successor_ finger) =? id_ dead_peer
         then set_successor finger replacement
         else finger)
      table_.

(** The table that the loop of [PopulateFingerTable(true)] builds with
    [AddFinger]: one finger per range of [GetNthRange], in order,
    [successor n] being the peer entered for the [n]-th range. *)
Definition populated (starting_key : Z) (successor : Z -> RemotePeer)
  : list Finger :=
  map (fun n =>
         let entry_range := FingerTable.GetNthRange starting_key (Z.of_nat n) in
         mkFinger (fst entry_range) (snd entry_range) (successor (Z.of_nat n)))
      (seq 0 (Z.to_nat FingerTable.num_entries)).

End FingerTable.

(** ** Throwing code returns an explicit outcome *)

Inductive result (A : Type) : Type :=
| Ok (a : A)
| Throw (what : string).
Arguments Ok {A} a.
Arguments Throw {A} what.

Definition bind {A B : Type} (r : result A) (k : A -> result B) : result B :=
  match r with
  | Ok a => k a
  | Throw what => Throw what
  end.

Notation "x <- r ;; k" := (bind r (fun x => k))
  (at level 61, r at next level, right associativity).

(** ** chord_peer.cpp: the state of a peer and successor lookup *)

Module Chord.

Record Peer : Type := mkPeer {
  peer_id : Z;
  peer_min_key : Z;
  peer_ip_addr : string;
  peer_port : Z;
  finger_table : list FingerTable.Finger;
  successors : list RemotePeer;
  predecessor : option RemotePeer
}.

(** [AbstractChordPeer::ToRemotePeer]. *)
Definition ToRemotePeer (st : Peer) : RemotePeer :=
  mkRemotePeer (peer_id st) (peer_min_key st) (peer_ip_addr st) (peer_port st).

(** [AbstractChordPeer::StoredLocally]. *)
Definition StoredLocally (st : Peer) (key : Z) : bool :=
  Key.InBetween key (peer_min_key st) (peer_id st) true.

(** [AbstractChordPeer::StartChord]: [min_key_.Set(id_ + 1)]; the
    maintenance thread it starts is not part of the state. *)
Definition StartChord (st : Peer) : Peer :=
  mkPeer (peer_id st) (Key.add_num (peer_id st) 1) (peer_ip_addr st)
         (peer_port st) (finger_table st) (successors st) (predecessor st).

Section Lookup.

(** [ForwardRequest] is virtual: it consults the finger table, the
    successor list and the network, and yields the peer named in the
    reply or throws. *)
Variable ForwardRequest : Peer -> Z -> result RemotePeer.

(** [AbstractChordPeer::GetSuccessor]. *)
Definition GetSuccessor (st : Peer) (key : Z) : result RemotePeer :=
  if StoredLocally st key then Ok (ToRemotePeer st)
  else ForwardRequest st key.

(** [AbstractChordPeer::GetNSuccessors]. *)
Fixpoint GetNSuccessors_loop (st : Peer) (n : nat)
         (previous_peer_id : Z) (succ_ids : list Z)
         (successors_list : list RemotePeer) : result (list RemotePeer) :=
  match n with
  | O => Ok successors_list
  | S n' =>
      ith_succ <- GetSuccessor st (Key.add_num previous_peer_id 1) ;;
      if existsb (Z.eqb (id_ ith_succ)) succ_ids then Ok successors_list
      else GetNSuccessors_loop st n' (id_ ith_succ)
             (id_ ith_succ :: succ_ids) (successors_list ++ [ith_succ])
  end.

Definition GetNSuccessors (st : Peer) (key : Z) (n : Z)
  : result (list RemotePeer) :=
  GetNSuccessors_loop st (Z.to_nat n) (Key.sub_num key 1) [] [].

End Lookup.

(** A list of peers in which each one is the successor found for the key
    that follows the ID of the one before it, [previous_peer_id] standing
    before the first. *)
Fixpoint chained (ForwardRequest : Peer -> Z -> result RemotePeer)
         (st : Peer) (previous_peer_id : Z) (peers : list RemotePeer) : Prop :=
  match peers with
  | [] => True
  | p :: rest =>
      GetSuccessor ForwardRequest st (Key.add_num previous_peer_id 1) = Ok p /\
      chained ForwardRequest st (id_ p) rest
  end.

End Chord.


(** ** remote_peer_list.cpp: the successor list *)

Module RemotePeerList.

Record t : Type := mkList {
  max_entries_ : Z;
  starting_key_ : Z;
  peers_ : list RemotePeer
}.

Definition with_peers (l : t) (peers : list RemotePeer) : t :=
  mkList (max_entries_ l) (starting_key_ l) peers.

(** [RemotePeerList::Populate]. *)
Definition Populate (l : t) (peers : list RemotePeer) : t := with_peers l peers.

(** The [for] loop of [RemotePeerList::Insert]: it returns on an entry
    with the candidate's ID, breaks at the first entry [it] with the
    candidate in [[previous_key, it->id_]], or runs off the end. *)
Inductive scan : Type :=
| Duplicate
| Position (before from_it : list RemotePeer)
| NoPosition.

Fixpoint Insert_scan (new_id previous_key : Z) (peers : list RemotePeer) : scan :=
  match peers with
  | [] => NoPosition
  | it :: rest =>
      if new_id =? id_ it then Duplicate
      else if Key.InBetween new_id previous_key (id_ it) true
      then Position [] (it :: rest)
      else match Insert_scan new_id (id_ it) rest with
           | Position before from_it => Position (it :: before) from_it
           | other => other
           end
  end.

(** [RemotePeerList::Insert]: the new list and the returned flag. *)
Definition Insert (l : t) (new_peer : RemotePeer) : result (t * bool) :=
  if port_ new_peer =? 0 then Throw "Corrupted JSON"
  else
    match peers_ l with
    | [] => Ok (with_peers l [new_peer], true)
    | _ :: _ =>
        match Insert_scan (id_ new_peer) (starting_key_ l) (peers_ l) with
        | Duplicate => Ok (l, false)
        | Position before from_it =>
            let peers := before ++ new_peer :: from_it in
            if Z.of_nat (length peers) >? max_entries_ l
            then Ok (with_peers l (removelast peers), true)
            else Ok (with_peers l peers, true)
        | NoPosition =>
            if Z.of_nat (length (peers_ l)) <? max_entries_ l
            then Ok (with_peers l (peers_ l ++ [new_peer]), true)
            else Ok (l, false)
        end
    end.

(** [RemotePeerList::Delete(const ChordKey &)]: erases the first entry
    with the given ID. *)
Fixpoint Delete_peers (id_to_delete : Z) (peers : list RemotePeer)
  : list RemotePeer :=
  match peers with
  | [] => []
  | it :: rest =>
      if id_ it =? id_to_delete then rest
      else it :: Delete_peers id_to_delete rest
  end.

Definition Delete (l : t) (id_to_delete : Z) : t :=
  with_peers l (Delete_peers id_to_delete (peers_ l)).


(** [RemotePeerList::Lookup]. *)
Fixpoint Lookup_from (key previous_id : Z) (previous : option RemotePeer)
         (peers : list RemotePeer) (succ : bool) : option RemotePeer :=
  match peers with
  | [] => None
  | it :: rest =>
      if Key.InBetween key previous_id (id_ it) true
      then if succ then Some it else previous
      else Lookup_from key (id_ it) (Some it) rest succ
  end.

Definition Lookup (l : t) (key : Z) (succ : bool) : option RemotePeer :=
  Lookup_from key (starting_key_ l) None (peers_ l) succ.

(** Clockwise rank of an entry, counted from [origin]. *)
Definition rank (origin : Z) (p : RemotePeer) : Z := Key.cw_dist origin (id_ p).

(** The invariant of the list, with the origin of the clockwise order
    left open: at most [max_entries_] entries, IDs in the ring, ranks
    strictly increasing (hence pairwise distinct IDs). *)
Definition sorted_from (origin : Z) (l : t) : Prop :=
  Z.of_nat (length (peers_ l)) <= max_entries_ l /\
  Forall (fun p => Key.in_ring (id_ p)) (peers_ l) /\
  StronglySorted (fun a b => rank origin a < rank origin b) (peers_ l).

Definition invariant (l : t) : Prop := sorted_from (starting_key_ l) l.

(** What the scan of [Insert] establishes, for a candidate [c] and ranks
    counted from [o]. *)
Definition scan_post (o c : Z) (peers : list RemotePeer) (s : scan) : Prop :=
  match s with
  | Duplicate => In c (map id_ peers)
  | Position before from_it =>
      peers = before ++ from_it /\ from_it <> [] /\
      Forall (fun e => rank o e < Key.cw_dist o c) before /\
      Forall (fun e => Key.cw_dist o c < rank o e) from_it
  | NoPosition => Forall (fun e => rank o e < Key.cw_dist o c) peers
  end.

(** What [Insert] promises for a candidate, relative to a rank. *)
Definition Insert_positional (l : t) (new_peer : RemotePeer) : Prop :=
  match Insert l new_peer with
  | Throw _ => port_ new_peer = 0
  | Ok (l', inserted) =>
      max_entries_ l' = max_entries_ l /\
      starting_key_ l' = starting_key_ l /\
      (In (id_ new_peer) (map id_ (peers_ l)) -> inserted = false /\ l' = l) /\
      (~ In (id_ new_peer) (map id_ (peers_ l)) ->
       exists before after,
         peers_ l = before ++ after /\
         Forall (fun e => rank (starting_key_ l) e < rank (starting_key_ l) new_peer) before /\
         Forall (fun e => rank (starting_key_ l) new_peer < rank (starting_key_ l) e) after /\
         peers_ l' = firstn (Z.to_nat (max_entries_ l)) (before ++ new_peer :: after) /\
         inserted = (Z.of_nat (length before) <? max_entries_ l))
  end.

(** [RemotePeerList::Contains]. *)
Definition Contains (l : t) (peer : RemotePeer) : bool :=
  existsb (fun p => id_ p =? id_ peer) (peers_ l).

(** [RemotePeerList::Delete(const RemotePeer &)]. *)
Definition Delete_peer (l : t) (peer_to_delete : RemotePeer) : t :=
  Delete l (id_ peer_to_delete).

End RemotePeerList.


(** ** matrix_math.cpp and ida.cpp: the information dispersal codec *)

Module IDA.

(** C++ [int]: 32 bits, two's complement; arithmetic that leaves the
    range wraps around. *)
Definition int32 (x : Z) : Z :=
  (x + 2147483648) mod 4294967296 - 2147483648.

Definition Vector : Type := list Z.
Definition Matrix : Type := list (list Z).

(** [Modulo]: [(lhs % rhs + rhs) % rhs] with the truncating [%] of C. *)
Definition Modulo (lhs rhs : Z) : Z :=
  Z.rem (int32 (Z.rem lhs rhs + rhs)) rhs.

(** [InnerProduct]. *)
Definition InnerProduct (lhs rhs : Vector) (prime : Z) : Z :=
  Modulo (fold_left (fun sum lr => int32 (sum + int32 (fst lr * snd lr)))
                    (combine lhs rhs) 0)
         prime.

(** [MatrixProduct]; the unchecked reads [lhs[i][k]] and [rhs[k][j]] are
    [nth] with a default, inside bounds on rectangular operands. *)
Definition MatrixProduct (lhs rhs : Matrix) (prime : Z) : Matrix :=
  let lhs_cols := length (nth 0 lhs []) in
  let rhs_cols := length (nth 0 rhs []) in
  map (fun lhs_i =>
         map (fun j =>
                fold_left
                  (fun cell k =>
                     Modulo (int32 (cell + int32 (nth k lhs_i 0
                                                  * nth j (nth k rhs []) 0)))
                            prime)
                  (seq 0 lhs_cols) 0)
             (seq 0 rhs_cols))
      lhs.

(** [Transpose], which takes its argument to be square. *)
Definition Transpose (m : Matrix) : Matrix :=
  map (fun i => map (fun j => nth i (nth j m []) 0) (seq 0 (length m)))
      (seq 0 (length m)).

(** [ModInverse]: the extended Euclidean loop, iterated at most [fuel]
    times; [None] when the iterations do not suffice. *)
Fixpoint ModInverse_loop (fuel : nat) (t new_t r new_r : Z) : option (Z * Z) :=
  match fuel with
  | O => None
  | S fuel' =>
      if new_r =? 0 then Some (t, r)
      else
        let quotient := Z.quot r new_r in
        ModInverse_loop fuel' new_t (int32 (t - int32 (quotient * new_t)))
                        new_r (int32 (r - int32 (quotient * new_r)))
  end.

Definition ModInverse (n p : Z) : option (result Z) :=
  match ModInverse_loop (S (Z.to_nat (Z.abs n))) 0 1 p n with
  | None => None
  | Some (t, r) =>
      Some (if r >? 1 then Throw "N is not invertible"
            else Ok (if t <? 0 then int32 (t + p) else t))
  end.

(** [ConstructEncodingMatrix]: row [a] holds the powers of [a]. *)
Fixpoint powers_row (m : nat) (elt a p : Z) : Vector :=
  match m with
  | O => []
  | S m' => elt :: powers_row m' (Modulo (int32 (elt * a)) p) a p
  end.

Definition ConstructEncodingMatrix (m n p : Z) : Matrix :=
  map (fun a => powers_row (Z.to_nat m) 1 (Z.of_nat a) p)
      (seq 1 (Z.to_nat n)).

(** [ElementarySymmetricTransform]: the table [el] is filled row by row,
    each row from left to right; [last] is the entry just written. *)
Fixpoint el_row1_fill (v : Vector) (last : Z) : Vector :=
  match v with
  | [] => []
  | x :: v' => let cell := int32 (last + x) in cell :: el_row1_fill v' cell
  end.

Fixpoint el_row_fill (i j : nat) (prev_row v : Vector) (last : Z) : Vector :=
  match prev_row, v with
  | prev :: prev_row', x :: v' =>
      let cell := if (i <=? j)%nat then int32 (int32 (prev * x) + last) else 0 in
      cell :: el_row_fill i (S j) prev_row' v' cell
  | _, _ => []
  end.

Fixpoint el_rows (count i : nat) (prev_row v : Vector) : Matrix :=
  match count with
  | O => []
  | S count' =>
      let row := 0 :: el_row_fill i 1 prev_row v 0 in
      row :: el_rows count' (S i) row v
  end.

Definition ElementarySymmetricTransform (v : Vector) (m : nat) : Vector :=
  let el0 := repeat 0 (S (length v)) in
  match m with
  | O => [last el0 0]
  | S m' =>
      let el1 := 0 :: el_row1_fill v 0 in
      map (fun row => last row 0) (el0 :: el1 :: el_rows m' 2 el1 v)
  end.

(** [VandermondeInverse]. *)
Definition denominator (basis : Vector) (p : Z) (i : nat) : Z :=
  let elt := nth i basis 0 in
  fold_left (fun prod j =>
               if (j =? i)%nat then prod
               else Modulo (int32 (prod * int32 (elt - nth j basis 0))) p)
            (seq 0 (length basis)) 1.

Fixpoint numerator_fill (count j : nat) (el : Vector) (elt p back sign : Z)
  : Vector :=
  match count with
  | O => []
  | S count' =>
      let cell := Modulo (int32 (Modulo (int32 (back * elt)) p
                                 + int32 (sign * nth j el 0))) p in
      cell :: numerator_fill count' (S j) el elt p cell (int32 (sign * -1))
  end.

Definition numerator (basis el : Vector) (p : Z) (i : nat) : Vector :=
  rev (1 :: numerator_fill (length basis - 1) 1 el (nth i basis 0) p 1 (-1)).

Fixpoint inverse_rows (basis el : Vector) (p : Z) (rows : list nat)
  : option (result Matrix) :=
  match rows with
  | [] => Some (Ok [])
  | i :: rows' =>
      match ModInverse (denominator basis p i) p with
      | None => None
      | Some (Throw what) => Some (Throw what)
      | Some (Ok inv) =>
          let row := map (fun num => Modulo (int32 (num * inv)) p)
                         (numerator basis el p i) in
          match inverse_rows basis el p rows' with
          | Some (Ok result) => Some (Ok (row :: result))
          | other => other
          end
      end
  end.

Definition VandermondeInverse (basis : Vector) (p : Z) : option (result Matrix) :=
  let m := length basis in
  let el := ElementarySymmetricTransform basis m in
  match inverse_rows basis el p (seq 0 m) with
  | Some (Ok result) => Some (Ok (Transpose result))
  | other => other
  end.

(** The parameters of an [IDA] object. *)
Record params : Type := mkParams { n_ : Z; m_ : Z; p_ : Z }.

Definition encoding_matrix_ (c : params) : Matrix :=
  ConstructEncodingMatrix (m_ c) (n_ c) (p_ c).

(** [IDA::SplitToSegments]; the loop advances by [m_] and runs at most
    [length v] times when [m_ >= 1]. *)
Fixpoint SplitToSegments_loop (fuel : nat) (m : nat) (v : Vector) : Matrix :=
  match fuel with
  | O => []
  | S fuel' =>
      match v with
      | [] => []
      | _ :: _ =>
          let copied := firstn m v in
          (copied ++ repeat 0 (m - length copied))
            :: SplitToSegments_loop fuel' m (skipn m v)
      end
  end.

Definition SplitToSegments (c : params) (v : Vector) : Matrix :=
  SplitToSegments_loop (length v) (Z.to_nat (m_ c)) v.

(** [IDA::Encode]. *)
Definition Encode (c : params) (v : Vector) : Matrix :=
  let segments := SplitToSegments c v in
  map (fun row => map (fun segment => InnerProduct row segment (p_ c)) segments)
      (encoding_matrix_ c).

(** [AllZeroes]. *)
Definition AllZeroes (v : Vector) : bool := forallb (Z.eqb 0) v.

(** The two [while] loops of [IDA::Decode], on the reversed list of
    segments and the reversed last segment; [None] is a call of [back()]
    on an empty vector, which is undefined. *)
Fixpoint drop_zero_segments (rev_segments : Matrix) : option Matrix :=
  match rev_segments with
  | [] => None
  | back :: rest =>
      if AllZeroes back then drop_zero_segments rest else Some rev_segments
  end.

Fixpoint drop_zeroes (rev_segment : Vector) : option Vector :=
  match rev_segment with
  | [] => None
  | back :: rest => if back =? 0 then drop_zeroes rest else Some rev_segment
  end.

Inductive decoded : Type :=
| Decoded (original : Vector)
| DecodeThrow (what : string)
| DecodeUndefined.

(** [IDA::Decode(const Matrix &, const Vector &)]. *)
Definition Decode (c : params) (encoded : Matrix) (frag_indices : Vector)
  : decoded :=
  (* [encoded.size() < m_] compares a [size_t] with an [int]. *)
  if Z.of_nat (length encoded) <? Std.size_t (m_ c)
  then DecodeThrow (Std.to_string (m_ c) ++ " frags are required to decode.")
  else
    (* [Vector first_m_frags(frag_indices.begin(),
                             frag_indices.begin() + m_)] has a value only
       when [begin() + m_] lies inside the vector. *)
    if (m_ c <? 0) || (Z.of_nat (length frag_indices) <? m_ c)
    then DecodeUndefined
    else
    let first_m_frags := firstn (Z.to_nat (m_ c)) frag_indices in
    match VandermondeInverse first_m_frags (p_ c) with
    | None => DecodeUndefined
    | Some (Throw what) => DecodeThrow what
    | Some (Ok inv_encoding_matrix) =>
        let output_matrix := MatrixProduct inv_encoding_matrix encoded (p_ c) in
        let num_cols := length (nth 0 output_matrix []) in
        let original_segments :=
          map (fun i => map (fun row => nth i row 0) output_matrix)
              (seq 0 num_cols) in
        match drop_zero_segments (rev original_segments) with
        | None => DecodeUndefined
        | Some [] => DecodeUndefined
        | Some (back :: rest) =>
            match drop_zeroes (rev back) with
            | None => DecodeUndefined
            | Some rev_back => Decoded (concat (rev (rev rev_back :: rest)))
            end
        end
    end.

(** A sequence without the zero elements it ends in. *)
Fixpoint trimmed (v : Vector) : Vector :=
  match v with
  | [] => []
  | x :: rest =>
      match trimmed rest with
      | [] => if x =? 0 then [] else [x]
      | kept => x :: kept
      end
  end.

(** The fragments with the given (1-based) indices. *)
Definition select (fragments : Matrix) (frag_indices : Vector) : Matrix :=
  map (fun index => nth (Z.to_nat (index - 1)) fragments []) frag_indices.

(** ** Exactness of the computed inverse *)

Definition identity (m : nat) : Matrix :=
  map (fun i => map (fun j => if (i =? j)%nat then 1 else 0) (seq 0 m))
      (seq 0 m).

Fixpoint vec_eqb (a b : Vector) : bool :=
  match a, b with
  | [], [] => true
  | x :: a', y :: b' => (x =? y) && vec_eqb a' b'
  | _, _ => false
  end.

Fixpoint mat_eqb (a b : Matrix) : bool :=
  match a, b with
  | [], [] => true
  | x :: a', y :: b' => vec_eqb x y && mat_eqb a' b'
  | _, _ => false
  end.

Definition reduced (p : Z) (x : Z) : bool := (0 <=? x) && (x <? p).

Definition well_shaped (m : nat) (p : Z) (matrix : Matrix) : bool :=
  (length matrix =? m)%nat &&
  forallb (fun row => (length row =? m)%nat && forallb (reduced p) row) matrix.

(** [VandermondeInverse] returns, for the chosen fragments, an [m] by [m]
    matrix of residues whose product with the chosen rows of the encoding
    matrix is the identity: the arithmetic on [int] did not wrap on the
    way.  The test runs the code. *)
Definition inverse_exact (c : params) (frag_indices : Vector) : bool :=
  match VandermondeInverse (firstn (Z.to_nat (m_ c)) frag_indices) (p_ c) with
  | Some (Ok inv) =>
      well_shaped (Z.to_nat (m_ c)) (p_ c) inv &&
      mat_eqb (MatrixProduct inv (select (encoding_matrix_ c) frag_indices)
                             (p_ c))
              (identity (Z.to_nat (m_ c)))
  | _ => false
  end.

(** The choices of [k] elements of a list, in the order of the list. *)
Fixpoint subsets (k : nat) (l : Vector) : list Vector :=
  match k with
  | O => [[]]
  | S k' =>
      match l with
      | [] => []
      | x :: l' => map (cons x) (subsets k' l') ++ subsets k l'
      end
  end.

(** The reference parameters, and seven choices of ten fragments for
    which [ElementarySymmetricTransform] leaves the range of [int]. *)
Definition reference : params := mkParams 14 10 257.

Definition overflowing : list Vector :=
  [[3; 5; 7; 8; 9; 10; 11; 12; 13; 14];
   [3; 6; 7; 8; 9; 10; 11; 12; 13; 14];
   [4; 5; 6; 7; 9; 10; 11; 12; 13; 14];
   [4; 5; 6; 8; 9; 10; 11; 12; 13; 14];
   [4; 5; 7; 8; 9; 10; 11; 12; 13; 14];
   [4; 6; 7; 8; 9; 10; 11; 12; 13; 14];
   [5; 6; 7; 8; 9; 10; 11; 12; 13; 14]].

(** Exact sums, for the statements. *)
Fixpoint sumZ (f : nat -> Z) (n : nat) : Z :=
  match n with
  | O => 0
  | S n' => sumZ f n' + f n'
  end.

(** Residues modulo [p], matrices of residues with rows of a given length,
    and fragment indices that name fragments of a block. *)
Definition residue (p x : Z) : Prop := 0 <= x < p.

Definition rows_of (cols : nat) (p : Z) (matrix : Matrix) : Prop :=
  Forall (fun row => length row = cols /\ Forall (residue p) row) matrix.

Definition in_range (c : params) (frag_indices : Vector) : Prop :=
  Forall (fun index => 1 <= index <= n_ c) frag_indices.

(** The fragments that [Encode] computes from given rows of the encoding
    matrix. *)
Definition fragments_of (p : Z) (rows segments : Matrix) : Matrix :=
  map (fun row => map (fun segment => InnerProduct row segment p) segments)
      rows.

(** ** Notions for the correctness of [VandermondeInverse] *)

(** Polynomials as lists of coefficients, lowest degree first: the value
    at a point, and the quotient of the division by [x - a]. *)
Definition eval (coefs : Vector) (x : Z) : Z :=
  fold_right (fun c acc => c + x * acc) 0 coefs.

Fixpoint quotient (coefs : Vector) (a : Z) : Vector :=
  match coefs with
  | [] => []
  | _ :: rest =>
      match rest with
      | [] => []
      | _ :: _ => eval rest a :: quotient rest a
      end
  end.

Definition vanishes (p : Z) (coefs : Vector) : Prop :=
  Forall (fun c => c mod p = 0) coefs.

(** The state of the loop of [ModInverse n p]: Bezout coefficients of
    opposite signs, bounded by [p]. *)
Definition euclid_state (n p t new_t r new_r : Z) : Prop :=
  0 <= new_r < r /\ r <= p /\
  (p | t * n - r) /\ (p | new_t * n - new_r) /\
  Z.gcd r new_r = 1 /\
  ((t <= 0 /\ 0 <= new_t /\ new_t * r - t * new_r = p /\ - t * r <= p) \/
   (0 <= t /\ new_t <= 0 /\ t * new_r - new_t * r = p /\ t * r <= p)).

(** The elementary symmetric polynomial of degree [i] in the first [j]
    elements of [v], the product of the [1 + v_l], which bounds them, and
    the product of the [x - v_l]. *)
Fixpoint esym (v : Vector) (i j : nat) : Z :=
  match j with
  | O => match i with O => 1 | S _ => 0 end
  | S j' =>
      esym v i j' + match i with
                    | O => 0
                    | S i' => esym v i' j' * nth j' v 0
                    end
  end.

Fixpoint spread_upto (v : Vector) (j : nat) : Z :=
  match j with
  | O => 1
  | S j' => spread_upto v j' * (1 + nth j' v 0)
  end.

Definition spread (v : Vector) : Z := spread_upto v (length v).

(** The elementary symmetric sums of [v], of degree 1 to the length of
    [v]: what [ElementarySymmetricTransform] has to compute in [int].
    The largest of them. *)
Definition sums (v : Vector) : Vector :=
  map (fun i => esym v i (length v)) (seq 1 (length v)).

Definition largest_sum (v : Vector) : Z := fold_right Z.max 0 (sums v).

Fixpoint linear_product (v : Vector) (j : nat) (x : Z) : Z :=
  match j with
  | O => 1
  | S j' => linear_product v j' x * (x - nth j' v 0)
  end.

(** The same product without the factor of index [k]. *)
Fixpoint linear_product_except (v : Vector) (k j : nat) (x : Z) : Z :=
  match j with
  | O => 1
  | S j' =>
      if (j' =? k)%nat then linear_product_except v k j' x
      else linear_product_except v k j' x * (x - nth j' v 0)
  end.

(** Polynomials given by a function from indices to coefficients,
    highest degree first: the value at a point by Horner's rule, and the
    value of the quotient of the division by [x - b]. *)
Fixpoint evalH (c : nat -> Z) (k : nat) (x : Z) : Z :=
  match k with
  | O => c O
  | S k' => evalH c k' x * x + c k
  end.

Fixpoint quoH (c : nat -> Z) (b : Z) (k : nat) (x : Z) : Z :=
  match k with
  | O => 0
  | S k' => quoH c b k' x * x + evalH c k' b
  end.

Definition sgn (s : nat) : Z := if Nat.even s then 1 else -1.

(** The coefficients of the product of the [x - v_l], [l < j]. *)
Definition signed_esym (v : Vector) (j : nat) (s : nat) : Z :=
  sgn s * esym v s j.

(** The value [ModInverse] returns, where it returns one. *)
Definition inverse_of (n p : Z) : Z :=
  match ModInverse n p with
  | Some (Ok inv) => inv
  | _ => 0
  end.

(** The state of the loop of [ModInverse n p] for any [n]: as
    [euclid_state], with the greatest common divisor left open. *)
Definition euclid_run (n p g t new_t r new_r : Z) : Prop :=
  0 <= new_r < r /\ r <= p /\
  (p | t * n - r) /\ (p | new_t * n - new_r) /\
  Z.gcd r new_r = g /\
  ((t <= 0 /\ 0 <= new_t /\ new_t * r - t * new_r = p /\ - t * r <= p) \/
   (0 <= t /\ new_t <= 0 /\ t * new_r - new_t * r = p /\ t * r <= p)).

End IDA.

(** ** merkle_tree.h: the bucketed Merkle tree *)

Module Merkle.

(** ** [std::map<ChordKey, ValType>] as a list sorted by key *)

Section Map.

Variable V : Type.

Fixpoint map_find (key : Z) (data : list (Z * V)) : option V :=
  match data with
  | [] => None
  | (k, v) :: rest => if k =? key then Some v else map_find key rest
  end.

(** [insert] leaves an existing entry alone. *)
Fixpoint map_insert (key : Z) (val : V) (data : list (Z * V)) : list (Z * V) :=
  match data with
  | [] => [(key, val)]
  | (k, v) :: rest =>
      if key <? k then (key, val) :: data
      else if key =? k then data
      else (k, v) :: map_insert key val rest
  end.

(** [data_.at(key) = val]. *)
Fixpoint map_assign (key : Z) (val : V) (data : list (Z * V)) : list (Z * V) :=
  match data with
  | [] => []
  | (k, v) :: rest =>
      if k =? key then (k, val) :: rest else (k, v) :: map_assign key val rest
  end.

Fixpoint map_erase (key : Z) (data : list (Z * V)) : list (Z * V) :=
  match data with
  | [] => []
  | (k, v) :: rest =>
      if k =? key then rest else (k, v) :: map_erase key rest
  end.

(** [result.insert(first, last)]. *)
Definition map_insert_all (entries data : list (Z * V)) : list (Z * V) :=
  fold_left (fun acc kv => map_insert (fst kv) (snd kv) acc) entries data.

End Map.

Arguments map_find {V}.
Arguments map_insert {V}.
Arguments map_assign {V}.
Arguments map_erase {V}.
Arguments map_insert_all {V}.

(** ** [IntToHexStr]: lower-case hexadecimal, no leading zeroes *)

Definition hex_digit (d : Z) : ascii :=
  nth (Z.to_nat d)
      ["0"; "1"; "2"; "3"; "4"; "5"; "6"; "7";
       "8"; "9"; "a"; "b"; "c"; "d"; "e"; "f"]%char "0"%char.

Fixpoint IntToHexStr_digits (fuel : nat) (val : Z) (acc : string) : string :=
  match fuel with
  | O => acc
  | S fuel' =>
      let acc' := String (hex_digit (val mod 16)) acc in
      if val / 16 =? 0 then acc' else IntToHexStr_digits fuel' (val / 16) acc'
  end.

Definition IntToHexStr (val : Z) : string :=
  IntToHexStr_digits (S (Z.to_nat (Z.log2 val))) val "".

Fixpoint list_eq_Z (l1 l2 : list Z) : bool :=
  match l1, l2 with
  | [], [] => true
  | x :: l1', y :: l2' => (x =? y) && list_eq_Z l1' l2'
  | _, _ => false
  end.

(** [num_children_]. *)
Definition num_children_ : Z := 8.

(** What an operation that may throw leaves behind: the object as the
    operation left it, and how the operation ended. *)
Inductive outcome : Type :=
| Done
| Threw (what : string).

(** ** Access to the children of a node *)

Section Children.

Variables A B : Type.

(** [child_nodes_.at(index)] followed by a call on that child; [oob]
    stands for the [std::out_of_range] of [at]. *)
Section At.
Variable f : A -> B.
Variable oob : B.
Fixpoint at_ (cs : list A) (index : nat) {struct cs} : B :=
  match cs, index with
  | [], _ => oob
  | c :: _, O => f c
  | _ :: cs', S index' => at_ cs' index'
  end.
End At.

(** The same for a call that changes the child in place. *)
Section AtUpdate.
Variable f : A -> A * B.
Fixpoint at_update (cs : list A) (index : nat) {struct cs}
  : option (list A * B) :=
  match cs, index with
  | [], _ => None
  | c :: cs', O => let (c', o) := f c in Some (c' :: cs', o)
  | c :: cs', S index' =>
      match at_update cs' index' with
      | Some (cs'', o) => Some (c :: cs'', o)
      | None => None
      end
  end.
End AtUpdate.

(** Loops over the children that return at the first result. *)
Section Scans.
Variable f : A -> option B.
Fixpoint first_from (cs : list A) (skip : nat) {struct cs} : option B :=
  match cs with
  | [] => None
  | c :: cs' =>
      match skip with
      | S skip' => first_from cs' skip'
      | O => match f c with
             | Some res => Some res
             | None => first_from cs' O
             end
      end
  end.
Fixpoint last_to_first (cs : list A) {struct cs} : option B :=
  match cs with
  | [] => None
  | c :: cs' =>
      match last_to_first cs' with
      | Some res => Some res
      | None => f c
      end
  end.
End Scans.

End Children.

Arguments at_ {A B}.
Arguments at_update {A B}.
Arguments first_from {A B}.
Arguments last_to_first {A B}.

Section Tree.

(** The type of the values, and the SHA-1 based constructor
    [ChordKey(str, false)], which the repository takes from Boost. *)
Variable ValType : Type.
Variable sha1 : string -> Z.

Unset Elimination Schemes.
Inductive MerkleTree : Type :=
  mkTree (min_key_ max_key_ hash_ : Z) (position_ : list Z)
         (child_nodes_ : list MerkleTree) (data_ : list (Z * ValType))
         (largest_key_ : option Z).
Set Elimination Schemes.

Definition min_key_ (t : MerkleTree) : Z :=
  match t with mkTree mn _ _ _ _ _ _ => mn end.
Definition max_key_ (t : MerkleTree) : Z :=
  match t with mkTree _ mx _ _ _ _ _ => mx end.
Definition hash_ (t : MerkleTree) : Z :=
  match t with mkTree _ _ h _ _ _ _ => h end.
Definition position_ (t : MerkleTree) : list Z :=
  match t with mkTree _ _ _ pos _ _ _ => pos end.
Definition child_nodes_ (t : MerkleTree) : list MerkleTree :=
  match t with mkTree _ _ _ _ cs _ _ => cs end.
Definition data_ (t : MerkleTree) : list (Z * ValType) :=
  match t with mkTree _ _ _ _ _ d _ => d end.
Definition largest_key_ (t : MerkleTree) : option Z :=
  match t with mkTree _ _ _ _ _ _ lg => lg end.

Definition GetHash (t : MerkleTree) : Z := hash_ t.
Definition GetDepth (t : MerkleTree) : Z := Z.of_nat (length (position_ t)).
Definition IsLeaf (t : MerkleTree) : bool :=
  match child_nodes_ t with [] => true | _ :: _ => false end.

(** [MerkleTree::ChildNum]: [key_len] is [BinaryLen() = 128] and
    [child_id_len] is [log2(num_children_) = 3]. *)
Definition ChildNum (t : MerkleTree) (key : Z) : Z :=
  if key >=? max_key_ t then num_children_ - 1
  else if key <? min_key_ t then 0
  else
    let shift := 128 - 3 * (GetDepth t + 1) in
    Z.land (Z.shiftr key shift) (num_children_ - 1).

(** The hash [MerkleTree::Rehash] assigns. *)
Definition Rehash_value (child_nodes : list MerkleTree)
           (data : list (Z * ValType)) : Z :=
  match child_nodes with
  | [] =>
      match data with
      | [] => 0
      | _ :: _ =>
          sha1 (String.concat "" (map (fun kv => IntToHexStr (fst kv)) data))
      end
  | _ :: _ =>
      let concatenated_keys :=
        String.concat "" (map (fun node => IntToHexStr (GetHash node))
                              child_nodes) in
      if String.eqb concatenated_keys "00000000" then 0
      else sha1 concatenated_keys
  end.

Definition Rehash (t : MerkleTree) : MerkleTree :=
  match t with
  | mkTree mn mx _ pos cs data lg =>
      mkTree mn mx (Rehash_value cs data) pos cs data lg
  end.

(** The [while] loop of [CreateChildren]: entries leave the front of
    [data_] for the new child as long as they lie in its range. *)
Fixpoint take_range (lower upper : Z) (data : list (Z * ValType))
  : list (Z * ValType) * list (Z * ValType) :=
  match data with
  | [] => ([], [])
  | (k, v) :: rest =>
      if Key.InBetween k lower upper true
      then let (taken, left) := take_range lower upper rest in
           ((k, v) :: taken, left)
      else ([], data)
  end.

(** [MerkleTree::CreateChildren]: the children made so far, the entries
    still in [data_]; arithmetic on bounds is that of [uint256_t]. *)
Fixpoint CreateChildren_loop (count : nat) (i : Z) (step last_key : Z)
         (position : list Z) (data : list (Z * ValType))
  : list MerkleTree * list (Z * ValType) :=
  match count with
  | O => ([], data)
  | S count' =>
      let ub := Key.uint256 (last_key + step) in
      let (taken, left) := take_range last_key (Key.uint256 (ub - 1)) data in
      let child := Rehash (mkTree last_key ub 0 (position ++ [i]) [] taken None) in
      let (children, left') :=
        CreateChildren_loop count' (i + 1) step ub position left in
      (child :: children, left')
  end.

Definition CreateChildren (t : MerkleTree) : MerkleTree :=
  match t with
  | mkTree mn mx h pos cs data lg =>
      let key_range := Key.uint256 (mx - mn) in
      let (children, left) :=
        CreateChildren_loop (Z.to_nat num_children_) 0
                            (key_range / num_children_) mn pos data in
      mkTree mn mx h pos (cs ++ children) left lg
  end.

(** Constructor 1: the tree over the whole key space. *)
Definition EmptyTree : MerkleTree :=
  CreateChildren (mkTree 0 (Key.key_base ^ Key.key_len) 0 [] [] [] None).

(** [MerkleTree::Contains]. *)
Fixpoint Contains (t : MerkleTree) (key : Z) {struct t} : bool :=
  match t with
  | mkTree _ _ _ _ cs data _ =>
      match cs with
      | [] => match map_find key data with Some _ => true | None => false end
      | _ :: _ =>
          at_ (fun c => Contains c key) false cs (Z.to_nat (ChildNum t key))
      end
  end.

(** [MerkleTree::Lookup]. *)
Fixpoint Lookup (t : MerkleTree) (key : Z) {struct t} : result ValType :=
  match t with
  | mkTree _ _ _ _ cs data _ =>
      match cs with
      | [] =>
          match map_find key data with
          | Some v => Ok v
          | None => Throw "Key does not exist in subtree"
          end
      | _ :: _ =>
          at_ (fun c => Lookup c key) (Throw "vector::at") cs
              (Z.to_nat (ChildNum t key))
      end
  end.

(** The update of [largest_key_] that opens [Insert]. *)
Definition bump_largest (largest : option Z) (key : Z) : option Z :=
  match largest with
  | Some l => if key >? l then Some key else Some l
  | None => Some key
  end.

(** [MerkleTree::Insert].  When the call throws, the object keeps the
    assignments made before the throw. *)
Fixpoint Insert (t : MerkleTree) (kv_pair : Z * ValType) {struct t}
  : MerkleTree * outcome :=
  match t with
  | mkTree mn mx h pos cs data lg =>
      let lg' := bump_largest lg (fst kv_pair) in
      match cs with
      | [] =>
          match map_find (fst kv_pair) data with
          | Some _ => (mkTree mn mx h pos cs data lg', Threw "Key already exists")
          | None =>
              let data' := map_insert (fst kv_pair) (snd kv_pair) data in
              let t' := mkTree mn mx h pos cs data' lg' in
              if Z.of_nat (length data') >? num_children_
              then (Rehash (CreateChildren t'), Done)
              else (Rehash t', Done)
          end
      | _ :: _ =>
          match at_update (fun c => Insert c kv_pair) cs
                          (Z.to_nat (ChildNum t (fst kv_pair)))
          with
          | None => (mkTree mn mx h pos cs data lg', Threw "vector::at")
          | Some (cs', Done) => (Rehash (mkTree mn mx h pos cs' data lg'), Done)
          | Some (cs', Threw what) => (mkTree mn mx h pos cs' data lg', Threw what)
          end
      end
  end.

(** [MerkleTree::Update]. *)
Fixpoint Update (t : MerkleTree) (kv_pair : Z * ValType) {struct t}
  : MerkleTree * outcome :=
  match t with
  | mkTree mn mx h pos cs data lg =>
      match cs with
      | [] =>
          match map_find (fst kv_pair) data with
          | Some _ =>
              (Rehash (mkTree mn mx h pos cs
                              (map_assign (fst kv_pair) (snd kv_pair) data) lg),
               Done)
          | None => (t, Threw "Key does not exist in subtree")
          end
      | _ :: _ =>
          match at_update (fun c => Update c kv_pair) cs
                          (Z.to_nat (ChildNum t (fst kv_pair)))
          with
          | None => (t, Threw "vector::at")
          | Some (cs', Done) => (Rehash (mkTree mn mx h pos cs' data lg), Done)
          | Some (cs', Threw what) => (mkTree mn mx h pos cs' data lg, Threw what)
          end
      end
  end.

Definition set_largest (t : MerkleTree) (largest : option Z) : MerkleTree :=
  match t with
  | mkTree mn mx h pos cs data _ => mkTree mn mx h pos cs data largest
  end.

(** [*(--data_.end())]. *)
Fixpoint last_entry (data : list (Z * ValType)) : option (Z * ValType) :=
  match data with
  | [] => None
  | [kv] => Some kv
  | _ :: rest => last_entry rest
  end.

(** [MerkleTree::GetLargestEntry]: the children are tried from the last
    to the first. *)
Fixpoint GetLargestEntry (t : MerkleTree) {struct t} : option (Z * ValType) :=
  match t with
  | mkTree _ _ h _ cs data _ =>
      if h =? 0 then None
      else
        match cs with
        | [] => last_entry data
        | _ :: _ =>
            last_to_first GetLargestEntry cs
        end
  end.

(** [MerkleTree::GetSmallestEntry]. *)
Fixpoint GetSmallestEntry (t : MerkleTree) {struct t} : option (Z * ValType) :=
  match t with
  | mkTree _ _ h _ cs data _ =>
      if h =? 0 then None
      else
        match cs with
        | [] => hd_error data
        | _ :: _ =>
            first_from GetSmallestEntry cs 0
        end
  end.

(** [MerkleTree::Delete]. *)
Fixpoint Delete (t : MerkleTree) (key : Z) {struct t} : MerkleTree * outcome :=
  match t with
  | mkTree mn mx h pos cs data lg =>
      match cs with
      | [] =>
          match map_find key data with
          | Some _ => (Rehash (mkTree mn mx h pos cs (map_erase key data) lg), Done)
          | None => (t, Threw "Key does not exist in subtree")
          end
      | _ :: _ =>
          match at_update (fun c => Delete c key) cs
                          (Z.to_nat (ChildNum t key))
          with
          | None => (t, Threw "vector::at")
          | Some (cs', Done) =>
              let t' := Rehash (mkTree mn mx h pos cs' data lg) in
              (set_largest t' (match GetLargestEntry t' with
                               | Some new_largest_entry =>
                                   Some (fst new_largest_entry)
                               | None => None
                               end),
               Done)
          | Some (cs', Threw what) => (mkTree mn mx h pos cs' data lg, Threw what)
          end
      end
  end.

(** [key >= largest_key_] against a [std::optional]: an empty optional
    compares below every key. *)
Definition ge_optional (key : Z) (largest : option Z) : bool :=
  match largest with
  | Some l => key >=? l
  | None => true
  end.

(** The leaf loop of [Next]: the first entry above [key]. *)
Fixpoint first_above (key : Z) (data : list (Z * ValType)) : option (Z * ValType) :=
  match data with
  | [] => None
  | (k, v) :: rest => if k >? key then Some (k, v) else first_above key rest
  end.

(** [MerkleTree::Next]. *)
Fixpoint Next (t : MerkleTree) (key : Z) {struct t} : option (Z * ValType) :=
  match t with
  | mkTree _ _ h pos cs data lg =>
      if h =? 0 then None
      else if ge_optional key lg && (match pos with [] => true | _ :: _ => false end)
      then GetSmallestEntry t
      else
        match cs with
        | [] => first_above key data
        | _ :: _ =>
            first_from (fun c => Next c key) cs (Z.to_nat (ChildNum t key))
        end
  end.

(** [MerkleTree::GetEntries]. *)
Fixpoint GetEntries (t : MerkleTree) {struct t} : list (Z * ValType) :=
  match t with
  | mkTree _ _ h _ cs data _ =>
      if h =? 0 then []
      else
        match cs with
        | [] => data
        | _ :: _ =>
            fold_left (fun result c => map_insert_all (GetEntries c) result)
                      cs []
        end
  end.

End Tree.

Arguments mkTree {ValType}.
Arguments min_key_ {ValType}.
Arguments max_key_ {ValType}.
Arguments hash_ {ValType}.
Arguments position_ {ValType}.
Arguments child_nodes_ {ValType}.
Arguments data_ {ValType}.
Arguments largest_key_ {ValType}.
Arguments GetHash {ValType}.
Arguments GetDepth {ValType}.
Arguments IsLeaf {ValType}.
Arguments ChildNum {ValType}.
Arguments Rehash_value {ValType}.
Arguments Rehash {ValType}.
Arguments take_range {ValType}.
Arguments CreateChildren_loop {ValType}.
Arguments CreateChildren {ValType}.
Arguments Contains {ValType}.
Arguments Lookup {ValType}.
Arguments Insert {ValType}.
Arguments Update {ValType}.
Arguments Delete {ValType}.
Arguments set_largest {ValType}.
Arguments last_entry {ValType}.
Arguments first_above {ValType}.
Arguments GetLargestEntry {ValType}.
Arguments GetSmallestEntry {ValType}.
Arguments Next {ValType}.
Arguments GetEntries {ValType}.

(** [MerkleTree::LookupByPosition]. *)
Fixpoint LookupByPosition {V : Type} (dirs : list Z) (t : MerkleTree V)
  : result (option (MerkleTree V)) :=
  match dirs with
  | [] => Ok (Some t)
  | front :: dirs' =>
      if IsLeaf t then Ok None
      else if front <? 0 then Throw "vector::at"
      else
        match nth_error (child_nodes_ t) (Z.to_nat front) with
        | None => Throw "vector::at"
        | Some next_node => LookupByPosition dirs' next_node
        end
  end.

(** [operator ==] on nodes: same position and same hash. *)
Definition node_eqb {V1 V2 : Type} (lhs : MerkleTree V1) (rhs : MerkleTree V2)
  : bool :=
  list_eq_Z (position_ lhs) (position_ rhs) && (hash_ lhs =? hash_ rhs).

(** Sequences of operations on a tree. *)
Inductive op (V : Type) : Type :=
| OpInsert (key : Z) (val : V)
| OpUpdate (key : Z) (val : V)
| OpDelete (key : Z).
Arguments OpInsert {V}.
Arguments OpUpdate {V}.
Arguments OpDelete {V}.

Definition op_key {V : Type} (o : op V) : Z :=
  match o with
  | OpInsert key _ => key
  | OpUpdate key _ => key
  | OpDelete key => key
  end.

Definition apply_op {V : Type} (sha1 : string -> Z) (t : MerkleTree V)
           (o : op V) : MerkleTree V * outcome :=
  match o with
  | OpInsert key val => Insert sha1 t (key, val)
  | OpUpdate key val => Update sha1 t (key, val)
  | OpDelete key => Delete sha1 t key
  end.

Definition run {V : Type} (sha1 : string -> Z) (ops : list (op V))
           (t : MerkleTree V) : MerkleTree V :=
  fold_left (fun t o => fst (apply_op sha1 t o)) ops t.

(** Two operations that agree up to the value they carry. *)
Definition same_op {V1 V2 : Type} (o1 : op V1) (o2 : op V2) : Prop :=
  match o1, o2 with
  | OpInsert k1 _, OpInsert k2 _ => k1 = k2
  | OpUpdate k1 _, OpUpdate k2 _ => k1 = k2
  | OpDelete k1, OpDelete k2 => k1 = k2
  | _, _ => False
  end.

(** Two trees that agree on everything but the values: same ranges,
    positions, hashes and largest-key caches, the same keys in every
    leaf, and children that agree in the same way. *)
Unset Elimination Schemes.
Inductive same_keys {V1 V2 : Type} : MerkleTree V1 -> MerkleTree V2 -> Prop :=
| same_node mn mx h pos cs1 cs2 d1 d2 lg :
    map fst d1 = map fst d2 ->
    Forall2 same_keys cs1 cs2 ->
    same_keys (mkTree mn mx h pos cs1 d1 lg) (mkTree mn mx h pos cs2 d2 lg).
Set Elimination Schemes.

(** ** Well-formed trees *)

(** The width of the range of a node at depth [d]: the key space of
    [2 ^ 128] keys divided by [num_children_] at every level. *)
Definition width (d : nat) : Z := 2 ^ (128 - 3 * Z.of_nat d).

Definition range_ok (d : nat) (mn mx : Z) : Prop :=
  mx = mn + width d /\ 0 <= mn /\ mn mod width d = 0 /\ mx <= 2 ^ 128.

Definition keys_sorted {V : Type} (data : list (Z * V)) : Prop :=
  StronglySorted Z.lt (map fst data).

Definition keys_within {V : Type} (mn mx : Z) (data : list (Z * V)) : Prop :=
  Forall (fun kv => mn <= fst kv < mx) data.

(** A node at depth [d]: its position has length [d], its range is the
    aligned window of width [width d]; a leaf holds sorted keys of its
    range; an internal node holds no entries and has [num_children_]
    children that split its range evenly, in order.  Depth 42 is the
    last: its windows hold four keys and are never subdivided. *)
Unset Elimination Schemes.
Inductive wf {V : Type} : nat -> MerkleTree V -> Prop :=
| wf_leaf d mn mx h pos data lg :
    length pos = d -> (d <= 42)%nat -> range_ok d mn mx ->
    keys_sorted data -> keys_within mn mx data ->
    wf d (mkTree mn mx h pos [] data lg)
| wf_node d mn mx h pos cs lg :
    length pos = d -> (d <= 41)%nat -> range_ok d mn mx ->
    length cs = 8%nat ->
    (forall i c, nth_error cs i = Some c ->
                 min_key_ c = mn + Z.of_nat i * width (S d) /\ wf (S d) c) ->
    wf d (mkTree mn mx h pos cs [] lg).
Set Elimination Schemes.

(** The trees a peer can hold: the empty tree and whatever [Insert],
    [Update] and [Delete] of keys of the ring leave behind, also when
    they throw. *)
Inductive reachable {V : Type} (sha1 : string -> Z) : MerkleTree V -> Prop :=
| reachable_empty : reachable sha1 (EmptyTree V sha1)
| reachable_step t o :
    reachable sha1 t -> Key.in_ring (op_key o) ->
    reachable sha1 (fst (apply_op sha1 t o)).

(** A tree without its largest-key caches: what is left is the range,
    the position, the hash, the entries and the children of every
    node. *)
Fixpoint forget_caches {V : Type} (t : MerkleTree V) : MerkleTree V :=
  match t with
  | mkTree mn mx h pos cs data _ =>
      mkTree mn mx h pos (map forget_caches cs) data None
  end.

(** The hash of a node written on keys and child hashes alone. *)
Definition hash_from_keys (sha1 : string -> Z) (child_hashes keys : list Z) : Z :=
  match child_hashes with
  | [] =>
      match keys with
      | [] => 0
      | _ :: _ => sha1 (String.concat "" (map IntToHexStr keys))
      end
  | _ :: _ =>
      if String.eqb (String.concat "" (map IntToHexStr child_hashes)) "00000000"
      then 0
      else sha1 (String.concat "" (map IntToHexStr child_hashes))
  end.

(** Every node carries the hash that [Rehash] computes from its entries
    or from its children. *)
Unset Elimination Schemes.
Inductive hashed {V : Type} (sha1 : string -> Z) : MerkleTree V -> Prop :=
| hashed_node mn mx h pos cs data lg :
    h = Rehash_value sha1 cs data ->
    (forall c, In c cs -> hashed sha1 c) ->
    hashed sha1 (mkTree mn mx h pos cs data lg).
Set Elimination Schemes.

(** The largest-key cache of a node is at least every key below it. *)
Definition cache_covers {V : Type} (t : MerkleTree V) : Prop :=
  forall key,
    min_key_ t <= key < max_key_ t -> Contains t key = true ->
    exists largest, largest_key_ t = Some largest /\ key <= largest.

(** The largest key on record at the node of a position. *)
Definition cache_at {V : Type} (dirs : list Z) (t : MerkleTree V)
  : option (option Z) :=
  match LookupByPosition dirs t with
  | Ok (Some node) => Some (largest_key_ node)
  | _ => None
  end.

(** Two trees that hold the same keys at the same positions: the nodes
    correspond one to one, at equal positions, and corresponding leaves
    hold the same keys.  Nothing is asked of the values, of the hashes or
    of the caches. *)
Unset Elimination Schemes.
Inductive same_layout {V1 V2 : Type} : MerkleTree V1 -> MerkleTree V2 -> Prop :=
| same_layout_node mn1 mx1 h1 pos cs1 d1 lg1 mn2 mx2 h2 cs2 d2 lg2 :
    map fst d1 = map fst d2 ->
    Forall2 same_layout cs1 cs2 ->
    same_layout (mkTree mn1 mx1 h1 pos cs1 d1 lg1)
                (mkTree mn2 mx2 h2 pos cs2 d2 lg2).
Set Elimination Schemes.

Section Range.

Variable V : Type.

(** The [for] loop of [ReadRange] over the children from the [i]-th on,
    for a given reading of a child. *)
Section Loop.

Variable ReadRange_child :
  MerkleTree V -> Z -> Z -> option (result (list (Z * V))).
Variables lower_bound upper_bound : Z.
Variable child_nodes : list (MerkleTree V).

Fixpoint ReadRange_loop (rounds i : nat) (keys_in_range : list (Z * V))
  : option (result (list (Z * V))) :=
  match rounds with
  | O => Some (Ok keys_in_range)
  | S rounds' =>
      match nth_error child_nodes i with
      | None => Some (Throw "vector::at")
      | Some nth_child =>
          let lower := if lower_bound <? min_key_ nth_child
                       then min_key_ nth_child else lower_bound in
          let upper := if upper_bound >? max_key_ nth_child
                       then max_key_ nth_child else upper_bound in
          match ReadRange_child nth_child lower upper with
          | Some (Ok keys_in_node) =>
              ReadRange_loop rounds' (S i)
                             (map_insert_all keys_in_node keys_in_range)
          | other => other
          end
      end
  end.

End Loop.

(** [MerkleTree::ReadRange].  The call on the node itself, for a range
    that wraps, keeps the recursion from being structural: [fuel] bounds
    the depth of the calls, and [None] stands for a call that needs
    more. *)
Fixpoint ReadRange (fuel : nat) (t : MerkleTree V)
         (lower_bound upper_bound : Z) : option (result (list (Z * V))) :=
  match fuel with
  | O => None
  | S fuel' =>
      if IsLeaf t then
        Some (Ok (map_insert_all
                    (filter (fun kv => Key.InBetween (fst kv) lower_bound
                                                     upper_bound true)
                            (data_ t)) []))
      else
        let lb_index := ChildNum t lower_bound in
        let ub_index := ChildNum t upper_bound in
        if lb_index <? ub_index then
          ReadRange_loop (ReadRange fuel') lower_bound upper_bound
                         (child_nodes_ t)
                         (Z.to_nat (ub_index - lb_index + 1))
                         (Z.to_nat lb_index) []
        else if lb_index >? ub_index then
          match ReadRange fuel' t 0 upper_bound with
          | Some (Ok below_ub) =>
              match ReadRange fuel' t lower_bound (Key.keys_in_ring - 1) with
              | Some (Ok above_lb) => Some (Ok (map_insert_all above_lb below_ub))
              | other => other
              end
          | other => other
          end
        else
          match nth_error (child_nodes_ t) (Z.to_nat lb_index) with
          | None => Some (Throw "vector::at")
          | Some child => ReadRange fuel' child lower_bound upper_bound
          end
  end.

(** The entries with a key from [lower_bound] to [upper_bound]. *)
Definition entries_between (lower_bound upper_bound : Z)
           (entries : list (Z * V)) : list (Z * V) :=
  filter (fun kv => (lower_bound <=? fst kv) && (fst kv <=? upper_bound))
         entries.

End Range.

Arguments ReadRange_loop {V}.
Arguments ReadRange {V}.
Arguments entries_between {V}.

(** Every child carries the position of its parent followed by its own
    index among the children. *)
Unset Elimination Schemes.
Inductive positioned {V : Type} : MerkleTree V -> Prop :=
| positioned_node mn mx h pos cs data lg :
    (forall i c, nth_error cs i = Some c ->
                 position_ c = pos ++ [Z.of_nat i] /\ positioned c) ->
    positioned (mkTree mn mx h pos cs data lg).
Set Elimination Schemes.

End Merkle.

(** ** database.h: [GenericDB], the Merkle tree with a size counter *)

Module Database.

Section DB.

Variable ValueType : Type.
Variable sha1 : string -> Z.

Record GenericDB : Type := mkDB {
  index_ : Merkle.MerkleTree ValueType;
  size_ : Z
}.

(** [GenericDB::Insert]: [++size_] is not reached when the index throws. *)
Definition Insert (db : GenericDB) (key_val_pair : Z * ValueType)
  : GenericDB * Merkle.outcome :=
  match Merkle.Insert sha1 (index_ db) key_val_pair with
  | (index', Merkle.Done) => (mkDB index' (size_ db + 1), Merkle.Done)
  | (index', Merkle.Threw what) => (mkDB index' (size_ db), Merkle.Threw what)
  end.

Definition Contains (db : GenericDB) (key : Z) : bool :=
  Merkle.Contains (index_ db) key.

Definition Lookup (db : GenericDB) (key : Z) : result ValueType :=
  Merkle.Lookup (index_ db) key.

End DB.

Section Ops.

Variable ValueType : Type.
Variable sha1 : string -> Z.

(** Constructor 1: an empty index and [size_(0)]. *)
Definition EmptyDB : Database.GenericDB ValueType :=
  Database.mkDB ValueType (Merkle.EmptyTree ValueType sha1) 0.

(** [unsigned long], taken to be 64 bits wide. *)
Definition ulong (x : Z) : Z := x mod 2 ^ 64.

(** [GenericDB::Delete]. *)
Definition Delete (db : Database.GenericDB ValueType) (key : Z)
  : Database.GenericDB ValueType * Merkle.outcome :=
  if Merkle.Contains (Database.index_ ValueType db) key then
    match Merkle.Delete sha1 (Database.index_ ValueType db) key with
    | (index', Merkle.Done) =>
        (Database.mkDB ValueType index'
                       (ulong (Database.size_ ValueType db - 1)),
         Merkle.Done)
    | (index', Merkle.Threw what) =>
        (Database.mkDB ValueType index' (Database.size_ ValueType db),
         Merkle.Threw what)
    end
  else (db, Merkle.Threw "ChordKey does not exist in database.").

(** [GenericDB::Size] and [GenericDB::Next]. *)
Definition Size (db : Database.GenericDB ValueType) : Z :=
  Database.size_ ValueType db.

Definition Next (db : Database.GenericDB ValueType) (key : Z)
  : option (Z * ValueType) :=
  Merkle.Next (Database.index_ ValueType db) key.

(** The databases a peer can hold: the empty one and whatever [Insert]
    and [Delete] of keys of the ring leave behind, also when they
    throw. *)
Inductive held : Database.GenericDB ValueType -> Prop :=
| held_empty : held EmptyDB
| held_Insert db kv :
    held db -> Key.in_ring (fst kv) ->
    held (fst (Database.Insert ValueType sha1 db kv))
| held_Delete db key :
    held db -> Key.in_ring key -> held (fst (Delete db key)).

End Ops.

End Database.

(** ** dhash_peer.cpp: creation of a block *)

Module DHash.

(** [DataFragment]: the vector and its 1-based index. *)
Record DataFragment : Type := mkFragment {
  fragment_ : IDA.Vector;
  index_ : Z
}.

(** [FragsFromMatrix], also the loop of the [DataBlock] constructor. *)
Definition FragsFromMatrix (matrix : IDA.Matrix) : list DataFragment :=
  map (fun ir => mkFragment (snd ir) (Z.of_nat (fst ir) + 1))
      (combine (seq 0 (length matrix)) matrix).

(** [StrToInts]. *)
Definition StrToInts (str : string) : IDA.Vector :=
  map (fun ch => Z.of_N (N_of_ascii ch)) (list_ascii_of_string str).

Record DataBlock : Type := mkBlock {
  original_ : IDA.Vector;
  fragments_ : list DataFragment
}.

(** [DataBlock(const std::string &, n, m, p)]. *)
Definition DataBlock_of_string (input : string) (c : IDA.params) : DataBlock :=
  mkBlock (StrToInts input) (FragsFromMatrix (IDA.Encode c (StrToInts input))).

(** What the other peers answer: whether a peer accepts connections,
    its reply to [GET_SUCC] ([None]: a reply without [SUCCESS]) and
    whether its reply to [CREATE_KEY] carries [SUCCESS]. *)
Record Network : Type := mkNetwork {
  IsAlive : RemotePeer -> bool;
  GET_SUCC : RemotePeer -> Z -> option RemotePeer;
  CREATE_KEY : RemotePeer -> Z -> DataFragment -> bool
}.

(** [RemotePeer::SendRequest], for the two requests used here. *)
Definition SendRequest_GET_SUCC (net : Network) (peer : RemotePeer) (key : Z)
  : result RemotePeer :=
  if IsAlive net peer then
    match GET_SUCC net peer key with
    | Some succ => Ok succ
    | None => Throw "Failed request"
    end
  else Throw "Peer is down.".

Definition SendRequest_CREATE_KEY (net : Network) (peer : RemotePeer)
           (key : Z) (val : DataFragment) : result bool :=
  if IsAlive net peer then
    if CREATE_KEY net peer key val then Ok true
    else Throw "Failed request"
  else Throw "Peer is down.".

(** [DHashPeer::CreateKey]: [create_resp["SUCCESS"].asBool()] of a reply
    that [SendRequest] returned. *)
Definition CreateKey (net : Network) (key : Z) (val : DataFragment)
           (peer : RemotePeer) : result bool :=
  SendRequest_CREATE_KEY net peer key val.

(** [RemotePeerList::LookupLiving]: the loop after the first test starts
    at [i = succ_ind] with the condition [i % size < succ_ind], so its
    body never runs. *)
Definition LookupLiving (net : Network) (l : RemotePeerList.t) (key : Z)
  : option RemotePeer :=
  match RemotePeerList.Lookup l key true with
  | Some succ => if IsAlive net succ then Some succ else None
  | None => None
  end.

(** [DHashPeer::ForwardRequest] of a [GET_SUCC] request. *)
Definition ForwardRequest (net : Network) (st : Chord.Peer) (key : Z)
  : result RemotePeer :=
  match FingerTable.Lookup (Chord.finger_table st) key with
  | None => Throw "ChordKey not found"
  | Some key_succ =>
      let otherwise :=
        if negb (IsAlive net key_succ) then
          match LookupLiving net
                  (RemotePeerList.mkList
                     (Z.of_nat (length (Chord.successors st)))
                     (Chord.peer_id st) (Chord.successors st)) key with
          | Some succ => SendRequest_GET_SUCC net succ key
          | None =>
              match Chord.successors st with
              | first :: _ =>
                  if IsAlive net first then SendRequest_GET_SUCC net first key
                  else Throw "Lookup failed"
              | [] => Throw "Lookup failed"
              end
          end
        else SendRequest_GET_SUCC net key_succ key in
      if id_ key_succ =? Chord.peer_id st then
        match Chord.predecessor st with
        | None => Throw "Peer does not have value."
        | Some pred =>
            if IsAlive net pred then SendRequest_GET_SUCC net pred key
            else otherwise
        end
      else otherwise
  end.

Definition FragmentDb : Type := Database.GenericDB DataFragment.

Section Peer.

Variable sha1 : string -> Z.

(** The state of a [DHashPeer] that [Create] reads and writes. *)
Record Peer : Type := mkPeer {
  chord : Chord.Peer;
  db_ : FragmentDb;
  ida : IDA.params
}.

(** A [CREATE_KEY] request that a remote peer accepted. *)
Definition store : Type := (RemotePeer * Z * DataFragment)%type.

(** The [for] loop of [DHashPeer::Create(const ChordKey &, const
    DataBlock &)], from index [i] on. *)
Fixpoint Create_loop (net : Network) (self_id key : Z)
         (fragments : list DataFragment) (succ_list : list RemotePeer)
         (i : nat) (db : FragmentDb) (stored : list store) (num_replicas : Z)
  : FragmentDb * list store * result Z :=
  match succ_list with
  | [] => (db, stored, Ok num_replicas)
  | succ :: rest =>
      match nth_error fragments i with
      | None => (db, stored, Throw "vector::at")
      | Some frag =>
          if id_ succ =? self_id then
            match Database.Insert DataFragment sha1 db (key, frag) with
            | (db', Merkle.Done) =>
                Create_loop net self_id key fragments rest (S i) db' stored
                            (num_replicas + 1)
            | (db', Merkle.Threw what) => (db', stored, Throw what)
            end
          else if IsAlive net succ then
            match CreateKey net key frag succ with
            | Ok true =>
                Create_loop net self_id key fragments rest (S i) db
                            (stored ++ [(succ, key, frag)]) (num_replicas + 1)
            | Ok false =>
                Create_loop net self_id key fragments rest (S i) db stored
                            num_replicas
            | Throw what => (db, stored, Throw what)
            end
          else
            Create_loop net self_id key fragments rest (S i) db stored
                        num_replicas
      end
  end.

(** [DHashPeer::Create(const ChordKey &, const DataBlock &)]: the peer
    afterwards, the requests accepted by other peers, and how the call
    ended. *)
Definition Create (net : Network) (st : Peer) (key : Z) (val : DataBlock)
  : Peer * list store * Merkle.outcome :=
  match Chord.GetNSuccessors (ForwardRequest net) (chord st) key
                             (IDA.n_ (ida st)) with
  | Throw what => (st, [], Merkle.Threw what)
  | Ok succ_list =>
      (* [succ_list.size() < m_] compares a [size_t] with an [int]. *)
      if Z.of_nat (length succ_list) <? Std.size_t (IDA.m_ (ida st))
      then (st, [],
            Merkle.Threw "Insufficient succs in list to complete request.")
      else
        match Create_loop net (Chord.peer_id (chord st)) key (fragments_ val)
                          succ_list 0 (db_ st) [] 0 with
        | (db', stored, Throw what) =>
            (mkPeer (chord st) db' (ida st), stored, Merkle.Threw what)
        | (db', stored, Ok num_replicas) =>
            (mkPeer (chord st) db' (ida st), stored,
             if num_replicas <? IDA.m_ (ida st)
             then Merkle.Threw "Too few succs responded to requests."
             else Merkle.Done)
        end
  end.

(** [DHashPeer::Create(const ChordKey &, const std::string &)]. *)
Definition Create_string (net : Network) (st : Peer) (key : Z) (val : string)
  : Peer * list store * Merkle.outcome :=
  Create net st key (DataBlock_of_string val (ida st)).





End Peer.

(** [DHashPeer::CreateKeyHandler] and [DHashPeer::ReadKeyHandler], on the
    database of the peer. *)
Definition CreateKeyHandler (sha1 : string -> Z) (db : DHash.FragmentDb)
           (key : Z) (val : DHash.DataFragment)
  : DHash.FragmentDb * Merkle.outcome :=
  if Database.Contains DHash.DataFragment db key
  then (db, Merkle.Threw "Key already exists in db.")
  else Database.Insert DHash.DataFragment sha1 db (key, val).

Definition ReadKeyHandler (db : DHash.FragmentDb) (key : Z)
  : result DHash.DataFragment :=
  Database.Lookup DHash.DataFragment db key.

End DHash.

(** ** A ring of three peers, used to exercise [Create] *)

Module Scenario.

Definition sha1 (str : string) : Z := Z.of_nat (String.length str) + 1.

Definition peer_a : RemotePeer := mkRemotePeer 10 1 "10.0.0.1" 7300.
Definition peer_b : RemotePeer := mkRemotePeer 20 11 "10.0.0.2" 7302.
Definition peer_c : RemotePeer := mkRemotePeer 30 21 "10.0.0.3" 7304.

(** Every peer is up and accepts every [CREATE_KEY]; [peer_b] answers
    [GET_SUCC] for the keys of [peer_b] and of [peer_c]. *)
Definition net : DHash.Network :=
  DHash.mkNetwork
    (fun _ => true)
    (fun _ key => if key <=? 20 then Some peer_b else Some peer_c)
    (fun _ _ _ => true).

(** [peer_a], whose one finger covers the rest of the ring and points to
    [peer_b]. *)
Definition chord_a : Chord.Peer :=
  Chord.mkPeer 10 1 "10.0.0.1" 7300
               [FingerTable.mkFinger 11 0 peer_b] [peer_b; peer_c] (Some peer_c).

Definition params : IDA.params := IDA.mkParams 3 2 257.

Definition block : DHash.DataBlock := DHash.DataBlock_of_string "world" params.

(** [peer_a] with an empty store, and with a fragment under key 5. *)
Definition a_empty : DHash.Peer :=
  DHash.mkPeer chord_a
    (Database.mkDB DHash.DataFragment (Merkle.EmptyTree DHash.DataFragment sha1) 0)
    params.


(** A store with the keys 3, 5 and 9, and a database with a fragment
    under key 5. *)
Definition store : Merkle.MerkleTree string :=
  fst (Merkle.apply_op Scenario.sha1
    (fst (Merkle.apply_op Scenario.sha1
       (fst (Merkle.apply_op Scenario.sha1
               (Merkle.EmptyTree string Scenario.sha1)
               (Merkle.OpInsert 3 "c"%string)))
       (Merkle.OpInsert 9 "i"%string)))
    (Merkle.OpInsert 5 "e"%string)).

Definition db_5 : DHash.FragmentDb :=
  fst (Database.Insert DHash.DataFragment Scenario.sha1
         (Database.EmptyDB DHash.DataFragment Scenario.sha1)
         (5, DHash.mkFragment [1; 2] 1)).

End Scenario.

(** ** data_fragment.cpp and data_block.cpp: fragments and blocks as text *)

Module Fragment.

(** How a call ends that can also leave the defined behaviour of the
    language. *)
Inductive outcome (A : Type) : Type :=
| Returned (a : A)
| Raised (what : string)
| Undefined.
Arguments Returned {A} a.
Arguments Raised {A} what.
Arguments Undefined {A}.

(** [BASE_64_ALPHABET], an array of 65 [char]s: the 64 digits and the
    terminating null character. *)
Definition BASE_64_ALPHABET : list ascii :=
  list_ascii_of_string
    "ABCDEFGHIJKLMNOPQRSTUVWXYZabcdefghijklmnopqrstuvwxyz0123456789+/"
  ++ [zero].

Definition BASE64_CHAR_TO_INT : list (ascii * Z) :=
  [
   ("A"%char, 0); ("B"%char, 1); ("C"%char, 2); ("D"%char, 3);
   ("E"%char, 4); ("F"%char, 5); ("G"%char, 6); ("H"%char, 7);
   ("I"%char, 8); ("J"%char, 9); ("K"%char, 10); ("L"%char, 11);
   ("M"%char, 12); ("N"%char, 13); ("O"%char, 14); ("P"%char, 15);
   ("Q"%char, 16); ("R"%char, 17); ("S"%char, 18); ("T"%char, 19);
   ("U"%char, 20); ("V"%char, 21); ("W"%char, 22); ("X"%char, 23);
   ("Y"%char, 24); ("Z"%char, 25); ("a"%char, 26); ("b"%char, 27);
   ("c"%char, 28); ("d"%char, 29); ("e"%char, 30); ("f"%char, 31);
   ("g"%char, 32); ("h"%char, 33); ("i"%char, 34); ("j"%char, 35);
   ("k"%char, 36); ("l"%char, 37); ("m"%char, 38); ("n"%char, 39);
   ("o"%char, 40); ("p"%char, 41); ("q"%char, 42); ("r"%char, 43);
   ("s"%char, 44); ("t"%char, 45); ("u"%char, 46); ("v"%char, 47);
   ("w"%char, 48); ("x"%char, 49); ("y"%char, 50); ("z"%char, 51);
   ("0"%char, 52); ("1"%char, 53); ("2"%char, 54); ("3"%char, 55);
   ("4"%char, 56); ("5"%char, 57); ("6"%char, 58); ("7"%char, 59);
   ("8"%char, 60); ("9"%char, 61); ("+"%char, 62); ("/"%char, 63)
  ].

(** [BASE64_CHAR_TO_INT.at(c)]; [None] stands for its [std::out_of_range]. *)
Definition char_to_int (c : ascii) : option Z :=
  option_map snd (find (fun entry => Ascii.eqb (fst entry) c) BASE64_CHAR_TO_INT).

(** [(int) pow(base, e)]: the power is exact in a [double]; its
    conversion has a result only when it fits an [int].  A negative
    exponent gives a value below one, converted to zero, as [Z.pow]
    does. *)
Definition pow_int (base e : Z) : option Z :=
  if base ^ e <=? 2147483647 then Some (base ^ e) else None.

(** The inner loop of [SerializeToBase64], [i] counting down; [None]
    stands for a read outside [BASE_64_ALPHABET]. *)
Fixpoint Serialize_digits (i : nat) (val : Z) : option (list ascii) :=
  match i with
  | O => Some []
  | S i' =>
      let pw := 64 ^ Z.of_nat i' in
      let index := Z.quot val pw in
      if (0 <=? index) && (index <? 65) then
        match Serialize_digits i' (val - index * pw) with
        | Some res => Some (nth (Z.to_nat index) BASE_64_ALPHABET zero :: res)
        | None => None
        end
      else None
  end.

Fixpoint Serialize_loop (num_digits max_int : Z) (frag : IDA.Vector)
  : outcome (list ascii) :=
  match frag with
  | [] => Returned []
  | val :: rest =>
      if val >? max_int then
        Raised ("Cannot encode " ++ Std.to_string val
                ++ ", since it exceeds the max value of "
                ++ Std.to_string max_int)
      else
        match Serialize_digits (Z.to_nat num_digits) val with
        | None => Undefined
        | Some digits =>
            match Serialize_loop num_digits max_int rest with
            | Returned res => Returned (digits ++ res)
            | other => other
            end
        end
  end.

(** [SerializeToBase64]. *)
Definition SerializeToBase64 (frag : IDA.Vector) (num_digits : Z)
  : outcome string :=
  match pow_int 64 num_digits with
  | None => Undefined
  | Some max_int =>
      match Serialize_loop num_digits max_int frag with
      | Returned res => Returned (string_of_list_ascii res)
      | Raised what => Raised what
      | Undefined => Undefined
      end
  end.

(** The inner loop of [ParseFromBase64], on the characters from position
    [i + j] on; the character read at the end of the string is the null
    character. *)
Fixpoint Parse_element (digits_left : nat) (from : list ascii) (el : Z)
  : outcome (Z * list ascii) :=
  match digits_left with
  | O => Returned (el, from)
  | S digits_left' =>
      match char_to_int (hd zero from) with
      | None => Raised "map::at"
      | Some digit =>
          match pow_int 64 (Z.of_nat digits_left') with
          | None => Undefined
          | Some pw =>
              Parse_element digits_left' (tl from)
                            (IDA.int32 (el + IDA.int32 (digit * pw)))
          end
      end
  end.

(** The outer loop of [ParseFromBase64] for [num_digits >= 1], on the
    characters from position [i] on; it runs at most once per
    character. *)
Fixpoint Parse_loop (fuel : nat) (num_digits : nat) (from : list ascii)
  : option (outcome IDA.Vector) :=
  match from with
  | [] => Some (Returned [])
  | _ :: _ =>
      match fuel with
      | O => None
      | S fuel' =>
          match Parse_element num_digits from 0 with
          | Returned (el, rest) =>
              match Parse_loop fuel' num_digits rest with
              | Some (Returned res) => Some (Returned (el :: res))
              | other => other
              end
          | Raised what => Some (Raised what)
          | Undefined => Some Undefined
          end
      end
  end.

(** [ParseFromBase64]: [length / num_digits] divides by zero when
    [num_digits] is zero; a negative [num_digits] ends the loop after one
    round with no digit read. *)
Definition ParseFromBase64 (serialized_frag : string) (num_digits : Z)
  : option (outcome IDA.Vector) :=
  if num_digits =? 0 then Some Undefined
  else if num_digits <? 0 then
    Some (Returned (match serialized_frag with
                    | EmptyString => []
                    | String _ _ => [0]
                    end))
  else Parse_loop (String.length serialized_frag) (Z.to_nat num_digits)
                  (list_ascii_of_string serialized_frag).

(** [(char) val], kept as an [unsigned char]. *)
Definition to_char (val : Z) : ascii := ascii_of_N (Z.to_N (val mod 256)).

(** [SerializeToBytes] and [ParseFromBytes]. *)
Definition SerializeToBytes (frag : IDA.Vector) : string :=
  string_of_list_ascii (map to_char frag).

Definition ParseFromBytes (serialized_frag : string) : IDA.Vector :=
  map (fun c => Z.of_N (N_of_ascii c)) (list_ascii_of_string serialized_frag).


(** The loop that ends [DataBlock::Decode], on the reversed string;
    [None] stands for [back()] on an empty string. *)
Fixpoint pop_zeroes (res_rev : list ascii) : option (list ascii) :=
  match res_rev with
  | [] => None
  | c :: rest =>
      if Ascii.eqb c zero then pop_zeroes rest else Some res_rev
  end.

(** [DataBlock::Decode]. *)
Definition Decode (block : DHash.DataBlock) : outcome string :=
  match pop_zeroes (rev (map to_char (DHash.original_ block))) with
  | None => Undefined
  | Some res_rev => Returned (string_of_list_ascii (rev res_rev))
  end.

End Fragment.

(* ===================================================================== *)
(** * Part II: properties                                                *)
(* ===================================================================== *)

(** Case analysis on every integer comparison of the goal, closed by
    linear arithmetic. *)
Ltac zbool :=
  repeat match goal with
    | |- context [?a <=? ?b] => destruct (Z.leb_spec a b)
    | |- context [?a <? ?b] => destruct (Z.ltb_spec a b)
    | |- context [?a =? ?b] => destruct (Z.eqb_spec a b)
    | |- context [?a >? ?b] => rewrite (Z.gtb_ltb a b)
    end;
  simpl; try reflexivity; try lia.

Module StdFacts.

(** The conversion of an [int] to [size_t] keeps a non-negative value. *)
Lemma size_t_nonneg (x : Z) : 0 <= x -> Std.size_t x = x.
Proof.
  intro Hx. unfold Std.size_t.
  destruct (Z.ltb_spec x 0); [lia | reflexivity].
Qed.


End StdFacts.

Module KeyFacts.
Import Key.

Lemma keys_in_ring_pos : 0 < keys_in_ring.
Proof. reflexivity. Qed.

Lemma keys_in_ring_lt_256 : 2 * keys_in_ring < 2 ^ 256.
Proof. reflexivity. Qed.

Lemma mod_wrap_neg (n x : Z) : 0 < n -> - n <= x < 0 -> x mod n = x + n.
Proof.
  intros Hn Hx.
  symmetry. apply Z.mod_unique with (q := -1); lia.
Qed.

Lemma cw_dist_ge (a b : Z) :
  in_ring a -> in_ring b -> a <= b -> cw_dist a b = b - a.
Proof.
  unfold in_ring, cw_dist. intros Ha Hb Hab.
  apply Z.mod_small. lia.
Qed.

Lemma cw_dist_lt (a b : Z) :
  in_ring a -> in_ring b -> b < a -> cw_dist a b = b - a + keys_in_ring.
Proof.
  unfold in_ring, cw_dist. intros Ha Hb Hab.
  apply mod_wrap_neg; lia.
Qed.

Lemma cw_dist_range (a b : Z) : 0 <= cw_dist a b < keys_in_ring.
Proof. unfold cw_dist. apply Z.mod_pos_bound, keys_in_ring_pos. Qed.

(** On reduced values the code is the case analysis [in_between_cases]. *)
Lemma InBetween_cases (k lo hi : Z) (inclusive : bool) :
  in_ring k -> in_ring lo -> in_ring hi ->
  InBetween k lo hi inclusive = in_between_cases k lo hi inclusive.
Proof.
  unfold in_ring, InBetween, in_between_cases. intros Hk Hlo Hhi.
  rewrite !Z.mod_small by lia.
  destruct (lo =? hi); [destruct (k =? hi); reflexivity|].
  reflexivity.
Qed.

(** Ring betweenness: an inclusive query is membership in the closed
    clockwise arc from [lo] to [hi]. *)
Lemma InBetween_inclusive_arc (k lo hi : Z) :
  in_ring k -> in_ring lo -> in_ring hi ->
  InBetween k lo hi true = (cw_dist lo k <=? cw_dist lo hi).
Proof.
  intros Hk Hlo Hhi. rewrite InBetween_cases by assumption.
  unfold in_between_cases.
  destruct (Z_lt_le_dec k lo);
    [rewrite (cw_dist_lt lo k) by assumption
    |rewrite (cw_dist_ge lo k) by assumption];
    (destruct (Z_lt_le_dec hi lo);
      [rewrite (cw_dist_lt lo hi) by assumption
      |rewrite (cw_dist_ge lo hi) by assumption]);
    unfold in_ring in *; zbool.
Qed.

End KeyFacts.

(** C3: on values reduced mod N, [InBetween] is total and follows the
    case analysis: [lo = hi] gives [k = hi] whatever the flag; [lo < hi]
    gives [lo <= k <= hi] (inclusive) or [lo < k < hi] (exclusive);
    [lo > hi] gives the complement of the stretch between [hi] and [lo],
    that is the wrap segment, with the flag applied to the segment's
    endpoints: [k >= lo] or [k <= hi] for an inclusive query, [k > lo] or
    [k < hi] for an exclusive one; and [in_between(0, N-1, 1, true)]
    holds. *)
Theorem InBetween_case_analysis (k lo hi : Z) :
  Key.in_ring k -> Key.in_ring lo -> Key.in_ring hi ->
  (lo = hi -> forall inclusive,
     Key.InBetween k lo hi inclusive = (k =? hi)) /\
  (lo < hi ->
     Key.InBetween k lo hi true = ((lo <=? k) && (k <=? hi)) /\
     Key.InBetween k lo hi false = ((lo <? k) && (k <? hi))) /\
  (hi < lo ->
     Key.InBetween k lo hi true = negb ((hi <? k) && (k <? lo)) /\
     Key.InBetween k lo hi false = negb ((hi <=? k) && (k <=? lo))) /\
  Key.InBetween 0 (Key.keys_in_ring - 1) 1 true = true.
Proof.
  intros Hk Hlo Hhi.
  assert (Hc : forall b, Key.InBetween k lo hi b = Key.in_between_cases k lo hi b)
    by (intro b; apply KeyFacts.InBetween_cases; assumption).
  repeat split; try intros; rewrite ?Hc; unfold Key.in_between_cases;
    try reflexivity; zbool.
Qed.

Lemma InBetween_case_analysis_witness :
  Key.InBetween 7 9 2 true = negb ((2 <? 7) && (7 <? 9)) /\
  Key.InBetween 7 9 2 false = negb ((2 <=? 7) && (7 <=? 9)).
Proof.
  refine (proj1 (proj2 (proj2 (InBetween_case_analysis 7 9 2 _ _ _))) _);
    try (split; [discriminate | reflexivity]); reflexivity.
Defined.

Module KeyArith.
Import Key.

Lemma add_modular (a b : Z) :
  in_ring a -> in_ring b -> add a b = add_spec a b /\ in_ring (add a b).
Proof.
  unfold in_ring, add, add_spec, uint256. intros Ha Hb.
  pose proof KeyFacts.keys_in_ring_pos. pose proof KeyFacts.keys_in_ring_lt_256.
  rewrite (Z.mod_small (a + b)) by lia.
  pose proof (Z.mod_pos_bound (a + b) keys_in_ring ltac:(lia)).
  rewrite Z.mod_small by lia. split; [reflexivity | lia].
Qed.

Lemma sub_modular_distinct (a b : Z) :
  in_ring a -> in_ring b -> a <> b ->
  sub a b = sub_spec a b /\ in_ring (sub a b).
Proof.
  unfold in_ring, sub, sub_spec, uint256. intros Ha Hb Hab.
  pose proof KeyFacts.keys_in_ring_lt_256.
  rewrite Z.gtb_ltb. destruct (Z.ltb_spec 0 (a - b)).
  - rewrite Z.mod_small by lia.
    replace (a - b + keys_in_ring) with (a - b + 1 * keys_in_ring) by lia.
    rewrite Z.mod_add by lia. rewrite Z.mod_small by lia. lia.
  - rewrite Z.mod_small by lia.
    rewrite (Z.add_comm keys_in_ring). rewrite (Z.mod_small (a - b + _)) by lia.
    lia.
Qed.

Lemma sub_self (a : Z) : in_ring a -> sub a a = keys_in_ring.
Proof.
  intros _. unfold sub. rewrite Z.sub_diag. reflexivity.
Qed.

End KeyArith.

(** C8, the code at the failing input: [operator -] tests [diff > 0], so
    a zero difference takes the wrap branch and yields [keys_in_ring],
    which is outside [[0, N)], where the specification has [0]. *)
Theorem sub_self_leaves_ring :
  Key.sub 5 5 = Key.keys_in_ring /\
  Key.sub_spec 5 5 = 0 /\
  ~ Key.in_ring (Key.sub 5 5).
Proof.
  repeat split. intros [_ H]. revert H. apply Z.lt_irrefl.
Qed.

Module FingerFacts.
Import Key FingerTable.

Lemma AdjustFingers_nth (table_ : list Finger) (p : RemotePeer) (i : nat) (f : Finger) :
  nth_error table_ i = Some f ->
  nth_error (AdjustFingers table_ p) i =
    Some (if InBetween (lower_bound_ f) (min_key_ p) (id_ p) true
          then set_successor f p else f).
Proof.
  intro H. unfold AdjustFingers.
  rewrite nth_error_map, H. reflexivity.
Qed.

End FingerFacts.

(** C7, counterexample: a finger whose lower bound is the new peer's
    [min_key] is replaced, although [min_key] is not in
    [(min_key, id]]. *)
Lemma AdjustFingers_not_left_open :
  ~ FingerTable.adjusts_exactly FingerTable.sel_left_open
      [FingerTable.mkFinger 5 6 (mkRemotePeer 3 1 "a" 1)]
      (mkRemotePeer 9 5 "b" 2).
Proof.
  intros [_ H]. specialize (H 0%nat _ eq_refl). discriminate H.
Qed.

(** C7 (amended): [AdjustFingers p] replaces the successor of exactly
    those fingers whose lower bound lies in the closed clockwise arc
    [[p.min_key, p.id]], inclusive at both ends, by [p], and leaves every
    other finger, and every bound, unchanged. *)
Theorem AdjustFingers_closed_arc (table_ : list FingerTable.Finger) (p : RemotePeer) :
  Forall (fun f => Key.in_ring (FingerTable.lower_bound_ f)) table_ ->
  Key.in_ring (min_key_ p) -> Key.in_ring (id_ p) ->
  FingerTable.adjusts_exactly FingerTable.sel_closed table_ p.
Proof.
  intros Hall Hmin Hid. split.
  - unfold FingerTable.AdjustFingers. apply length_map.
  - intros i f Hi.
    rewrite (FingerFacts.AdjustFingers_nth _ _ _ _ Hi).
    unfold FingerTable.sel_closed, FingerTable.in_closed_arc.
    rewrite KeyFacts.InBetween_inclusive_arc; try assumption; [reflexivity|].
    rewrite Forall_forall in Hall. apply Hall.
    eapply nth_error_In; eassumption.
Qed.

Lemma AdjustFingers_closed_arc_witness :
  FingerTable.adjusts_exactly FingerTable.sel_closed
    [FingerTable.mkFinger 5 6 (mkRemotePeer 3 1 "a" 1);
     FingerTable.mkFinger 12 19 (mkRemotePeer 3 1 "a" 1)]
    (mkRemotePeer 9 5 "b" 2).
Proof.
  apply AdjustFingers_closed_arc.
  - repeat constructor; discriminate.
  - split; [discriminate | reflexivity].
  - split; [discriminate | reflexivity].
Defined.

Module ChordFacts.
Import Key Chord.

Lemma add_num_1 (id : Z) :
  in_ring id ->
  add_num id 1 = if id =? keys_in_ring - 1 then 0 else id + 1.
Proof.
  unfold in_ring, add_num, uint256. intro Hid.
  pose proof KeyFacts.keys_in_ring_lt_256 as H256.
  rewrite (Z.mod_small (id + 1) (2 ^ 256)) by lia.
  destruct (Z.eqb_spec id (keys_in_ring - 1)) as [E|E].
  - rewrite E. replace (keys_in_ring - 1 + 1) with keys_in_ring by lia.
    rewrite Z.mod_same by lia. reflexivity.
  - rewrite (Z.mod_small (id + 1) keys_in_ring) by lia.
    apply Z.mod_small. lia.
Qed.

Lemma StartChord_owns_ring (st : Peer) (key : Z) :
  in_ring (peer_id st) -> StoredLocally (StartChord st) key = true.
Proof.
  intro Hid. unfold StoredLocally, StartChord.
  cbn [peer_min_key peer_id]. rewrite add_num_1 by assumption.
  unfold InBetween.
  pose proof KeyFacts.keys_in_ring_pos as Hpos.
  unfold in_ring in Hid.
  pose proof (Z.mod_pos_bound key keys_in_ring Hpos) as Hk.
  destruct (Z.eqb_spec (peer_id st) (keys_in_ring - 1)) as [E|E].
  - rewrite E. rewrite Z.mod_0_l by lia.
    assert (0 <> keys_in_ring - 1) by (intro X; vm_compute in X; discriminate).
    zbool.
  - rewrite (Z.mod_small (peer_id st + 1) keys_in_ring) by lia.
    rewrite (Z.mod_small (peer_id st)) by lia.
    zbool.
Qed.

End ChordFacts.

(** C4: a key in the closed clockwise arc [[min_key, id]] has the peer
    itself as successor whatever the finger table, the successor list and
    the forwarding path hold (the ownership test comes first and the
    forwarding path is not entered); [StartChord] sets
    [min_key = id + 1], after which the peer is the successor of every
    key. *)
Theorem GetSuccessor_local_first
  (ForwardRequest : Chord.Peer -> Z -> result RemotePeer)
  (st : Chord.Peer) (k : Z) :
  Key.in_ring k -> Key.in_ring (Chord.peer_min_key st) ->
  Key.in_ring (Chord.peer_id st) ->
  (Key.cw_dist (Chord.peer_min_key st) k
     <= Key.cw_dist (Chord.peer_min_key st) (Chord.peer_id st) ->
   Chord.GetSuccessor ForwardRequest st k = Ok (Chord.ToRemotePeer st)) /\
  Chord.peer_min_key (Chord.StartChord st) = Key.add_spec (Chord.peer_id st) 1 /\
  (forall key,
     Chord.GetSuccessor ForwardRequest (Chord.StartChord st) key
     = Ok (Chord.ToRemotePeer (Chord.StartChord st))).
Proof.
  intros Hk Hmin Hid. repeat split.
  - intro Harc. unfold Chord.GetSuccessor, Chord.StoredLocally.
    rewrite KeyFacts.InBetween_inclusive_arc by assumption.
    apply Z.leb_le in Harc. rewrite Harc. reflexivity.
  - simpl. apply (KeyArith.add_modular (Chord.peer_id st) 1 Hid).
    split; [discriminate | reflexivity].
  - intro key. unfold Chord.GetSuccessor.
    rewrite ChordFacts.StartChord_owns_ring by assumption. reflexivity.
Qed.

Lemma GetSuccessor_local_first_witness :
  Chord.GetSuccessor (fun _ _ => Throw "Lookup failed")
    (Chord.StartChord (Chord.mkPeer 9 9 "127.0.0.1" 7300 [] [] None)) 4
  = Ok (mkRemotePeer 9 10 "127.0.0.1" 7300).
Proof.
  refine (proj2 (proj2 (GetSuccessor_local_first (fun _ _ => Throw "Lookup failed")
           (Chord.mkPeer 9 9 "127.0.0.1" 7300 [] [] None) 4 _ _ _)) 4);
    split; (discriminate || reflexivity).
Defined.

Module SuccListFacts.
Import Key RemotePeerList.

Lemma cw_dist_via_origin (o a b : Z) :
  in_ring o -> in_ring a -> in_ring b ->
  cw_dist o a <= cw_dist o b -> cw_dist a b = cw_dist o b - cw_dist o a.
Proof.
  intros Ho Ha Hb. unfold in_ring in *.
  destruct (Z_lt_le_dec a o); destruct (Z_lt_le_dec b o);
    destruct (Z_lt_le_dec b a);
    rewrite ?(KeyFacts.cw_dist_lt o a), ?(KeyFacts.cw_dist_ge o a),
            ?(KeyFacts.cw_dist_lt o b), ?(KeyFacts.cw_dist_ge o b),
            ?(KeyFacts.cw_dist_lt a b), ?(KeyFacts.cw_dist_ge a b)
      by (unfold in_ring; lia); lia.
Qed.

Lemma cw_dist_inj (o a b : Z) :
  in_ring o -> in_ring a -> in_ring b ->
  cw_dist o a = cw_dist o b -> a = b.
Proof.
  intros Ho Ha Hb. unfold in_ring in *.
  destruct (Z_lt_le_dec a o); destruct (Z_lt_le_dec b o);
    rewrite ?(KeyFacts.cw_dist_lt o a), ?(KeyFacts.cw_dist_ge o a),
            ?(KeyFacts.cw_dist_lt o b), ?(KeyFacts.cw_dist_ge o b)
      by (unfold in_ring; lia); lia.
Qed.

(** Past the origin of the order, the inclusive test of the scan is a
    comparison of ranks. *)
Lemma InBetween_rank (o c prev it : Z) :
  in_ring o -> in_ring c -> in_ring prev -> in_ring it ->
  cw_dist o prev <= cw_dist o c -> cw_dist o prev <= cw_dist o it ->
  InBetween c prev it true = (cw_dist o c <=? cw_dist o it).
Proof.
  intros Ho Hc Hp Hi Hpc Hpi.
  rewrite KeyFacts.InBetween_inclusive_arc by assumption.
  rewrite (cw_dist_via_origin o prev c), (cw_dist_via_origin o prev it)
    by assumption.
  zbool.
Qed.

Section Scan.

Variable o : Z.
Variable c : Z.
Hypothesis Ho : in_ring o.
Hypothesis Hc : in_ring c.

Lemma Insert_scan_post (peers : list RemotePeer) :
  forall prev,
    in_ring prev ->
    cw_dist o prev <= cw_dist o c ->
    Forall (fun p => in_ring (id_ p)) peers ->
    Forall (fun e => cw_dist o prev <= rank o e) peers ->
    StronglySorted (fun a b => rank o a < rank o b) peers ->
    scan_post o c peers (Insert_scan c prev peers).
Proof.
  induction peers as [|it rest IH]; intros prev Hprev Hpc Hring Hlow Hsorted.
  - constructor.
  - simpl. inversion Hring as [|? ? Hit Hrest]; subst.
    inversion Hlow as [|? ? Hlit Hlrest]; subst.
    inversion Hsorted as [|? ? Hsrest Hhead]; subst.
    destruct (Z.eqb_spec c (id_ it)) as [E|E].
    + simpl. left. symmetry. exact E.
    + rewrite (InBetween_rank o) by assumption.
      fold (rank o it). destruct (Z.leb_spec (cw_dist o c) (rank o it)) as [Hle|Hgt].
      * assert (cw_dist o c < rank o it).
        { destruct (Z.eq_dec (cw_dist o c) (rank o it)) as [E'|E']; [|lia].
          apply cw_dist_inj in E'; try assumption. contradiction. }
        simpl. repeat split; try discriminate; constructor; try assumption.
        eapply Forall_impl; [|exact Hhead]. simpl. intros a Ha. unfold rank in *. lia.
      * assert (Hpost : scan_post o c rest (Insert_scan c (id_ it) rest)).
        { apply IH; try assumption.
          - fold (rank o it). lia.
          - eapply Forall_impl; [|exact Hhead]. simpl. intros a Ha.
            fold (rank o it). lia. }
        destruct (Insert_scan c (id_ it) rest) as [|before from_it|]; simpl in *.
        -- right. exact Hpost.
        -- destruct Hpost as (Heq & Hne & Hb & Ha).
           repeat split; try assumption.
           ++ rewrite Heq. reflexivity.
           ++ constructor; assumption.
        -- constructor; assumption.
Qed.

Lemma sorted_no_dup_before (peers : list RemotePeer) :
  Forall (fun p => in_ring (id_ p)) peers ->
  Forall (fun e => rank o e < cw_dist o c) peers -> ~ In c (map id_ peers).
Proof.
  intros _ Hall Hin. apply in_map_iff in Hin. destruct Hin as (x & Hx & Hin).
  rewrite Forall_forall in Hall. specialize (Hall x Hin).
  unfold rank in Hall. rewrite Hx in Hall. lia.
Qed.

Lemma sorted_no_dup_after (peers : list RemotePeer) :
  Forall (fun e => cw_dist o c < rank o e) peers -> ~ In c (map id_ peers).
Proof.
  intros Hall Hin. apply in_map_iff in Hin. destruct Hin as (x & Hx & Hin).
  rewrite Forall_forall in Hall. specialize (Hall x Hin).
  unfold rank in Hall. rewrite Hx in Hall. lia.
Qed.

End Scan.

Section SortedLists.

Variable A : Type.
Variable R : A -> A -> Prop.

Lemma StronglySorted_app_inv (l1 l2 : list A) :
  StronglySorted R (l1 ++ l2) ->
  StronglySorted R l1 /\ StronglySorted R l2 /\
  Forall (fun a => Forall (R a) l2) l1.
Proof.
  induction l1 as [|a l1 IH]; simpl; intro H.
  - repeat split; [constructor | assumption | constructor].
  - inversion H as [|? ? Hs Hf]; subst.
    destruct (IH Hs) as (H1 & H2 & H3).
    apply Forall_app in Hf. destruct Hf as [Hf1 Hf2].
    repeat split; try assumption; constructor; assumption.
Qed.

Lemma StronglySorted_app (l1 l2 : list A) :
  StronglySorted R l1 -> StronglySorted R l2 ->
  Forall (fun a => Forall (R a) l2) l1 ->
  StronglySorted R (l1 ++ l2).
Proof.
  induction l1 as [|a l1 IH]; simpl; intros H1 H2 H3; [assumption|].
  inversion H1; subst. inversion H3; subst.
  constructor; [apply IH; assumption|].
  apply Forall_app. split; assumption.
Qed.

Lemma StronglySorted_firstn (n : nat) (l : list A) :
  StronglySorted R l -> StronglySorted R (firstn n l).
Proof.
  intro H. rewrite <- (firstn_skipn n l) in H.
  apply StronglySorted_app_inv in H. tauto.
Qed.

Lemma removelast_firstn_pred (l : list A) :
  removelast l = firstn (Nat.pred (length l)) l.
Proof.
  induction l as [|a [|b l] IH]; try reflexivity.
  change (removelast (a :: b :: l)) with (a :: removelast (b :: l)).
  rewrite IH. reflexivity.
Qed.

End SortedLists.

Lemma sorted_insert (o : Z) (new_peer : RemotePeer) (before after : list RemotePeer) :
  StronglySorted (fun a b => rank o a < rank o b) (before ++ after) ->
  Forall (fun e => rank o e < rank o new_peer) before ->
  Forall (fun e => rank o new_peer < rank o e) after ->
  StronglySorted (fun a b => rank o a < rank o b) (before ++ new_peer :: after).
Proof.
  intros Hs Hb Ha.
  apply StronglySorted_app_inv in Hs. destruct Hs as (H1 & H2 & H3).
  apply StronglySorted_app; [assumption | constructor; assumption |].
  rewrite Forall_forall in *. intros x Hx. constructor.
  - apply Hb; assumption.
  - apply H3; assumption.
Qed.

Lemma Delete_peers_incl (id_to_delete : Z) (peers : list RemotePeer) :
  incl (Delete_peers id_to_delete peers) peers.
Proof.
  induction peers as [|it rest IH]; simpl; [apply incl_refl|].
  destruct (id_ it =? id_to_delete).
  - apply incl_tl, incl_refl.
  - apply incl_cons; [left; reflexivity | apply incl_tl; assumption].
Qed.

Lemma Delete_peers_length (id_to_delete : Z) (peers : list RemotePeer) :
  (length (Delete_peers id_to_delete peers) <= length peers)%nat.
Proof.
  induction peers as [|it rest IH]; simpl; [lia|].
  destruct (id_ it =? id_to_delete); simpl; lia.
Qed.

Lemma Delete_peers_sorted (R : RemotePeer -> RemotePeer -> Prop)
      (id_to_delete : Z) (peers : list RemotePeer) :
  StronglySorted R peers -> StronglySorted R (Delete_peers id_to_delete peers).
Proof.
  induction 1 as [|it rest Hs IH Hf]; simpl; [constructor|].
  destruct (id_ it =? id_to_delete); [assumption|].
  constructor; [assumption|].
  rewrite Forall_forall in *. intros x Hx. apply Hf.
  eapply Delete_peers_incl; eassumption.
Qed.

Lemma Delete_invariant (o : Z) (l : t) (id_to_delete : Z) :
  sorted_from o l -> sorted_from o (Delete l id_to_delete).
Proof.
  intros (Hlen & Hring & Hs). unfold sorted_from, Delete; simpl.
  repeat split.
  - pose proof (Delete_peers_length id_to_delete (peers_ l)). lia.
  - rewrite Forall_forall in *. intros x Hx. apply Hring.
    eapply Delete_peers_incl; eassumption.
  - apply Delete_peers_sorted; assumption.
Qed.


End SuccListFacts.

Module InsertFacts.
Import Key RemotePeerList SuccListFacts.

Lemma In_firstn_inv (A : Type) (n : nat) (l : list A) (x : A) :
  In x (firstn n l) -> In x l.
Proof.
  intro H. rewrite <- (firstn_skipn n l). apply in_or_app. left. exact H.
Qed.

Lemma firstn_all_le (A : Type) (n : nat) (l : list A) :
  (length l <= n)%nat -> firstn n l = l.
Proof. intro H. apply firstn_all2. exact H. Qed.

Lemma Insert_spec (l : t) (new_peer : RemotePeer) :
  1 <= max_entries_ l -> in_ring (starting_key_ l) -> in_ring (id_ new_peer) ->
  invariant l ->
  match Insert l new_peer with
  | Throw _ => True
  | Ok (l', _) => invariant l'
  end /\ Insert_positional l new_peer.
Proof.
  intros HK Ho Hc (Hlen & Hring & Hs).
  unfold Insert_positional, Insert.
  destruct (Z.eqb_spec (port_ new_peer) 0) as [Hport|Hport]; [auto|].
  destruct l as [K o peers]; simpl in *.
  destruct peers as [|p0 peers'] eqn:Epeers.
  { split.
    - unfold invariant, sorted_from; simpl. repeat split; try lia.
      + constructor; [assumption | constructor].
      + constructor; constructor.
    - simpl. repeat split; try tauto.
      intros _. exists [], []. simpl. repeat split; try constructor.
      + symmetry. apply firstn_all_le. simpl. lia.
      + symmetry. apply Z.ltb_lt. lia. }
  rewrite <- Epeers in *. clear Epeers p0 peers'.
  assert (Hpost : scan_post o (id_ new_peer) peers
                    (Insert_scan (id_ new_peer) o peers)).
  { apply Insert_scan_post; try assumption.
    - rewrite (KeyFacts.cw_dist_ge o o) by (assumption || lia).
      pose proof (KeyFacts.cw_dist_range o (id_ new_peer)). lia.
    - rewrite (KeyFacts.cw_dist_ge o o) by (assumption || lia).
      apply Forall_forall. intros x _. unfold rank.
      pose proof (KeyFacts.cw_dist_range o (id_ x)). lia. }
  destruct (Insert_scan (id_ new_peer) o peers) as [|before from_it|];
    simpl in Hpost.
  - (* an entry has the candidate's ID *)
    split; [repeat split; assumption|].
    simpl. repeat split; tauto.
  - (* a position was found *)
    destruct Hpost as (Heq & Hne & Hb & Ha). subst peers.
    assert (Hsort : StronglySorted (fun a b => rank o a < rank o b)
                      (before ++ new_peer :: from_it))
      by (apply sorted_insert; assumption).
    assert (Hring' : Forall (fun p => in_ring (id_ p))
                       (before ++ new_peer :: from_it)).
    { apply Forall_app in Hring. destruct Hring.
      apply Forall_app. split; [|constructor]; assumption. }
    assert (Hnodup : ~ In (id_ new_peer) (map id_ (before ++ from_it))).
    { rewrite map_app, in_app_iff. intros [H|H].
      - revert H. apply (sorted_no_dup_before o); try assumption.
        apply Forall_app in Hring. tauto.
      - revert H. apply (sorted_no_dup_after o). assumption. }
    assert (Hlen' : length (before ++ new_peer :: from_it)
                    = S (length (before ++ from_it)))
      by (rewrite !length_app; simpl; lia).
    assert (Hpos : Z.of_nat (length before) < K).
    { rewrite length_app in Hlen. destruct from_it; [congruence|].
      simpl in Hlen. lia. }
    rewrite Z.gtb_ltb.
    destruct (Z.ltb_spec K (Z.of_nat (length (before ++ new_peer :: from_it))))
      as [Hover|Hfit].
    + assert (HKn : Z.to_nat K = Nat.pred (length (before ++ new_peer :: from_it)))
        by lia.
      split.
      * unfold invariant, sorted_from; simpl.
        rewrite removelast_firstn_pred, <- HKn. repeat split.
        -- rewrite length_firstn. lia.
        -- apply Forall_forall. intros x Hx. rewrite Forall_forall in Hring'.
           apply Hring'. eapply In_firstn_inv; exact Hx.
        -- apply StronglySorted_firstn. assumption.
      * simpl. repeat split; try tauto.
        intros _. exists before, from_it. repeat split; try assumption.
        -- rewrite removelast_firstn_pred, <- HKn. reflexivity.
        -- symmetry. apply Z.ltb_lt. assumption.
    + split.
      * unfold invariant, sorted_from; simpl. repeat split; assumption.
      * simpl. repeat split; try tauto.
        intros _. exists before, from_it. repeat split; try assumption.
        -- symmetry. apply firstn_all_le. lia.
        -- symmetry. apply Z.ltb_lt. assumption.
  - (* the candidate is beyond the last entry *)
    assert (Hnodup : ~ In (id_ new_peer) (map id_ peers))
      by (apply (sorted_no_dup_before o); assumption).
    assert (Hsort : StronglySorted (fun a b => rank o a < rank o b)
                      (peers ++ [new_peer])).
    { apply sorted_insert; rewrite ?app_nil_r; try assumption. constructor. }
    destruct (Z.ltb_spec (Z.of_nat (length peers)) K) as [Hroom|Hfull].
    + split.
      * unfold invariant, sorted_from; simpl. repeat split.
        -- rewrite length_app. simpl. lia.
        -- apply Forall_app. split; [assumption|]. constructor; [assumption|constructor].
        -- assumption.
      * simpl. repeat split; try tauto.
        intros _. exists peers, []. rewrite app_nil_r.
        repeat split; try assumption; try constructor.
        -- symmetry. apply firstn_all_le. rewrite length_app. simpl. lia.
        -- symmetry. apply Z.ltb_lt. assumption.
    + split; [repeat split; assumption|].
      simpl. repeat split; try tauto.
      intros _. exists peers, []. rewrite app_nil_r.
      repeat split; try assumption; try constructor.
      * assert (E : Z.to_nat K = length peers) by lia.
        rewrite E. rewrite firstn_app, Nat.sub_diag. simpl.
        rewrite app_nil_r. symmetry. apply firstn_all.
      * symmetry. apply Z.ltb_ge. assumption.
Qed.

End InsertFacts.




Example Insert_evicts_tail :
  RemotePeerList.Insert
    (RemotePeerList.mkList 2 10
       [mkRemotePeer 20 11 "b" 7302; mkRemotePeer 40 31 "d" 7306])
    (mkRemotePeer 30 21 "c" 7304)
  = Ok (RemotePeerList.mkList 2 10
          [mkRemotePeer 20 11 "b" 7302; mkRemotePeer 30 21 "c" 7304], true).
Proof. reflexivity. Qed.

Module MerkleInduction.
Import Merkle.

(** Induction on a tree, with the hypothesis on every child. *)
Section Induction.

Variable V : Type.
Variable P : MerkleTree V -> Prop.
Hypothesis step : forall mn mx h pos cs data lg,
  Forall P cs -> P (mkTree mn mx h pos cs data lg).

Fixpoint MerkleTree_ind (t : MerkleTree V) : P t :=
  match t with
  | mkTree mn mx h pos cs data lg =>
      step mn mx h pos cs data lg
           ((fix all (cs : list (MerkleTree V)) : Forall P cs :=
               match cs with
               | [] => Forall_nil P
               | c :: cs' => Forall_cons c (MerkleTree_ind c) (all cs')
               end) cs)
  end.

End Induction.

End MerkleInduction.

Lemma Forall_Forall2_combine (A B : Type) (P : A -> Prop)
      (R Q : A -> B -> Prop) (l1 : list A) (l2 : list B) :
  Forall P l1 -> Forall2 R l1 l2 ->
  (forall a b, P a -> R a b -> Q a b) -> Forall2 Q l1 l2.
Proof.
  intros HP HR Himp. induction HR as [|a b l1 l2 Hab _ IH]; [constructor|].
  inversion HP; subst. constructor; auto.
Qed.

Module MerkleEquations.
Import Merkle.

(** The defining equations of the operations, at a leaf and at an
    internal node. *)
Section Equations.

Variable V : Type.
Variable sha1 : string -> Z.

Lemma Insert_leaf mn mx h pos (data : list (Z * V)) lg kv :
  Insert sha1 (mkTree mn mx h pos [] data lg) kv =
  match map_find (fst kv) data with
  | Some _ => (mkTree mn mx h pos [] data (bump_largest lg (fst kv)),
               Threw "Key already exists")
  | None =>
      let data' := map_insert (fst kv) (snd kv) data in
      let t' := mkTree mn mx h pos [] data' (bump_largest lg (fst kv)) in
      if Z.of_nat (length data') >? num_children_
      then (Rehash sha1 (CreateChildren sha1 t'), Done)
      else (Rehash sha1 t', Done)
  end.
Proof. reflexivity. Qed.

Lemma Insert_node mn mx h pos c cs (data : list (Z * V)) lg kv :
  Insert sha1 (mkTree mn mx h pos (c :: cs) data lg) kv =
  match at_update (fun c => Insert sha1 c kv) (c :: cs)
          (Z.to_nat (ChildNum (mkTree mn mx h pos (c :: cs) data lg) (fst kv)))
  with
  | None => (mkTree mn mx h pos (c :: cs) data (bump_largest lg (fst kv)),
             Threw "vector::at")
  | Some (cs', Done) =>
      (Rehash sha1 (mkTree mn mx h pos cs' data (bump_largest lg (fst kv))), Done)
  | Some (cs', Threw what) =>
      (mkTree mn mx h pos cs' data (bump_largest lg (fst kv)), Threw what)
  end.
Proof. reflexivity. Qed.

Lemma Update_leaf mn mx h pos (data : list (Z * V)) lg kv :
  Update sha1 (mkTree mn mx h pos [] data lg) kv =
  match map_find (fst kv) data with
  | Some _ =>
      (Rehash sha1 (mkTree mn mx h pos []
                      (map_assign (fst kv) (snd kv) data) lg), Done)
  | None => (mkTree mn mx h pos [] data lg, Threw "Key does not exist in subtree")
  end.
Proof. reflexivity. Qed.

Lemma Update_node mn mx h pos c cs (data : list (Z * V)) lg kv :
  Update sha1 (mkTree mn mx h pos (c :: cs) data lg) kv =
  match at_update (fun c => Update sha1 c kv) (c :: cs)
          (Z.to_nat (ChildNum (mkTree mn mx h pos (c :: cs) data lg) (fst kv)))
  with
  | None => (mkTree mn mx h pos (c :: cs) data lg, Threw "vector::at")
  | Some (cs', Done) => (Rehash sha1 (mkTree mn mx h pos cs' data lg), Done)
  | Some (cs', Threw what) => (mkTree mn mx h pos cs' data lg, Threw what)
  end.
Proof. reflexivity. Qed.

Lemma Delete_leaf mn mx h pos (data : list (Z * V)) lg key :
  Delete sha1 (mkTree mn mx h pos [] data lg) key =
  match map_find key data with
  | Some _ =>
      (Rehash sha1 (mkTree mn mx h pos [] (map_erase key data) lg), Done)
  | None => (mkTree mn mx h pos [] data lg, Threw "Key does not exist in subtree")
  end.
Proof. reflexivity. Qed.

Lemma Delete_node mn mx h pos c cs (data : list (Z * V)) lg key :
  Delete sha1 (mkTree mn mx h pos (c :: cs) data lg) key =
  match at_update (fun c => Delete sha1 c key) (c :: cs)
          (Z.to_nat (ChildNum (mkTree mn mx h pos (c :: cs) data lg) key))
  with
  | None => (mkTree mn mx h pos (c :: cs) data lg, Threw "vector::at")
  | Some (cs', Done) =>
      let t' := Rehash sha1 (mkTree mn mx h pos cs' data lg) in
      (set_largest t' (match GetLargestEntry t' with
                       | Some new_largest_entry => Some (fst new_largest_entry)
                       | None => None
                       end), Done)
  | Some (cs', Threw what) => (mkTree mn mx h pos cs' data lg, Threw what)
  end.
Proof. reflexivity. Qed.

Lemma Lookup_leaf mn mx h pos (data : list (Z * V)) lg key :
  Lookup (mkTree mn mx h pos [] data lg) key =
  match map_find key data with
  | Some v => Ok v
  | None => Throw "Key does not exist in subtree"
  end.
Proof. reflexivity. Qed.

Lemma Lookup_node mn mx h pos c cs (data : list (Z * V)) lg key :
  Lookup (mkTree mn mx h pos (c :: cs) data lg) key =
  at_ (fun c => Lookup c key) (Throw "vector::at") (c :: cs)
      (Z.to_nat (ChildNum (mkTree mn mx h pos (c :: cs) data lg) key)).
Proof. reflexivity. Qed.

Lemma Contains_leaf mn mx h pos (data : list (Z * V)) lg key :
  Contains (mkTree mn mx h pos [] data lg) key =
  match map_find key data with Some _ => true | None => false end.
Proof. reflexivity. Qed.

Lemma Contains_node mn mx h pos c cs (data : list (Z * V)) lg key :
  Contains (mkTree mn mx h pos (c :: cs) data lg) key =
  at_ (fun c => Contains c key) false (c :: cs)
      (Z.to_nat (ChildNum (mkTree mn mx h pos (c :: cs) data lg) key)).
Proof. reflexivity. Qed.

End Equations.

End MerkleEquations.

Module SameKeys.
Import Merkle MerkleInduction MerkleEquations.

Section Agree.

Variables V1 V2 : Type.
Variable sha1 : string -> Z.


Lemma same_keys_inv (t1 : MerkleTree V1) (t2 : MerkleTree V2) :
  same_keys t1 t2 ->
  min_key_ t1 = min_key_ t2 /\ max_key_ t1 = max_key_ t2 /\
  hash_ t1 = hash_ t2 /\ position_ t1 = position_ t2 /\
  largest_key_ t1 = largest_key_ t2 /\
  map fst (data_ t1) = map fst (data_ t2) /\
  Forall2 same_keys (child_nodes_ t1) (child_nodes_ t2).
Proof. intro H. inversion H; subst; simpl. repeat split; assumption. Qed.

Lemma map_find_agree (d1 : list (Z * V1)) (d2 : list (Z * V2)) (key : Z) :
  map fst d1 = map fst d2 ->
  (map_find key d1 = None <-> map_find key d2 = None).
Proof.
  revert d2. induction d1 as [|[k1 v1] d1 IH]; intros [|[k2 v2] d2] H;
    simpl in *; try discriminate; [tauto|].
  injection H as -> H. destruct (k2 =? key); [split; discriminate|].
  apply IH. assumption.
Qed.

Lemma map_insert_agree (d1 : list (Z * V1)) (d2 : list (Z * V2)) (key : Z) (v1 : V1) (v2 : V2) :
  map fst d1 = map fst d2 ->
  map fst (map_insert key v1 d1) = map fst (map_insert key v2 d2).
Proof.
  revert d2. induction d1 as [|[k1 w1] d1 IH]; intros [|[k2 w2] d2] H;
    simpl in *; try discriminate; [reflexivity|].
  injection H as -> H.
  destruct (key <? k2); [simpl; congruence|].
  destruct (key =? k2); simpl; [congruence|].
  f_equal. apply IH. assumption.
Qed.

Lemma map_assign_agree (d1 : list (Z * V1)) (d2 : list (Z * V2)) (key : Z) (v1 : V1) (v2 : V2) :
  map fst d1 = map fst d2 ->
  map fst (map_assign key v1 d1) = map fst (map_assign key v2 d2).
Proof.
  revert d2. induction d1 as [|[k1 w1] d1 IH]; intros [|[k2 w2] d2] H;
    simpl in *; try discriminate; [reflexivity|].
  injection H as -> H.
  destruct (k2 =? key); simpl; [congruence|].
  f_equal. apply IH. assumption.
Qed.

Lemma map_erase_agree (d1 : list (Z * V1)) (d2 : list (Z * V2)) (key : Z) :
  map fst d1 = map fst d2 ->
  map fst (map_erase key d1) = map fst (map_erase key d2).
Proof.
  revert d2. induction d1 as [|[k1 w1] d1 IH]; intros [|[k2 w2] d2] H;
    simpl in *; try discriminate; [reflexivity|].
  injection H as -> H.
  destruct (k2 =? key); simpl; [assumption|].
  f_equal. apply IH. assumption.
Qed.

Lemma take_range_agree (d1 : list (Z * V1)) (d2 : list (Z * V2)) (lower upper : Z) :
  map fst d1 = map fst d2 ->
  map fst (fst (take_range lower upper d1))
    = map fst (fst (take_range lower upper d2)) /\
  map fst (snd (take_range lower upper d1))
    = map fst (snd (take_range lower upper d2)).
Proof.
  revert d2. induction d1 as [|[k1 w1] d1 IH]; intros [|[k2 w2] d2] H;
    simpl in *; try discriminate; [split; reflexivity|].
  injection H as -> H.
  destruct (Key.InBetween k2 lower upper true).
  - specialize (IH d2 H).
    destruct (take_range lower upper d1), (take_range lower upper d2).
    simpl in *. destruct IH. split; congruence.
  - simpl. split; congruence.
Qed.

Lemma last_entry_agree (d1 : list (Z * V1)) (d2 : list (Z * V2)) :
  map fst d1 = map fst d2 ->
  option_map fst (last_entry d1) = option_map fst (last_entry d2).
Proof.
  revert d2. induction d1 as [|[k1 w1] d1 IH]; intros [|[k2 w2] d2] H;
    simpl in *; try discriminate; [reflexivity|].
  injection H as -> H.
  destruct d1 as [|x d1], d2 as [|y d2]; try discriminate; [reflexivity|].
  apply IH. assumption.
Qed.

(** The hash assigned by [Rehash] is a function of the keys of the node
    and of the hashes of its children. *)
Lemma Rehash_value_from_keys (V : Type) (cs : list (MerkleTree V))
      (data : list (Z * V)) :
  Rehash_value sha1 cs data
  = hash_from_keys sha1 (map GetHash cs) (map fst data).
Proof.
  unfold Rehash_value, hash_from_keys.
  destruct cs as [|c cs].
  - destruct data as [|kv data]; [reflexivity|].
    cbn [map]. rewrite <- (map_map fst IntToHexStr). reflexivity.
  - cbn [map]. rewrite <- (map_map GetHash IntToHexStr). reflexivity.
Qed.

Lemma hashes_agree (cs1 : list (MerkleTree V1)) (cs2 : list (MerkleTree V2)) :
  Forall2 same_keys cs1 cs2 -> map GetHash cs1 = map GetHash cs2.
Proof.
  induction 1 as [|c1 c2 cs1 cs2 Hc _ IH]; [reflexivity|].
  simpl. f_equal; [|assumption].
  apply same_keys_inv in Hc. unfold GetHash. tauto.
Qed.

Lemma Rehash_value_agree (cs1 : list (MerkleTree V1)) (cs2 : list (MerkleTree V2))
      (d1 : list (Z * V1)) (d2 : list (Z * V2)) :
  Forall2 same_keys cs1 cs2 -> map fst d1 = map fst d2 ->
  Rehash_value sha1 cs1 d1 = Rehash_value sha1 cs2 d2.
Proof.
  intros Hcs Hd. rewrite !Rehash_value_from_keys.
  rewrite (hashes_agree _ _ Hcs), Hd. reflexivity.
Qed.

Lemma Rehash_agree (t1 : MerkleTree V1) (t2 : MerkleTree V2) :
  same_keys t1 t2 -> same_keys (Rehash sha1 t1) (Rehash sha1 t2).
Proof.
  intro H. inversion H; subst. simpl.
  rewrite (Rehash_value_agree cs1 cs2 d1 d2) by assumption.
  constructor; assumption.
Qed.

Lemma set_largest_agree (t1 : MerkleTree V1) (t2 : MerkleTree V2) lg :
  same_keys t1 t2 -> same_keys (set_largest t1 lg) (set_largest t2 lg).
Proof. intro H. inversion H; subst. simpl. constructor; assumption. Qed.

Lemma ChildNum_agree (t1 : MerkleTree V1) (t2 : MerkleTree V2) (key : Z) :
  same_keys t1 t2 -> ChildNum t1 key = ChildNum t2 key.
Proof. intro H. inversion H; subst. reflexivity. Qed.

Lemma CreateChildren_loop_agree (count : nat) :
  forall i step last_key pos (d1 : list (Z * V1)) (d2 : list (Z * V2)),
    map fst d1 = map fst d2 ->
    Forall2 same_keys
      (fst (CreateChildren_loop sha1 count i step last_key pos d1))
      (fst (CreateChildren_loop sha1 count i step last_key pos d2)) /\
    map fst (snd (CreateChildren_loop sha1 count i step last_key pos d1))
      = map fst (snd (CreateChildren_loop sha1 count i step last_key pos d2)).
Proof.
  induction count as [|count IH]; intros i step last_key pos d1 d2 H;
    cbn [CreateChildren_loop].
  - split; [constructor | assumption].
  - pose proof (take_range_agree d1 d2 last_key
                  (Key.uint256 (Key.uint256 (last_key + step) - 1)) H)
      as [Ht Hl].
    destruct (take_range last_key _ d1) as [taken1 left1].
    destruct (take_range last_key _ d2) as [taken2 left2].
    cbn [fst snd] in Ht, Hl.
    specialize (IH (i + 1) step (Key.uint256 (last_key + step)) pos
                   left1 left2 Hl).
    destruct (CreateChildren_loop sha1 count _ _ _ _ left1).
    destruct (CreateChildren_loop sha1 count _ _ _ _ left2).
    cbn [fst snd] in *. destruct IH as [IH1 IH2]. split; [|assumption].
    constructor; [|assumption].
    apply Rehash_agree. constructor; [assumption | constructor].
Qed.

Lemma CreateChildren_agree (t1 : MerkleTree V1) (t2 : MerkleTree V2) :
  same_keys t1 t2 ->
  same_keys (CreateChildren sha1 t1) (CreateChildren sha1 t2).
Proof.
  intro H. inversion H as [mn mx h pos cs1 cs2 d1 d2 lg Hd Hcs]; subst.
  unfold CreateChildren.
  pose proof (CreateChildren_loop_agree (Z.to_nat num_children_) 0
                (Key.uint256 (mx - mn) / num_children_) mn pos d1 d2 Hd)
    as [H1 H2].
  destruct (CreateChildren_loop sha1 _ 0 _ mn pos d1).
  destruct (CreateChildren_loop sha1 _ 0 _ mn pos d2).
  simpl in *. constructor; [assumption|].
  apply Forall2_app; assumption.
Qed.

Lemma EmptyTree_agree : same_keys (EmptyTree V1 sha1) (EmptyTree V2 sha1).
Proof.
  unfold EmptyTree. apply CreateChildren_agree.
  constructor; [reflexivity | constructor].
Qed.

(** A call on the child at an index, on lists of children that agree. *)
Lemma at_update_agree (f1 : MerkleTree V1 -> MerkleTree V1 * outcome)
      (f2 : MerkleTree V2 -> MerkleTree V2 * outcome)
      (cs1 : list (MerkleTree V1)) (cs2 : list (MerkleTree V2)) :
  Forall2 (fun c1 c2 => same_keys c1 c2 /\
                        same_keys (fst (f1 c1)) (fst (f2 c2)) /\
                        snd (f1 c1) = snd (f2 c2)) cs1 cs2 ->
  forall index,
    match at_update f1 cs1 index, at_update f2 cs2 index with
    | Some (cs1', o1), Some (cs2', o2) =>
        Forall2 same_keys cs1' cs2' /\ o1 = o2
    | None, None => True
    | _, _ => False
    end.
Proof.
  induction 1 as [|c1 c2 cs1 cs2 (Hc & Hf & Ho) Hrest IH]; intros index; simpl.
  - destruct index; exact I.
  - destruct index as [|index].
    + destruct (f1 c1) as [c1' o1], (f2 c2) as [c2' o2]. simpl in *.
      split; [|assumption]. constructor; [assumption|].
      eapply Forall2_impl; [|exact Hrest]. simpl. tauto.
    + specialize (IH index).
      destruct (at_update f1 cs1 index) as [[cs1' o1]|],
               (at_update f2 cs2 index) as [[cs2' o2]|]; try tauto.
      destruct IH. split; [|assumption]. constructor; assumption.
Qed.

Lemma last_to_first_agree
      (cs1 : list (MerkleTree V1)) (cs2 : list (MerkleTree V2)) :
  Forall2 (fun c1 c2 => option_map fst (GetLargestEntry c1)
                        = option_map fst (GetLargestEntry c2)) cs1 cs2 ->
  option_map fst (last_to_first GetLargestEntry cs1)
  = option_map fst (last_to_first GetLargestEntry cs2).
Proof.
  induction 1 as [|c1 c2 cs1 cs2 Hc _ IH]; simpl; [reflexivity|].
  destruct (last_to_first GetLargestEntry cs1),
           (last_to_first GetLargestEntry cs2);
    simpl in IH; try discriminate; assumption.
Qed.

Lemma GetLargestEntry_agree (t1 : MerkleTree V1) :
  forall t2 : MerkleTree V2,
    same_keys t1 t2 ->
    option_map fst (GetLargestEntry t1) = option_map fst (GetLargestEntry t2).
Proof.
  induction t1 as [mn mx h pos cs1 d1 lg IH] using MerkleTree_ind.
  intros t2 H. inversion H as [? ? ? ? ? cs2 ? d2 ? Hd Hcs]; subst.
  simpl. destruct (h =? 0); [reflexivity|].
  assert (Hall : Forall2 (fun c1 c2 => option_map fst (GetLargestEntry c1)
                            = option_map fst (GetLargestEntry c2)) cs1 cs2)
    by (eapply Forall_Forall2_combine; [exact IH | exact Hcs | auto]).
  destruct Hcs as [|c1 c2 cs1 cs2 Hc Hcs].
  - apply last_entry_agree. assumption.
  - apply last_to_first_agree. assumption.
Qed.

Lemma same_keys_length (d1 : list (Z * V1)) (d2 : list (Z * V2)) :
  map fst d1 = map fst d2 -> length d1 = length d2.
Proof.
  intro H. rewrite <- (length_map fst d1), <- (length_map fst d2), H.
  reflexivity.
Qed.

Lemma Insert_agree (t1 : MerkleTree V1) :
  forall (t2 : MerkleTree V2) key v1 v2,
    same_keys t1 t2 ->
    same_keys (fst (Insert sha1 t1 (key, v1))) (fst (Insert sha1 t2 (key, v2))) /\
    snd (Insert sha1 t1 (key, v1)) = snd (Insert sha1 t2 (key, v2)).
Proof.
  induction t1 as [mn mx h pos cs1 d1 lg IH] using MerkleTree_ind.
  intros t2 key v1 v2 H.
  inversion H as [? ? ? ? ? cs2 ? d2 ? Hd Hcs]; subst.
  destruct cs1 as [|c1 cs1]; inversion Hcs as [|? c2 ? cs2' Hc Hcs']; subst.
  - rewrite !Insert_leaf. cbn [fst snd].
    pose proof (map_find_agree d1 d2 key Hd) as Hfind.
    destruct (map_find key d1) eqn:E1, (map_find key d2) eqn:E2;
      try (exfalso; destruct Hfind as [Ha Hb];
           (discriminate (Ha eq_refl) || discriminate (Hb eq_refl))).
    + cbn [fst snd]. split; [constructor; assumption | reflexivity].
    + pose proof (map_insert_agree d1 d2 key v1 v2 Hd) as Hins.
      cbv zeta. rewrite (same_keys_length _ _ Hins).
      destruct (Z.of_nat (length (map_insert key v2 d2)) >? num_children_);
        cbn [fst snd]; (split; [|reflexivity]); apply Rehash_agree.
      * apply CreateChildren_agree. constructor; [assumption | constructor].
      * constructor; [assumption | constructor].
  - rewrite !Insert_node. cbn [fst].
    replace (ChildNum (mkTree mn mx h pos (c2 :: cs2') d2 lg) key)
      with (ChildNum (mkTree mn mx h pos (c1 :: cs1) d1 lg) key)
      by reflexivity.
    assert (Hat := fun P => at_update_agree
              (fun c => Insert sha1 c (key, v1)) (fun c => Insert sha1 c (key, v2))
              (c1 :: cs1) (c2 :: cs2') P
              (Z.to_nat (ChildNum (mkTree mn mx h pos (c1 :: cs1) d1 lg) key))).
    lapply Hat; clear Hat.
    2:{ eapply Forall_Forall2_combine; [exact IH | exact Hcs |].
        simpl. intros a b Ha Hab. split; [exact Hab | apply Ha; exact Hab]. }
    intro Hat.
    destruct (at_update (fun c => Insert sha1 c (key, v1)) _ _) as [[cs1' o1]|],
             (at_update (fun c => Insert sha1 c (key, v2)) _ _) as [[cs2'' o2]|];
      try contradiction.
    + destruct Hat as [Hcs'' <-].
      destruct o1; cbn [fst snd]; (split; [|reflexivity]).
      * apply Rehash_agree. constructor; assumption.
      * constructor; assumption.
    + cbn [fst snd]. split; [constructor; assumption | reflexivity].
Qed.

Lemma Update_agree (t1 : MerkleTree V1) :
  forall (t2 : MerkleTree V2) key v1 v2,
    same_keys t1 t2 ->
    same_keys (fst (Update sha1 t1 (key, v1))) (fst (Update sha1 t2 (key, v2))) /\
    snd (Update sha1 t1 (key, v1)) = snd (Update sha1 t2 (key, v2)).
Proof.
  induction t1 as [mn mx h pos cs1 d1 lg IH] using MerkleTree_ind.
  intros t2 key v1 v2 H.
  inversion H as [? ? ? ? ? cs2 ? d2 ? Hd Hcs]; subst.
  destruct cs1 as [|c1 cs1]; inversion Hcs as [|? c2 ? cs2' Hc Hcs']; subst.
  - rewrite !Update_leaf. cbn [fst snd].
    pose proof (map_find_agree d1 d2 key Hd) as Hfind.
    destruct (map_find key d1) eqn:E1, (map_find key d2) eqn:E2;
      try (exfalso; destruct Hfind as [Ha Hb];
           (discriminate (Ha eq_refl) || discriminate (Hb eq_refl)));
      cbn [fst snd]; (split; [|reflexivity]).
    + apply Rehash_agree. constructor; [|constructor].
      apply map_assign_agree. assumption.
    + constructor; assumption.
  - rewrite !Update_node. cbn [fst].
    replace (ChildNum (mkTree mn mx h pos (c2 :: cs2') d2 lg) key)
      with (ChildNum (mkTree mn mx h pos (c1 :: cs1) d1 lg) key)
      by reflexivity.
    assert (Hat := fun P => at_update_agree
              (fun c => Update sha1 c (key, v1)) (fun c => Update sha1 c (key, v2))
              (c1 :: cs1) (c2 :: cs2') P
              (Z.to_nat (ChildNum (mkTree mn mx h pos (c1 :: cs1) d1 lg) key))).
    lapply Hat; clear Hat.
    2:{ eapply Forall_Forall2_combine; [exact IH | exact Hcs |].
        simpl. intros a b Ha Hab. split; [exact Hab | apply Ha; exact Hab]. }
    intro Hat.
    destruct (at_update (fun c => Update sha1 c (key, v1)) _ _) as [[cs1' o1]|],
             (at_update (fun c => Update sha1 c (key, v2)) _ _) as [[cs2'' o2]|];
      try contradiction.
    + destruct Hat as [Hcs'' <-].
      destruct o1; cbn [fst snd]; (split; [|reflexivity]).
      * apply Rehash_agree. constructor; assumption.
      * constructor; assumption.
    + cbn [fst snd]. split; [constructor; assumption | reflexivity].
Qed.

Lemma Delete_agree (t1 : MerkleTree V1) :
  forall (t2 : MerkleTree V2) key,
    same_keys t1 t2 ->
    same_keys (fst (Delete sha1 t1 key)) (fst (Delete sha1 t2 key)) /\
    snd (Delete sha1 t1 key) = snd (Delete sha1 t2 key).
Proof.
  induction t1 as [mn mx h pos cs1 d1 lg IH] using MerkleTree_ind.
  intros t2 key H.
  inversion H as [? ? ? ? ? cs2 ? d2 ? Hd Hcs]; subst.
  destruct cs1 as [|c1 cs1]; inversion Hcs as [|? c2 ? cs2' Hc Hcs']; subst.
  - rewrite !Delete_leaf. cbn [fst snd].
    pose proof (map_find_agree d1 d2 key Hd) as Hfind.
    destruct (map_find key d1) eqn:E1, (map_find key d2) eqn:E2;
      try (exfalso; destruct Hfind as [Ha Hb];
           (discriminate (Ha eq_refl) || discriminate (Hb eq_refl)));
      cbn [fst snd]; (split; [|reflexivity]).
    + apply Rehash_agree. constructor; [|constructor].
      apply map_erase_agree. assumption.
    + constructor; assumption.
  - rewrite !Delete_node. cbn [fst].
    replace (ChildNum (mkTree mn mx h pos (c2 :: cs2') d2 lg) key)
      with (ChildNum (mkTree mn mx h pos (c1 :: cs1) d1 lg) key)
      by reflexivity.
    assert (Hat := fun P => at_update_agree
              (fun c => Delete sha1 c key) (fun c => Delete sha1 c key)
              (c1 :: cs1) (c2 :: cs2') P
              (Z.to_nat (ChildNum (mkTree mn mx h pos (c1 :: cs1) d1 lg) key))).
    lapply Hat; clear Hat.
    2:{ eapply Forall_Forall2_combine; [exact IH | exact Hcs |].
        simpl. intros a b Ha Hab. split; [exact Hab | apply Ha; exact Hab]. }
    intro Hat.
    destruct (at_update (fun c : MerkleTree V1 => Delete sha1 c key) _ _)
      as [[cs1' o1]|],
      (at_update (fun c : MerkleTree V2 => Delete sha1 c key) _ _)
      as [[cs2'' o2]|];
      try contradiction.
    + destruct Hat as [Hcs'' <-].
      destruct o1; cbn [fst snd]; (split; [|reflexivity]).
      * assert (Hr : same_keys (Rehash sha1 (mkTree mn mx h pos cs1' d1 lg))
                               (Rehash sha1 (mkTree mn mx h pos cs2'' d2 lg)))
          by (apply Rehash_agree; constructor; assumption).
        cbv zeta.
        pose proof (GetLargestEntry_agree _ _ Hr) as Hl.
        destruct (GetLargestEntry (Rehash sha1 (mkTree mn mx h pos cs1' d1 lg))),
                 (GetLargestEntry (Rehash sha1 (mkTree mn mx h pos cs2'' d2 lg)));
          simpl in Hl; try discriminate.
        -- injection Hl as ->. apply set_largest_agree. assumption.
        -- apply set_largest_agree. assumption.
      * constructor; assumption.
    + cbn [fst snd]. split; [constructor; assumption | reflexivity].
Qed.

Lemma apply_op_agree (t1 : MerkleTree V1) (t2 : MerkleTree V2)
      (o1 : op V1) (o2 : op V2) :
  same_keys t1 t2 -> same_op o1 o2 ->
  same_keys (fst (apply_op sha1 t1 o1)) (fst (apply_op sha1 t2 o2)) /\
  snd (apply_op sha1 t1 o1) = snd (apply_op sha1 t2 o2).
Proof.
  intros Ht Ho. destruct o1, o2; simpl in Ho; try contradiction; subst; simpl.
  - apply Insert_agree. assumption.
  - apply Update_agree. assumption.
  - apply Delete_agree. assumption.
Qed.

Lemma run_agree (ops1 : list (op V1)) (ops2 : list (op V2)) :
  Forall2 same_op ops1 ops2 ->
  forall t1 t2, same_keys t1 t2 ->
    same_keys (run sha1 ops1 t1) (run sha1 ops2 t2).
Proof.
  induction 1 as [|o1 o2 ops1 ops2 Ho _ IH]; intros t1 t2 Ht; simpl.
  - assumption.
  - apply IH. apply apply_op_agree; assumption.
Qed.

Lemma LookupByPosition_agree (dirs : list Z) :
  forall (t1 : MerkleTree V1) (t2 : MerkleTree V2),
    same_keys t1 t2 ->
    match LookupByPosition dirs t1, LookupByPosition dirs t2 with
    | Ok (Some n1), Ok (Some n2) => same_keys n1 n2
    | Ok None, Ok None => True
    | Throw what1, Throw what2 => what1 = what2
    | _, _ => False
    end.
Proof.
  induction dirs as [|front dirs IH]; intros t1 t2 H; simpl.
  - assumption.
  - inversion H as [? ? ? ? cs1 cs2 ? ? ? Hd Hcs]; subst.
    unfold IsLeaf. simpl.
    destruct Hcs as [|c1 c2 cs1 cs2 Hc Hcs]; [exact I|].
    destruct (front <? 0); [reflexivity|].
    assert (Hall : Forall2 same_keys (c1 :: cs1) (c2 :: cs2))
      by (constructor; assumption).
    clear Hc Hcs. revert Hall. generalize (c1 :: cs1) (c2 :: cs2).
    generalize (Z.to_nat front). intros n l1 l2 Hall. revert n.
    induction Hall as [|a b l1 l2 Hab _ IHl]; intros [|n]; simpl;
      try reflexivity.
    + apply IH. assumption.
    + apply IHl.
Qed.

End Agree.

End SameKeys.

Lemma list_eq_Z_refl (l : list Z) : Merkle.list_eq_Z l l = true.
Proof.
  induction l as [|x l IH]; simpl; [reflexivity|].
  rewrite Z.eqb_refl. assumption.
Qed.

(** The hash [Rehash] assigns to a node is a function of the keys
    stored in the node and of the hashes of its children; two trees built
    by the same sequence of operations on the same keys, whatever values
    the operations carry, agree on the hash, the range, the position and
    the cache of every node. *)
Lemma same_operations_same_keys (V1 V2 : Type) (sha1 : string -> Z)
        (ops1 : list (Merkle.op V1)) (ops2 : list (Merkle.op V2)) :
  Forall2 Merkle.same_op ops1 ops2 ->
  (forall (cs : list (Merkle.MerkleTree V1)) (data : list (Z * V1)),
     Merkle.hash_ (Merkle.Rehash sha1 (Merkle.mkTree 0 0 0 [] cs data None))
     = Merkle.hash_from_keys sha1 (map Merkle.GetHash cs) (map fst data)) /\
  Merkle.same_keys (Merkle.run sha1 ops1 (Merkle.EmptyTree V1 sha1))
                   (Merkle.run sha1 ops2 (Merkle.EmptyTree V2 sha1)) /\
  Merkle.GetHash (Merkle.run sha1 ops1 (Merkle.EmptyTree V1 sha1))
  = Merkle.GetHash (Merkle.run sha1 ops2 (Merkle.EmptyTree V2 sha1)) /\
  forall dirs,
    match Merkle.LookupByPosition dirs
            (Merkle.run sha1 ops1 (Merkle.EmptyTree V1 sha1)),
          Merkle.LookupByPosition dirs
            (Merkle.run sha1 ops2 (Merkle.EmptyTree V2 sha1)) with
    | Ok (Some n1), Ok (Some n2) =>
        Merkle.GetHash n1 = Merkle.GetHash n2 /\ Merkle.node_eqb n1 n2 = true
    | Ok None, Ok None => True
    | Throw what1, Throw what2 => what1 = what2
    | _, _ => False
    end.
Proof.
  intro Hops.
  assert (Hsame : Merkle.same_keys
                    (Merkle.run sha1 ops1 (Merkle.EmptyTree V1 sha1))
                    (Merkle.run sha1 ops2 (Merkle.EmptyTree V2 sha1)))
    by (apply SameKeys.run_agree; [assumption | apply SameKeys.EmptyTree_agree]).
  split; [|split; [exact Hsame | split]].
  - intros cs data. apply SameKeys.Rehash_value_from_keys.
  - apply SameKeys.same_keys_inv in Hsame. unfold Merkle.GetHash. tauto.
  - intro dirs.
    pose proof (SameKeys.LookupByPosition_agree V1 V2 dirs _ _ Hsame) as H.
    destruct (Merkle.LookupByPosition dirs
                (Merkle.run sha1 ops1 (Merkle.EmptyTree V1 sha1)))
      as [[n1|]|w1],
      (Merkle.LookupByPosition dirs
         (Merkle.run sha1 ops2 (Merkle.EmptyTree V2 sha1)))
      as [[n2|]|w2]; try assumption.
    apply SameKeys.same_keys_inv in H.
    destruct H as (_ & _ & Hh & Hp & _).
    unfold Merkle.GetHash, Merkle.node_eqb. rewrite Hh, Hp.
    rewrite list_eq_Z_refl, Z.eqb_refl. split; reflexivity.
Qed.


(** ** Facts on the sorted maps of the leaves *)

Module MapFacts.
Import Merkle.

Section Maps.

Variable V : Type.
Implicit Types (data : list (Z * V)) (key : Z).

Lemma map_find_not_in data key :
  Forall (fun kv => fst kv <> key) data -> map_find key data = None.
Proof.
  induction 1 as [|[k v] data Hk _ IH]; simpl; [reflexivity|].
  simpl in Hk. destruct (Z.eqb_spec k key); [contradiction | assumption].
Qed.

Lemma map_find_app data1 data2 key :
  map_find key (data1 ++ data2) =
  match map_find key data1 with
  | Some v => Some v
  | None => map_find key data2
  end.
Proof.
  induction data1 as [|[k v] data1 IH]; simpl; [reflexivity|].
  destruct (k =? key); [reflexivity | assumption].
Qed.

Lemma map_find_insert data key (val : V) :
  map_find key data = None ->
  map_find key (map_insert key val data) = Some val.
Proof.
  induction data as [|[k v] data IH]; simpl; intro H.
  - rewrite Z.eqb_refl. reflexivity.
  - destruct (Z.eqb_spec k key) as [E|E]; [discriminate|].
    destruct (Z.ltb_spec key k).
    + simpl. rewrite Z.eqb_refl. reflexivity.
    + destruct (Z.eqb_spec key k); [congruence|].
      simpl. destruct (Z.eqb_spec k key); [contradiction|]. auto.
Qed.

Lemma map_insert_keys data key (val : V) :
  forall kv, In kv (map_insert key val data) -> kv = (key, val) \/ In kv data.
Proof.
  induction data as [|[k v] data IH]; simpl; intros kv H.
  - destruct H as [H|[]]. left. symmetry. assumption.
  - destruct (key <? k).
    + destruct H as [H|H]; [left; symmetry; assumption | right; assumption].
    + destruct (key =? k); [right; assumption|].
      destruct H as [H|H]; [right; left; assumption|].
      destruct (IH kv H); [left | right; right]; assumption.
Qed.

Lemma map_insert_within data key (val : V) mn mx :
  mn <= key < mx -> keys_within mn mx data ->
  keys_within mn mx (map_insert key val data).
Proof.
  intros Hk Hd. unfold keys_within in *. rewrite Forall_forall in *.
  intros kv Hin. destruct (map_insert_keys _ _ _ _ Hin) as [->|H].
  - exact Hk.
  - apply Hd. assumption.
Qed.

Lemma map_insert_sorted data key (val : V) :
  keys_sorted data -> keys_sorted (map_insert key val data).
Proof.
  unfold keys_sorted. induction data as [|[k v] data IH]; simpl; intro H.
  - constructor; constructor.
  - inversion H as [|? ? Hs Hf]; subst.
    destruct (Z.ltb_spec key k).
    + simpl. constructor; [assumption|]. constructor; [assumption|].
      eapply Forall_impl; [|exact Hf]. simpl. intros. lia.
    + destruct (Z.eqb_spec key k); [assumption|].
      simpl. constructor; [auto|].
      apply Forall_forall. intros x Hx. apply in_map_iff in Hx.
      destruct Hx as (kv & <- & Hin).
      destruct (map_insert_keys _ _ _ _ Hin) as [->|Hin'].
      * simpl. lia.
      * rewrite Forall_forall in Hf. apply Hf. apply in_map. assumption.
Qed.

Lemma map_erase_incl data key : incl (map_erase key data) data.
Proof.
  induction data as [|[k v] data IH]; simpl; [apply incl_refl|].
  destruct (k =? key); [apply incl_tl, incl_refl|].
  apply incl_cons; [left; reflexivity | apply incl_tl; assumption].
Qed.

Lemma map_erase_sorted data key :
  keys_sorted data -> keys_sorted (map_erase key data).
Proof.
  unfold keys_sorted. induction data as [|[k v] data IH]; simpl; intro H;
    [constructor|].
  inversion H as [|? ? Hs Hf]; subst.
  destruct (k =? key); [assumption|].
  simpl. constructor; [auto|].
  rewrite Forall_forall in *. intros x Hx. apply Hf.
  apply in_map_iff in Hx. destruct Hx as (kv & <- & Hin).
  apply in_map. eapply map_erase_incl; eassumption.
Qed.

Lemma map_erase_within data key mn mx :
  keys_within mn mx data -> keys_within mn mx (map_erase key data).
Proof.
  unfold keys_within. rewrite !Forall_forall. intros H kv Hin.
  apply H. eapply map_erase_incl; eassumption.
Qed.

Lemma map_find_erase data key :
  keys_sorted data -> map_find key (map_erase key data) = None.
Proof.
  unfold keys_sorted. induction data as [|[k v] data IH]; simpl; intro H;
    [reflexivity|].
  inversion H as [|? ? Hs Hf]; subst.
  destruct (Z.eqb_spec k key) as [E|E].
  - apply map_find_not_in. rewrite Forall_forall in *. intros kv Hin.
    specialize (Hf (fst kv) (in_map fst _ _ Hin)). lia.
  - simpl. destruct (Z.eqb_spec k key); [contradiction | auto].
Qed.

Lemma map_assign_keys data key (val : V) :
  map fst (map_assign key val data) = map fst data.
Proof.
  induction data as [|[k v] data IH]; simpl; [reflexivity|].
  destruct (k =? key); simpl; [reflexivity | f_equal; assumption].
Qed.

Lemma keys_within_map_fst data1 (data2 : list (Z * V)) mn mx :
  map fst data1 = map fst data2 ->
  keys_within mn mx data2 -> keys_within mn mx data1.
Proof.
  unfold keys_within. rewrite !Forall_forall. intros E H kv Hin.
  assert (Hk : In (fst kv) (map fst data2))
    by (rewrite <- E; apply in_map; assumption).
  apply in_map_iff in Hk. destruct Hk as (kv' & <- & Hin'). auto.
Qed.

(** Distinct keys of a window cannot outnumber it. *)
Lemma sorted_within_length (keys : list Z) (mn mx : Z) :
  StronglySorted Z.lt keys -> Forall (fun k => mn <= k < mx) keys ->
  mn <= mx -> Z.of_nat (length keys) <= mx - mn.
Proof.
  intros Hs. revert mn. induction Hs as [|k keys Hs IH Hf]; intros mn Hw Hle.
  - simpl. lia.
  - inversion Hw as [|? ? Hk Hw']; subst.
    assert (Z.of_nat (length keys) <= mx - (k + 1)).
    { apply IH; [|lia]. rewrite Forall_forall in *. intros x Hx.
      specialize (Hf x Hx). specialize (Hw' x Hx). lia. }
    simpl length. lia.
Qed.

End Maps.

End MapFacts.

(** ** Facts on the access to children *)

Module ChildrenFacts.
Import Merkle.

Section Children.

Variables A B : Type.

Lemma at_nth (f : A -> B) (oob : B) (cs : list A) :
  forall index,
    at_ f oob cs index =
    match nth_error cs index with Some c => f c | None => oob end.
Proof.
  induction cs as [|c cs IH]; intros [|index]; simpl; auto.
Qed.

Lemma at_update_nth (f : A -> A * B) (cs : list A) :
  forall index,
    match at_update f cs index with
    | Some (cs', o) =>
        exists c, nth_error cs index = Some c /\ snd (f c) = o /\
                  nth_error cs' index = Some (fst (f c)) /\
                  length cs' = length cs /\
                  (forall j, j <> index -> nth_error cs' j = nth_error cs j)
    | None => nth_error cs index = None
    end.
Proof.
  induction cs as [|c cs IH]; intros [|index]; simpl; auto.
  - destruct (f c) as [c' o] eqn:E. exists c. rewrite E. simpl.
    repeat split; try reflexivity.
    intros [|j] Hj; [contradiction | reflexivity].
  - specialize (IH index).
    destruct (at_update f cs index) as [[cs' o]|]; [|assumption].
    destruct IH as (c0 & H1 & H2 & H3 & H4 & H5).
    exists c0. repeat split; try assumption.
    + simpl. congruence.
    + intros [|j] Hj; simpl; [reflexivity|]. apply H5. congruence.
Qed.

End Children.

End ChildrenFacts.

(** ** Ranges, and the child a key is routed to *)

Module RangeFacts.
Import Merkle.

Lemma width_S (d : nat) : (d <= 41)%nat -> width d = 8 * width (S d).
Proof.
  intro H. unfold width.
  replace (128 - 3 * Z.of_nat d) with (3 + (128 - 3 * Z.of_nat (S d))) by lia.
  rewrite Z.pow_add_r by lia. reflexivity.
Qed.

Lemma width_pos (d : nat) : (d <= 42)%nat -> 0 < width d.
Proof. intro H. unfold width. apply Z.pow_pos_nonneg; lia. Qed.

Lemma width_le (d : nat) : (d <= 42)%nat -> width d <= 2 ^ 128.
Proof. intro H. unfold width. apply Z.pow_le_mono_r; lia. Qed.

Lemma width_42 : width 42 = 4.
Proof. reflexivity. Qed.

Lemma width_ge_4 (d : nat) : (d <= 42)%nat -> 4 <= width d.
Proof.
  intro H. rewrite <- width_42. unfold width. apply Z.pow_le_mono_r; lia.
Qed.

Lemma two_128 : 2 ^ 128 = Key.keys_in_ring.
Proof. reflexivity. Qed.

Lemma uint256_small (x : Z) : 0 <= x <= 2 ^ 128 -> Key.uint256 x = x.
Proof.
  intro H. unfold Key.uint256. apply Z.mod_small.
  assert (2 ^ 128 < 2 ^ 256) by reflexivity. lia.
Qed.

Lemma InBetween_closed (k lo upper : Z) :
  Key.in_ring k -> Key.in_ring lo -> Key.in_ring upper -> lo <= upper ->
  Key.InBetween k lo upper true = ((lo <=? k) && (k <=? upper)).
Proof.
  intros Hk Hlo Hup Hle. rewrite KeyFacts.InBetween_cases by assumption.
  unfold Key.in_between_cases. zbool.
Qed.

Section Routing.

Variable V : Type.

Lemma ChildNum_bound (t : MerkleTree V) (key : Z) : 0 <= ChildNum t key < 8.
Proof.
  unfold ChildNum, num_children_.
  destruct (key >=? max_key_ t); [lia|].
  destruct (key <? min_key_ t); [lia|].
  change (8 - 1) with (Z.ones 3). rewrite Z.land_ones by lia.
  apply Z.mod_pos_bound. reflexivity.
Qed.

(** In a node of depth at most 41 a key of the node's range is routed to
    the child whose window holds it. *)
Lemma ChildNum_wf d mn mx h pos cs (data : list (Z * V)) lg key :
  length pos = d -> (d <= 41)%nat -> range_ok d mn mx -> mn <= key < mx ->
  let index := ChildNum (mkTree mn mx h pos cs data lg) key in
  0 <= index < 8 /\
  mn + index * width (S d) <= key < mn + (index + 1) * width (S d).
Proof.
  intros Hpos Hd (Hmx & Hmn & Hal & Htop) Hk.
  split; [apply ChildNum_bound|].
  unfold ChildNum, GetDepth, num_children_.
  cbn [min_key_ max_key_ position_]. rewrite Hpos.
  destruct (Z.geb_spec key mx); [lia|].
  destruct (Z.ltb_spec key mn); [lia|].
  change (8 - 1) with (Z.ones 3). rewrite Z.land_ones by lia.
  rewrite Z.shiftr_div_pow2 by lia.
  replace (128 - 3 * (Z.of_nat d + 1)) with (128 - 3 * Z.of_nat (S d)) by lia.
  fold (width (S d)).
  pose proof (width_pos (S d) ltac:(lia)) as Hw.
  rewrite (width_S d Hd) in Hmx, Hal.
  set (w := width (S d)) in *.
  assert (Hq : mn = w * (8 * (mn / (8 * w)))).
  { pose proof (Z.div_mod mn (8 * w) ltac:(lia)). lia. }
  set (q := mn / (8 * w)) in *.
  assert (Hdiv : key / w = 8 * q + (key - mn) / w).
  { replace key with ((8 * q) * w + (key - mn)) at 1 by lia.
    rewrite Z.div_add_l by lia. reflexivity. }
  rewrite Hdiv.
  assert (Hr : 0 <= (key - mn) / w < 8).
  { split; [apply Z.div_pos; lia | apply Z.div_lt_upper_bound; lia]. }
  replace (8 * q + (key - mn) / w) with ((key - mn) / w + q * 2 ^ 3) by lia.
  rewrite Z.mod_add by lia. rewrite Z.mod_small by (simpl; lia).
  pose proof (Z.div_mod (key - mn) w ltac:(lia)).
  pose proof (Z.mod_pos_bound (key - mn) w Hw).
  lia.
Qed.

(** The [while] loop of [CreateChildren] on sorted entries of a window
    that starts at [lower]. *)
Lemma take_range_spec (lower upper hi : Z) (data : list (Z * V)) :
  0 <= lower -> lower <= upper -> upper < 2 ^ 128 -> hi <= 2 ^ 128 ->
  keys_sorted data -> keys_within lower hi data ->
  data = fst (take_range lower upper data) ++ snd (take_range lower upper data) /\
  keys_within lower (upper + 1) (fst (take_range lower upper data)) /\
  keys_within (upper + 1) hi (snd (take_range lower upper data)).
Proof.
  intros Hlo Hle Hup Hhi. rewrite two_128 in *.
  unfold keys_sorted, keys_within.
  induction data as [|[k v] data IH]; intros Hs Hw; simpl.
  - repeat split; constructor.
  - inversion Hs as [|? ? Hs' Hf]; subst.
    inversion Hw as [|? ? Hk Hw']; subst. simpl in Hk.
    rewrite InBetween_closed by (unfold Key.in_ring; lia).
    destruct (Z.leb_spec lower k); [|lia].
    destruct (Z.leb_spec k upper); simpl.
    + specialize (IH Hs' Hw').
      destruct (take_range lower upper data) as [taken left]. simpl in *.
      destruct IH as (E & Ht & Hl).
      repeat split; try assumption.
      * f_equal. assumption.
      * constructor; [simpl; lia | assumption].
    + repeat split; try constructor; try (simpl; lia).
      rewrite Forall_forall in *. intros kv Hin.
      specialize (Hf (fst kv) (in_map fst _ _ Hin)).
      specialize (Hw' kv Hin). lia.
Qed.

End Routing.

End RangeFacts.

(** ** Well-formed trees and the store operations *)

Module WellFormed.
Import Merkle MerkleInduction MerkleEquations MapFacts ChildrenFacts RangeFacts.

Section WF.

Variable V : Type.
Variable sha1 : string -> Z.

Lemma wf_fields (d : nat) (t : MerkleTree V) :
  wf d t ->
  length (position_ t) = d /\ (d <= 42)%nat /\
  range_ok d (min_key_ t) (max_key_ t).
Proof.
  intro H. inversion H; subst; simpl;
    (split; [reflexivity | split; [lia | assumption]]).
Qed.

(** Neither the hash nor the largest-key cache matters to [wf], [Lookup]
    and [Contains]. *)
Lemma wf_cache d mn mx h h' pos cs (data : list (Z * V)) lg lg' :
  wf d (mkTree mn mx h pos cs data lg) -> wf d (mkTree mn mx h' pos cs data lg').
Proof. intro H. inversion H; subst; [apply wf_leaf | apply wf_node]; auto. Qed.

Lemma wf_Rehash d (t : MerkleTree V) : wf d t -> wf d (Rehash sha1 t).
Proof. destruct t. simpl. apply wf_cache. Qed.

Lemma wf_set_largest d (t : MerkleTree V) lg : wf d t -> wf d (set_largest t lg).
Proof. destruct t. simpl. apply wf_cache. Qed.

Lemma Lookup_cache mn mx h h' pos cs (data : list (Z * V)) lg lg' key :
  Lookup (mkTree mn mx h' pos cs data lg') key
  = Lookup (mkTree mn mx h pos cs data lg) key.
Proof. destruct cs; reflexivity. Qed.

Lemma Lookup_Rehash (t : MerkleTree V) key :
  Lookup (Rehash sha1 t) key = Lookup t key.
Proof. destruct t. simpl Rehash. apply Lookup_cache. Qed.

Lemma Lookup_set_largest (t : MerkleTree V) lg key :
  Lookup (set_largest t lg) key = Lookup t key.
Proof. destruct t. simpl set_largest. apply Lookup_cache. Qed.

Lemma nth_error_lt (A : Type) (l : list A) (i : nat) :
  (i < length l)%nat -> exists x, nth_error l i = Some x.
Proof.
  intro H. destruct (nth_error l i) eqn:E; [eauto|].
  apply nth_error_None in E. lia.
Qed.

Lemma aligned_child (mn w i : Z) :
  0 < w -> mn mod (8 * w) = 0 -> (mn + i * w) mod w = 0.
Proof.
  intros Hw Hal. rewrite Z.mod_add by lia.
  pose proof (Z.div_mod mn (8 * w) ltac:(lia)) as E. rewrite Hal in E.
  replace mn with ((8 * (mn / (8 * w))) * w) by lia.
  apply Z.mod_mul. lia.
Qed.

(** [CreateChildren] on the sorted entries of the window it divides:
    nothing stays behind, and each child is a leaf over its share of the
    window holding the entries of that share. *)
Lemma CreateChildren_loop_spec (count : nat) :
  forall (i step last_key : Z) (pos : list Z) (data : list (Z * V)),
    1 <= step -> 0 <= last_key ->
    last_key + Z.of_nat count * step <= 2 ^ 128 ->
    keys_sorted data ->
    keys_within last_key (last_key + Z.of_nat count * step) data ->
    snd (CreateChildren_loop sha1 count i step last_key pos data) = [] /\
    length (fst (CreateChildren_loop sha1 count i step last_key pos data))
      = count /\
    forall j c,
      nth_error (fst (CreateChildren_loop sha1 count i step last_key pos data)) j
        = Some c ->
      min_key_ c = last_key + Z.of_nat j * step /\
      max_key_ c = last_key + (Z.of_nat j + 1) * step /\
      position_ c = pos ++ [i + Z.of_nat j] /\
      child_nodes_ c = [] /\
      keys_sorted (data_ c) /\
      keys_within (min_key_ c) (max_key_ c) (data_ c) /\
      forall key, min_key_ c <= key < max_key_ c ->
                  map_find key (data_ c) = map_find key data.
Proof.
  induction count as [|count IH];
    intros i step last_key pos data Hstep Hlast Htop Hs Hw;
    cbn [CreateChildren_loop].
  - cbn [fst snd]. split; [|split; [reflexivity|]].
    + destruct data as [|kv data]; [reflexivity|].
      inversion Hw as [|? ? Hk _]; subst. lia.
    + intros [|j] c H; discriminate H.
  - rewrite Nat2Z.inj_succ in Htop, Hw.
    replace (Z.succ (Z.of_nat count) * step)
      with (step + Z.of_nat count * step) in Htop, Hw by lia.
    rewrite (uint256_small (last_key + step)) by lia.
    rewrite (uint256_small (last_key + step - 1)) by lia.
    pose proof (take_range_spec V last_key (last_key + step - 1)
                  (last_key + (step + Z.of_nat count * step)) data
                  Hlast ltac:(lia) ltac:(lia) Htop Hs Hw) as (E & Ht & Hl).
    destruct (take_range last_key (last_key + step - 1) data) as [taken left].
    cbn [fst snd] in E, Ht, Hl.
    replace (last_key + step - 1 + 1) with (last_key + step) in Ht, Hl by lia.
    assert (Hsplit : StronglySorted Z.lt (map fst taken)
                     /\ StronglySorted Z.lt (map fst left)).
    { unfold keys_sorted in Hs. rewrite E, map_app in Hs.
      apply SuccListFacts.StronglySorted_app_inv in Hs. tauto. }
    destruct Hsplit as [Hst Hsl].
    specialize (IH (i + 1) step (last_key + step) pos left Hstep
                   ltac:(lia) ltac:(lia) Hsl).
    lapply IH; clear IH.
    2:{ eapply Forall_impl; [|exact Hl]. cbv beta. intros. lia. }
    intros (IH1 & IH2 & IH3).
    destruct (CreateChildren_loop sha1 count (i + 1) step (last_key + step)
                                  pos left) as [children left'].
    cbn [fst snd] in *. split; [assumption|]. split; [simpl; congruence|].
    intros [|j] c Hc; simpl in Hc.
    + injection Hc as <-.
      cbn [min_key_ max_key_ position_ child_nodes_ data_ Rehash Z.of_nat].
      split; [lia|]. split; [lia|]. split; [do 2 f_equal; lia|].
      split; [reflexivity|]. split; [exact Hst|]. split; [exact Ht|].
      intros key Hkey. rewrite E, map_find_app.
      destruct (map_find key taken); [reflexivity|].
      symmetry. apply map_find_not_in.
      eapply Forall_impl; [|exact Hl]. cbv beta. intros. lia.
    + destruct (IH3 j c Hc) as (H1 & H2 & H3 & H4 & H5 & H6 & H7).
      rewrite Nat2Z.inj_succ.
      split; [rewrite H1; lia|]. split; [rewrite H2; lia|].
      split; [rewrite H3; do 2 f_equal; lia|].
      split; [assumption|]. split; [assumption|]. split; [assumption|].
      intros key Hkey. rewrite H7 by assumption.
      rewrite E, map_find_app.
      rewrite (map_find_not_in V taken key); [reflexivity|].
      eapply Forall_impl; [|exact Ht]. cbv beta. intros. lia.
Qed.

Lemma width_div (d : nat) : (d <= 41)%nat -> width d / num_children_ = width (S d).
Proof.
  intro H. rewrite (width_S d H). unfold num_children_.
  rewrite Z.mul_comm. apply Z.div_mul. discriminate.
Qed.

(** A node whose children are leaves over the shares of its window. *)
Lemma wf_children_leaf d mn (c : MerkleTree V) (i : nat) (pos : list Z) (k : Z) :
  length pos = d -> (d <= 41)%nat -> 0 <= mn -> mn mod width d = 0 ->
  mn + width d <= 2 ^ 128 -> (i < 8)%nat ->
  min_key_ c = mn + Z.of_nat i * width (S d) ->
  max_key_ c = mn + (Z.of_nat i + 1) * width (S d) ->
  position_ c = pos ++ [k] -> child_nodes_ c = [] ->
  keys_sorted (data_ c) -> keys_within (min_key_ c) (max_key_ c) (data_ c) ->
  wf (S d) c.
Proof.
  intros Hpos Hd Hmn Hal Htop Hi H1 H2 H3 H4 H5 H6.
  destruct c as [cmn cmx ch cpos ccs cdata clg]. simpl in *. subst ccs cpos.
  pose proof (width_pos (S d) ltac:(lia)) as Hw.
  rewrite (width_S d Hd) in Hal, Htop.
  apply wf_leaf; try assumption.
  - rewrite length_app. simpl. lia.
  - lia.
  - unfold range_ok. subst cmn cmx. repeat split; try lia.
    + apply aligned_child; assumption.
    + nia.
Qed.

Lemma split_leaf_spec d mn mx h pos (data : list (Z * V)) lg :
  length pos = d -> (d <= 41)%nat -> range_ok d mn mx ->
  keys_sorted data -> keys_within mn mx data ->
  exists c0 cs0,
    CreateChildren sha1 (mkTree mn mx h pos [] data lg)
      = mkTree mn mx h pos (c0 :: cs0) [] lg /\
    wf d (mkTree mn mx h pos (c0 :: cs0) [] lg) /\
    forall key, mn <= key < mx ->
      Lookup (mkTree mn mx h pos (c0 :: cs0) [] lg) key =
      match map_find key data with
      | Some v => Ok v
      | None => Throw "Key does not exist in subtree"
      end.
Proof.
  intros Hpos Hd Hr Hs Hw. pose proof Hr as (Hmx & Hmn & Hal & Htop).
  pose proof (width_pos (S d) ltac:(lia)) as Hw'.
  pose proof (width_S d Hd) as HwS.
  unfold CreateChildren.
  rewrite uint256_small by lia.
  replace (mx - mn) with (width d) by lia. rewrite (width_div d Hd).
  pose proof (CreateChildren_loop_spec (Z.to_nat num_children_) 0
                (width (S d)) mn pos data ltac:(lia) Hmn) as Hloop.
  change (Z.to_nat num_children_) with 8%nat in *.
  change (Z.of_nat 8) with 8 in Hloop.
  specialize (Hloop ltac:(lia) Hs).
  lapply Hloop; clear Hloop.
  2:{ eapply Forall_impl; [|exact Hw]. cbv beta. intros. lia. }
  intros (Hleft & Hlen & Hch).
  destruct (CreateChildren_loop sha1 8 0 (width (S d)) mn pos data)
    as [children left].
  cbn [fst snd] in *. subst left.
  destruct children as [|c0 cs0]; [discriminate Hlen|].
  exists c0, cs0. split; [reflexivity|]. split.
  - apply wf_node; try assumption.
    intros i c Hc.
    assert (Hi : (i < length (c0 :: cs0))%nat)
      by (apply nth_error_Some; rewrite Hc; discriminate).
    rewrite Hlen in Hi.
    destruct (Hch i c Hc) as (H1 & H2 & H3 & H4 & H5 & H6 & _).
    split; [assumption|].
    eapply wf_children_leaf; try eassumption; lia.
  - intros key Hkey. rewrite Lookup_node, at_nth.
    pose proof (ChildNum_wf V d mn mx h pos (c0 :: cs0) [] lg key
                  Hpos Hd Hr Hkey) as (Hidx & Hwin).
    set (index := ChildNum (mkTree mn mx h pos (c0 :: cs0) [] lg) key) in *.
    destruct (nth_error_lt _ (c0 :: cs0) (Z.to_nat index)) as [c Hc];
      [rewrite Hlen; lia|].
    rewrite Hc.
    destruct (Hch _ c Hc) as (H1 & H2 & H3 & H4 & H5 & H6 & H7).
    rewrite Z2Nat.id in H1, H2 by lia.
    destruct c as [cmn cmx ch cpos ccs cdata clg].
    cbn [min_key_ max_key_ position_ child_nodes_ data_] in *. subst ccs.
    rewrite Lookup_leaf. rewrite H7 by lia. reflexivity.
Qed.

Lemma wf_replace_child d mn mx h h' pos c0 cs0 cs' lg lg' index
      (c' : MerkleTree V) :
  wf d (mkTree mn mx h pos (c0 :: cs0) [] lg) ->
  length cs' = length (c0 :: cs0) ->
  nth_error cs' index = Some c' ->
  (forall j, j <> index -> nth_error cs' j = nth_error (c0 :: cs0) j) ->
  (forall c, nth_error (c0 :: cs0) index = Some c -> min_key_ c' = min_key_ c) ->
  wf (S d) c' ->
  wf d (mkTree mn mx h' pos cs' [] lg').
Proof.
  intros H Hlen Hnth Hoth Hmin Hwf'.
  inversion H as [|? ? ? ? ? ? ? Hpos Hd Hr Hl Hch]; subst.
  apply wf_node; try assumption; try reflexivity; [congruence|].
  intros i c Hc. destruct (Nat.eq_dec i index) as [->|Hne].
  - rewrite Hnth in Hc. injection Hc as <-.
    destruct (nth_error_lt _ (c0 :: cs0) index) as [c Hc].
    { rewrite <- Hlen. apply nth_error_Some. rewrite Hnth. discriminate. }
    destruct (Hch _ _ Hc) as [Hm _].
    rewrite (Hmin c Hc). split; assumption.
  - rewrite (Hoth i Hne) in Hc. apply Hch. assumption.
Qed.

(** [Insert] on a well-formed subtree, for a key of its range. *)
Lemma Insert_wf (t : MerkleTree V) :
  forall d key val,
    wf d t -> min_key_ t <= key < max_key_ t ->
    min_key_ (fst (Insert sha1 t (key, val))) = min_key_ t /\
    wf d (fst (Insert sha1 t (key, val))) /\
    (Contains t key = true ->
     snd (Insert sha1 t (key, val)) = Threw "Key already exists") /\
    (Contains t key = false ->
     snd (Insert sha1 t (key, val)) = Done /\
     Lookup (fst (Insert sha1 t (key, val))) key = Ok val).
Proof.
  induction t as [mn mx h pos cs data lg IH] using MerkleTree_ind.
  intros d key val Hwf Hk. cbn [min_key_ max_key_] in Hk.
  inversion Hwf as [? ? ? ? ? ? ? Hpos Hd Hr Hs Hw
                   |? ? ? ? ? ? ? Hpos Hd Hr Hl Hch]; subst.
  - (* a leaf *)
    rewrite Insert_leaf, Contains_leaf. cbn [fst snd].
    destruct (map_find key data) eqn:Efind.
    + cbn [fst snd min_key_]. split; [reflexivity|]. split.
      * apply wf_leaf; auto.
      * split; [reflexivity | discriminate].
    + cbv zeta.
      assert (Hs' : keys_sorted (map_insert key val data))
        by (apply map_insert_sorted; assumption).
      assert (Hw' : keys_within mn mx (map_insert key val data))
        by (apply map_insert_within; assumption).
      assert (Hfound : map_find key (map_insert key val data) = Some val)
        by (apply map_find_insert; assumption).
      rewrite Z.gtb_ltb.
      destruct (Z.ltb_spec num_children_
                  (Z.of_nat (length (map_insert key val data)))) as [Hbig|Hsmall].
      * assert (Hd41 : (length pos <= 41)%nat).
        { pose proof (sorted_within_length (map fst (map_insert key val data))
                        mn mx Hs') as Hcount.
          rewrite length_map in Hcount. destruct Hr as (Hmx & _).
          lapply Hcount.
          2:{ unfold keys_within in Hw'. rewrite Forall_forall in *.
              intros x Hx. apply in_map_iff in Hx.
              destruct Hx as (kv & <- & Hin). auto. }
          intro Hc. specialize (Hc ltac:(lia)).
          destruct (Nat.eq_dec (length pos) 42) as [E|E]; [|lia].
          rewrite E, width_42 in Hmx. unfold num_children_ in Hbig. lia. }
        destruct (split_leaf_spec (length pos) mn mx h pos
                    (map_insert key val data) (bump_largest lg key)
                    eq_refl Hd41 Hr Hs' Hw')
          as (c0 & cs0 & Ecreate & Hwfn & Hlook).
        rewrite Ecreate. cbn [fst snd Rehash min_key_].
        split; [reflexivity|]. split; [eapply wf_cache; exact Hwfn|].
        split; [discriminate|]. intros _. split; [reflexivity|].
        rewrite (Lookup_cache mn mx h _ pos (c0 :: cs0) []
                              (bump_largest lg key) _ key).
        rewrite Hlook by assumption.
        rewrite Hfound. reflexivity.
      * cbn [fst snd Rehash min_key_].
        split; [reflexivity|]. split; [apply wf_leaf; auto|].
        split; [discriminate|]. intros _. split; [reflexivity|].
        rewrite Lookup_leaf, Hfound. reflexivity.
  - (* an internal node *)
    destruct cs as [|c0 cs0]; [discriminate Hl|].
    rewrite Insert_node, Contains_node, at_nth. cbn [fst].
    pose proof (ChildNum_wf V (length pos) mn mx h pos (c0 :: cs0) [] lg key
                  eq_refl Hd Hr Hk) as (Hidx & Hwin).
    set (index := ChildNum (mkTree mn mx h pos (c0 :: cs0) [] lg) key) in *.
    destruct (nth_error_lt _ (c0 :: cs0) (Z.to_nat index)) as [c Hc];
      [rewrite Hl; lia|].
    rewrite Hc.
    pose proof (at_update_nth _ _ (fun c => Insert sha1 c (key, val))
                  (c0 :: cs0) (Z.to_nat index)) as Hup.
    destruct (at_update (fun c => Insert sha1 c (key, val)) (c0 :: cs0)
                        (Z.to_nat index)) as [[cs' o]|];
      [|rewrite Hc in Hup; discriminate Hup].
    destruct Hup as (c1 & Hc1 & Ho & Hc' & Hlen' & Hoth).
    rewrite Hc in Hc1. injection Hc1 as <-.
    destruct (Hch _ _ Hc) as [Hminc Hwfc]. rewrite Z2Nat.id in Hminc by lia.
    pose proof (wf_fields _ _ Hwfc) as (_ & _ & (Hmaxc & _)).
    rewrite Forall_forall in IH.
    specialize (IH c (nth_error_In _ _ Hc) (S (length pos)) key val Hwfc
                   ltac:(lia)).
    destruct IH as (Emin & Hwf' & Htrue & Hfalse).
    assert (Hnode : forall h' lg', wf (length pos) (mkTree mn mx h' pos cs' [] lg')).
    { intros h' lg'.
      eapply (wf_replace_child _ mn mx h h' pos c0 cs0 cs' lg lg');
        try eassumption.
      intros c2 Hc2. rewrite Hc in Hc2. injection Hc2 as <-. assumption. }
    assert (Hlk : forall h' lg',
               Lookup (mkTree mn mx h' pos cs' [] lg') key
               = Lookup (fst (Insert sha1 c (key, val))) key).
    { intros h' lg'. destruct cs' as [|c0' cs0']; [discriminate Hlen'|].
      rewrite Lookup_node, at_nth.
      replace (ChildNum (mkTree mn mx h' pos (c0' :: cs0') [] lg') key)
        with index by reflexivity.
      rewrite Hc'. reflexivity. }
    destruct o; cbn [fst snd Rehash min_key_].
    + split; [reflexivity|]. split; [apply Hnode|]. split.
      * intro Ht. specialize (Htrue Ht). rewrite Ho in Htrue. discriminate.
      * intro Hf. split; [reflexivity|]. rewrite Hlk. apply Hfalse. assumption.
    + split; [reflexivity|]. split; [apply Hnode|]. split.
      * intro Ht. specialize (Htrue Ht). rewrite Ho in Htrue. assumption.
      * intro Hf. destruct (Hfalse Hf) as [Hd' _]. rewrite Ho in Hd'.
        discriminate.
Qed.

(** [Delete] on a well-formed subtree. *)
Lemma Delete_wf (t : MerkleTree V) :
  forall d key,
    wf d t ->
    min_key_ (fst (Delete sha1 t key)) = min_key_ t /\
    wf d (fst (Delete sha1 t key)) /\
    (Contains t key = true ->
     snd (Delete sha1 t key) = Done /\
     Lookup (fst (Delete sha1 t key)) key
     = Throw "Key does not exist in subtree") /\
    (Contains t key = false ->
     snd (Delete sha1 t key) = Threw "Key does not exist in subtree").
Proof.
  induction t as [mn mx h pos cs data lg IH] using MerkleTree_ind.
  intros d key Hwf.
  inversion Hwf as [? ? ? ? ? ? ? Hpos Hd Hr Hs Hw
                   |? ? ? ? ? ? ? Hpos Hd Hr Hl Hch]; subst.
  - rewrite Delete_leaf, Contains_leaf. cbn [fst snd].
    destruct (map_find key data) eqn:Efind; cbn [fst snd Rehash min_key_].
    + split; [reflexivity|]. split.
      * apply wf_leaf; auto;
          [apply map_erase_sorted | apply map_erase_within]; assumption.
      * split; [|discriminate]. intros _. split; [reflexivity|].
        rewrite Lookup_leaf, map_find_erase by assumption. reflexivity.
    + split; [reflexivity|]. split; [apply wf_leaf; auto|].
      split; [discriminate | reflexivity].
  - destruct cs as [|c0 cs0]; [discriminate Hl|].
    rewrite Delete_node, Contains_node, at_nth. cbn [fst].
    pose proof (ChildNum_bound V (mkTree mn mx h pos (c0 :: cs0) [] lg) key)
      as Hidx.
    set (index := ChildNum (mkTree mn mx h pos (c0 :: cs0) [] lg) key) in *.
    destruct (nth_error_lt _ (c0 :: cs0) (Z.to_nat index)) as [c Hc];
      [rewrite Hl; lia|].
    rewrite Hc.
    pose proof (at_update_nth _ _ (fun c => Delete sha1 c key)
                  (c0 :: cs0) (Z.to_nat index)) as Hup.
    destruct (at_update (fun c => Delete sha1 c key) (c0 :: cs0)
                        (Z.to_nat index)) as [[cs' o]|];
      [|rewrite Hc in Hup; discriminate Hup].
    destruct Hup as (c1 & Hc1 & Ho & Hc' & Hlen' & Hoth).
    rewrite Hc in Hc1. injection Hc1 as <-.
    destruct (Hch _ _ Hc) as [Hminc Hwfc].
    rewrite Forall_forall in IH.
    specialize (IH c (nth_error_In _ _ Hc) (S (length pos)) key Hwfc).
    destruct IH as (Emin & Hwf' & Htrue & Hfalse).
    assert (Hnode : forall h' lg', wf (length pos) (mkTree mn mx h' pos cs' [] lg')).
    { intros h' lg'.
      eapply (wf_replace_child _ mn mx h h' pos c0 cs0 cs' lg lg');
        try eassumption.
      intros c2 Hc2. rewrite Hc in Hc2. injection Hc2 as <-. assumption. }
    assert (Hlk : forall h' lg',
               Lookup (mkTree mn mx h' pos cs' [] lg') key
               = Lookup (fst (Delete sha1 c key)) key).
    { intros h' lg'. destruct cs' as [|c0' cs0']; [discriminate Hlen'|].
      rewrite Lookup_node, at_nth.
      replace (ChildNum (mkTree mn mx h' pos (c0' :: cs0') [] lg') key)
        with index by reflexivity.
      rewrite Hc'. reflexivity. }
    destruct o; cbv zeta; cbn [fst snd Rehash set_largest min_key_].
    + split; [reflexivity|]. split; [apply Hnode|]. split.
      * intro Ht. split; [reflexivity|]. rewrite Hlk. apply Htrue. assumption.
      * intro Hf. specialize (Hfalse Hf). rewrite Ho in Hfalse. discriminate.
    + split; [reflexivity|]. split; [apply Hnode|]. split.
      * intro Ht. destruct (Htrue Ht) as [Hd' _]. rewrite Ho in Hd'.
        discriminate.
      * intro Hf. specialize (Hfalse Hf). rewrite Ho in Hfalse. assumption.
Qed.

(** [Update] on a well-formed subtree. *)
Lemma Update_wf (t : MerkleTree V) :
  forall d key val,
    wf d t ->
    min_key_ (fst (Update sha1 t (key, val))) = min_key_ t /\
    wf d (fst (Update sha1 t (key, val))) /\
    (Contains t key = false ->
     snd (Update sha1 t (key, val)) = Threw "Key does not exist in subtree").
Proof.
  induction t as [mn mx h pos cs data lg IH] using MerkleTree_ind.
  intros d key val Hwf.
  inversion Hwf as [? ? ? ? ? ? ? Hpos Hd Hr Hs Hw
                   |? ? ? ? ? ? ? Hpos Hd Hr Hl Hch]; subst.
  - rewrite Update_leaf, Contains_leaf. cbn [fst snd].
    destruct (map_find key data) eqn:Efind; cbn [fst snd Rehash min_key_].
    + split; [reflexivity|]. split; [|discriminate].
      apply wf_leaf; auto.
      * unfold keys_sorted. rewrite map_assign_keys. assumption.
      * eapply keys_within_map_fst; [apply map_assign_keys | assumption].
    + split; [reflexivity|]. split; [apply wf_leaf; auto | reflexivity].
  - destruct cs as [|c0 cs0]; [discriminate Hl|].
    rewrite Update_node, Contains_node, at_nth. cbn [fst].
    pose proof (ChildNum_bound V (mkTree mn mx h pos (c0 :: cs0) [] lg) key)
      as Hidx.
    set (index := ChildNum (mkTree mn mx h pos (c0 :: cs0) [] lg) key) in *.
    destruct (nth_error_lt _ (c0 :: cs0) (Z.to_nat index)) as [c Hc];
      [rewrite Hl; lia|].
    rewrite Hc.
    pose proof (at_update_nth _ _ (fun c => Update sha1 c (key, val))
                  (c0 :: cs0) (Z.to_nat index)) as Hup.
    destruct (at_update (fun c => Update sha1 c (key, val)) (c0 :: cs0)
                        (Z.to_nat index)) as [[cs' o]|];
      [|rewrite Hc in Hup; discriminate Hup].
    destruct Hup as (c1 & Hc1 & Ho & Hc' & Hlen' & Hoth).
    rewrite Hc in Hc1. injection Hc1 as <-.
    destruct (Hch _ _ Hc) as [Hminc Hwfc].
    rewrite Forall_forall in IH.
    specialize (IH c (nth_error_In _ _ Hc) (S (length pos)) key val Hwfc).
    destruct IH as (Emin & Hwf' & Hfalse).
    assert (Hnode : forall h' lg', wf (length pos) (mkTree mn mx h' pos cs' [] lg')).
    { intros h' lg'.
      eapply (wf_replace_child _ mn mx h h' pos c0 cs0 cs' lg lg');
        try eassumption.
      intros c2 Hc2. rewrite Hc in Hc2. injection Hc2 as <-. assumption. }
    destruct o; cbn [fst snd Rehash min_key_].
    + split; [reflexivity|]. split; [apply Hnode|].
      intro Hf. specialize (Hfalse Hf). rewrite Ho in Hfalse. discriminate.
    + split; [reflexivity|]. split; [apply Hnode|].
      intro Hf. specialize (Hfalse Hf). rewrite Ho in Hfalse. assumption.
Qed.

(** The empty tree is well formed, and so is every tree reached from it
    with keys of the ring. *)
Lemma EmptyTree_wf : wf 0 (EmptyTree V sha1).
Proof.
  unfold EmptyTree.
  assert (Hr : range_ok 0 0 (Key.key_base ^ Key.key_len))
    by (repeat split; discriminate).
  destruct (split_leaf_spec 0 0 (Key.key_base ^ Key.key_len) 0 [] [] None
              eq_refl ltac:(lia) Hr ltac:(constructor) ltac:(constructor))
    as (c0 & cs0 & E & Hwf & _).
  rewrite E. exact Hwf.
Qed.

Lemma root_range (t : MerkleTree V) :
  wf 0 t -> min_key_ t = 0 /\ max_key_ t = Key.keys_in_ring.
Proof.
  intro H. destruct (wf_fields _ _ H) as (_ & _ & (Hmx & Hmn & Hal & Htop)).
  change (width 0) with (2 ^ 128) in *. rewrite two_128 in *.
  pose proof KeyFacts.keys_in_ring_pos. lia.
Qed.

Lemma reachable_wf (t : MerkleTree V) : reachable sha1 t -> wf 0 t.
Proof.
  induction 1 as [|t o Hreach IH Hkey]; [apply EmptyTree_wf|].
  destruct (root_range t IH) as [Hmin Hmax].
  destruct o as [key val|key val|key]; simpl in *.
  - apply Insert_wf; [assumption|]. rewrite Hmin, Hmax. exact Hkey.
  - apply Update_wf. assumption.
  - apply Delete_wf. assumption.
Qed.

Lemma Lookup_Ok_Contains (t : MerkleTree V) :
  forall key v, Lookup t key = Ok v -> Contains t key = true.
Proof.
  induction t as [mn mx h pos cs data lg IH] using MerkleTree_ind.
  intros key v. destruct cs as [|c0 cs0].
  - rewrite Lookup_leaf, Contains_leaf.
    destruct (map_find key data); [reflexivity | discriminate].
  - rewrite Lookup_node, Contains_node, !at_nth.
    replace (ChildNum (mkTree mn mx h pos (c0 :: cs0) data lg) key)
      with (ChildNum (mkTree mn mx h pos (c0 :: cs0) data lg) key)
      by reflexivity.
    destruct (nth_error (c0 :: cs0) _) as [c|] eqn:Hc; [|discriminate].
    rewrite Forall_forall in IH. apply IH. eapply nth_error_In. exact Hc.
Qed.

End WF.

End WellFormed.

(** C5: on every tree a peer can hold and for every key of the ring:
    when the key is absent, [Insert(k, v)] returns and [Lookup(k)] then
    returns [v]; a following [Delete(k)] returns and [Lookup(k)] then
    raises; [Update(k, v)] and [Delete(k)] on the tree without the key
    raise; and when the key is present, [Insert(k, v)] raises. *)
Theorem Merkle_store_contract (V : Type) (sha1 : string -> Z)
        (t : Merkle.MerkleTree V) (k : Z) (v : V) :
  Merkle.reachable sha1 t -> Key.in_ring k ->
  (Merkle.Contains t k = false ->
   snd (Merkle.Insert sha1 t (k, v)) = Merkle.Done /\
   Merkle.Lookup (fst (Merkle.Insert sha1 t (k, v))) k = Ok v /\
   snd (Merkle.Delete sha1 (fst (Merkle.Insert sha1 t (k, v))) k)
   = Merkle.Done /\
   Merkle.Lookup
     (fst (Merkle.Delete sha1 (fst (Merkle.Insert sha1 t (k, v))) k)) k
   = Throw "Key does not exist in subtree" /\
   snd (Merkle.Update sha1 t (k, v))
   = Merkle.Threw "Key does not exist in subtree" /\
   snd (Merkle.Delete sha1 t k)
   = Merkle.Threw "Key does not exist in subtree") /\
  (Merkle.Contains t k = true ->
   snd (Merkle.Insert sha1 t (k, v)) = Merkle.Threw "Key already exists").
Proof.
  intros Hreach Hk.
  pose proof (WellFormed.reachable_wf V sha1 t Hreach) as Hwf.
  destruct (WellFormed.root_range V t Hwf) as [Hmin Hmax].
  destruct (WellFormed.Insert_wf V sha1 t 0 k v Hwf) as (_ & Hwf1 & Htrue & Hfalse);
    [rewrite Hmin, Hmax; exact Hk|].
  split; [|exact Htrue].
  intro Habsent. destruct (Hfalse Habsent) as [Hdone Hlook].
  split; [exact Hdone|]. split; [exact Hlook|].
  destruct (WellFormed.Delete_wf V sha1 _ 0 k Hwf1) as (_ & _ & Hdel & _).
  destruct (Hdel (WellFormed.Lookup_Ok_Contains V _ _ _ Hlook)) as [Hd1 Hd2].
  split; [exact Hd1|]. split; [exact Hd2|]. split.
  - apply (WellFormed.Update_wf V sha1 t 0 k v Hwf). exact Habsent.
  - apply (WellFormed.Delete_wf V sha1 t 0 k Hwf). exact Habsent.
Qed.

Lemma Merkle_store_contract_witness :
  snd (Merkle.Insert Scenario.sha1 (Merkle.EmptyTree string Scenario.sha1)
         (3, "x"%string)) = Merkle.Done /\
  snd (Merkle.Insert Scenario.sha1
         (fst (Merkle.apply_op Scenario.sha1
                 (Merkle.EmptyTree string Scenario.sha1)
                 (Merkle.OpInsert 3 "x"%string))) (3, "v"%string))
  = Merkle.Threw "Key already exists".
Proof.
  split.
  - refine (proj1 (proj1 (Merkle_store_contract string Scenario.sha1
                            (Merkle.EmptyTree string Scenario.sha1)
                            3 "x"%string _ _) _)).
    + apply Merkle.reachable_empty.
    + split; [discriminate | reflexivity].
    + vm_compute. reflexivity.
  - refine (proj2 (Merkle_store_contract string Scenario.sha1 _ 3 "v"%string
                     _ _) _).
    + apply (Merkle.reachable_step _ _ (Merkle.OpInsert 3 "x"%string)).
      * apply Merkle.reachable_empty.
      * split; [discriminate | reflexivity].
    + split; [discriminate | reflexivity].
    + vm_compute. reflexivity.
Defined.

(** ** What a failed [Insert] leaves behind *)

Module FailedInsert.
Import Merkle MerkleInduction MerkleEquations ChildrenFacts WellFormed.

Section Caches.

Variable V : Type.
Variable sha1 : string -> Z.

Lemma nth_error_ext_eq (A : Type) (l1 l2 : list A) :
  (forall i, nth_error l1 i = nth_error l2 i) -> l1 = l2.
Proof.
  revert l2. induction l1 as [|a l1 IH]; intros [|b l2] H.
  - reflexivity.
  - discriminate (H 0%nat).
  - discriminate (H 0%nat).
  - pose proof (H 0%nat) as H0. simpl in H0. injection H0 as ->.
    f_equal. apply IH. intro i. exact (H (S i)).
Qed.

(** A failed [Insert] changes largest-key caches and nothing else. *)
Lemma Insert_throw_forget (t : MerkleTree V) :
  forall kv what,
    snd (Insert sha1 t kv) = Threw what ->
    forget_caches (fst (Insert sha1 t kv)) = forget_caches t.
Proof.
  induction t as [mn mx h pos cs data lg IH] using MerkleTree_ind.
  intros kv what. destruct cs as [|c0 cs0].
  - rewrite Insert_leaf. destruct (map_find (fst kv) data).
    + reflexivity.
    + cbv zeta. destruct (_ >? _); discriminate.
  - rewrite Insert_node.
    pose proof (at_update_nth _ _ (fun c => Insert sha1 c kv) (c0 :: cs0)
                  (Z.to_nat (ChildNum (mkTree mn mx h pos (c0 :: cs0) data lg)
                                      (fst kv)))) as Hup.
    destruct (at_update (fun c => Insert sha1 c kv) (c0 :: cs0) _)
      as [[cs' o]|]; [|reflexivity].
    destruct Hup as (c & Hc & Ho & Hc' & Hlen & Hoth).
    destruct o as [|what']; [discriminate|]. intros _.
    cbn [fst forget_caches]. f_equal.
    apply nth_error_ext_eq. intro i. rewrite !nth_error_map.
    destruct (Nat.eq_dec i (Z.to_nat (ChildNum (mkTree mn mx h pos (c0 :: cs0)
                                                      data lg) (fst kv))))
      as [->|Hne].
    + rewrite Hc', Hc. simpl. f_equal.
      rewrite Forall_forall in IH.
      apply (IH c (nth_error_In _ _ Hc) kv what'). exact Ho.
    + rewrite (Hoth i Hne). reflexivity.
Qed.

(** The cache of the node [Insert] is called on is always bumped. *)
Lemma Insert_largest (t : MerkleTree V) kv :
  (forall what, snd (Insert sha1 t kv) = Threw what ->
                largest_key_ (fst (Insert sha1 t kv))
                = bump_largest (largest_key_ t) (fst kv)).
Proof.
  destruct t as [mn mx h pos cs data lg]. intros what.
  destruct cs as [|c0 cs0].
  - rewrite Insert_leaf. destruct (map_find (fst kv) data); [reflexivity|].
    cbv zeta. destruct (_ >? _); discriminate.
  - rewrite Insert_node.
    destruct (at_update (fun c => Insert sha1 c kv) (c0 :: cs0) _)
      as [[cs' [|what']]|]; try discriminate; reflexivity.
Qed.

(** On a tree of the store a throwing [Insert] is the refusal of a key
    that is present. *)
Lemma Insert_throw_present (t : MerkleTree V) d key val what :
  wf d t -> min_key_ t <= key < max_key_ t ->
  snd (Insert sha1 t (key, val)) = Threw what ->
  what = "Key already exists"%string /\ Contains t key = true.
Proof.
  intros Hwf Hk Hthrow.
  destruct (Insert_wf V sha1 t d key val Hwf Hk) as (_ & _ & Htrue & Hfalse).
  destruct (Contains t key) eqn:E.
  - rewrite (Htrue eq_refl) in Hthrow. injection Hthrow as <-. split; reflexivity.
  - destruct (Hfalse eq_refl) as [Hd _]. rewrite Hd in Hthrow. discriminate.
Qed.

(** [GetEntries], [GetSmallestEntry] and the hash do not read the
    caches. *)
Lemma fold_left_map_arg (A B C : Type) (f : A -> C -> A) (g : B -> C)
      (l : list B) :
  forall a, fold_left f (map g l) a = fold_left (fun a x => f a (g x)) l a.
Proof. induction l as [|x l IH]; intro a; simpl; [reflexivity | apply IH]. Qed.

Lemma fold_left_ext_in (A B : Type) (f g : A -> B -> A) (l : list B) :
  (forall a x, In x l -> f a x = g a x) ->
  forall a, fold_left f l a = fold_left g l a.
Proof.
  induction l as [|x l IH]; intros H a; simpl; [reflexivity|].
  rewrite H by (left; reflexivity). apply IH.
  intros a' x' Hin. apply H. right. assumption.
Qed.

Lemma GetEntries_forget (t : MerkleTree V) :
  GetEntries (forget_caches t) = GetEntries t.
Proof.
  induction t as [mn mx h pos cs data lg IH] using MerkleTree_ind.
  simpl. destruct (h =? 0); [reflexivity|].
  destruct cs as [|c0 cs0]; [reflexivity|].
  change (forget_caches c0 :: map forget_caches cs0)
    with (map forget_caches (c0 :: cs0)).
  rewrite fold_left_map_arg. apply fold_left_ext_in.
  intros a x Hin. rewrite Forall_forall in IH. rewrite (IH x Hin). reflexivity.
Qed.

Lemma first_from_map (B : Type) (f g : MerkleTree V -> option B)
      (cs : list (MerkleTree V)) :
  Forall (fun c => f (forget_caches c) = g c) cs ->
  forall skip, first_from f (map forget_caches cs) skip = first_from g cs skip.
Proof.
  induction 1 as [|c cs Hc _ IH]; intros skip; simpl; [reflexivity|].
  destruct skip; [|apply IH]. rewrite Hc. destruct (g c); [reflexivity | apply IH].
Qed.

Lemma GetSmallestEntry_forget (t : MerkleTree V) :
  GetSmallestEntry (forget_caches t) = GetSmallestEntry t.
Proof.
  induction t as [mn mx h pos cs data lg IH] using MerkleTree_ind.
  simpl. destruct (h =? 0); [reflexivity|].
  destruct cs as [|c0 cs0]; [reflexivity|].
  apply (first_from_map _ GetSmallestEntry GetSmallestEntry (c0 :: cs0) IH).
Qed.

(** Below the root, where positions are not empty, [Next] does not read
    the caches either. *)
Lemma Next_forget (t : MerkleTree V) :
  forall d key, wf d t -> (1 <= d)%nat ->
                Next (forget_caches t) key = Next t key.
Proof.
  induction t as [mn mx h pos cs data lg IH] using MerkleTree_ind.
  intros d key Hwf Hd.
  assert (Hpos : pos <> []).
  { destruct (wf_fields _ _ _ Hwf) as (Hlen & _). simpl in Hlen.
    destruct pos; [simpl in Hlen; lia | discriminate]. }
  destruct pos as [|p pos']; [contradiction|].
  inversion Hwf as [? ? ? ? ? ? ? Hp Hd' Hr Hs Hw
                   |? ? ? ? ? ? ? Hp Hd' Hr Hl Hch]; subst.
  - simpl. destruct (h =? 0); [reflexivity|].
    rewrite !andb_false_r. reflexivity.
  - simpl. destruct (h =? 0); [reflexivity|].
    rewrite !andb_false_r.
    destruct cs as [|c0 cs0]; [reflexivity|].
    change (forget_caches c0 :: map forget_caches cs0)
      with (map forget_caches (c0 :: cs0)).
    apply (first_from_map _ (fun c => Next c key) (fun c => Next c key)).
    rewrite Forall_forall in *. intros c Hin.
    destruct (In_nth_error _ _ Hin) as [i Hi].
    destruct (Hch i c Hi) as [_ Hwfc].
    apply (IH c Hin _ key Hwfc). lia.
Qed.

(** At the root [Next] reads one cache, the root's own. *)
Lemma Next_root (t t' : MerkleTree V) key :
  wf 0 t -> wf 0 t' ->
  forget_caches t' = forget_caches t -> largest_key_ t' = largest_key_ t ->
  Next t' key = Next t key.
Proof.
  intros Hwf Hwf' Hforget Hlg.
  destruct t as [mn mx h pos cs data lg], t' as [mn' mx' h' pos' cs' data' lg'].
  simpl in Hlg. subst lg'.
  pose proof Hforget as Hf. simpl in Hf.
  injection Hf as -> -> -> -> Hcs ->.
  assert (Hsm : GetSmallestEntry (mkTree mn mx h pos cs' data lg)
                = GetSmallestEntry (mkTree mn mx h pos cs data lg)).
  { rewrite <- (GetSmallestEntry_forget (mkTree mn mx h pos cs' data lg)).
    rewrite <- (GetSmallestEntry_forget (mkTree mn mx h pos cs data lg)).
    rewrite Hforget. reflexivity. }
  cbn [Next]. destruct (h =? 0); [reflexivity|].
  destruct (ge_optional key lg && match pos with [] => true | _ :: _ => false end);
    [exact Hsm|].
  inversion Hwf as [? ? ? ? ? ? ? Hp Hd Hr Hs Hw
                   |? ? ? ? ? ? ? Hp Hd Hr Hl Hch]; subst.
  - destruct cs'; [reflexivity | discriminate Hcs].
  - inversion Hwf' as [? ? ? ? ? ? ? Hp' Hd' Hr' Hs' Hw'
                      |? ? ? ? ? ? ? Hp' Hd' Hr' Hl' Hch']; subst;
      [destruct cs; [discriminate Hl | discriminate Hcs]|].
    destruct cs as [|c0 cs0]; [discriminate Hl|].
    destruct cs' as [|c0' cs0']; [discriminate Hl'|].
    replace (ChildNum (mkTree mn mx h pos (c0' :: cs0') [] lg) key)
      with (ChildNum (mkTree mn mx h pos (c0 :: cs0) [] lg) key) by reflexivity.
    generalize (Z.to_nat (ChildNum (mkTree mn mx h pos (c0 :: cs0) [] lg) key)).
    intro skip.
    rewrite <- (first_from_map _ (fun c => Next c key) (fun c => Next c key)
                               (c0 :: cs0)).
    + rewrite <- (first_from_map _ (fun c => Next c key) (fun c => Next c key)
                                 (c0' :: cs0')).
      * rewrite Hcs. reflexivity.
      * rewrite Forall_forall. intros c Hin.
        destruct (In_nth_error _ _ Hin) as [i Hi].
        destruct (Hch' i c Hi) as [_ Hwfc].
        apply (Next_forget c _ key Hwfc). lia.
    + rewrite Forall_forall. intros c Hin.
      destruct (In_nth_error _ _ Hin) as [i Hi].
      destruct (Hch i c Hi) as [_ Hwfc].
      apply (Next_forget c _ key Hwfc). lia.
Qed.

End Caches.

End FailedInsert.

(** ** Hexadecimal strings of hashes *)

Module HexFacts.
Import Merkle.

Lemma hex_digit_nonzero (d : Z) : 1 <= d <= 15 -> hex_digit d <> "0"%char.
Proof.
  intros H.
  assert (Hd : d = 1 \/ d = 2 \/ d = 3 \/ d = 4 \/ d = 5 \/ d = 6 \/ d = 7 \/
               d = 8 \/ d = 9 \/ d = 10 \/ d = 11 \/ d = 12 \/ d = 13 \/
               d = 14 \/ d = 15) by lia.
  repeat (destruct Hd as [-> | Hd]; [discriminate|]). subst d. discriminate.
Qed.

(** The first character of the string of a positive number is its most
    significant digit. *)
Lemma IntToHexStr_digits_head (fuel : nat) :
  forall (val : Z) (acc : string),
    0 < val -> Z.log2 val < Z.of_nat fuel ->
    exists ch rest,
      IntToHexStr_digits fuel val acc = String ch rest /\ ch <> "0"%char.
Proof.
  induction fuel as [|fuel IH]; intros val acc Hval Hfuel.
  - pose proof (Z.log2_nonneg val). lia.
  - cbn [IntToHexStr_digits]. cbv zeta.
    pose proof (Z.div_mod val 16 ltac:(lia)) as Hdm.
    pose proof (Z.mod_pos_bound val 16 ltac:(lia)) as Hmod.
    destruct (Z.eqb_spec (val / 16) 0) as [Hq|Hq].
    + exists (hex_digit (val mod 16)), acc. split; [reflexivity|].
      apply hex_digit_nonzero. lia.
    + assert (Hpos : 0 < val / 16).
      { pose proof (Z.div_pos val 16 ltac:(lia) ltac:(lia)). lia. }
      apply IH; [exact Hpos|].
      apply Z.log2_lt_pow2; [exact Hpos|].
      apply Z.div_lt_upper_bound; [lia|].
      assert (Hlt : val < 2 ^ Z.of_nat (S fuel))
        by (apply Z.log2_lt_pow2; assumption).
      rewrite Nat2Z.inj_succ, Z.pow_succ_r in Hlt by lia.
      assert (0 < 2 ^ Z.of_nat fuel) by (apply Z.pow_pos_nonneg; lia).
      lia.
Qed.

Lemma IntToHexStr_head (val : Z) :
  0 < val ->
  exists ch rest, IntToHexStr val = String ch rest /\ ch <> "0"%char.
Proof.
  intros Hval. unfold IntToHexStr.
  apply IntToHexStr_digits_head; [exact Hval|].
  rewrite Nat2Z.inj_succ, Z2Nat.id by apply Z.log2_nonneg. lia.
Qed.

Lemma concat_cons (s : string) (l : list string) :
  String.concat "" (s :: l) = (s ++ String.concat "" l)%string.
Proof.
  destruct l as [|s' l]; cbn [String.concat].
  - induction s as [|ch s IH]; cbn [append]; [reflexivity|].
    rewrite <- IH. reflexivity.
  - reflexivity.
Qed.

(** The strings of the hashes of the children spell a row of zeroes
    exactly when every hash is zero. *)
Lemma concat_hex_zeroes (hashes : list Z) :
  Forall (fun h => 0 <= h) hashes ->
  String.concat "" (map IntToHexStr hashes)
  = string_of_list_ascii (repeat "0"%char (length hashes)) ->
  Forall (fun h => h = 0) hashes.
Proof.
  induction 1 as [|h hashes Hh _ IH]; intros Heq; constructor.
  - cbn [map length repeat string_of_list_ascii] in Heq.
    rewrite concat_cons in Heq.
    destruct (Z.eq_dec h 0) as [Hz|Hz]; [exact Hz|].
    destruct (IntToHexStr_head h ltac:(lia)) as [ch [rest [Hs Hch]]].
    rewrite Hs in Heq. cbn [append] in Heq. injection Heq as Hhead _.
    contradiction.
  - apply IH.
    cbn [map length repeat string_of_list_ascii] in Heq.
    rewrite concat_cons in Heq.
    destruct (Z.eq_dec h 0) as [Hz|Hz].
    + subst h. cbn in Heq. injection Heq as Heq. exact Heq.
    + destruct (IntToHexStr_head h ltac:(lia)) as [ch [rest [Hs Hch]]].
      rewrite Hs in Heq. cbn [append] in Heq. injection Heq as Hhead _.
      contradiction.
Qed.

Lemma concat_hex_all_zero (hashes : list Z) :
  Forall (fun h => h = 0) hashes ->
  String.concat "" (map IntToHexStr hashes)
  = string_of_list_ascii (repeat "0"%char (length hashes)).
Proof.
  induction 1 as [|h hashes Hh _ IH]; [reflexivity|].
  cbn [map length repeat string_of_list_ascii].
  rewrite concat_cons, IH. subst h. reflexivity.
Qed.

End HexFacts.


(** ** Hashes are kept up to date *)

Module HashedFacts.
Import Merkle MerkleInduction MerkleEquations ChildrenFacts WellFormed
       FailedInsert.

Section Hashed.

Variable V : Type.
Variable sha1 : string -> Z.

Lemma at_update_In (f : MerkleTree V -> MerkleTree V * outcome)
      (P : MerkleTree V -> Prop) (cs cs' : list (MerkleTree V))
      (index : nat) (o : outcome) :
  at_update f cs index = Some (cs', o) ->
  (forall c, In c cs -> P c) ->
  (forall c, In c cs -> snd (f c) = o -> P (fst (f c))) ->
  forall c', In c' cs' -> P c'.
Proof.
  intros Hup Hold Hnew c' Hin.
  pose proof (at_update_nth _ _ f cs index) as Hspec. rewrite Hup in Hspec.
  destruct Hspec as (c & Hc & Ho & Hc' & _ & Hoth).
  destruct (In_nth_error _ _ Hin) as [j Hj].
  destruct (Nat.eq_dec j index) as [->|Hne].
  - rewrite Hc' in Hj. injection Hj as <-.
    apply Hnew; [eapply nth_error_In; exact Hc | exact Ho].
  - rewrite (Hoth j Hne) in Hj. apply Hold. eapply nth_error_In. exact Hj.
Qed.

Lemma hashed_children (count : nat) :
  forall i step last_key pos (data : list (Z * V)) c,
    In c (fst (CreateChildren_loop sha1 count i step last_key pos data)) ->
    hashed sha1 c.
Proof.
  induction count as [|count IH]; intros i step last_key pos data c Hin.
  - contradiction.
  - cbn [CreateChildren_loop] in Hin. cbv zeta in Hin.
    destruct (take_range _ _ data) as [taken left].
    destruct (CreateChildren_loop sha1 count (i + 1) step _ pos left)
      as [children left'] eqn:Eloop.
    cbn [fst] in Hin. destruct Hin as [<-|Hin].
    + cbn [Rehash]. constructor; [reflexivity|]. intros c [].
    + apply (IH (i + 1) step (Key.uint256 (last_key + step)) pos left).
      rewrite Eloop. exact Hin.
Qed.

Lemma hashed_cache mn mx mn' mx' h pos pos' cs (data : list (Z * V)) lg lg' :
  hashed sha1 (mkTree mn mx h pos cs data lg) ->
  hashed sha1 (mkTree mn' mx' h pos' cs data lg').
Proof. intro H. inversion H; subst. constructor; auto. Qed.

Lemma hashed_Rehash mn mx h pos cs (data : list (Z * V)) lg :
  (forall c, In c cs -> hashed sha1 c) ->
  hashed sha1 (Rehash sha1 (mkTree mn mx h pos cs data lg)).
Proof. intro H. cbn [Rehash]. constructor; [reflexivity | exact H]. Qed.

Lemma hashed_set_largest (t : MerkleTree V) lg :
  hashed sha1 t -> hashed sha1 (set_largest t lg).
Proof. destruct t. cbn [set_largest]. apply hashed_cache. Qed.

Lemma EmptyTree_hashed : hashed sha1 (EmptyTree V sha1).
Proof.
  unfold EmptyTree, CreateChildren.
  destruct (CreateChildren_loop sha1 (Z.to_nat num_children_) 0 _ 0 [] [])
    as [children left] eqn:Eloop.
  constructor.
  - apply (f_equal fst) in Eloop. cbn [fst] in Eloop. rewrite <- Eloop.
    vm_compute. reflexivity.
  - intros c Hin. cbn [app] in Hin.
    apply (hashed_children (Z.to_nat num_children_) 0
             (Key.uint256 (Key.key_base ^ Key.key_len - 0) / num_children_)
             0 [] []).
    rewrite Eloop. exact Hin.
Qed.

Lemma Insert_hashed_done (t : MerkleTree V) :
  forall kv, hashed sha1 t -> snd (Insert sha1 t kv) = Done ->
             hashed sha1 (fst (Insert sha1 t kv)).
Proof.
  induction t as [mn mx h pos cs data lg IH] using MerkleTree_ind.
  intros kv Hh. inversion Hh as [? ? ? ? ? ? ? Hhash Hcs]; subst.
  destruct cs as [|c0 cs0].
  - rewrite Insert_leaf. destruct (map_find (fst kv) data); [discriminate|].
    cbv zeta. destruct (_ >? _); intros _; cbn [fst].
    + unfold CreateChildren.
      destruct (CreateChildren_loop sha1 _ 0 _ mn pos _) as [children left]
        eqn:Eloop.
      apply hashed_Rehash. cbn [app]. intros c Hin.
      eapply hashed_children. rewrite Eloop. exact Hin.
    + apply hashed_Rehash. intros c [].
  - rewrite Insert_node.
    destruct (at_update (fun c => Insert sha1 c kv) (c0 :: cs0) _)
      as [[cs' [|what]]|] eqn:Hup; try discriminate.
    intros _. cbn [fst]. apply hashed_Rehash.
    apply (at_update_In _ _ _ _ _ _ Hup Hcs).
    intros c Hin Ho. rewrite Forall_forall in IH. apply IH; auto.
Qed.

Lemma Rehash_value_forget (cs : list (MerkleTree V)) (data : list (Z * V)) :
  Rehash_value sha1 (map forget_caches cs) data = Rehash_value sha1 cs data.
Proof.
  destruct cs as [|c cs]; [reflexivity|].
  unfold Rehash_value. cbn [map].
  assert (Hh : forall c : MerkleTree V, GetHash (forget_caches c) = GetHash c)
    by (intros [? ? ? ? ? ? ?]; reflexivity).
  rewrite Hh, map_map.
  rewrite (map_ext (fun x => IntToHexStr (GetHash (forget_caches x)))
                   (fun x => IntToHexStr (GetHash x)))
    by (intro x; rewrite Hh; reflexivity).
  reflexivity.
Qed.

Lemma hashed_forget (t : MerkleTree V) :
  hashed sha1 (forget_caches t) <-> hashed sha1 t.
Proof.
  induction t as [mn mx h pos cs data lg IH] using MerkleTree_ind.
  rewrite Forall_forall in IH. cbn [forget_caches]. split; intro H.
  - inversion H as [? ? ? ? ? ? ? Hhash Hcs]; subst.
    constructor;
      [first [apply Rehash_value_forget | symmetry; apply Rehash_value_forget]|].
    intros c Hin. apply IH; [exact Hin|]. apply Hcs. apply in_map. exact Hin.
  - inversion H as [? ? ? ? ? ? ? Hhash Hcs]; subst.
    constructor;
      [first [apply Rehash_value_forget | symmetry; apply Rehash_value_forget]|].
    intros c Hin. apply in_map_iff in Hin. destruct Hin as [c' [<- Hin]].
    apply IH; [exact Hin|]. apply Hcs. exact Hin.
Qed.

Lemma Insert_hashed (t : MerkleTree V) kv :
  hashed sha1 t -> hashed sha1 (fst (Insert sha1 t kv)).
Proof.
  intro Hh. destruct (snd (Insert sha1 t kv)) as [|what] eqn:Ho.
  - apply Insert_hashed_done; assumption.
  - apply hashed_forget. rewrite (Insert_throw_forget V sha1 t kv what Ho).
    apply hashed_forget. exact Hh.
Qed.

Lemma at_update_same (f : MerkleTree V -> MerkleTree V * outcome)
      (cs cs' : list (MerkleTree V)) (index : nat) (o : outcome) :
  at_update f cs index = Some (cs', o) ->
  (forall c, In c cs -> snd (f c) = o -> fst (f c) = c) ->
  cs' = cs.
Proof.
  intros Hup Hsame.
  pose proof (at_update_nth _ _ f cs index) as Hspec. rewrite Hup in Hspec.
  destruct Hspec as (c & Hc & Ho & Hc' & _ & Hoth).
  apply nth_error_ext_eq. intro j.
  destruct (Nat.eq_dec j index) as [->|Hne]; [|apply Hoth; exact Hne].
  rewrite Hc', Hc. f_equal. apply Hsame; [eapply nth_error_In; exact Hc|exact Ho].
Qed.

(** [Update] and [Delete] that throw leave the tree as it was. *)
Lemma Update_throw_same (t : MerkleTree V) :
  forall kv what, snd (Update sha1 t kv) = Threw what ->
                  fst (Update sha1 t kv) = t.
Proof.
  induction t as [mn mx h pos cs data lg IH] using MerkleTree_ind.
  rewrite Forall_forall in IH. intros kv what. destruct cs as [|c0 cs0].
  - rewrite Update_leaf. destruct (map_find (fst kv) data);
      [discriminate | reflexivity].
  - rewrite Update_node.
    destruct (at_update (fun c => Update sha1 c kv) (c0 :: cs0) _)
      as [[cs' [|what']]|] eqn:Hup; try discriminate; [|reflexivity].
    intros _. cbn [fst]. f_equal. apply (at_update_same _ _ _ _ _ Hup).
    intros c Hin Ho. apply (IH c Hin kv what' Ho).
Qed.

Lemma Delete_throw_same (t : MerkleTree V) :
  forall key what, snd (Delete sha1 t key) = Threw what ->
                   fst (Delete sha1 t key) = t.
Proof.
  induction t as [mn mx h pos cs data lg IH] using MerkleTree_ind.
  rewrite Forall_forall in IH. intros key what. destruct cs as [|c0 cs0].
  - rewrite Delete_leaf. destruct (map_find key data);
      [discriminate | reflexivity].
  - rewrite Delete_node.
    destruct (at_update (fun c => Delete sha1 c key) (c0 :: cs0) _)
      as [[cs' [|what']]|] eqn:Hup; try discriminate; [|reflexivity].
    intros _. cbn [fst]. f_equal. apply (at_update_same _ _ _ _ _ Hup).
    intros c Hin Ho. apply (IH c Hin key what' Ho).
Qed.

Lemma Update_hashed (t : MerkleTree V) :
  forall kv, hashed sha1 t -> hashed sha1 (fst (Update sha1 t kv)).
Proof.
  induction t as [mn mx h pos cs data lg IH] using MerkleTree_ind.
  rewrite Forall_forall in IH.
  intros kv Hh.
  destruct (snd (Update sha1 (mkTree mn mx h pos cs data lg) kv))
    as [|what] eqn:Ho;
    [|rewrite (Update_throw_same _ kv what Ho); exact Hh].
  revert Ho. inversion Hh as [? ? ? ? ? ? ? Hhash Hcs]; subst.
  destruct cs as [|c0 cs0].
  - rewrite Update_leaf. destruct (map_find (fst kv) data); [|discriminate].
    intros _. cbn [fst]. apply hashed_Rehash. intros c [].
  - rewrite Update_node.
    destruct (at_update (fun c => Update sha1 c kv) (c0 :: cs0) _)
      as [[cs' [|what]]|] eqn:Hup; try discriminate.
    intros _. cbn [fst]. apply hashed_Rehash.
    apply (at_update_In _ _ _ _ _ _ Hup Hcs).
    intros c Hin _. apply IH; auto.
Qed.

Lemma Delete_hashed (t : MerkleTree V) :
  forall key, hashed sha1 t -> hashed sha1 (fst (Delete sha1 t key)).
Proof.
  induction t as [mn mx h pos cs data lg IH] using MerkleTree_ind.
  rewrite Forall_forall in IH.
  intros key Hh.
  destruct (snd (Delete sha1 (mkTree mn mx h pos cs data lg) key))
    as [|what] eqn:Ho;
    [|rewrite (Delete_throw_same _ key what Ho); exact Hh].
  revert Ho. inversion Hh as [? ? ? ? ? ? ? Hhash Hcs]; subst.
  destruct cs as [|c0 cs0].
  - rewrite Delete_leaf. destruct (map_find key data); [|discriminate].
    intros _. cbn [fst]. apply hashed_Rehash. intros c [].
  - rewrite Delete_node.
    destruct (at_update (fun c => Delete sha1 c key) (c0 :: cs0) _)
      as [[cs' [|what]]|] eqn:Hup; try discriminate.
    intros _. cbv zeta. cbn [fst]. apply hashed_set_largest, hashed_Rehash.
    apply (at_update_In _ _ _ _ _ _ Hup Hcs).
    intros c Hin _. apply IH; auto.
Qed.

Lemma reachable_hashed (t : MerkleTree V) :
  reachable sha1 t -> hashed sha1 t.
Proof.
  induction 1 as [|t o _ IH _]; [apply EmptyTree_hashed|].
  destruct o as [key val|key val|key]; cbn [apply_op].
  - apply Insert_hashed. exact IH.
  - apply Update_hashed. exact IH.
  - apply Delete_hashed. exact IH.
Qed.

End Hashed.

End HashedFacts.

(** ** Hashes of trees with the same keys *)

Module LayoutFacts.
Import Merkle MerkleInduction MerkleEquations SameKeys HashedFacts.

Section Layout.

Variables V1 V2 : Type.
Variable sha1 : string -> Z.

Lemma same_layout_hash (t1 : MerkleTree V1) :
  forall t2 : MerkleTree V2,
    hashed sha1 t1 -> hashed sha1 t2 -> same_layout t1 t2 ->
    hash_ t1 = hash_ t2.
Proof.
  induction t1 as [mn1 mx1 h1 pos1 cs1 d1 lg1 IH] using MerkleTree_ind.
  intros t2 Hh1 Hh2 Hsame.
  inversion Hsame as [? ? ? ? ? ? ? mn2 mx2 h2 cs2 d2 lg2 Hkeys Hcs]; subst.
  inversion Hh1 as [? ? ? ? ? ? ? Hhash1 Hcs1]; subst.
  inversion Hh2 as [? ? ? ? ? ? ? Hhash2 Hcs2]; subst.
  cbn [hash_]. rewrite !Rehash_value_from_keys, Hkeys. f_equal.
  clear Hsame Hh1 Hh2 Hkeys.
  induction Hcs as [|c1 c2 cs1 cs2 Hc Hcs IHcs]; [reflexivity|].
  inversion IH as [|? ? IHc IHrest]; subst. cbn [map]. f_equal.
  - apply IHc; [apply Hcs1 | apply Hcs2 | exact Hc]; left; reflexivity.
  - apply IHcs; [exact IHrest | |]; intros c Hin;
      [apply Hcs1 | apply Hcs2]; right; exact Hin.
Qed.

Lemma same_layout_LookupByPosition (dirs : list Z) :
  forall (t1 : MerkleTree V1) (t2 : MerkleTree V2),
    same_layout t1 t2 ->
    match LookupByPosition dirs t1, LookupByPosition dirs t2 with
    | Ok (Some n1), Ok (Some n2) => same_layout n1 n2
    | Ok None, Ok None => True
    | Throw what1, Throw what2 => what1 = what2
    | _, _ => False
    end.
Proof.
  induction dirs as [|front dirs IH]; intros t1 t2 H; cbn [LookupByPosition].
  - assumption.
  - inversion H as [? ? ? ? cs1 ? ? ? ? ? cs2 ? ? Hd Hcs]; subst.
    unfold IsLeaf. cbn [child_nodes_].
    destruct Hcs as [|c1 c2 cs1 cs2 Hc Hcs]; [exact I|].
    destruct (front <? 0); [reflexivity|].
    assert (Hall : Forall2 same_layout (c1 :: cs1) (c2 :: cs2))
      by (constructor; assumption).
    clear Hc Hcs H. revert Hall. generalize (c1 :: cs1) (c2 :: cs2).
    generalize (Z.to_nat front). intros n l1 l2 Hall. revert n.
    induction Hall as [|a b l1 l2 Hab _ IHl]; intros [|n]; cbn [nth_error];
      try reflexivity.
    + apply IH. assumption.
    + apply IHl.
Qed.

Lemma same_keys_layout (t1 : MerkleTree V1) :
  forall t2 : MerkleTree V2, same_keys t1 t2 -> same_layout t1 t2.
Proof.
  induction t1 as [mn1 mx1 h1 pos1 cs1 d1 lg1 IH] using MerkleTree_ind.
  intros t2 H. inversion H as [? ? ? ? ? cs2 ? d2 ? Hd Hcs]; subst.
  constructor; [exact Hd|].
  clear H. induction Hcs as [|c1 c2 cs1 cs2 Hc Hcs IHcs]; constructor.
  - inversion IH; subst. auto.
  - apply IHcs. inversion IH; assumption.
Qed.

End Layout.

Section Nodes.

Variable V : Type.
Variable sha1 : string -> Z.

Lemma hashed_LookupByPosition (dirs : list Z) :
  forall (t node : MerkleTree V),
    hashed sha1 t -> LookupByPosition dirs t = Ok (Some node) ->
    hashed sha1 node.
Proof.
  induction dirs as [|front dirs IH]; intros t node Hh; cbn [LookupByPosition].
  - intros [= <-]. exact Hh.
  - destruct (IsLeaf t); [discriminate|].
    destruct (front <? 0); [discriminate|].
    destruct (nth_error (child_nodes_ t) (Z.to_nat front)) as [c|] eqn:Hc;
      [|discriminate].
    apply IH. inversion Hh as [? ? ? ? ? ? ? _ Hcs]; subst.
    apply Hcs. eapply nth_error_In. exact Hc.
Qed.

Lemma hashed_from_keys (t : MerkleTree V) :
  hashed sha1 t ->
  GetHash t = hash_from_keys sha1 (map GetHash (child_nodes_ t))
                             (map fst (data_ t)).
Proof.
  intro Hh. inversion Hh; subst. cbn [GetHash hash_ child_nodes_ data_].
  apply Rehash_value_from_keys.
Qed.

End Nodes.

End LayoutFacts.

(** C9: on the trees of the store the hash of every node is a function of
    the keys the node holds and of the hashes of its children (the
    concatenated keys of a leaf, the concatenated hashes of the children
    of an internal node, the zero sentinel for an empty subtree), and two
    trees that hold the same keys at the same positions, whatever their
    values, have equal hashes at the root and at every position, so
    [operator ==] does not tell them apart anywhere. *)
Theorem hash_from_keys_only (V1 V2 : Type) (sha1 : string -> Z)
        (t1 : Merkle.MerkleTree V1) (t2 : Merkle.MerkleTree V2) :
  Merkle.reachable sha1 t1 -> Merkle.reachable sha1 t2 ->
  Merkle.same_layout t1 t2 ->
  (forall dirs node,
     Merkle.LookupByPosition dirs t1 = Ok (Some node) ->
     Merkle.GetHash node
     = Merkle.hash_from_keys sha1 (map Merkle.GetHash (Merkle.child_nodes_ node))
                             (map fst (Merkle.data_ node))) /\
  Merkle.GetHash t1 = Merkle.GetHash t2 /\
  forall dirs,
    match Merkle.LookupByPosition dirs t1, Merkle.LookupByPosition dirs t2 with
    | Ok (Some n1), Ok (Some n2) =>
        Merkle.GetHash n1 = Merkle.GetHash n2 /\ Merkle.node_eqb n1 n2 = true
    | Ok None, Ok None => True
    | Throw what1, Throw what2 => what1 = what2
    | _, _ => False
    end.
Proof.
  intros Hreach1 Hreach2 Hsame.
  pose proof (HashedFacts.reachable_hashed V1 sha1 t1 Hreach1) as Hh1.
  pose proof (HashedFacts.reachable_hashed V2 sha1 t2 Hreach2) as Hh2.
  split; [|split].
  - intros dirs node Hnode. apply LayoutFacts.hashed_from_keys.
    apply (LayoutFacts.hashed_LookupByPosition V1 sha1 dirs t1); assumption.
  - apply (LayoutFacts.same_layout_hash V1 V2 sha1); assumption.
  - intro dirs.
    pose proof (LayoutFacts.same_layout_LookupByPosition V1 V2 dirs t1 t2 Hsame)
      as Hnodes.
    destruct (Merkle.LookupByPosition dirs t1) as [[n1|]|w1] eqn:E1,
             (Merkle.LookupByPosition dirs t2) as [[n2|]|w2] eqn:E2;
      try assumption.
    assert (Hhash : Merkle.hash_ n1 = Merkle.hash_ n2).
    { apply (LayoutFacts.same_layout_hash V1 V2 sha1);
        [eapply LayoutFacts.hashed_LookupByPosition; eassumption
        |eapply LayoutFacts.hashed_LookupByPosition; eassumption
        |exact Hnodes]. }
    split; [exact Hhash|].
    inversion Hnodes; subst. unfold Merkle.node_eqb.
    cbn [Merkle.position_ Merkle.hash_] in *.
    rewrite Hhash, list_eq_Z_refl, Z.eqb_refl. reflexivity.
Qed.

Lemma hash_from_keys_only_witness :
  Merkle.GetHash
    (fst (Merkle.apply_op Scenario.sha1
       (fst (Merkle.apply_op Scenario.sha1
          (fst (Merkle.apply_op Scenario.sha1
                  (Merkle.EmptyTree string Scenario.sha1)
                  (Merkle.OpInsert 1 "a"%string)))
          (Merkle.OpInsert 2 "b"%string)))
       (Merkle.OpUpdate 1 "c"%string)))
  = Merkle.GetHash
      (fst (Merkle.apply_op Scenario.sha1
         (fst (Merkle.apply_op Scenario.sha1
                 (Merkle.EmptyTree Z Scenario.sha1) (Merkle.OpInsert 2 8)))
         (Merkle.OpInsert 1 7))).
Proof.
  refine (proj1 (proj2 (hash_from_keys_only string Z Scenario.sha1 _ _ _ _ _))).
  - repeat (apply Merkle.reachable_step;
            [|split; [discriminate | reflexivity]]).
    apply Merkle.reachable_empty.
  - repeat (apply Merkle.reachable_step;
            [|split; [discriminate | reflexivity]]).
    apply Merkle.reachable_empty.
  - vm_compute. repeat constructor.
Defined.

(** ** [GetLargestEntry] returns the largest entry *)

Module LargestFacts.
Import Merkle MerkleInduction MerkleEquations ChildrenFacts RangeFacts
       WellFormed HexFacts HashedFacts.

Section Scan.

Variables A B : Type.

Lemma last_to_first_spec (f : A -> option B) (cs : list A) :
  match last_to_first f cs with
  | Some res =>
      exists i c, nth_error cs i = Some c /\ f c = Some res /\
                  forall j c', (i < j)%nat -> nth_error cs j = Some c' ->
                               f c' = None
  | None => forall c, In c cs -> f c = None
  end.
Proof.
  induction cs as [|c cs IH]; cbn [last_to_first]; [intros c []|].
  destruct (last_to_first f cs) as [res|].
  - destruct IH as (i & c' & Hi & Hf & Hlater).
    exists (S i), c'. split; [exact Hi|]. split; [exact Hf|].
    intros j c'' Hj Hnth. destruct j as [|j]; [lia|].
    apply (Hlater j c''); [lia | exact Hnth].
  - destruct (f c) as [res|] eqn:Hfc.
    + exists O, c. split; [reflexivity|]. split; [exact Hfc|].
      intros j c' Hj Hnth. destruct j as [|j]; [lia|].
      apply IH. eapply nth_error_In. exact Hnth.
    + intros c' [<-|Hin]; [exact Hfc | apply IH; exact Hin].
Qed.

End Scan.

Section Largest.

Variable V : Type.
Variable sha1 : string -> Z.
Hypothesis sha1_pos : forall str, 0 < sha1 str.

Lemma Rehash_value_nonneg (cs : list (MerkleTree V)) (data : list (Z * V)) :
  0 <= Rehash_value sha1 cs data.
Proof.
  unfold Rehash_value. destruct cs as [|c cs].
  - destruct data; [lia|]. pose proof (sha1_pos
      (String.concat "" (map (fun kv => IntToHexStr (fst kv)) (p :: data)))).
    lia.
  - cbv zeta. destruct (String.eqb _ _); [lia|].
    match goal with |- 0 <= sha1 ?s => pose proof (sha1_pos s) end. lia.
Qed.

Lemma hashed_nonneg (t : MerkleTree V) : hashed sha1 t -> 0 <= hash_ t.
Proof.
  intro H. inversion H; subst. cbn [hash_]. apply Rehash_value_nonneg.
Qed.

(** The hash of a node is zero only when the hash of every child is. *)
Lemma node_hash_zero (cs : list (MerkleTree V)) :
  length cs = 8%nat -> (forall c, In c cs -> hashed sha1 c) ->
  Rehash_value sha1 cs [] = 0 ->
  forall c, In c cs -> hash_ c = 0.
Proof.
  intros Hlen Hcs Hzero.
  assert (Hall : Forall (fun h => h = 0) (map GetHash cs)).
  { apply concat_hex_zeroes.
    - apply Forall_forall. intros h Hin. apply in_map_iff in Hin.
      destruct Hin as [c [<- Hin]]. apply hashed_nonneg. apply Hcs. exact Hin.
    - rewrite length_map, Hlen, map_map.
      destruct cs as [|c0 cs0]; [discriminate Hlen|].
      unfold Rehash_value in Hzero. cbv zeta in Hzero.
      destruct (String.eqb_spec
                  (String.concat ""
                     (map (fun node => IntToHexStr (GetHash node)) (c0 :: cs0)))
                  "00000000") as [Heq|_].
      + exact Heq.
      + match type of Hzero with sha1 ?s = 0 => pose proof (sha1_pos s) end.
        lia. }
  intros c Hin. rewrite Forall_forall in Hall. apply Hall.
  apply in_map. exact Hin.
Qed.

Lemma GetLargestEntry_eq mn mx h pos cs (data : list (Z * V)) lg :
  GetLargestEntry (mkTree mn mx h pos cs data lg) =
  if h =? 0 then None
  else match cs with
       | [] => last_entry data
       | _ :: _ => last_to_first GetLargestEntry cs
       end.
Proof. destruct cs; reflexivity. Qed.

Lemma GetLargestEntry_zero (t : MerkleTree V) :
  hash_ t = 0 -> GetLargestEntry t = None.
Proof.
  destruct t as [mn mx h pos cs data lg]. cbn [hash_]. intros ->.
  rewrite GetLargestEntry_eq. reflexivity.
Qed.

Lemma last_entry_last (data : list (Z * V)) :
  data <> [] ->
  exists kv, last_entry data = Some kv /\ In kv data /\
             (keys_sorted data ->
              forall kv', In kv' data -> fst kv' <= fst kv).
Proof.
  induction data as [|x data IH]; intros Hne; [contradiction|].
  destruct data as [|y rest].
  - exists x. split; [reflexivity|]. split; [left; reflexivity|].
    intros _ kv' [<-|[]]. lia.
  - destruct (IH ltac:(discriminate)) as (kv & Hlast & Hin & Hmax).
    exists kv. split; [exact Hlast|]. split; [right; exact Hin|].
    intros Hsorted kv' Hin'. unfold keys_sorted in Hsorted.
    cbn [map] in Hsorted. inversion Hsorted as [|? ? Hrest Hlt]; subst.
    destruct Hin' as [<-|Hin'].
    + rewrite Forall_forall in Hlt.
      assert (fst x < fst kv); [|lia].
      apply Hlt. change (In (fst kv) (map fst (y :: rest))).
      apply in_map. exact Hin.
    + apply Hmax; [exact Hrest | exact Hin'].
Qed.

Lemma map_find_In (data : list (Z * V)) (key : Z) (v : V) :
  map_find key data = Some v -> In (key, v) data.
Proof.
  induction data as [|[k w] data IH]; cbn [map_find]; [discriminate|].
  destruct (Z.eqb_spec k key) as [->|_].
  - intros [= ->]. left. reflexivity.
  - intro H. right. apply IH. exact H.
Qed.

Lemma child_window (d : nat) mn mx h pos cs lg (i : nat) (c : MerkleTree V) :
  wf d (mkTree mn mx h pos cs [] lg) -> cs <> [] ->
  nth_error cs i = Some c ->
  wf (S d) c /\ (d <= 41)%nat /\ (i < 8)%nat /\ mx = mn + 8 * width (S d) /\
  0 < width (S d) /\
  min_key_ c = mn + Z.of_nat i * width (S d) /\
  max_key_ c = mn + (Z.of_nat i + 1) * width (S d).
Proof.
  intros Hwf Hne Hc.
  inversion Hwf as [? ? ? ? ? ? ? Hpos Hd Hr Hs Hw
                   |? ? ? ? ? ? ? Hpos Hd Hr Hl Hch]; subst;
    [contradiction|].
  destruct (Hch i c Hc) as [Hmin Hwfc].
  destruct (wf_fields _ _ _ Hwfc) as (_ & _ & (Hmax & _)).
  destruct Hr as (Hmx & _).
  assert (Hi : (i < 8)%nat)
    by (rewrite <- Hl; apply nth_error_Some; rewrite Hc; discriminate).
  rewrite (width_S _ Hd) in Hmx.
  pose proof (width_pos (S (length pos)) ltac:(lia)).
  repeat split; try assumption; lia.
Qed.

Lemma GetLargestEntry_spec (t : MerkleTree V) :
  forall d, wf d t -> hashed sha1 t ->
    match GetLargestEntry t with
    | Some entry =>
        min_key_ t <= fst entry < max_key_ t /\
        forall key, min_key_ t <= key < max_key_ t ->
                    Contains t key = true -> key <= fst entry
    | None =>
        forall key, min_key_ t <= key < max_key_ t -> Contains t key = false
    end.
Proof.
  induction t as [mn mx h pos cs data lg IH] using MerkleTree_ind.
  rewrite Forall_forall in IH. intros d Hwf Hh.
  inversion Hh as [? ? ? ? ? ? ? Hhash Hcs]; subst.
  rewrite GetLargestEntry_eq. cbn [min_key_ max_key_].
  destruct cs as [|c0 cs0].
  - (* a leaf *)
    inversion Hwf as [? ? ? ? ? ? ? Hpos Hd Hr Hs Hw
                     |? ? ? ? ? ? ? _ _ _ Hl _]; subst; [|discriminate Hl].
    destruct data as [|kv0 rest].
    + cbn [Rehash_value Z.eqb]. intros key _. reflexivity.
    + unfold Rehash_value at 1.
      match goal with
      | |- context [sha1 ?s =? 0] =>
          pose proof (sha1_pos s) as Hpos0;
          destruct (Z.eqb_spec (sha1 s) 0) as [Hz|_]; [lia|]
      end.
      destruct (last_entry_last (kv0 :: rest) ltac:(discriminate))
        as (kv & Hlast & Hin & Hmax).
      rewrite Hlast. split.
      * unfold keys_within in Hw. rewrite Forall_forall in Hw. apply Hw.
        exact Hin.
      * intros key _. rewrite Contains_leaf.
        destruct (map_find key (kv0 :: rest)) as [v|] eqn:Hfind;
          [|discriminate].
        intros _. apply map_find_In in Hfind.
        apply (Hmax Hs (key, v) Hfind).
  - (* an internal node *)
    assert (Hdata : data = []) by (inversion Hwf; reflexivity). subst data.
    assert (Hlen : length (c0 :: cs0) = 8%nat) by (inversion Hwf; assumption).
    assert (Hd : length pos = d /\ (d <= 41)%nat /\ range_ok d mn mx)
      by (inversion Hwf; auto).
    destruct Hd as (Hpos & Hd & Hr).
    assert (Hrouted : forall key, mn <= key < mx ->
              exists j c, nth_error (c0 :: cs0) j = Some c /\
                          Contains (mkTree mn mx (Rehash_value sha1 (c0 :: cs0) [])
                                           pos (c0 :: cs0) [] lg) key
                          = Contains c key /\
                          min_key_ c <= key < max_key_ c).
    { intros key Hkey.
      pose proof (ChildNum_wf V d mn mx (Rehash_value sha1 (c0 :: cs0) []) pos
                    (c0 :: cs0) [] lg key Hpos Hd Hr Hkey) as (Hidx & Hwin).
      rewrite Contains_node, at_nth.
      set (index := ChildNum _ key) in *.
      destruct (nth_error_lt _ (c0 :: cs0) (Z.to_nat index)) as [c Hc];
        [rewrite Hlen; lia|].
      exists (Z.to_nat index), c. rewrite Hc.
      split; [reflexivity|]. split; [reflexivity|].
      destruct (child_window d mn mx _ pos (c0 :: cs0) lg _ c Hwf
                  ltac:(discriminate) Hc) as (_ & _ & _ & _ & _ & Hmin & Hmax).
      rewrite Hmin, Hmax, Z2Nat.id by lia. lia. }
    assert (Hchild : forall i c, nth_error (c0 :: cs0) i = Some c ->
              match GetLargestEntry c with
              | Some entry =>
                  min_key_ c <= fst entry < max_key_ c /\
                  forall key, min_key_ c <= key < max_key_ c ->
                              Contains c key = true -> key <= fst entry
              | None =>
                  forall key, min_key_ c <= key < max_key_ c ->
                              Contains c key = false
              end).
    { intros i c Hc.
      destruct (child_window d mn mx _ pos (c0 :: cs0) lg _ c Hwf
                  ltac:(discriminate) Hc) as (Hwfc & _).
      apply (IH c (nth_error_In _ _ Hc) (S d) Hwfc).
      apply Hcs. eapply nth_error_In. exact Hc. }
    destruct (Z.eqb_spec (Rehash_value sha1 (c0 :: cs0) []) 0) as [Hz|Hnz].
    + intros key Hkey.
      destruct (Hrouted key Hkey) as (j & c & Hc & -> & Hin).
      specialize (Hchild j c Hc).
      rewrite (GetLargestEntry_zero c) in Hchild
        by (apply (node_hash_zero (c0 :: cs0) Hlen Hcs Hz);
            eapply nth_error_In; exact Hc).
      apply Hchild. exact Hin.
    + pose proof (last_to_first_spec _ _ GetLargestEntry (c0 :: cs0)) as Hscan.
      destruct (last_to_first GetLargestEntry (c0 :: cs0)) as [entry|].
      * destruct Hscan as (i & c & Hc & Hentry & Hlater).
        pose proof (Hchild i c Hc) as Hci. rewrite Hentry in Hci.
        destruct Hci as [Hrange Hmax].
        destruct (child_window d mn mx _ pos (c0 :: cs0) lg _ c Hwf
                    ltac:(discriminate) Hc)
          as (_ & _ & Hi & Hmx & Hw & Hmin & Hmaxc).
        split; [nia|].
        intros key Hkey. destruct (Hrouted key Hkey) as (j & cj & Hcj & -> & Hin).
        intro Hcont.
        destruct (lt_eq_lt_dec i j) as [[Hlt|Heq]|Hgt].
        -- pose proof (Hchild j cj Hcj) as Hcjs.
           rewrite (Hlater j cj Hlt Hcj) in Hcjs.
           rewrite (Hcjs key Hin) in Hcont. discriminate.
        -- subst j. rewrite Hc in Hcj. injection Hcj as <-.
           apply Hmax; assumption.
        -- destruct (child_window d mn mx _ pos (c0 :: cs0) lg _ cj Hwf
                       ltac:(discriminate) Hcj)
             as (_ & _ & _ & _ & _ & Hminj & Hmaxj).
           nia.
      * intros key Hkey.
        destruct (Hrouted key Hkey) as (j & c & Hc & -> & Hin).
        specialize (Hchild j c Hc).
        rewrite (Hscan c (nth_error_In _ _ Hc)) in Hchild.
        apply Hchild. exact Hin.
Qed.

End Largest.

End LargestFacts.

(** ** What the operations do to the other keys *)

Module FrameFacts.
Import Merkle MerkleInduction MerkleEquations MapFacts ChildrenFacts
       RangeFacts WellFormed HashedFacts LargestFacts.

Section Frames.

Variable V : Type.
Variable sha1 : string -> Z.

Lemma map_find_insert_other (data : list (Z * V)) key val key' :
  key' <> key -> map_find key' (map_insert key val data) = map_find key' data.
Proof.
  intro Hne. induction data as [|[k v] data IH]; cbn [map_insert map_find].
  - destruct (Z.eqb_spec key key'); [congruence | reflexivity].
  - destruct (key <? k).
    + cbn [map_find]. destruct (Z.eqb_spec key key'); [congruence|reflexivity].
    + destruct (key =? k); [reflexivity|].
      cbn [map_find]. rewrite IH. reflexivity.
Qed.

Lemma map_find_assign_some (data : list (Z * V)) key val key' :
  match map_find key' (map_assign key val data) with
  | Some _ => true | None => false
  end = match map_find key' data with Some _ => true | None => false end.
Proof.
  induction data as [|[k v] data IH]; cbn [map_assign map_find];
    [reflexivity|].
  destruct (Z.eqb_spec k key) as [->|Hne]; cbn [map_find].
  - destruct (key =? key'); reflexivity.
  - destruct (k =? key'); [reflexivity | exact IH].
Qed.

Lemma map_find_erase_some (data : list (Z * V)) key key' v :
  map_find key' (map_erase key data) = Some v ->
  exists v', map_find key' data = Some v'.
Proof.
  induction data as [|[k w] data IH]; cbn [map_erase map_find];
    [discriminate|].
  destruct (Z.eqb_spec k key) as [->|Hne].
  - intro H. destruct (key =? key'); eauto.
  - cbn [map_find]. destruct (k =? key'); eauto.
Qed.

Lemma Contains_Lookup (t : MerkleTree V) :
  forall key, Contains t key = true -> exists v, Lookup t key = Ok v.
Proof.
  induction t as [mn mx h pos cs data lg IH] using MerkleTree_ind.
  rewrite Forall_forall in IH. intros key. destruct cs as [|c0 cs0].
  - rewrite Lookup_leaf, Contains_leaf.
    destruct (map_find key data); [eauto | discriminate].
  - rewrite Lookup_node, Contains_node, !at_nth.
    destruct (nth_error (c0 :: cs0) _) as [c|] eqn:Hc; [|discriminate].
    apply IH. eapply nth_error_In. exact Hc.
Qed.

Lemma Contains_cache mn mx h h' pos cs (data : list (Z * V)) lg lg' key :
  Contains (mkTree mn mx h' pos cs data lg') key
  = Contains (mkTree mn mx h pos cs data lg) key.
Proof. destruct cs; reflexivity. Qed.

(** [Insert] leaves the other keys of the range alone. *)
Lemma Insert_Lookup_other (t : MerkleTree V) :
  forall d key val key',
    wf d t -> min_key_ t <= key < max_key_ t ->
    min_key_ t <= key' < max_key_ t -> key' <> key ->
    Lookup (fst (Insert sha1 t (key, val))) key' = Lookup t key'.
Proof.
  induction t as [mn mx h pos cs data lg IH] using MerkleTree_ind.
  rewrite Forall_forall in IH.
  intros d key val key' Hwf Hk Hk' Hne. cbn [min_key_ max_key_] in Hk, Hk'.
  inversion Hwf as [? ? ? ? ? ? ? Hpos Hd Hr Hs Hw
                   |? ? ? ? ? ? ? Hpos Hd Hr Hl Hch]; subst.
  - rewrite Insert_leaf. cbn [fst snd].
    destruct (map_find key data) eqn:Efind; [apply Lookup_cache|].
    cbv zeta.
    assert (Hs' : keys_sorted (map_insert key val data))
      by (apply map_insert_sorted; assumption).
    assert (Hw' : keys_within mn mx (map_insert key val data))
      by (apply map_insert_within; assumption).
    rewrite Z.gtb_ltb.
    destruct (Z.ltb_spec num_children_
                (Z.of_nat (length (map_insert key val data)))) as [Hbig|Hsmall].
    + assert (Hd41 : (length pos <= 41)%nat).
      { pose proof (sorted_within_length (map fst (map_insert key val data))
                      mn mx Hs') as Hcount.
        rewrite length_map in Hcount. destruct Hr as (Hmx & _).
        lapply Hcount.
        2:{ unfold keys_within in Hw'. rewrite Forall_forall in *.
            intros x Hx. apply in_map_iff in Hx.
            destruct Hx as (kv & <- & Hin). auto. }
        intro Hc. specialize (Hc ltac:(lia)).
        destruct (Nat.eq_dec (length pos) 42) as [E|E]; [|lia].
        rewrite E, width_42 in Hmx. unfold num_children_ in Hbig. lia. }
      destruct (split_leaf_spec V sha1 (length pos) mn mx h pos
                  (map_insert key val data) (bump_largest lg key)
                  eq_refl Hd41 Hr Hs' Hw')
        as (c0 & cs0 & Ecreate & Hwfn & Hlook).
      rewrite Ecreate. cbn [fst Rehash].
      rewrite (Lookup_cache V mn mx h _ pos (c0 :: cs0) []
                            (bump_largest lg key) _ key').
      rewrite Hlook by assumption.
      rewrite map_find_insert_other by assumption.
      rewrite Lookup_leaf. reflexivity.
    + cbn [fst Rehash]. rewrite !Lookup_leaf.
      rewrite map_find_insert_other by assumption. reflexivity.
  - destruct cs as [|c0 cs0]; [discriminate Hl|].
    rewrite Insert_node. cbn [fst].
    pose proof (ChildNum_wf V (length pos) mn mx h pos (c0 :: cs0) [] lg key
                  eq_refl Hd Hr Hk) as (Hidx & Hwin).
    pose proof (ChildNum_wf V (length pos) mn mx h pos (c0 :: cs0) [] lg key'
                  eq_refl Hd Hr Hk') as (Hidx' & Hwin').
    set (index := ChildNum (mkTree mn mx h pos (c0 :: cs0) [] lg) key) in *.
    set (index' := ChildNum (mkTree mn mx h pos (c0 :: cs0) [] lg) key') in *.
    pose proof (at_update_nth _ _ (fun c => Insert sha1 c (key, val))
                  (c0 :: cs0) (Z.to_nat index)) as Hup.
    assert (Hnode : forall h' lg' (cs' : list (MerkleTree V)),
               length cs' = length (c0 :: cs0) ->
               Lookup (mkTree mn mx h' pos cs' [] lg') key'
               = at_ (fun c : MerkleTree V => Lookup c key') (Throw "vector::at") cs'
                     (Z.to_nat index')).
    { intros h' lg' cs' Hlen'. destruct cs' as [|c0' cs0']; [discriminate Hlen'|].
      rewrite Lookup_node. reflexivity. }
    rewrite (Hnode h lg (c0 :: cs0) eq_refl).
    destruct (at_update (fun c => Insert sha1 c (key, val)) (c0 :: cs0)
                        (Z.to_nat index)) as [[cs' o]|].
    2:{ cbn [fst]. rewrite (Hnode _ _ (c0 :: cs0) eq_refl). reflexivity. }
    destruct Hup as (c & Hc & Ho & Hc' & Hlen' & Hoth).
    assert (Hgoal : at_ (fun c : MerkleTree V => Lookup c key') (Throw "vector::at") cs'
                        (Z.to_nat index')
                    = at_ (fun c : MerkleTree V => Lookup c key') (Throw "vector::at")
                          (c0 :: cs0) (Z.to_nat index')).
    { rewrite !at_nth.
      destruct (Z.eq_dec index' index) as [Heq|Hneq].
      - rewrite Heq, Hc', Hc.
        destruct (Hch _ _ Hc) as [Hminc Hwfc].
        rewrite Z2Nat.id in Hminc by lia.
        pose proof (wf_fields _ _ _ Hwfc) as (_ & _ & (Hmaxc & _)).
        apply (IH c (nth_error_In _ _ Hc) (S (length pos)) key val key' Hwfc);
          [lia | rewrite <- Heq in *; lia | exact Hne].
      - rewrite Hoth by lia. reflexivity. }
    destruct o; cbn [fst Rehash]; rewrite (Hnode _ _ cs' Hlen'); exact Hgoal.
Qed.

(** [Update] changes no key. *)
Lemma Update_Contains (t : MerkleTree V) :
  forall kv key', Contains (fst (Update sha1 t kv)) key' = Contains t key'.
Proof.
  induction t as [mn mx h pos cs data lg IH] using MerkleTree_ind.
  rewrite Forall_forall in IH. intros kv key'. destruct cs as [|c0 cs0].
  - rewrite Update_leaf. destruct (map_find (fst kv) data); [|reflexivity].
    cbn [fst Rehash]. rewrite !Contains_leaf. apply map_find_assign_some.
  - rewrite Update_node.
    pose proof (at_update_nth _ _ (fun c => Update sha1 c kv)
                  (c0 :: cs0)
                  (Z.to_nat (ChildNum (mkTree mn mx h pos (c0 :: cs0) data lg)
                                      (fst kv)))) as Hup.
    destruct (at_update (fun c => Update sha1 c kv) (c0 :: cs0) _)
      as [[cs' o]|]; [|reflexivity].
    destruct Hup as (c & Hc & Ho & Hc' & Hlen' & Hoth).
    assert (Hgoal : forall h' lg',
               Contains (mkTree mn mx h' pos cs' data lg') key'
               = Contains (mkTree mn mx h pos (c0 :: cs0) data lg) key').
    { intros h' lg'. destruct cs' as [|c0' cs0']; [discriminate Hlen'|].
      rewrite !Contains_node, !at_nth.
      replace (ChildNum (mkTree mn mx h' pos (c0' :: cs0') data lg') key')
        with (ChildNum (mkTree mn mx h pos (c0 :: cs0) data lg) key')
        by reflexivity.
      set (index' := Z.to_nat (ChildNum (mkTree mn mx h pos (c0 :: cs0) data lg)
                                        key')).
      destruct (Nat.eq_dec index'
                  (Z.to_nat (ChildNum (mkTree mn mx h pos (c0 :: cs0) data lg)
                                      (fst kv)))) as [Heq|Hneq].
      - rewrite Heq, Hc', Hc. apply IH. eapply nth_error_In. exact Hc.
      - rewrite Hoth by exact Hneq. reflexivity. }
    destruct o; cbn [fst Rehash]; apply Hgoal.
Qed.

Lemma Insert_largest_any (t : MerkleTree V) kv :
  largest_key_ (fst (Insert sha1 t kv))
  = bump_largest (largest_key_ t) (fst kv).
Proof.
  destruct t as [mn mx h pos cs data lg]. destruct cs as [|c0 cs0].
  - rewrite Insert_leaf. destruct (map_find (fst kv) data); [reflexivity|].
    cbv zeta. destruct (_ >? _); [|reflexivity].
    unfold CreateChildren. destruct (CreateChildren_loop _ _ _ _ _ _ _).
    reflexivity.
  - rewrite Insert_node.
    destruct (at_update (fun c => Insert sha1 c kv) (c0 :: cs0) _)
      as [[cs' [|what']]|]; reflexivity.
Qed.

Lemma Update_largest (t : MerkleTree V) kv :
  largest_key_ (fst (Update sha1 t kv)) = largest_key_ t.
Proof.
  destruct t as [mn mx h pos cs data lg]. destruct cs as [|c0 cs0].
  - rewrite Update_leaf. destruct (map_find (fst kv) data); reflexivity.
  - rewrite Update_node.
    destruct (at_update (fun c => Update sha1 c kv) (c0 :: cs0) _)
      as [[cs' [|what']]|]; reflexivity.
Qed.

Lemma wf_max_key (d : nat) (t t' : MerkleTree V) :
  wf d t -> wf d t' -> min_key_ t' = min_key_ t -> max_key_ t' = max_key_ t.
Proof.
  intros Hwf Hwf' Hmin.
  destruct (wf_fields _ _ _ Hwf) as (_ & _ & (Hmx & _)).
  destruct (wf_fields _ _ _ Hwf') as (_ & _ & (Hmx' & _)).
  lia.
Qed.

End Frames.

End FrameFacts.

(** ** The cache of the root *)

Module CacheFacts.
Import Merkle MerkleInduction MerkleEquations MapFacts ChildrenFacts
       RangeFacts WellFormed FailedInsert HashedFacts LargestFacts FrameFacts.

Section Cache.

Variable V : Type.
Variable sha1 : string -> Z.
Hypothesis sha1_pos : forall str, 0 < sha1 str.

Lemma bump_largest_ge (lg : option Z) (key : Z) :
  exists l, bump_largest lg key = Some l /\ key <= l /\
            forall l0, lg = Some l0 -> l0 <= l.
Proof.
  destruct lg as [l0|]; cbn [bump_largest].
  - rewrite Z.gtb_ltb. destruct (Z.ltb_spec l0 key).
    + exists key. split; [reflexivity|]. split; [lia|]. intros ? [= <-]. lia.
    + exists l0. split; [reflexivity|]. split; [lia|]. intros ? [= <-]. lia.
  - exists key. split; [reflexivity|]. split; [lia|]. discriminate.
Qed.

Lemma bump_largest_covered (lg : option Z) (key l : Z) :
  lg = Some l -> key <= l -> bump_largest lg key = lg.
Proof.
  intros -> Hle. cbn [bump_largest]. rewrite Z.gtb_ltb.
  destruct (Z.ltb_spec l key); [lia | reflexivity].
Qed.

Lemma Insert_cache_covers (t : MerkleTree V) d key val :
  wf d t -> min_key_ t <= key < max_key_ t ->
  cache_covers t -> cache_covers (fst (Insert sha1 t (key, val))).
Proof.
  intros Hwf Hk Hcov key' Hk' Hcont.
  destruct (Insert_wf V sha1 t d key val Hwf Hk) as (Hmin & Hwf' & _).
  pose proof (wf_max_key V d _ _ Hwf Hwf' Hmin) as Hmax.
  rewrite Hmin, Hmax in Hk'.
  rewrite Insert_largest_any. cbn [fst].
  destruct (bump_largest_ge (largest_key_ t) key) as (l & -> & Hkl & Hold).
  exists l. split; [reflexivity|].
  destruct (Z.eq_dec key' key) as [->|Hne]; [exact Hkl|].
  destruct (Contains_Lookup V _ _ Hcont) as [v Hv].
  rewrite (Insert_Lookup_other V sha1 t d key val key' Hwf Hk Hk' Hne) in Hv.
  apply Lookup_Ok_Contains in Hv.
  destruct (Hcov key' Hk' Hv) as (l0 & Hl0 & Hle).
  specialize (Hold l0 Hl0). lia.
Qed.

Lemma Update_cache_covers (t : MerkleTree V) d key val :
  wf d t -> cache_covers t -> cache_covers (fst (Update sha1 t (key, val))).
Proof.
  intros Hwf Hcov key' Hk' Hcont.
  destruct (Update_wf V sha1 t d key val Hwf) as (Hmin & Hwf' & _).
  pose proof (wf_max_key V d _ _ Hwf Hwf' Hmin) as Hmax.
  rewrite Hmin, Hmax in Hk'. rewrite Update_largest.
  rewrite Update_Contains in Hcont. apply Hcov; assumption.
Qed.

Lemma Delete_cache_covers (t : MerkleTree V) d key :
  wf d t -> hashed sha1 t ->
  cache_covers t -> cache_covers (fst (Delete sha1 t key)).
Proof.
  intros Hwf Hh Hcov.
  destruct (snd (Delete sha1 t key)) as [|what] eqn:Ho;
    [|rewrite (Delete_throw_same V sha1 t key what Ho); exact Hcov].
  pose proof (Delete_wf V sha1 t d key Hwf) as (_ & Hwf' & _).
  pose proof (Delete_hashed V sha1 t key Hh) as Hh'.
  destruct t as [mn mx h pos cs data lg]. destruct cs as [|c0 cs0].
  - rewrite Delete_leaf in *.
    destruct (map_find key data); [|discriminate Ho].
    cbn [fst Rehash] in *. intros key' Hk' Hcont.
    cbn [min_key_ max_key_ largest_key_] in *.
    rewrite Contains_leaf in Hcont.
    destruct (map_find key' (map_erase key data)) as [w|] eqn:E;
      [|discriminate].
    destruct (map_find_erase_some V _ _ _ _ E) as [w' Hv'].
    apply (Hcov key' Hk'). rewrite Contains_leaf, Hv'. reflexivity.
  - rewrite Delete_node in *.
    destruct (at_update (fun c => Delete sha1 c key) (c0 :: cs0) _)
      as [[cs' [|what]]|]; try discriminate Ho.
    cbv zeta in *. cbn [fst Rehash set_largest] in *.
    assert (Hwft : wf d (mkTree mn mx (Rehash_value sha1 cs' data) pos cs' data
                                lg))
      by (eapply wf_cache; exact Hwf').
    assert (Hht : hashed sha1 (mkTree mn mx (Rehash_value sha1 cs' data) pos cs'
                                      data lg))
      by (eapply hashed_cache; exact Hh').
    pose proof (GetLargestEntry_spec V sha1 sha1_pos _ d Hwft Hht) as Hspec.
    cbn [min_key_ max_key_] in Hspec.
    intros key' Hk' Hcont. cbn [min_key_ max_key_ largest_key_] in *.
    rewrite (Contains_cache V mn mx (Rehash_value sha1 cs' data) _ pos cs' data
                            lg) in Hcont.
    destruct (GetLargestEntry _) as [entry|].
    + exists (fst entry). split; [reflexivity|]. apply Hspec; assumption.
    + rewrite (Hspec key' Hk') in Hcont. discriminate.
Qed.

Lemma EmptyTree_cache_covers : cache_covers (EmptyTree V sha1).
Proof.
  intros key Hk Hcont.
  pose proof (GetLargestEntry_spec V sha1 sha1_pos (EmptyTree V sha1) 0
                (EmptyTree_wf V sha1) (EmptyTree_hashed V sha1)) as Hspec.
  rewrite GetLargestEntry_zero in Hspec.
  - rewrite (Hspec key Hk) in Hcont. discriminate.
  - unfold EmptyTree, CreateChildren.
    destruct (CreateChildren_loop _ _ _ _ _ _ _). reflexivity.
Qed.

(** On the trees of the store, the cache of the root is at least every
    key of the tree. *)
Lemma reachable_cache_covers (t : MerkleTree V) :
  reachable sha1 t -> cache_covers t.
Proof.
  induction 1 as [|t o Hreach IH Hkey]; [apply EmptyTree_cache_covers|].
  pose proof (reachable_wf V sha1 t Hreach) as Hwf.
  destruct (root_range V t Hwf) as [Hmin Hmax].
  destruct o as [key val|key val|key]; cbn [apply_op op_key] in *.
  - apply (Insert_cache_covers t 0); try assumption.
    rewrite Hmin, Hmax. exact Hkey.
  - apply (Update_cache_covers t 0); assumption.
  - apply (Delete_cache_covers t 0); try assumption.
    apply reachable_hashed. exact Hreach.
Qed.

Lemma Lookup_forget (t : MerkleTree V) :
  forall key, Lookup (forget_caches t) key = Lookup t key.
Proof.
  induction t as [mn mx h pos cs data lg IH] using MerkleTree_ind.
  rewrite Forall_forall in IH. intros key. cbn [forget_caches].
  destruct cs as [|c0 cs0]; [reflexivity|].
  change (map forget_caches (c0 :: cs0))
    with (forget_caches c0 :: map forget_caches cs0).
  rewrite !Lookup_node, !at_nth.
  change (forget_caches c0 :: map forget_caches cs0)
    with (map forget_caches (c0 :: cs0)).
  replace (ChildNum (mkTree mn mx h pos (map forget_caches (c0 :: cs0)) data
                            None) key)
    with (ChildNum (mkTree mn mx h pos (c0 :: cs0) data lg) key)
    by reflexivity.
  rewrite nth_error_map.
  destruct (nth_error (c0 :: cs0) _) as [c|] eqn:Hc; [|reflexivity].
  cbn [option_map]. apply IH. eapply nth_error_In. exact Hc.
Qed.

End Cache.

End CacheFacts.

(** C10, the code at the failing input.  [largest_key_] is documented as
    the largest key stored in the subtree, but [CreateChildren] leaves it
    unset in the children it makes: after nine inserts the node at
    position [[0; 0]] holds the keys 1 to 9 with no largest key on
    record, and the refused [Insert] of key 3 records 3 there, below the
    key 9 that the node still holds. *)
Lemma Insert_failure_changes_a_cache :
  let t := Merkle.run Scenario.sha1
             [Merkle.OpInsert 1 "a"; Merkle.OpInsert 2 "b";
              Merkle.OpInsert 3 "c"; Merkle.OpInsert 4 "d";
              Merkle.OpInsert 5 "e"; Merkle.OpInsert 6 "f";
              Merkle.OpInsert 7 "g"; Merkle.OpInsert 8 "h";
              Merkle.OpInsert 9 "i"]%string
             (Merkle.EmptyTree string Scenario.sha1) in
  let t' := fst (Merkle.Insert Scenario.sha1 t (3, "z"%string)) in
  snd (Merkle.Insert Scenario.sha1 t (3, "z"%string))
  = Merkle.Threw "Key already exists" /\
  Merkle.cache_at [0; 0] t = Some None /\
  Merkle.cache_at [0; 0] t' = Some (Some 3) /\
  Merkle.Lookup t' 9 = Ok "i"%string.
Proof. vm_compute. repeat split; reflexivity. Qed.

(** What a refused [Insert] does keep.  When [Insert] throws on a tree of
    the store, built with a hash that never gives the zero key, the key
    was present and the entries and hashes of every node, the largest key
    on record at the root and every answer of [Lookup], [GetEntries] and
    [Next] are as before. *)
Theorem Insert_failure_keeps_observations (V : Type) (sha1 : string -> Z)
        (t : Merkle.MerkleTree V) (k : Z) (v : V) (what : string) :
  (forall str, 0 < sha1 str) ->
  Merkle.reachable sha1 t -> Key.in_ring k ->
  snd (Merkle.Insert sha1 t (k, v)) = Merkle.Threw what ->
  what = "Key already exists"%string /\
  Merkle.Contains t k = true /\
  Merkle.forget_caches (fst (Merkle.Insert sha1 t (k, v)))
  = Merkle.forget_caches t /\
  Merkle.largest_key_ (fst (Merkle.Insert sha1 t (k, v)))
  = Merkle.largest_key_ t /\
  Merkle.GetHash (fst (Merkle.Insert sha1 t (k, v))) = Merkle.GetHash t /\
  Merkle.GetEntries (fst (Merkle.Insert sha1 t (k, v)))
  = Merkle.GetEntries t /\
  (forall key, Merkle.Lookup (fst (Merkle.Insert sha1 t (k, v))) key
               = Merkle.Lookup t key) /\
  (forall key, Merkle.Next (fst (Merkle.Insert sha1 t (k, v))) key
               = Merkle.Next t key).
Proof.
  intros Hpos Hreach Hk Hthrow.
  pose proof (WellFormed.reachable_wf V sha1 t Hreach) as Hwf.
  destruct (WellFormed.root_range V t Hwf) as [Hmin Hmax].
  assert (Hrange : Merkle.min_key_ t <= k < Merkle.max_key_ t)
    by (rewrite Hmin, Hmax; exact Hk).
  destruct (FailedInsert.Insert_throw_present V sha1 t 0 k v what Hwf Hrange
              Hthrow) as [Hwhat Hcont].
  pose proof (FailedInsert.Insert_throw_forget V sha1 t (k, v) what Hthrow)
    as Hforget.
  assert (Hcache : Merkle.largest_key_ (fst (Merkle.Insert sha1 t (k, v)))
                   = Merkle.largest_key_ t).
  { rewrite FrameFacts.Insert_largest_any. cbn [fst].
    destruct (CacheFacts.reachable_cache_covers V sha1 Hpos t Hreach k Hrange
                Hcont) as (l & Hl & Hle).
    apply (CacheFacts.bump_largest_covered _ _ l); assumption. }
  split; [exact Hwhat|]. split; [exact Hcont|]. split; [exact Hforget|].
  split; [exact Hcache|]. split; [|split; [|split]].
  - apply (f_equal Merkle.GetHash) in Hforget.
    destruct t, (fst (Merkle.Insert sha1 _ (k, v))). exact Hforget.
  - rewrite <- (FailedInsert.GetEntries_forget V
                  (fst (Merkle.Insert sha1 t (k, v)))).
    rewrite Hforget. apply FailedInsert.GetEntries_forget.
  - intro key.
    rewrite <- (CacheFacts.Lookup_forget V (fst (Merkle.Insert sha1 t (k, v)))).
    rewrite Hforget. apply CacheFacts.Lookup_forget.
  - intro key. apply FailedInsert.Next_root; try assumption.
    apply (WellFormed.Insert_wf V sha1 t 0 k v Hwf Hrange).
Qed.

Lemma Insert_failure_keeps_observations_witness :
  Merkle.Next
    (fst (Merkle.Insert Scenario.sha1
            (fst (Merkle.Insert Scenario.sha1
                    (Merkle.EmptyTree string Scenario.sha1) (3, "c"%string)))
            (3, "z"%string))) 1
  = Merkle.Next
      (fst (Merkle.Insert Scenario.sha1
              (Merkle.EmptyTree string Scenario.sha1) (3, "c"%string))) 1.
Proof.
  refine (proj2 (proj2 (proj2 (proj2 (proj2 (proj2 (proj2
            (Insert_failure_keeps_observations string Scenario.sha1
               (fst (Merkle.Insert Scenario.sha1
                       (Merkle.EmptyTree string Scenario.sha1)
                       (3, "c"%string)))
               3 "z"%string "Key already exists" _ _ _ _))))))) 1).
  - intro str. unfold Scenario.sha1. lia.
  - apply (Merkle.reachable_step Scenario.sha1 _ (Merkle.OpInsert 3 "c"%string)).
    + apply Merkle.reachable_empty.
    + vm_compute. split; [discriminate | reflexivity].
  - vm_compute. split; [discriminate | reflexivity].
  - vm_compute. reflexivity.
Defined.

(** ** [DHashPeer::Create] *)

Module CreateFacts.
Import DHash.

Example scenario_successors :
  Chord.GetNSuccessors (ForwardRequest Scenario.net) Scenario.chord_a 5 3
  = Ok [Scenario.peer_a; Scenario.peer_b; Scenario.peer_c].
Proof. vm_compute. reflexivity. Qed.

Example scenario_create :
  snd (Create Scenario.sha1 Scenario.net Scenario.a_empty 5 Scenario.block)
  = Merkle.Done /\
  map (fun request => (fst (fst request), index_ (snd request)))
      (snd (fst (Create Scenario.sha1 Scenario.net Scenario.a_empty 5
                        Scenario.block)))
  = [(Scenario.peer_b, 2); (Scenario.peer_c, 3)] /\
  option_map index_
    (match Database.Lookup DataFragment
             (db_ (fst (fst (Create Scenario.sha1 Scenario.net
                                    Scenario.a_empty 5 Scenario.block)))) 5 with
     | Ok frag => Some frag
     | Throw _ => None
     end) = Some 1.
Proof. vm_compute. repeat split. Qed.

Section Create.

Variable sha1 : string -> Z.
Variable net : Network.
Variable self_id : Z.
Variable key : Z.
Variable fragments : list DataFragment.

Lemma nth_error_skipn_cons (A : Type) (l : list A) :
  forall i x, nth_error l i = Some x -> skipn i l = x :: skipn (S i) l.
Proof.
  induction l as [|a l IH]; intros [|i] x H; simpl in *; try discriminate.
  - injection H as ->. reflexivity.
  - apply IH. assumption.
Qed.





End Create.



(** [GetNSuccessors] returns peers with pairwise distinct IDs. *)
Lemma GetNSuccessors_loop_NoDup
      (ForwardRequest : Chord.Peer -> Z -> result RemotePeer) (st : Chord.Peer)
      (n : nat) :
  forall previous_peer_id succ_ids successors_list r,
    succ_ids = rev (map id_ successors_list) -> NoDup succ_ids ->
    Chord.GetNSuccessors_loop ForwardRequest st n previous_peer_id succ_ids
                              successors_list = Ok r ->
    NoDup (map id_ r).
Proof.
  induction n as [|n IH]; intros prev ids l r Hids Hnd; simpl.
  - intro H. injection H as <-. rewrite <- (rev_involutive (map id_ l)).
    apply NoDup_rev. rewrite <- Hids. assumption.
  - unfold bind.
    destruct (Chord.GetSuccessor ForwardRequest st (Key.add_num prev 1))
      as [ith_succ|what]; [|discriminate].
    destruct (existsb (Z.eqb (id_ ith_succ)) ids) eqn:Ex.
    + intro H. injection H as <-. rewrite <- (rev_involutive (map id_ l)).
      apply NoDup_rev. rewrite <- Hids. assumption.
    + apply IH.
      * rewrite map_app, rev_app_distr. simpl. rewrite Hids. reflexivity.
      * constructor; [|assumption]. intro Hin.
        assert (existsb (Z.eqb (id_ ith_succ)) ids = true).
        { apply existsb_exists. exists (id_ ith_succ). split; [assumption|].
          apply Z.eqb_refl. }
        congruence.
Qed.

Lemma GetNSuccessors_NoDup
      (ForwardRequest : Chord.Peer -> Z -> result RemotePeer) (st : Chord.Peer)
      (key n : Z) (succ_list : list RemotePeer) :
  Chord.GetNSuccessors ForwardRequest st key n = Ok succ_list ->
  NoDup (map id_ succ_list).
Proof.
  unfold Chord.GetNSuccessors.
  apply GetNSuccessors_loop_NoDup; [reflexivity | constructor].
Qed.

End CreateFacts.




(** ** The codec: arithmetic that stays inside [int] *)

Module IDAArith.
Import IDA.

Lemma int32_small (x : Z) :
  -2147483648 <= x < 2147483648 -> int32 x = x.
Proof. intros H. unfold int32. rewrite Z.mod_small by lia. lia. Qed.

Lemma Modulo_mod (x p : Z) :
  0 < p -> 2 * p <= 2147483648 -> Modulo x p = x mod p.
Proof.
  intros Hp Hsmall. unfold Modulo.
  assert (Hr : Z.abs (Z.rem x p) < Z.abs p) by (apply Z.rem_bound_abs; lia).
  pose proof (Z.quot_rem' x p) as Hq.
  rewrite int32_small by lia.
  rewrite Z.rem_mod_nonneg by lia.
  replace (Z.rem x p + p) with (x + (1 - Z.quot x p) * p) by lia.
  apply Z_mod_plus_full.
Qed.

Lemma Modulo_residue (x p : Z) :
  0 < p -> 2 * p <= 2147483648 -> residue p (Modulo x p).
Proof.
  intros Hp Hsmall. rewrite Modulo_mod by assumption.
  apply Z.mod_pos_bound. exact Hp.
Qed.

Lemma residue_mul (p x y : Z) :
  residue p x -> residue p y -> 0 <= x * y < p * p.
Proof. unfold residue. intros Hx Hy. nia. Qed.

Lemma sumZ_ext (f g : nat -> Z) (n : nat) :
  (forall k, (k < n)%nat -> f k = g k) -> sumZ f n = sumZ g n.
Proof.
  induction n as [|n IH]; intros H; cbn [sumZ]; [reflexivity|].
  rewrite IH by (intros; apply H; lia). rewrite H by lia. reflexivity.
Qed.

Lemma sumZ_shift (f : nat -> Z) (n : nat) :
  sumZ f (S n) = f O + sumZ (fun k => f (S k)) n.
Proof.
  induction n as [|n IH]; [cbn [sumZ]; lia|].
  change (sumZ f (S (S n))) with (sumZ f (S n) + f (S n)).
  rewrite IH. cbn [sumZ]. lia.
Qed.

Lemma sumZ_add (f g : nat -> Z) (n : nat) :
  sumZ (fun k => f k + g k) n = sumZ f n + sumZ g n.
Proof. induction n as [|n IH]; cbn [sumZ]; [reflexivity|]. rewrite IH. lia. Qed.

Lemma sumZ_mul_l (a : Z) (f : nat -> Z) (n : nat) :
  a * sumZ f n = sumZ (fun k => a * f k) n.
Proof. induction n as [|n IH]; cbn [sumZ]; [lia|]. rewrite <- IH. lia. Qed.

Lemma sumZ_mul_r (a : Z) (f : nat -> Z) (n : nat) :
  sumZ f n * a = sumZ (fun k => f k * a) n.
Proof. induction n as [|n IH]; cbn [sumZ]; [lia|]. rewrite <- IH. lia. Qed.

Lemma sumZ_zero (n : nat) : sumZ (fun _ => 0) n = 0.
Proof. induction n as [|n IH]; cbn [sumZ]; [reflexivity|]. rewrite IH. reflexivity. Qed.

Lemma sumZ_swap (F : nat -> nat -> Z) (rows cols : nat) :
  sumZ (fun k => sumZ (fun l => F k l) cols) rows
  = sumZ (fun l => sumZ (fun k => F k l) rows) cols.
Proof.
  induction rows as [|rows IH]; cbn [sumZ].
  - symmetry. apply sumZ_zero.
  - rewrite IH. symmetry. apply sumZ_add.
Qed.

Lemma sumZ_mod_congr (p : Z) (f g : nat -> Z) (n : nat) :
  (forall k, (k < n)%nat -> f k mod p = g k mod p) ->
  sumZ f n mod p = sumZ g n mod p.
Proof.
  induction n as [|n IH]; intros H; cbn [sumZ]; [reflexivity|].
  rewrite Zplus_mod, IH, H by (try lia; intros; apply H; lia).
  symmetry. apply Zplus_mod.
Qed.

Lemma sumZ_delta (f : nat -> Z) (i n : nat) :
  (i < n)%nat ->
  sumZ (fun l => (if (i =? l)%nat then 1 else 0) * f l) n = f i.
Proof.
  induction n as [|n IH]; intros Hi; [lia|]. cbn [sumZ].
  destruct (Nat.eq_dec i n) as [->|Hne].
  - rewrite Nat.eqb_refl.
    rewrite (sumZ_ext _ (fun _ => 0)), sumZ_zero; [lia|].
    intros k Hk. destruct (Nat.eqb_spec n k); [lia|reflexivity].
  - rewrite IH by lia. destruct (Nat.eqb_spec i n); [contradiction|lia].
Qed.

Lemma sumZ_bound (f : nat -> Z) (bound : Z) (n : nat) :
  (forall k, (k < n)%nat -> 0 <= f k < bound) ->
  0 <= sumZ f n <= Z.of_nat n * bound.
Proof.
  induction n as [|n IH]; intros H; cbn [sumZ]; [lia|].
  specialize (IH (fun k Hk => H k (Nat.lt_lt_succ_r _ _ Hk))).
  pose proof (H n (Nat.lt_succ_diag_r n)). lia.
Qed.

(** One cell of [MatrixProduct] is the exact sum, reduced. *)
Lemma cell_exact (a g : nat -> Z) (p : Z) (cols : nat) :
  0 < p -> 2 * p * p <= 2147483648 ->
  (forall k, (k < cols)%nat -> residue p (a k) /\ residue p (g k)) ->
  fold_left (fun cell k => Modulo (int32 (cell + int32 (a k * g k))) p)
            (seq 0 cols) 0
  = sumZ (fun k => a k * g k) cols mod p.
Proof.
  intros Hp Hsmall.
  induction cols as [|cols IH]; intros Hres.
  - cbn [seq fold_left sumZ]. rewrite Z.mod_0_l by lia. reflexivity.
  - rewrite seq_S, fold_left_app, IH by (intros; apply Hres; lia).
    cbn [fold_left Nat.add sumZ].
    destruct (Hres cols (Nat.lt_succ_diag_r cols)) as [Ha Hg].
    pose proof (residue_mul _ _ _ Ha Hg) as Hprod.
    pose proof (Z.mod_pos_bound (sumZ (fun k => a k * g k) cols) p Hp) as Hcell.
    assert (Hpp : p <= p * p) by nia.
    rewrite (int32_small (a cols * g cols)) by lia.
    rewrite int32_small by lia.
    rewrite Modulo_mod by nia.
    apply Z.add_mod_idemp_l. lia.
Qed.

(** [InnerProduct] of two vectors of residues is the exact sum, reduced. *)
Lemma fold_products (p : Z) (row seg : Vector) (acc : Z) :
  Forall (residue p) row -> Forall (residue p) seg ->
  length row = length seg ->
  0 <= acc -> acc + Z.of_nat (length row) * (p * p) < 2147483648 ->
  fold_left (fun sum lr => int32 (sum + int32 (fst lr * snd lr)))
            (combine row seg) acc
  = acc + sumZ (fun k => nth k row 0 * nth k seg 0) (length row).
Proof.
  intros Hrow. revert seg acc.
  induction Hrow as [|x row Hx Hrow IH]; intros seg acc Hseg Hlen Hacc Hbound.
  - cbn [combine fold_left length sumZ]. lia.
  - destruct seg as [|y seg]; [discriminate|].
    inversion Hseg as [|? ? Hy Hseg']; subst.
    cbn [length] in Hlen, Hbound |- *. rewrite Nat2Z.inj_succ in Hbound.
    pose proof (residue_mul _ _ _ Hx Hy) as Hprod.
    assert (0 <= Z.of_nat (length row) * (p * p)) by nia.
    cbn [combine fold_left fst snd].
    rewrite (int32_small (x * y)) by lia.
    rewrite int32_small by lia.
    rewrite IH by (try assumption; try lia).
    rewrite sumZ_shift. cbn [nth]. lia.
Qed.

Lemma InnerProduct_exact (p : Z) (row seg : Vector) :
  0 < p ->
  Forall (residue p) row -> Forall (residue p) seg ->
  length row = length seg ->
  Z.of_nat (length row) * (p * p) < 2147483648 ->
  2 * p <= 2147483648 ->
  InnerProduct row seg p
  = sumZ (fun k => nth k row 0 * nth k seg 0) (length row) mod p.
Proof.
  intros Hp Hrow Hseg Hlen Hbound Hsmall. unfold InnerProduct.
  rewrite (fold_products p) by (try assumption; lia).
  rewrite Modulo_mod by assumption. reflexivity.
Qed.

End IDAArith.

(** ** The codec: shapes of the matrices *)

Module IDAShape.
Import IDA IDAArith.

Lemma nth_map_in {A B : Type} (f : A -> B) (l : list A) (i : nat)
      (d : A) (d' : B) :
  (i < length l)%nat -> nth i (map f l) d' = f (nth i l d).
Proof.
  intros Hi. rewrite (nth_indep _ d' (f d)) by (rewrite length_map; exact Hi).
  apply map_nth.
Qed.

Lemma powers_row_length (m : nat) (elt a p : Z) :
  length (powers_row m elt a p) = m.
Proof.
  revert elt. induction m as [|m IH]; intros elt; cbn [powers_row length];
    [reflexivity|]. rewrite IH. reflexivity.
Qed.

Lemma powers_row_residue (m : nat) (elt a p : Z) :
  0 < p -> 2 * p <= 2147483648 -> residue p elt ->
  Forall (residue p) (powers_row m elt a p).
Proof.
  intros Hp Hsmall. revert elt.
  induction m as [|m IH]; intros elt Helt; cbn [powers_row]; constructor.
  - exact Helt.
  - apply IH. apply Modulo_residue; assumption.
Qed.

Lemma rows_of_nth (cols : nat) (p : Z) (matrix : Matrix) (i : nat) :
  rows_of cols p matrix -> (i < length matrix)%nat ->
  length (nth i matrix []) = cols /\ Forall (residue p) (nth i matrix []).
Proof.
  intros Hrows Hi. unfold rows_of in Hrows. rewrite Forall_forall in Hrows.
  apply Hrows. apply nth_In. exact Hi.
Qed.

Lemma residue_nth (p : Z) (row : Vector) (k : nat) :
  0 < p -> Forall (residue p) row -> residue p (nth k row 0).
Proof.
  intros Hp Hrow. destruct (Nat.lt_ge_cases k (length row)) as [Hk|Hk].
  - rewrite Forall_forall in Hrow. apply Hrow. apply nth_In. exact Hk.
  - rewrite nth_overflow by exact Hk. unfold residue. lia.
Qed.

Lemma encoding_matrix_rows (c : params) :
  1 < p_ c -> 2 * p_ c <= 2147483648 ->
  rows_of (Z.to_nat (m_ c)) (p_ c) (encoding_matrix_ c).
Proof.
  intros Hp Hsmall. unfold rows_of, encoding_matrix_, ConstructEncodingMatrix.
  apply Forall_forall. intros row Hin. apply in_map_iff in Hin.
  destruct Hin as [a [<- _]]. split.
  - apply powers_row_length.
  - apply powers_row_residue; try lia. unfold residue. lia.
Qed.

Lemma encoding_matrix_length (c : params) :
  length (encoding_matrix_ c) = Z.to_nat (n_ c).
Proof.
  unfold encoding_matrix_, ConstructEncodingMatrix.
  rewrite length_map, length_seq. reflexivity.
Qed.

Lemma select_rows (c : params) (frag_indices : Vector) :
  1 < p_ c -> 2 * p_ c <= 2147483648 ->
  in_range c frag_indices ->
  rows_of (Z.to_nat (m_ c)) (p_ c) (select (encoding_matrix_ c) frag_indices).
Proof.
  intros Hp Hsmall Hin. unfold rows_of, select. apply Forall_map.
  eapply Forall_impl; [|exact Hin]. cbv beta. intros index Hindex.
  apply rows_of_nth; [apply encoding_matrix_rows; assumption|].
  rewrite encoding_matrix_length. lia.
Qed.

Lemma select_Encode (c : params) (v frag_indices : Vector) :
  in_range c frag_indices ->
  select (Encode c v) frag_indices
  = fragments_of (p_ c) (select (encoding_matrix_ c) frag_indices)
                 (SplitToSegments c v).
Proof.
  intros Hin. unfold fragments_of, select. rewrite map_map. apply map_ext_in.
  intros index Hindex. unfold in_range in Hin. rewrite Forall_forall in Hin.
  specialize (Hin index Hindex). unfold Encode. cbv zeta.
  rewrite (nth_map_in _ _ _ ([] : Vector)) by (rewrite encoding_matrix_length; lia).
  reflexivity.
Qed.

(** [MatrixProduct]: shape and cells. *)
Lemma MatrixProduct_length (lhs rhs : Matrix) (p : Z) :
  length (MatrixProduct lhs rhs p) = length lhs.
Proof. unfold MatrixProduct. apply length_map. Qed.

Lemma MatrixProduct_row_length (lhs rhs : Matrix) (p : Z) (i : nat) :
  (i < length lhs)%nat ->
  length (nth i (MatrixProduct lhs rhs p) []) = length (nth 0 rhs []).
Proof.
  intros Hi. unfold MatrixProduct.
  rewrite (nth_map_in _ _ _ ([] : Vector)) by exact Hi.
  rewrite length_map, length_seq. reflexivity.
Qed.

Lemma MatrixProduct_cell (lhs rhs : Matrix) (p : Z) (i j : nat) :
  (i < length lhs)%nat -> (j < length (nth 0 rhs []))%nat ->
  nth j (nth i (MatrixProduct lhs rhs p) []) 0
  = fold_left
      (fun cell k =>
         Modulo (int32 (cell + int32 (nth k (nth i lhs []) 0
                                      * nth j (nth k rhs []) 0))) p)
      (seq 0 (length (nth 0 lhs []))) 0.
Proof.
  intros Hi Hj. unfold MatrixProduct.
  rewrite (nth_map_in _ _ _ ([] : Vector)) by exact Hi.
  rewrite (nth_map_in _ _ _ O) by (rewrite length_seq; exact Hj).
  rewrite seq_nth by exact Hj. reflexivity.
Qed.

(** Boolean equality of matrices. *)
Lemma vec_eqb_eq (a b : Vector) : vec_eqb a b = true -> a = b.
Proof.
  revert b. induction a as [|x a IH]; intros [|y b] H; cbn [vec_eqb] in H;
    try discriminate; [reflexivity|].
  apply andb_prop in H. destruct H as [Hxy Hab].
  apply Z.eqb_eq in Hxy. rewrite Hxy, (IH b Hab). reflexivity.
Qed.

Lemma mat_eqb_eq (a b : Matrix) : mat_eqb a b = true -> a = b.
Proof.
  revert b. induction a as [|x a IH]; intros [|y b] H; cbn [mat_eqb] in H;
    try discriminate; [reflexivity|].
  apply andb_prop in H. destruct H as [Hxy Hab].
  rewrite (vec_eqb_eq _ _ Hxy), (IH b Hab). reflexivity.
Qed.

Lemma identity_cell (m i j : nat) :
  (i < m)%nat -> (j < m)%nat ->
  nth j (nth i (identity m) []) 0 = if (i =? j)%nat then 1 else 0.
Proof.
  intros Hi Hj. unfold identity.
  rewrite (nth_map_in _ _ _ O) by (rewrite length_seq; exact Hi).
  rewrite (nth_map_in _ _ _ O) by (rewrite length_seq; exact Hj).
  rewrite !seq_nth by assumption. reflexivity.
Qed.

Lemma well_shaped_rows (m : nat) (p : Z) (matrix : Matrix) :
  well_shaped m p matrix = true ->
  length matrix = m /\ rows_of m p matrix.
Proof.
  unfold well_shaped. intros H. apply andb_prop in H. destruct H as [Hlen Hrows].
  apply Nat.eqb_eq in Hlen. split; [exact Hlen|].
  unfold rows_of. apply Forall_forall. intros row Hin.
  rewrite forallb_forall in Hrows. specialize (Hrows row Hin).
  apply andb_prop in Hrows. destruct Hrows as [Hl Hr].
  apply Nat.eqb_eq in Hl. split; [exact Hl|].
  apply Forall_forall. intros x Hx. rewrite forallb_forall in Hr.
  specialize (Hr x Hx). unfold reduced in Hr. apply andb_prop in Hr.
  destruct Hr as [H0 H1]. apply Z.leb_le in H0. apply Z.ltb_lt in H1.
  split; assumption.
Qed.

End IDAShape.

(** ** The codec: segments and their padding *)

Module IDASegments.
Import IDA IDAArith IDAShape.

Lemma last_app_ne {A : Type} (l l' : list A) (d : A) :
  l' <> [] -> last (l ++ l') d = last l' d.
Proof.
  intros Hne. induction l as [|x l IH]; [reflexivity|].
  cbn [app]. destruct (l ++ l') eqn:Happ.
  - destruct l; [cbn [app] in Happ; contradiction|discriminate].
  - cbn [last]. exact IH.
Qed.

Lemma Forall_firstn_skipn {A : Type} (P : A -> Prop) (m : nat) (l : list A) :
  Forall P l -> Forall P (firstn m l) /\ Forall P (skipn m l).
Proof.
  intros H. rewrite <- (firstn_skipn m l) in H. apply Forall_app in H. exact H.
Qed.

Lemma Forall_repeat {A : Type} (P : A -> Prop) (x : A) (count : nat) :
  P x -> Forall P (repeat x count).
Proof.
  intros Hx. apply Forall_forall. intros y Hy.
  apply repeat_spec in Hy. subst y. exact Hx.
Qed.

Lemma SplitToSegments_loop_nil (fuel m : nat) :
  SplitToSegments_loop fuel m [] = [].
Proof. destruct fuel; reflexivity. Qed.

(** Every segment has [m] residues. *)
Lemma SplitToSegments_loop_rows (p : Z) (m fuel : nat) (v : Vector) :
  0 < p -> Forall (residue p) v ->
  rows_of m p (SplitToSegments_loop fuel m v).
Proof.
  intros Hp. revert v. induction fuel as [|fuel IH]; intros v Hv.
  - constructor.
  - cbn [SplitToSegments_loop]. destruct v as [|x v']; [constructor|].
    destruct (Forall_firstn_skipn _ m _ Hv) as [Hfirst Hskip].
    constructor; [|apply IH; exact Hskip]. split.
    + rewrite length_app, repeat_length.
      pose proof (firstn_le_length m (x :: v')). lia.
    + apply Forall_app. split; [exact Hfirst|].
      apply Forall_repeat. unfold residue. lia.
Qed.

(** The segments are the chunks of [v]; only the last one is padded. *)
Lemma SplitToSegments_loop_spec (m : nat) :
  (1 <= m)%nat ->
  forall (fuel : nat) (v : Vector),
    (length v <= fuel)%nat -> v <> [] ->
    exists (init : Matrix) (chunk : Vector),
      SplitToSegments_loop fuel m v
      = init ++ [chunk ++ repeat 0 (m - length chunk)] /\
      concat init ++ chunk = v /\
      chunk <> [] /\
      last chunk 0 = last v 0.
Proof.
  intros Hm. induction fuel as [|fuel IH]; intros v Hfuel Hne.
  - destruct v; [contradiction|cbn [length] in Hfuel; lia].
  - destruct v as [|x v']; [contradiction|].
    cbn [SplitToSegments_loop].
    destruct (skipn m (x :: v')) as [|y rest] eqn:Hskip.
    + exists [], (x :: v').
      assert (Hall : firstn m (x :: v') = x :: v').
      { rewrite <- (firstn_skipn m (x :: v')) at 2.
        rewrite Hskip, app_nil_r. reflexivity. }
      rewrite Hall, SplitToSegments_loop_nil.
      split; [reflexivity|]. split; [reflexivity|].
      split; [discriminate|reflexivity].
    + assert (Hlen : (m < length (x :: v'))%nat).
      { pose proof (length_skipn m (x :: v')) as Hl. rewrite Hskip in Hl.
        cbn [length] in Hl |- *. lia. }
      destruct (IH (y :: rest)) as [init [chunk [Hsplit [Hcat [Hchunk Hlast]]]]].
      { pose proof (length_skipn m (x :: v')) as Hl. rewrite Hskip in Hl.
        cbn [length] in Hl, Hfuel |- *. lia. }
      { discriminate. }
      exists (firstn m (x :: v') :: init), chunk.
      rewrite Hsplit, firstn_length_le by lia.
      rewrite Nat.sub_diag. cbn [repeat]. rewrite app_nil_r.
      split; [reflexivity|]. split; [|split; [exact Hchunk|]].
      * cbn [concat]. rewrite <- app_assoc, Hcat, <- Hskip.
        apply firstn_skipn.
      * rewrite Hlast, <- Hskip.
        rewrite <- (firstn_skipn m (x :: v')) at 2.
        symmetry. apply last_app_ne. rewrite Hskip. discriminate.
Qed.

(** The two stripping loops of [Decode] remove the padding of a block
    that ends in a non-zero element, and nothing else. *)
Lemma AllZeroes_false (chunk padding : Vector) :
  chunk <> [] -> last chunk 0 <> 0 -> AllZeroes (chunk ++ padding) = false.
Proof.
  intros Hne Hlast. unfold AllZeroes.
  rewrite (app_removelast_last 0 Hne), <- app_assoc, forallb_app.
  cbn [app forallb]. destruct (Z.eqb_spec 0 (last chunk 0)) as [Heq|_].
  - symmetry in Heq. contradiction.
  - cbn [andb]. apply andb_false_r.
Qed.

Lemma drop_zeroes_padding (count : nat) (rest : Vector) :
  drop_zeroes (repeat 0 count ++ rest) = drop_zeroes rest.
Proof. induction count as [|count IH]; [reflexivity|]. cbn. exact IH. Qed.

Lemma drop_zeroes_chunk (chunk : Vector) (count : nat) :
  chunk <> [] -> last chunk 0 <> 0 ->
  drop_zeroes (rev (chunk ++ repeat 0 count)) = Some (rev chunk).
Proof.
  intros Hne Hlast.
  rewrite rev_app_distr, rev_repeat, drop_zeroes_padding.
  rewrite (app_removelast_last 0 Hne) at 1.
  rewrite rev_app_distr. cbn [rev app drop_zeroes].
  destruct (Z.eqb_spec (last chunk 0) 0) as [Heq|_]; [contradiction|].
  rewrite (app_removelast_last 0 Hne) at 3.
  rewrite rev_app_distr. reflexivity.
Qed.

Lemma strip_padding (init : Matrix) (chunk : Vector) (count : nat) :
  chunk <> [] -> last chunk 0 <> 0 ->
  match drop_zero_segments (rev (init ++ [chunk ++ repeat 0 count])) with
  | None => DecodeUndefined
  | Some [] => DecodeUndefined
  | Some (back :: rest) =>
      match drop_zeroes (rev back) with
      | None => DecodeUndefined
      | Some rev_back => Decoded (concat (rev (rev rev_back :: rest)))
      end
  end = Decoded (concat init ++ chunk).
Proof.
  intros Hne Hlast. rewrite rev_app_distr. cbn [rev app drop_zero_segments].
  rewrite AllZeroes_false by assumption.
  rewrite drop_zeroes_chunk by assumption.
  cbn [rev]. rewrite !rev_involutive, concat_app. cbn [concat].
  rewrite app_nil_r. reflexivity.
Qed.

(** [trimmed]: what is cut off are zeroes, and what is kept ends in a
    non-zero element. *)
Lemma AllZeroes_app (l l' : Vector) :
  AllZeroes (l ++ l') = AllZeroes l && AllZeroes l'.
Proof. apply forallb_app. Qed.

Lemma AllZeroes_repeat (count : nat) : AllZeroes (repeat 0 count) = true.
Proof. induction count as [|count IH]; [reflexivity|exact IH]. Qed.

Lemma trimmed_zeroes (z : Vector) : AllZeroes z = true -> trimmed z = [].
Proof.
  induction z as [|x z IH]; [reflexivity|].
  cbn [AllZeroes forallb trimmed]. intro Hz.
  apply andb_prop in Hz. destruct Hz as [Hx Hz].
  rewrite (IH Hz). apply Z.eqb_eq in Hx. subst x. reflexivity.
Qed.

Lemma trimmed_kept (v : Vector) : AllZeroes v = false -> trimmed v <> [].
Proof.
  induction v as [|x v IH]; [discriminate|].
  cbn [AllZeroes forallb trimmed]. intro Hz.
  destruct (trimmed v) as [|y kept] eqn:Hkept; [|discriminate].
  destruct (forallb (Z.eqb 0) v) eqn:Hv.
  - rewrite andb_true_r in Hz. rewrite Z.eqb_sym, Hz. discriminate.
  - exfalso. exact (IH Hv eq_refl).
Qed.

Lemma trimmed_app_zeroes (l z : Vector) :
  AllZeroes z = true -> trimmed (l ++ z) = trimmed l.
Proof.
  intro Hz. induction l as [|x l IH]; [apply trimmed_zeroes; exact Hz|].
  cbn [app trimmed]. rewrite IH. reflexivity.
Qed.

Lemma trimmed_app_kept (l b : Vector) :
  trimmed b <> [] -> trimmed (l ++ b) = l ++ trimmed b.
Proof.
  intro Hb. induction l as [|x l IH]; [reflexivity|].
  cbn [app trimmed]. rewrite IH.
  destruct (l ++ trimmed b) as [|y kept] eqn:Happ; [|reflexivity].
  apply app_eq_nil in Happ. destruct Happ as [_ Hnil]. contradiction.
Qed.

Lemma trimmed_split (v : Vector) :
  exists count, v = trimmed v ++ repeat 0 count.
Proof.
  induction v as [|x v IH]; [exists O; reflexivity|].
  destruct IH as [count IH]. cbn [trimmed].
  destruct (trimmed v) as [|y kept] eqn:Hkept.
  - cbn [app] in IH. destruct (Z.eqb_spec x 0) as [->|_].
    + exists (S count). cbn [repeat app]. rewrite <- IH. reflexivity.
    + exists count. cbn [app]. rewrite <- IH. reflexivity.
  - exists count. cbn [app]. rewrite IH at 1. reflexivity.
Qed.

Lemma trimmed_last (v : Vector) :
  trimmed v <> [] -> last (trimmed v) 0 <> 0.
Proof.
  induction v as [|x v IH]; [intro H; contradiction H; reflexivity|].
  cbn [trimmed]. destruct (trimmed v) as [|y kept] eqn:Hkept.
  - destruct (Z.eqb_spec x 0) as [->|Hx];
      [intro H; contradiction H; reflexivity|].
    intros _. exact Hx.
  - intros _. cbn [last]. apply IH. discriminate.
Qed.

Lemma trimmed_id (v : Vector) :
  v <> [] -> last v 0 <> 0 -> trimmed v = v.
Proof.
  intros Hne Hlast. destruct (trimmed_split v) as [count Hsplit].
  destruct count as [|count];
    [cbn [repeat] in Hsplit; rewrite app_nil_r in Hsplit; congruence|].
  exfalso. apply Hlast. rewrite Hsplit.
  rewrite last_app_ne by discriminate.
  clear. induction count as [|count IH]; [reflexivity|].
  cbn [repeat last] in *. exact IH.
Qed.

Lemma drop_zeroes_trimmed (back : Vector) :
  AllZeroes back = false ->
  drop_zeroes (rev back) = Some (rev (trimmed back)).
Proof.
  intro Hz. pose proof (trimmed_kept back Hz) as Hkept.
  destruct (trimmed_split back) as [count Hsplit].
  rewrite Hsplit at 1.
  apply drop_zeroes_chunk; [exact Hkept | apply trimmed_last; exact Hkept].
Qed.

(** The two stripping loops of [Decode], on any segments that hold a
    non-zero element: they cut off the zeroes at the end. *)
Lemma strip_segments (segments : Matrix) :
  AllZeroes (concat segments) = false ->
  match drop_zero_segments (rev segments) with
  | None => DecodeUndefined
  | Some [] => DecodeUndefined
  | Some (back :: rest) =>
      match drop_zeroes (rev back) with
      | None => DecodeUndefined
      | Some rev_back => Decoded (concat (rev (rev rev_back :: rest)))
      end
  end = Decoded (trimmed (concat segments)).
Proof.
  induction segments as [|back segments IH] using rev_ind; [discriminate|].
  rewrite concat_app. cbn [concat]. rewrite app_nil_r, AllZeroes_app.
  rewrite rev_app_distr. cbn [rev app drop_zero_segments].
  destruct (AllZeroes back) eqn:Hback.
  - rewrite andb_true_r. intro Hz.
    rewrite trimmed_app_zeroes by exact Hback. apply IH. exact Hz.
  - intros _. rewrite drop_zeroes_trimmed by exact Hback.
    cbn [rev]. rewrite !rev_involutive, concat_app. cbn [concat].
    rewrite app_nil_r. f_equal. symmetry.
    apply trimmed_app_kept. apply trimmed_kept. exact Hback.
Qed.

(** The segments of a block, one after the other: the block and its
    padding. *)
Lemma SplitToSegments_loop_concat (m : nat) (v : Vector) :
  (1 <= m)%nat -> v <> [] ->
  exists count,
    concat (SplitToSegments_loop (length v) m v) = v ++ repeat 0 count.
Proof.
  intros Hm Hne.
  destruct (SplitToSegments_loop_spec m Hm (length v) v (Nat.le_refl _) Hne)
    as [init [chunk [Hsplit [Hcat _]]]].
  exists (m - length chunk)%nat.
  rewrite Hsplit, concat_app. cbn [concat].
  rewrite app_nil_r, app_assoc, Hcat. reflexivity.
Qed.

End IDASegments.

(** ** The codec: decoding with an exact inverse *)

Module IDADecode.
Import IDA IDAArith IDAShape IDASegments.

Ltac vnorm := unfold Vector, Matrix in *.
Ltac vlia := vnorm; lia.

Section Cells.

Variable p : Z.
Variable cols : nat.
Variables inv chosen segments : Matrix.

Hypothesis p_pos : 1 < p.
Hypothesis no_wrap : (Z.of_nat cols + 1) * (p * p) <= 2147483648.
Hypothesis cols_pos : (1 <= cols)%nat.
Hypothesis inv_length : length inv = cols.
Hypothesis inv_rows : rows_of cols p inv.
Hypothesis chosen_length : length chosen = cols.
Hypothesis chosen_rows : rows_of cols p chosen.
Hypothesis segments_rows : rows_of cols p segments.
Hypothesis inverse : MatrixProduct inv chosen p = identity cols.

Lemma small_p : 2 * p <= 2147483648.
Proof. nia. Qed.

Lemma small_square : 2 * p * p <= 2147483648.
Proof. nia. Qed.

Lemma inv_cell (i k : nat) : residue p (nth k (nth i inv []) 0).
Proof.
  destruct (Nat.lt_ge_cases i (length inv)) as [Hi|Hi].
  - apply residue_nth; [vlia|]. apply (rows_of_nth cols); assumption.
  - rewrite (nth_overflow inv) by exact Hi. destruct k; cbn [nth]; unfold residue; lia.
Qed.

Lemma chosen_cell (k l : nat) : residue p (nth l (nth k chosen []) 0).
Proof.
  destruct (Nat.lt_ge_cases k (length chosen)) as [Hk|Hk].
  - apply residue_nth; [vlia|]. apply (rows_of_nth cols); assumption.
  - rewrite (nth_overflow chosen) by exact Hk. destruct l; cbn [nth]; unfold residue; lia.
Qed.

Lemma segment_cell (j l : nat) : residue p (nth l (nth j segments []) 0).
Proof.
  destruct (Nat.lt_ge_cases j (length segments)) as [Hj|Hj].
  - apply residue_nth; [vlia|]. apply (rows_of_nth cols); assumption.
  - rewrite (nth_overflow segments) by exact Hj. destruct l; cbn [nth]; unfold residue; lia.
Qed.

(** The computed inverse times the chosen rows: the Kronecker delta. *)
Lemma inverse_cell (i l : nat) :
  (i < cols)%nat -> (l < cols)%nat ->
  sumZ (fun k => nth k (nth i inv []) 0 * nth l (nth k chosen []) 0) cols mod p
  = if (i =? l)%nat then 1 else 0.
Proof.
  intros Hi Hl. rewrite <- (identity_cell cols i l Hi Hl), <- inverse.
  rewrite MatrixProduct_cell.
  - replace (length (nth 0 inv [])) with cols
      by (symmetry; apply (rows_of_nth cols p); [assumption|vlia]).
    symmetry.
    apply (cell_exact (fun k => nth k (nth i inv []) 0)
                      (fun k => nth l (nth k chosen []) 0));
      [lia|apply small_square|].
    intros k _. split; [apply inv_cell|apply chosen_cell].
  - vlia.
  - replace (length (nth 0 chosen [])) with cols
      by (symmetry; apply (rows_of_nth cols p); [assumption|vlia]).
    exact Hl.
Qed.

(** A cell of the encoded fragments: the inner product, exactly. *)
Lemma encoded_cell (k j : nat) :
  (k < cols)%nat -> (j < length segments)%nat ->
  nth j (nth k (fragments_of p chosen segments) []) 0
  = sumZ (fun l => nth l (nth k chosen []) 0 * nth l (nth j segments []) 0)
         cols mod p.
Proof.
  intros Hk Hj. unfold fragments_of. vnorm.
  rewrite (nth_map_in _ _ _ (@nil Z)) by vlia.
  rewrite (nth_map_in _ _ _ (@nil Z)) by exact Hj.
  destruct (rows_of_nth cols p chosen k chosen_rows) as [Hlen Hres]; [vlia|].
  destruct (rows_of_nth cols p segments j segments_rows Hj) as [Hlen' Hres'].
  vnorm.
  rewrite InnerProduct_exact
    by (try assumption; try lia; try apply small_p; rewrite Hlen; nia).
  rewrite Hlen. reflexivity.
Qed.

Lemma encoded_first_row :
  length (nth 0 (fragments_of p chosen segments) []) = length segments.
Proof.
  unfold fragments_of.
  rewrite (nth_map_in _ _ _ (@nil Z)) by vlia.
  apply length_map.
Qed.

(** Multiplying the fragments by the inverse gives the segments back,
    one per column. *)
Lemma decode_cell (i j : nat) :
  (i < cols)%nat -> (j < length segments)%nat ->
  nth j (nth i (MatrixProduct inv (fragments_of p chosen segments) p) []) 0
  = nth i (nth j segments []) 0.
Proof.
  intros Hi Hj.
  rewrite MatrixProduct_cell by (rewrite ?encoded_first_row; vlia).
  replace (length (nth 0 inv [])) with cols
    by (symmetry; apply (rows_of_nth cols p); [assumption|vlia]).
  rewrite (cell_exact (fun k => nth k (nth i inv []) 0)
                      (fun k => nth j (nth k (fragments_of p chosen segments)
                                              []) 0));
    [|lia|apply small_square|].
  2:{ intros k Hk. split; [apply inv_cell|].
      rewrite encoded_cell by assumption. apply Z.mod_pos_bound. lia. }
  set (a := fun k => nth k (nth i inv []) 0).
  set (e := fun k l => nth l (nth k chosen []) 0).
  set (s := fun l => nth l (nth j segments []) 0).
  transitivity (sumZ (fun k => a k * sumZ (fun l => e k l * s l) cols) cols mod p).
  { apply sumZ_mod_congr. intros k Hk. rewrite encoded_cell by assumption.
    apply Z.mul_mod_idemp_r. lia. }
  transitivity (sumZ (fun l => sumZ (fun k => a k * e k l) cols * s l) cols mod p).
  { f_equal.
    rewrite (sumZ_ext _ (fun k => sumZ (fun l => a k * e k l * s l) cols)).
    2:{ intros k _. rewrite sumZ_mul_l. apply sumZ_ext. intros l _.
        apply Z.mul_assoc. }
    rewrite sumZ_swap. apply sumZ_ext. intros l _.
    symmetry. apply sumZ_mul_r. }
  transitivity (sumZ (fun l => (if (i =? l)%nat then 1 else 0) * s l) cols mod p).
  { apply sumZ_mod_congr. intros l Hl.
    rewrite <- Z.mul_mod_idemp_l by vlia.
    unfold a, e. rewrite inverse_cell by assumption. reflexivity. }
  rewrite sumZ_delta by exact Hi.
  apply Z.mod_small. apply segment_cell.
Qed.

(** Reading the product column by column. *)
Lemma decoded_segments :
  map (fun i =>
         map (fun row => nth i row 0)
             (MatrixProduct inv (fragments_of p chosen segments) p))
      (seq 0 (length (nth 0 (MatrixProduct inv (fragments_of p chosen segments)
                                           p) [])))
  = segments.
Proof.
  set (output_matrix := MatrixProduct inv (fragments_of p chosen segments) p).
  assert (Hcols : length (nth 0 output_matrix []) = length segments).
  { unfold output_matrix. rewrite MatrixProduct_row_length by vlia.
    apply encoded_first_row. }
  rewrite Hcols.
  apply (nth_ext _ _ (@nil Z) (@nil Z)).
  - rewrite length_map, length_seq. reflexivity.
  - rewrite length_map, length_seq. intros j Hj.
    rewrite (nth_map_in _ _ _ O) by (rewrite length_seq; exact Hj).
    rewrite seq_nth by exact Hj. cbn [Nat.add].
    destruct (rows_of_nth cols p segments j segments_rows Hj) as [Hlen _].
    apply (nth_ext _ _ 0 0).
    + rewrite length_map. unfold output_matrix.
      rewrite MatrixProduct_length. vlia.
    + rewrite length_map. unfold output_matrix at 1.
      rewrite MatrixProduct_length. intros i Hi.
      rewrite (nth_map_in _ _ _ (@nil Z))
        by (unfold output_matrix; rewrite MatrixProduct_length; exact Hi).
      apply decode_cell; vlia.
Qed.

End Cells.

End IDADecode.

(** ** Polynomials modulo a prime *)

Module PolyFacts.
Import IDA IDAArith.

Lemma eval_cons (c : Z) (rest : Vector) (x : Z) :
  eval (c :: rest) x = c + x * eval rest x.
Proof. reflexivity. Qed.

Lemma quotient_cons (c : Z) (rest : Vector) (a : Z) :
  rest <> [] -> quotient (c :: rest) a = eval rest a :: quotient rest a.
Proof. destruct rest; [contradiction | reflexivity]. Qed.

Lemma eval_quotient (coefs : Vector) (a x : Z) :
  eval coefs x = (x - a) * eval (quotient coefs a) x + eval coefs a.
Proof.
  induction coefs as [|c rest IH]; [cbn; ring|].
  destruct (list_eq_dec Z.eq_dec rest []) as [->|Hne]; [cbn; ring|].
  rewrite (quotient_cons c rest a Hne), !eval_cons, IH. ring.
Qed.

Lemma quotient_length (coefs : Vector) (a : Z) :
  length (quotient coefs a) = pred (length coefs).
Proof.
  induction coefs as [|c rest IH]; [reflexivity|].
  destruct (list_eq_dec Z.eq_dec rest []) as [->|Hne]; [reflexivity|].
  rewrite (quotient_cons c rest a Hne). cbn [length pred]. rewrite IH.
  destruct rest; [contradiction | reflexivity].
Qed.

Lemma quotient_vanishes (p : Z) (coefs : Vector) (a : Z) :
  eval coefs a mod p = 0 -> vanishes p (quotient coefs a) ->
  vanishes p coefs.
Proof.
  induction coefs as [|c rest IH]; intros Hroot Hq; [constructor|].
  destruct (list_eq_dec Z.eq_dec rest []) as [->|Hne].
  - constructor; [|constructor]. cbn in Hroot.
    rewrite Z.mul_0_r, Z.add_0_r in Hroot. exact Hroot.
  - rewrite (quotient_cons c rest a Hne) in Hq.
    inversion Hq as [|? ? Hhead Htail]; subst.
    constructor; [|apply IH; assumption].
    rewrite eval_cons in Hroot.
    rewrite <- Zplus_mod_idemp_r, <- Zmult_mod_idemp_r, Hhead in Hroot.
    rewrite Z.mul_0_r, Zmod_0_l, Z.add_0_r in Hroot.
    exact Hroot.
Qed.

Lemma vanishes_eval (p : Z) (coefs : Vector) (x : Z) :
  vanishes p coefs -> eval coefs x mod p = 0.
Proof.
  induction 1 as [|c rest Hc _ IH]; [apply Zmod_0_l|].
  rewrite eval_cons.
  rewrite <- Zplus_mod_idemp_l, Hc, Z.add_0_l.
  rewrite <- Zmult_mod_idemp_r, IH, Z.mul_0_r. apply Zmod_0_l.
Qed.

(** A polynomial with as many roots, distinct modulo the prime [p], as
    it has coefficients vanishes modulo [p]. *)
Lemma roots_vanish (p : Z) (roots : Vector) :
  Z.prime p ->
  NoDup (map (fun r => r mod p) roots) ->
  forall coefs,
    length coefs = length roots ->
    Forall (fun r => eval coefs r mod p = 0) roots ->
    vanishes p coefs.
Proof.
  intros Hp. induction roots as [|a roots IH]; intros Hnd coefs Hlen Hroots.
  - destruct coefs; [constructor | discriminate].
  - cbn [map] in Hnd. inversion Hnd as [|? ? Hnotin Hnd']; subst.
    inversion Hroots as [|? ? Ha Hrest]; subst.
    apply (quotient_vanishes p coefs a Ha).
    apply (IH Hnd').
    + rewrite quotient_length, Hlen. reflexivity.
    + rewrite Forall_forall in *. intros r Hr.
      specialize (Hrest r Hr). rewrite (eval_quotient coefs a r) in Hrest.
      rewrite <- Zplus_mod_idemp_r, Ha, Z.add_0_r in Hrest.
      assert (Hdiv : (p | (r - a) * eval (quotient coefs a) r))
        by (apply Z.mod_divide; [pose proof (Z.prime_ge_2 p Hp); lia|]; exact Hrest).
      apply (Z.divide_prime_mul _ _ p Hp) in Hdiv.
      destruct Hdiv as [Hdiv|Hdiv].
      * exfalso. apply Hnotin. apply in_map_iff. exists r. split; [|exact Hr].
        destruct Hdiv as [k Hk].
        replace r with (a + k * p) by lia. apply Z_mod_plus_full.
      * apply Z.mod_divide in Hdiv; [exact Hdiv|].
        pose proof (Z.prime_ge_2 p Hp). lia.
Qed.

End PolyFacts.

(** ** [ModInverse]: the extended Euclidean algorithm *)

Module InverseFacts.
Import IDA IDAArith.

Section Euclid.

Variables n p : Z.
Hypothesis p_prime : Z.prime p.
Hypothesis p_small : 2 * p < 2147483648.
Hypothesis n_range : 0 < n < p.

Lemma euclid_step (t new_t r new_r : Z) :
  euclid_state n p t new_t r new_r -> new_r <> 0 ->
  let quotient := Z.quot r new_r in
  int32 (t - int32 (quotient * new_t)) = t - quotient * new_t /\
  int32 (r - int32 (quotient * new_r)) = r mod new_r /\
  euclid_state n p new_t (t - quotient * new_t) new_r (r mod new_r).
Proof.
  intros (Hr & Hrp & Ht & Hnt & Hgcd & Hsign) Hnz quotient.
  assert (Hq : quotient = r / new_r)
    by (apply Z.quot_div_nonneg; lia).
  assert (Hmod : r mod new_r = r - quotient * new_r)
    by (rewrite Hq; pose proof (Z.div_mod r new_r Hnz); lia).
  pose proof (Z.mod_pos_bound r new_r ltac:(lia)) as Hbound.
  assert (Hq0 : 0 <= quotient) by (rewrite Hq; apply Z.div_pos; lia).
  assert (Hqr : quotient * new_r <= r) by lia.
  assert (Hqle : quotient <= r) by nia.
  assert (Hprod : - p <= quotient * new_t <= p)
    by (destruct Hsign as [(H1 & H2 & H3 & H4)|(H1 & H2 & H3 & H4)]; nia).
  assert (Htb : - p <= t <= p)
    by (destruct Hsign as [(H1 & H2 & H3 & H4)|(H1 & H2 & H3 & H4)]; nia).
  split; [|split].
  - rewrite (int32_small (quotient * new_t)) by lia. apply int32_small. lia.
  - rewrite (int32_small (quotient * new_r)) by lia.
    rewrite int32_small by lia. lia.
  - unfold euclid_state. split; [lia|]. split; [lia|].
    split; [exact Hnt|]. split.
    + rewrite Hmod. destruct Ht as [k Hk], Hnt as [k' Hk'].
      exists (k - quotient * k').
      replace ((t - quotient * new_t) * n - (r - quotient * new_r))
        with ((t * n - r) - quotient * (new_t * n - new_r)) by ring.
      rewrite Hk, Hk'. ring.
    + split; [rewrite Z.gcd_mod_r; rewrite Z.gcd_comm; exact Hgcd|].
      rewrite Hmod.
      destruct Hsign as [(H1 & H2 & H3 & H4)|(H1 & H2 & H3 & H4)];
        [right | left]; repeat split; nia.
Qed.

Lemma ModInverse_loop_spec (fuel : nat) :
  forall t new_t r new_r,
    euclid_state n p t new_t r new_r -> new_r < Z.of_nat fuel ->
    exists t', ModInverse_loop fuel t new_t r new_r = Some (t', 1) /\
               - p <= t' <= p /\ (p | t' * n - 1).
Proof.
  induction fuel as [|fuel IH]; intros t new_t r new_r Hstate Hfuel.
  - destruct Hstate as (Hr & _). lia.
  - cbn [ModInverse_loop]. destruct (Z.eqb_spec new_r 0) as [Hz|Hnz].
    + destruct Hstate as (Hr & Hrp & Ht & Hnt & Hgcd & Hsign). subst new_r.
      rewrite Z.gcd_0_r, Z.abs_eq in Hgcd by lia. subst r.
      exists t. split; [reflexivity|]. split; [|exact Ht].
      destruct Hsign as [(H1 & H2 & H3 & H4)|(H1 & H2 & H3 & H4)]; lia.
    + cbv zeta.
      destruct (euclid_step t new_t r new_r Hstate Hnz) as (-> & -> & Hnext).
      apply IH; [exact Hnext|].
      destruct Hstate as (Hr & _).
      pose proof (Z.mod_pos_bound r new_r ltac:(lia)). lia.
Qed.

Lemma ModInverse_spec :
  exists inv, ModInverse n p = Some (Ok inv) /\
              0 <= inv < p /\ (n * inv) mod p = 1.
Proof.
  pose proof (Z.prime_ge_2 p p_prime) as Hp2.
  destruct (ModInverse_loop_spec (S (Z.to_nat (Z.abs n))) 0 1 p n)
    as (t & Hloop & Hbound & Hdiv).
  - unfold euclid_state. split; [lia|]. split; [lia|].
    split; [exists (-1); lia|]. split; [exists 0; lia|].
    split; [apply Z.coprime_prime_small; [exact p_prime | lia]|].
    left. lia.
  - rewrite Nat2Z.inj_succ, Z2Nat.id by lia. lia.
  - unfold ModInverse. rewrite Hloop. cbn [Z.gtb Z.compare].
    destruct Hdiv as [k Hk].
    assert (Hne : t <> p).
    { intros ->. assert (Hd : (p | 1)) by (exists (n - k); lia).
      apply Z.divide_1_r in Hd. lia. }
    assert (Hne' : t <> - p).
    { intros ->. assert (Hd : (p | 1)) by (exists (- n - k); lia).
      apply Z.divide_1_r in Hd. lia. }
    destruct (Z.ltb_spec t 0) as [Hneg|Hpos].
    + exists (t + p). rewrite int32_small by lia.
      split; [reflexivity|]. split; [lia|].
      replace (n * (t + p)) with (1 + (k + n) * p) by lia.
      rewrite Z_mod_plus_full. apply Z.mod_small. lia.
    + exists t. split; [reflexivity|]. split; [lia|].
      replace (n * t) with (1 + k * p) by lia.
      rewrite Z_mod_plus_full. apply Z.mod_small. lia.
Qed.

End Euclid.

End InverseFacts.

(** ** [ElementarySymmetricTransform] *)

Module SymmetricFacts.
Import IDA IDAArith IDAShape.

Section Bounds.

Variable v : Vector.
Hypothesis v_nonneg : forall l, 0 <= nth l v 0.

Lemma spread_upto_pos (j : nat) : 1 <= spread_upto v j.
Proof.
  induction j as [|j IH]; cbn [spread_upto]; [lia|].
  pose proof (v_nonneg j). nia.
Qed.

Lemma spread_upto_mono (j j' : nat) :
  (j <= j')%nat -> spread_upto v j <= spread_upto v j'.
Proof.
  induction 1 as [|j' _ IH]; [lia|]. cbn [spread_upto].
  pose proof (v_nonneg j'). pose proof (spread_upto_pos j'). nia.
Qed.

Lemma spread_upto_all (j : nat) : spread_upto v j <= spread v.
Proof.
  unfold spread. destruct (Nat.le_gt_cases j (length v)) as [Hle|Hgt].
  - apply spread_upto_mono. exact Hle.
  - assert (Hsame : forall k, spread_upto v (length v + k) = spread v).
    { induction k as [|k IH]; [rewrite Nat.add_0_r; reflexivity|].
      rewrite Nat.add_succ_r. cbn [spread_upto].
      rewrite IH, nth_overflow by lia. unfold spread. lia. }
    replace j with (length v + (j - length v))%nat by lia.
    rewrite Hsame. unfold spread. lia.
Qed.

Lemma esym_bound (j : nat) :
  forall i, 0 <= esym v i j <= spread_upto v j.
Proof.
  induction j as [|j IH]; intros i; cbn [esym spread_upto].
  - destruct i; lia.
  - pose proof (v_nonneg j) as Hv. pose proof (IH i) as Hi.
    destruct i as [|i]; [nia|]. pose proof (IH i) as Hi'. nia.
Qed.

Lemma esym_zero (j : nat) : forall i, (j < i)%nat -> esym v i j = 0.
Proof.
  induction j as [|j IH]; intros i Hi; cbn [esym].
  - destruct i; [lia | reflexivity].
  - destruct i as [|i]; [lia|].
    rewrite (IH (S i)), (IH i) by lia. lia.
Qed.

Lemma esym_0 (j : nat) : esym v 0 j = 1.
Proof. induction j as [|j IH]; cbn [esym]; lia. Qed.

(** A sum over more elements is no smaller, and the elements past the
    end of [v] add nothing. *)
Lemma esym_step (i j : nat) : esym v i j <= esym v i (S j).
Proof.
  cbn [esym]. destruct i as [|i]; [lia|].
  pose proof (esym_bound j i) as Hi. pose proof (v_nonneg j) as Hv.
  pose proof (Z.mul_nonneg_nonneg _ _ (proj1 Hi) Hv). lia.
Qed.

Lemma esym_mono (i j j' : nat) :
  (j <= j')%nat -> esym v i j <= esym v i j'.
Proof.
  induction 1 as [|j' _ IH]; [lia|].
  pose proof (esym_step i j'). lia.
Qed.

Lemma esym_past_end (i k : nat) :
  esym v i (length v + k) = esym v i (length v).
Proof.
  revert i. induction k as [|k IH]; intro i;
    [rewrite Nat.add_0_r; reflexivity|].
  rewrite Nat.add_succ_r. cbn [esym].
  rewrite nth_overflow by lia. rewrite IH.
  destruct i; lia.
Qed.

Lemma esym_le_all (i j : nat) : esym v i j <= esym v i (length v).
Proof.
  destruct (Nat.le_gt_cases j (length v)) as [Hle|Hgt].
  - apply esym_mono. exact Hle.
  - replace j with (length v + (j - length v))%nat by lia.
    rewrite esym_past_end. lia.
Qed.

Lemma fold_max_ge (l : Vector) (x : Z) :
  In x l -> x <= fold_right Z.max 0 l.
Proof.
  induction l as [|y l IH]; intro Hin; [contradiction|].
  cbn [fold_right]. destruct Hin as [->|Hin]; [lia|].
  specialize (IH Hin). lia.
Qed.


(** Every sum is at most the largest one, or is the empty sum. *)
Lemma esym_le_largest (i j : nat) :
  esym v i j <= Z.max 1 (largest_sum v).
Proof.
  pose proof (esym_le_all i j) as Hall.
  destruct i as [|i]; [rewrite esym_0 in *; lia|].
  destruct (Nat.le_gt_cases (S i) (length v)) as [Hle|Hgt].
  - assert (Hin : In (esym v (S i) (length v)) (sums v)).
    { unfold sums.
      apply (in_map (fun i => esym v i (length v)) _ (S i)).
      apply in_seq. lia. }
    apply fold_max_ge in Hin. unfold largest_sum. lia.
  - rewrite (esym_zero (length v) (S i)) in Hall by lia. lia.
Qed.


End Bounds.

Section Table.

Variable v : Vector.
Hypothesis v_nonneg : forall l, 0 <= nth l v 0.
Hypothesis v_sums : largest_sum v < 2147483648.

Lemma esym_small (i j : nat) : 0 <= esym v i j < 2147483648.
Proof.
  pose proof (esym_bound v v_nonneg j i).
  pose proof (esym_le_largest v v_nonneg i j). lia.
Qed.

Lemma skipn_cons_nth (j : nat) :
  (j < length v)%nat -> skipn j v = nth j v 0 :: skipn (S j) v.
Proof.
  revert j. generalize v. clear. intros v.
  induction v as [|x v IH]; intros j Hj; [cbn [length] in Hj; lia|].
  destruct j as [|j]; [reflexivity|].
  cbn [skipn nth]. apply IH. cbn [length] in Hj. lia.
Qed.

(** The first row of the table: prefix sums. *)
Lemma el_row1_fill_spec (k : nat) :
  forall j, length v = (j + k)%nat ->
            el_row1_fill (skipn j v) (esym v 1 j)
            = map (esym v 1) (seq (S j) k).
Proof.
  induction k as [|k IH]; intros j Hlen.
  - rewrite skipn_all2 by lia. reflexivity.
  - rewrite skipn_cons_nth by lia. cbn [el_row1_fill seq map]. cbv zeta.
    assert (Hcell : int32 (esym v 1 j + nth j v 0) = esym v 1 (S j)).
    { cbn [esym]. rewrite esym_0.
      pose proof (esym_small 1 (S j)) as Hs. cbn [esym] in Hs.
      rewrite esym_0 in Hs. rewrite int32_small by lia. lia. }
    rewrite Hcell. f_equal. apply IH. lia.
Qed.

(** A later row, from the row above it. *)
Lemma el_row_fill_spec (i : nat) (k : nat) :
  forall j, length v = (j + k)%nat ->
            el_row_fill (S (S i)) (S j)
                        (map (esym v (S i)) (seq j (S k)))
                        (skipn j v) (esym v (S (S i)) j)
            = map (esym v (S (S i))) (seq (S j) k).
Proof.
  induction k as [|k IH]; intros j Hlen.
  - rewrite skipn_all2 by lia. reflexivity.
  - rewrite skipn_cons_nth by lia.
    change (map (esym v (S i)) (seq j (S (S k))))
      with (esym v (S i) j :: map (esym v (S i)) (seq (S j) (S k))).
    cbn [el_row_fill]. cbv zeta.
    assert (Hcell : (if (S (S i) <=? S j)%nat
                     then int32 (int32 (esym v (S i) j * nth j v 0)
                                 + esym v (S (S i)) j)
                     else 0) = esym v (S (S i)) (S j)).
    { destruct (Nat.leb_spec (S (S i)) (S j)) as [Hle|Hgt].
      - pose proof (esym_small (S (S i)) (S j)) as Hs.
        pose proof (esym_small (S (S i)) j) as Hs'.
        pose proof (esym_small (S i) j) as Hs''.
        pose proof (v_nonneg j) as Hv.
        cbn [esym] in Hs |- *.
        assert (0 <= esym v (S i) j * nth j v 0) by nia.
        rewrite (int32_small (esym v (S i) j * nth j v 0)) by lia.
        rewrite int32_small by lia. lia.
      - symmetry. apply esym_zero. lia. }
    rewrite Hcell. cbn [seq map]. f_equal. apply IH. lia.
Qed.

Lemma esym_S_0 (i : nat) : esym v (S i) 0 = 0.
Proof. reflexivity. Qed.

Lemma el_rows_spec (count : nat) :
  forall i,
    el_rows count (S (S i)) (map (esym v (S i)) (seq 0 (S (length v)))) v
    = map (fun i' => map (esym v i') (seq 0 (S (length v))))
          (seq (S (S i)) count).
Proof.
  induction count as [|count IH]; intros i; [reflexivity|].
  cbn [el_rows]. cbv zeta.
  assert (Hrow : 0 :: el_row_fill (S (S i)) 1
                        (map (esym v (S i)) (seq 0 (S (length v)))) v 0
                 = map (esym v (S (S i))) (seq 0 (S (length v)))).
  { change (seq 0 (S (length v))) with (0%nat :: seq 1 (length v)) at 2.
    cbn [map]. f_equal.
    change v with (skipn 0 v) at 2.
    change 0 with (esym v (S (S i)) 0) at 1.
    apply (el_row_fill_spec i (length v) 0). reflexivity. }
  rewrite Hrow. cbn [seq map]. f_equal. apply IH.
Qed.

Lemma last_map_seq (f : nat -> Z) (n : nat) :
  last (map f (seq 0 (S n))) 0 = f n.
Proof.
  rewrite seq_S, map_app. cbn [map Nat.add]. apply last_last.
Qed.

(** [ElementarySymmetricTransform]: the sums of every degree from 1. *)
Lemma ElementarySymmetricTransform_spec (m s : nat) :
  (1 <= s <= m)%nat ->
  nth s (ElementarySymmetricTransform v m) 0 = esym v s (length v).
Proof.
  intros Hs. unfold ElementarySymmetricTransform.
  destruct m as [|m]; [lia|]. cbv zeta.
  assert (Hrow1 : 0 :: el_row1_fill v 0
                  = map (esym v 1) (seq 0 (S (length v)))).
  { change (seq 0 (S (length v))) with (0%nat :: seq 1 (length v)).
    cbn [map]. f_equal.
    change v with (skipn 0 v) at 1.
    change 0 with (esym v 1 0) at 1.
    apply (el_row1_fill_spec (length v) 0). reflexivity. }
  rewrite Hrow1, (el_rows_spec m 0).
  destruct s as [|s]; [lia|]. cbn [map nth].
  destruct s as [|s]; [apply last_map_seq|]. cbn [nth].
  rewrite map_map.
  rewrite (nth_map_in _ _ _ O) by (rewrite length_seq; lia).
  rewrite seq_nth by lia. apply last_map_seq.
Qed.

End Table.

End SymmetricFacts.

(** ** Polynomials by Horner's rule *)

Module HornerFacts.
Import IDA IDAArith PolyFacts.

Lemma evalH_ext (c d : nat -> Z) (k : nat) (x : Z) :
  (forall s, (s <= k)%nat -> c s = d s) -> evalH c k x = evalH d k x.
Proof.
  induction k as [|k IH]; intros H; cbn [evalH]; [apply H; lia|].
  rewrite IH, (H (S k)) by (try lia; intros; apply H; lia). reflexivity.
Qed.

Lemma evalH_quoH (c : nat -> Z) (b : Z) (k : nat) (x : Z) :
  evalH c k x = (x - b) * quoH c b k x + evalH c k b.
Proof.
  induction k as [|k IH]; cbn [evalH quoH]; [ring|]. rewrite IH. ring.
Qed.

Lemma quoH_evalH (c : nat -> Z) (b : Z) (k : nat) (x : Z) :
  quoH c b (S k) x = evalH (fun s => evalH c s b) k x.
Proof.
  induction k as [|k IH]; [cbn; ring|].
  change (quoH c b (S (S k)) x) with (quoH c b (S k) x * x + evalH c (S k) b).
  rewrite IH. reflexivity.
Qed.

(** The coefficients of [(x - a) * c]. *)
Lemma evalH_mul_linear (c d : nat -> Z) (a : Z) (k : nat) (x : Z) :
  d O = c O -> (forall s, (s <= k)%nat -> d (S s) = c (S s) - a * c s) ->
  evalH d (S k) x = evalH c (S k) x - a * evalH c k x.
Proof.
  intros H0. induction k as [|k IH]; intros HS.
  - cbn [evalH]. rewrite H0, (HS O) by lia. ring.
  - change (evalH d (S (S k)) x) with (evalH d (S k) x * x + d (S (S k))).
    change (evalH c (S (S k)) x) with (evalH c (S k) x * x + c (S (S k))).
    rewrite IH, (HS (S k)) by (try lia; intros; apply HS; lia).
    change (evalH c (S k) x) with (evalH c k x * x + c (S k)). ring.
Qed.

Lemma sgn_S (s : nat) : sgn (S s) = - sgn s.
Proof.
  unfold sgn. rewrite Nat.even_succ, <- Nat.negb_even.
  destruct (Nat.even s); reflexivity.
Qed.

(** The signed elementary symmetric polynomials are the coefficients of
    the product of the [x - v_l]. *)
Lemma linear_product_evalH (v : Vector) (j : nat) (x : Z) :
  linear_product v j x = evalH (signed_esym v j) j x.
Proof.
  induction j as [|j IH]; [reflexivity|].
  cbn [linear_product]. rewrite IH.
  rewrite (evalH_mul_linear (signed_esym v j) (signed_esym v (S j))
                            (nth j v 0) j x).
  - cbn [evalH]. unfold signed_esym.
    assert (Hz : esym v (S j) j = 0).
    { clear. generalize (S j) (Nat.lt_succ_diag_r j). revert v.
      induction j as [|j IH]; intros v i Hi; cbn [esym].
      - destruct i; [lia | reflexivity].
      - destruct i as [|i]; [lia|].
        rewrite (IH v (S i)), (IH v i) by lia. lia. }
    rewrite Hz. ring.
  - unfold signed_esym. cbn [esym].
    assert (H0 : forall j', esym v 0 j' = 1)
      by (induction j' as [|j' IHj]; cbn [esym]; lia).
    rewrite H0. ring.
  - intros s _. unfold signed_esym. cbn [esym]. rewrite sgn_S. ring.
Qed.

(** Coefficient functions and coefficient lists. *)
Lemma eval_rev_map (c : nat -> Z) (k : nat) (x : Z) :
  eval (rev (map c (seq 0 (S k)))) x = evalH c k x.
Proof.
  induction k as [|k IH]; [cbn; ring|].
  rewrite seq_S, map_app, rev_app_distr. cbn [map rev app Nat.add].
  rewrite eval_cons, IH. cbn [evalH]. ring.
Qed.

Lemma roots_vanish_H (p : Z) (roots : Vector) (c : nat -> Z) (k : nat) :
  Z.prime p ->
  NoDup (map (fun r => r mod p) roots) ->
  length roots = S k ->
  Forall (fun r => evalH c k r mod p = 0) roots ->
  forall s, (s <= k)%nat -> c s mod p = 0.
Proof.
  intros Hp Hnd Hlen Hroots s Hs.
  assert (Hvan : vanishes p (rev (map c (seq 0 (S k))))).
  { apply (roots_vanish p roots Hp Hnd).
    - rewrite length_rev, length_map, length_seq, Hlen. reflexivity.
    - eapply Forall_impl; [|exact Hroots]. cbv beta.
      intros r Hr. rewrite eval_rev_map. exact Hr. }
  unfold vanishes in Hvan. rewrite Forall_forall in Hvan. apply Hvan.
  apply in_rev. rewrite rev_involutive. apply in_map. apply in_seq. lia.
Qed.

Lemma evalH_vanishes (p : Z) (c : nat -> Z) (k : nat) (x : Z) :
  (forall s, (s <= k)%nat -> c s mod p = 0) -> evalH c k x mod p = 0.
Proof.
  induction k as [|k IH]; intros H; cbn [evalH]; [apply H; lia|].
  rewrite <- Zplus_mod_idemp_r, (H (S k)), Z.add_0_r by lia.
  rewrite <- Zmult_mod_idemp_l, IH by (intros; apply H; lia).
  apply Zmod_0_l.
Qed.

Lemma evalH_sub (c d : nat -> Z) (k : nat) (x : Z) :
  evalH (fun s => c s - d s) k x = evalH c k x - evalH d k x.
Proof. induction k as [|k IH]; cbn [evalH]; [ring|]. rewrite IH. ring. Qed.

Lemma evalH_sumZ (a : nat -> Z) (h : nat -> nat -> Z) (n k : nat) (x : Z) :
  evalH (fun s => sumZ (fun i => a i * h i s) n) k x
  = sumZ (fun i => a i * evalH (h i) k x) n.
Proof.
  induction k as [|k IH]; cbn [evalH]; [reflexivity|].
  rewrite IH, sumZ_mul_r, <- sumZ_add. apply sumZ_ext. intros i _. ring.
Qed.

(** The monomial whose one coefficient, of index [s0], is 1. *)
Lemma evalH_monomial (s0 k : nat) (x : Z) :
  (s0 <= k)%nat ->
  evalH (fun s => if (s =? s0)%nat then 1 else 0) k x
  = x ^ Z.of_nat (k - s0).
Proof.
  induction k as [|k IH]; intros Hs.
  - assert (s0 = O) by lia. subst s0. reflexivity.
  - cbn [evalH]. destruct (Nat.eqb_spec (S k) s0) as [<-|Hne].
    + rewrite Nat.sub_diag.
      rewrite (evalH_ext _ (fun _ => 0))
        by (intros s Hle; destruct (Nat.eqb_spec s (S k)); [lia|reflexivity]).
      assert (Hz : forall j, evalH (fun _ => 0) j x = 0)
        by (induction j as [|j IHj]; cbn [evalH]; [reflexivity|];
            rewrite IHj; ring).
      rewrite Hz. reflexivity.
    + rewrite IH by lia.
      replace (S k - s0)%nat with (S (k - s0)) by lia.
      rewrite Nat2Z.inj_succ, Z.pow_succ_r by lia. ring.
Qed.

(** The product without one factor is a polynomial of one degree less. *)
Lemma linear_product_except_evalH (v : Vector) (i j : nat) :
  exists c, forall x,
      linear_product_except v i j x
      = evalH c (j - (if (i <? j)%nat then 1 else 0)) x.
Proof.
  induction j as [|j IH].
  - exists (fun _ => 1). intros x. reflexivity.
  - destruct IH as [c Hc]. cbn [linear_product_except].
    destruct (Nat.eqb_spec j i) as [->|Hne].
    + exists c. intros x. rewrite Hc.
      rewrite Nat.ltb_irrefl.
      destruct (Nat.ltb_spec i (S i)); [|lia].
      replace (S i - 1)%nat with (i - 0)%nat by lia. reflexivity.
    + set (k := (j - (if (i <? j)%nat then 1 else 0))%nat) in *.
      assert (Hk : (S j - (if (i <? S j)%nat then 1 else 0))%nat = S k).
      { unfold k. destruct (Nat.ltb_spec i j), (Nat.ltb_spec i (S j)); lia. }
      rewrite Hk.
      set (c' := fun s => if (s <=? k)%nat then c s else 0).
      exists (fun s => c' s - match s with
                              | O => 0
                              | S s' => nth j v 0 * c' s'
                              end).
      intros x. rewrite Hc.
      rewrite (evalH_mul_linear c' _ (nth j v 0) k x);
        [|ring|intros s _; reflexivity].
      cbn [evalH]. unfold c' at 2.
      destruct (Nat.leb_spec (S k) k); [lia|].
      rewrite (evalH_ext c c' k x)
        by (intros s Hs; unfold c'; destruct (Nat.leb_spec s k); [reflexivity|lia]).
      ring.
Qed.

Lemma linear_product_split (v : Vector) (i j : nat) (x : Z) :
  linear_product v j x
  = (if (i <? j)%nat then x - nth i v 0 else 1)
    * linear_product_except v i j x.
Proof.
  induction j as [|j IH]; [cbn; ring|].
  cbn [linear_product linear_product_except]. rewrite IH.
  destruct (Nat.eqb_spec j i) as [->|Hne].
  - rewrite Nat.ltb_irrefl. destruct (Nat.ltb_spec i (S i)); [ring|lia].
  - destruct (Nat.ltb_spec i j), (Nat.ltb_spec i (S j)); try lia; ring.
Qed.

Lemma linear_product_root (v : Vector) (i j : nat) :
  (i < j)%nat -> linear_product v j (nth i v 0) = 0.
Proof.
  intros Hi. rewrite (linear_product_split v i j).
  destruct (Nat.ltb_spec i j); [ring|lia].
Qed.

End HornerFacts.

(** ** [VandermondeInverse]: what the loops compute *)

Module VandermondeFacts.
Import IDA IDAArith IDAShape PolyFacts InverseFacts SymmetricFacts
       HornerFacts.

Section Inverse.

Variable p : Z.
Variable basis : Vector.
Hypothesis p_prime : Z.prime p.
Hypothesis p_square : 2 * (p * p) <= 2147483648.
Hypothesis basis_range : Forall (fun b => 1 <= b < p) basis.
Hypothesis basis_distinct : NoDup basis.
Hypothesis basis_sums : largest_sum basis + p <= 2147483648.

Lemma p_ge_2 : 2 <= p.
Proof. apply Z.prime_ge_2. exact p_prime. Qed.

Lemma p_small : 2 * p <= 2147483648.
Proof. pose proof p_ge_2. nia. Qed.

Lemma basis_nth (l : nat) :
  (l < length basis)%nat -> 1 <= nth l basis 0 < p.
Proof.
  intro Hl. rewrite Forall_forall in basis_range. apply basis_range.
  apply nth_In. exact Hl.
Qed.

Lemma basis_nonneg (l : nat) : 0 <= nth l basis 0.
Proof.
  destruct (Nat.lt_ge_cases l (length basis)) as [Hl|Hl].
  - pose proof (basis_nth l Hl). lia.
  - rewrite nth_overflow by exact Hl. lia.
Qed.

Lemma basis_sums_small : largest_sum basis < 2147483648.
Proof. pose proof p_ge_2. lia. Qed.

Lemma basis_nth_inj (i j : nat) :
  (i < length basis)%nat -> (j < length basis)%nat ->
  nth i basis 0 = nth j basis 0 -> i = j.
Proof. apply NoDup_nth. exact basis_distinct. Qed.

Lemma signed_esym_small (s : nat) :
  p - 2147483648 <= signed_esym basis (length basis) s <= 2147483648 - p.
Proof.
  unfold signed_esym, sgn.
  pose proof (esym_bound basis basis_nonneg (length basis) s) as Hb.
  pose proof (esym_le_largest basis basis_nonneg s (length basis)) as Hs.
  pose proof p_ge_2. pose proof p_small.
  destruct (Nat.even s); lia.
Qed.

Lemma el_spec (s : nat) :
  (1 <= s <= length basis)%nat ->
  nth s (ElementarySymmetricTransform basis (length basis)) 0
  = esym basis s (length basis).
Proof.
  apply ElementarySymmetricTransform_spec;
    [exact basis_nonneg | exact basis_sums_small].
Qed.

(** The numerators: the values of Horner's rule at the element, that
    is, the coefficients of the quotient by [x - elt]. *)
Lemma numerator_fill_spec (elt : Z) (count : nat) :
  0 <= elt < p ->
  forall j,
    (j + count <= length basis)%nat ->
    numerator_fill count (S j)
                   (ElementarySymmetricTransform basis (length basis))
                   elt p
                   (evalH (signed_esym basis (length basis)) j elt mod p)
                   (sgn (S j))
    = map (fun s => evalH (signed_esym basis (length basis)) s elt mod p)
          (seq (S j) count).
Proof.
  intros Helt. pose proof p_ge_2 as Hp2. pose proof p_small as Hps.
  induction count as [|count IH]; intros j Hj; [reflexivity|].
  cbn [numerator_fill seq map]. cbv zeta.
  set (back := evalH (signed_esym basis (length basis)) j elt mod p).
  assert (Hback : 0 <= back < p) by (apply Z.mod_pos_bound; lia).
  assert (Hprod : 0 <= back * elt < p * p) by nia.
  rewrite el_spec by lia.
  change (sgn (S j) * esym basis (S j) (length basis))
    with (signed_esym basis (length basis) (S j)).
  pose proof (signed_esym_small (S j)) as Hc.
  rewrite (int32_small (back * elt)) by lia.
  rewrite (Modulo_mod (back * elt)) by lia.
  pose proof (Z.mod_pos_bound (back * elt) p ltac:(lia)) as Hm.
  rewrite (int32_small (signed_esym basis (length basis) (S j))) by lia.
  rewrite int32_small by lia.
  rewrite Modulo_mod by lia.
  assert (Hcell : ((back * elt) mod p + signed_esym basis (length basis) (S j))
                  mod p
                  = evalH (signed_esym basis (length basis)) (S j) elt mod p).
  { cbn [evalH]. unfold back.
    rewrite Zplus_mod_idemp_l, <- Zplus_mod_idemp_l, Zmult_mod_idemp_l,
      Zplus_mod_idemp_l. reflexivity. }
  rewrite Hcell. f_equal.
  assert (Hsign : int32 (sgn (S j) * -1) = sgn (S (S j))).
  { rewrite (sgn_S (S j)). unfold sgn. destruct (Nat.even (S j)); reflexivity. }
  rewrite Hsign. apply IH. lia.
Qed.

Lemma numerator_spec (i : nat) :
  (i < length basis)%nat ->
  numerator basis (ElementarySymmetricTransform basis (length basis)) p i
  = rev (map (fun s => evalH (signed_esym basis (length basis)) s
                             (nth i basis 0) mod p)
             (seq 0 (length basis))).
Proof.
  intro Hi. pose proof p_ge_2 as Hp2. pose proof (basis_nth i Hi) as Hb.
  unfold numerator. f_equal.
  destruct (length basis) as [|m'] eqn:Hm; [lia|].
  cbn [seq map]. f_equal.
  - cbn [evalH]. unfold signed_esym, sgn. cbn [Nat.even].
    rewrite esym_0, Z.mul_1_l, Z.mod_small by lia. reflexivity.
  - replace (S m' - 1)%nat with m' by lia.
    rewrite <- Hm.
    assert (Hone : 1 = evalH (signed_esym basis (length basis)) 0
                             (nth i basis 0) mod p).
    { cbn [evalH]. unfold signed_esym, sgn. cbn [Nat.even].
      rewrite esym_0, Z.mul_1_l, Z.mod_small by lia. reflexivity. }
    rewrite Hone at 1.
    change (-1) with (sgn 1).
    apply numerator_fill_spec; lia.
Qed.

(** The denominators: the product of the differences. *)
Lemma denominator_spec (i : nat) :
  (i < length basis)%nat ->
  denominator basis p i
  = linear_product_except basis i (length basis) (nth i basis 0) mod p.
Proof.
  intro Hi. pose proof p_ge_2 as Hp2. pose proof p_small as Hps.
  unfold denominator. cbv zeta.
  assert (Hgen : forall j, (j <= length basis)%nat ->
            fold_left (fun prod j' =>
                         if (j' =? i)%nat then prod
                         else Modulo (int32 (prod * int32 (nth i basis 0
                                                          - nth j' basis 0))) p)
                      (seq 0 j) 1
            = linear_product_except basis i j (nth i basis 0) mod p).
  { induction j as [|j IH]; intros Hj.
    - cbn. rewrite Z.mod_small by lia. reflexivity.
    - rewrite seq_S, fold_left_app, IH by lia.
      cbn [fold_left Nat.add linear_product_except].
      destruct (Nat.eqb_spec j i) as [_|_]; [reflexivity|].
      pose proof (basis_nth i Hi) as Hbi.
      pose proof (basis_nth j ltac:(lia)) as Hbj.
      set (prod := linear_product_except basis i j (nth i basis 0) mod p).
      assert (Hprod : 0 <= prod < p) by (apply Z.mod_pos_bound; lia).
      rewrite (int32_small (nth i basis 0 - nth j basis 0)) by lia.
      rewrite int32_small by nia.
      rewrite Modulo_mod by lia. unfold prod.
      apply Zmult_mod_idemp_l. }
  apply Hgen. lia.
Qed.

Lemma denominator_nonzero (i : nat) :
  (i < length basis)%nat ->
  forall j, (j <= length basis)%nat ->
            linear_product_except basis i j (nth i basis 0) mod p <> 0.
Proof.
  intros Hi. pose proof p_ge_2 as Hp2.
  induction j as [|j IH]; intros Hj.
  - cbn [linear_product_except]. rewrite Z.mod_small by lia. lia.
  - cbn [linear_product_except].
    destruct (Nat.eqb_spec j i) as [_|Hne]; [apply IH; lia|].
    intro Hz. apply Z.mod_divide in Hz; [|lia].
    apply (Z.divide_prime_mul _ _ p p_prime) in Hz.
    destruct Hz as [Hz|Hz].
    + apply (IH ltac:(lia)). apply Z.mod_divide; [lia | exact Hz].
    + pose proof (basis_nth i Hi) as Hbi.
      pose proof (basis_nth j ltac:(lia)) as Hbj.
      destruct Hz as [k Hk].
      assert (k = 0) by nia.
      apply Hne. symmetry. apply basis_nth_inj; lia.
Qed.

Lemma inverse_of_spec (i : nat) :
  (i < length basis)%nat ->
  ModInverse (denominator basis p i) p
  = Some (Ok (inverse_of (denominator basis p i) p)) /\
  0 <= inverse_of (denominator basis p i) p < p /\
  (denominator basis p i * inverse_of (denominator basis p i) p) mod p = 1.
Proof.
  intro Hi. pose proof p_ge_2 as Hp2. pose proof p_small as Hps.
  assert (Hden : 0 < denominator basis p i < p).
  { rewrite denominator_spec by exact Hi.
    pose proof (denominator_nonzero i Hi (length basis) (Nat.le_refl _)).
    pose proof (Z.mod_pos_bound
                  (linear_product_except basis i (length basis) (nth i basis 0))
                  p ltac:(lia)).
    lia. }
  destruct (ModInverse_spec (denominator basis p i) p p_prime ltac:(nia) Hden)
    as (inv & Hinv & Hrange & Hone).
  unfold inverse_of. rewrite Hinv. auto.
Qed.

(** There are fewer elements than residues. *)
Lemma basis_length : Z.of_nat (length basis) < p.
Proof.
  pose proof p_ge_2 as Hp2.
  assert (Hincl : incl basis (map Z.of_nat (seq 1 (Z.to_nat p - 1)))).
  { intros b Hb. rewrite Forall_forall in basis_range.
    specialize (basis_range b Hb). apply in_map_iff.
    exists (Z.to_nat b). split; [lia|]. apply in_seq. lia. }
  pose proof (NoDup_incl_length basis_distinct Hincl) as Hlen.
  rewrite length_map, length_seq in Hlen. lia.
Qed.

Lemma cong_sub (a b : Z) : (a - b) mod p = 0 -> a mod p = b mod p.
Proof.
  intro H. replace a with (b + (a - b)) by ring.
  rewrite <- Zplus_mod_idemp_r, H, Z.add_0_r. reflexivity.
Qed.

Lemma product_root (i : nat) :
  (i < length basis)%nat ->
  evalH (signed_esym basis (length basis)) (length basis) (nth i basis 0) = 0.
Proof.
  intro Hi. rewrite <- linear_product_evalH.
  apply linear_product_root. exact Hi.
Qed.

(** The quotient by [x - b_k] vanishes at the other elements... *)
Lemma quotient_at_other (k j : nat) :
  (k < length basis)%nat -> (j < length basis)%nat -> k <> j ->
  quoH (signed_esym basis (length basis)) (nth k basis 0) (length basis)
       (nth j basis 0) = 0.
Proof.
  intros Hk Hj Hne.
  pose proof (evalH_quoH (signed_esym basis (length basis)) (nth k basis 0)
                         (length basis) (nth j basis 0)) as Hdiv.
  rewrite (product_root j Hj), (product_root k Hk), Z.add_0_r in Hdiv.
  symmetry in Hdiv. apply Z.mul_eq_0 in Hdiv. destruct Hdiv as [Hd|Hd];
    [|exact Hd].
  exfalso. apply Hne. apply basis_nth_inj; lia.
Qed.

(** ... and takes at [b_k] the value of the product of the differences. *)
Lemma quotient_at_own (k : nat) :
  (k < length basis)%nat ->
  quoH (signed_esym basis (length basis)) (nth k basis 0) (length basis)
       (nth k basis 0) mod p
  = linear_product_except basis k (length basis) (nth k basis 0) mod p.
Proof.
  intros Hk. pose proof p_ge_2 as Hp2. pose proof basis_length as Hlen.
  destruct (linear_product_except_evalH basis k (length basis)) as [c' Hc'].
  destruct (Nat.ltb_spec k (length basis)) as [_|]; [|lia].
  destruct (length basis) as [|m'] eqn:Hm; [lia|].
  replace (S m' - 1)%nat with m' in Hc' by lia.
  set (c := signed_esym basis (S m')) in *.
  set (b := nth k basis 0) in *.
  set (G := fun s => evalH c s b - c' s).
  assert (HG : forall x, evalH G m' x
                         = quoH c b (S m') x
                           - linear_product_except basis k (S m') x).
  { intro x. unfold G. rewrite evalH_sub, <- quoH_evalH, Hc'. reflexivity. }
  assert (Hoff : forall x, x <> b -> evalH G m' x = 0).
  { intros x Hx. rewrite HG.
    pose proof (evalH_quoH c b (S m') x) as Hdiv.
    assert (Hroot : evalH c (S m') b = 0).
    { unfold c, b. rewrite <- Hm. apply product_root. lia. }
    rewrite Hroot, Z.add_0_r in Hdiv.
    pose proof (linear_product_split basis k (S m') x) as Hsplit.
    destruct (Nat.ltb_spec k (S m')) as [_|]; [|lia].
    unfold c in Hdiv. rewrite <- linear_product_evalH, Hsplit in Hdiv.
    fold b in Hdiv. apply Z.mul_reg_l in Hdiv; [|lia].
    fold c in Hdiv. lia. }
  apply cong_sub. rewrite <- HG.
  apply evalH_vanishes.
  apply (roots_vanish_H p (map (fun t => b + 1 + Z.of_nat t) (seq 0 (S m')))
                        G m' p_prime).
  - rewrite map_map. apply NoDup_map_NoDup_ForallPairs; [|apply seq_NoDup].
    intros x y Hx Hy Heq. apply in_seq in Hx, Hy.
    pose proof (Z.div_mod (b + 1 + Z.of_nat x) p ltac:(lia)) as Hdx.
    pose proof (Z.div_mod (b + 1 + Z.of_nat y) p ltac:(lia)) as Hdy.
    rewrite Heq in Hdx.
    assert (Hq : (b + 1 + Z.of_nat x) / p = (b + 1 + Z.of_nat y) / p) by nia.
    rewrite Hq in Hdx. lia.
  - rewrite length_map, length_seq. reflexivity.
  - apply Forall_forall. intros r Hr. apply in_map_iff in Hr.
    destruct Hr as [t [<- _]]. rewrite Hoff by lia. apply Zmod_0_l.
Qed.

Lemma sumZ_single (f : nat -> Z) (j n : nat) :
  (j < n)%nat -> (forall k, (k < n)%nat -> k <> j -> f k = 0) ->
  sumZ f n = f j.
Proof.
  intros Hj Hz.
  rewrite (sumZ_ext f (fun k => (if (j =? k)%nat then 1 else 0) * f k)).
  - apply sumZ_delta. exact Hj.
  - intros k Hk. destruct (Nat.eqb_spec j k) as [->|Hne]; [ring|].
    rewrite Hz by auto. ring.
Qed.

(** Interpolation: the rows of the inverse, weighted by the powers of
    the elements, add up to a monomial. *)
Lemma interpolation (col s : nat) :
  (col < length basis)%nat -> (s < length basis)%nat ->
  (sumZ (fun k =>
           (inverse_of (denominator basis p k) p * nth k basis 0 ^ Z.of_nat col)
           * evalH (signed_esym basis (length basis)) s (nth k basis 0))
        (length basis)
   - (if (s =? length basis - 1 - col)%nat then 1 else 0)) mod p = 0.
Proof.
  intros Hcol Hs. pose proof p_ge_2 as Hp2.
  set (c := signed_esym basis (length basis)).
  set (a := fun k => inverse_of (denominator basis p k) p
                     * nth k basis 0 ^ Z.of_nat col).
  set (g := fun s' => sumZ (fun k => a k * evalH c s' (nth k basis 0))
                           (length basis)
                      - (if (s' =? length basis - 1 - col)%nat then 1 else 0)).
  change ((g s) mod p = 0).
  apply (roots_vanish_H p basis g (length basis - 1) p_prime); [| lia | | lia].
  - rewrite (map_ext_in _ (fun r => r)), map_id; [exact basis_distinct|].
    intros r Hr. rewrite Forall_forall in basis_range.
    apply Z.mod_small. specialize (basis_range r Hr). lia.
  - apply Forall_forall. intros r Hr.
    destruct (In_nth basis r 0 Hr) as (j & Hj & <-).
    unfold g.
    rewrite (evalH_sub (fun s' => sumZ (fun k => a k * evalH c s' (nth k basis 0))
                                       (length basis))).
    rewrite (evalH_sumZ a (fun k s' => evalH c s' (nth k basis 0))).
    rewrite evalH_monomial by lia.
    replace (length basis - 1 - (length basis - 1 - col))%nat with col by lia.
    rewrite (sumZ_single _ j) by
      (try exact Hj; intros k Hk Hne; rewrite <- quoH_evalH;
       replace (S (length basis - 1)) with (length basis) by lia;
       unfold c; rewrite quotient_at_other by auto; ring).
    rewrite <- quoH_evalH.
    replace (S (length basis - 1)) with (length basis) by lia.
    pose proof (quotient_at_own j Hj) as Hown.
    rewrite <- denominator_spec in Hown by exact Hj.
    destruct (inverse_of_spec j Hj) as (_ & _ & Hone).
    fold c in Hown. unfold a.
    set (A := inverse_of (denominator basis p j) p) in *.
    set (B := nth j basis 0 ^ Z.of_nat col).
    set (Q := quoH c (nth j basis 0) (length basis) (nth j basis 0)) in *.
    set (d := denominator basis p j) in *.
    replace (A * B * Q - B) with (B * (A * Q - 1)) by ring.
    rewrite <- Zmult_mod_idemp_r.
    assert (Hz : (A * Q - 1) mod p = 0).
    { rewrite Zminus_mod, <- Zmult_mod_idemp_r, Hown.
      rewrite (Z.mul_comm A d), Hone.
      rewrite (Z.mod_small 1) by lia. reflexivity. }
    rewrite Hz, Z.mul_0_r. apply Zmod_0_l.
Qed.

(** The rows that [VandermondeInverse] builds before transposing. *)
Lemma inverse_rows_spec (rows : list nat) :
  Forall (fun i => (i < length basis)%nat) rows ->
  inverse_rows basis (ElementarySymmetricTransform basis (length basis)) p rows
  = Some (Ok (map (fun i =>
                     map (fun num =>
                            Modulo (int32 (num * inverse_of
                                                   (denominator basis p i) p)) p)
                         (numerator basis
                            (ElementarySymmetricTransform basis (length basis))
                            p i))
                  rows)).
Proof.
  induction 1 as [|i rows Hi _ IH]; [reflexivity|].
  cbn [inverse_rows map].
  destruct (inverse_of_spec i Hi) as (-> & _ & _).
  rewrite IH. reflexivity.
Qed.

Lemma row_cell (i r : nat) :
  (i < length basis)%nat -> (r < length basis)%nat ->
  nth r (map (fun num =>
                Modulo (int32 (num * inverse_of (denominator basis p i) p)) p)
             (numerator basis
                (ElementarySymmetricTransform basis (length basis)) p i)) 0
  = ((evalH (signed_esym basis (length basis)) (length basis - 1 - r)
            (nth i basis 0) mod p)
     * inverse_of (denominator basis p i) p) mod p.
Proof.
  intros Hi Hr. pose proof p_ge_2 as Hp2.
  rewrite numerator_spec by exact Hi.
  rewrite (nth_map_in _ _ _ 0)
    by (rewrite length_rev, length_map, length_seq; exact Hr).
  rewrite rev_nth by (rewrite length_map, length_seq; exact Hr).
  rewrite length_map, length_seq.
  rewrite (nth_map_in _ _ _ O) by (rewrite length_seq; lia).
  rewrite seq_nth by lia. cbn [Nat.add].
  replace (length basis - S r)%nat with (length basis - 1 - r)%nat by lia.
  destruct (inverse_of_spec i Hi) as (_ & Hinv & _).
  pose proof (Z.mod_pos_bound
                (evalH (signed_esym basis (length basis))
                       (length basis - 1 - r) (nth i basis 0)) p ltac:(lia)).
  rewrite int32_small by nia. apply Modulo_mod; lia.
Qed.

Lemma row_length (i : nat) :
  (i < length basis)%nat ->
  length (map (fun num =>
                 Modulo (int32 (num * inverse_of (denominator basis p i) p)) p)
              (numerator basis
                 (ElementarySymmetricTransform basis (length basis)) p i))
  = length basis.
Proof.
  intro Hi. rewrite length_map, numerator_spec by exact Hi.
  rewrite length_rev, length_map, length_seq. reflexivity.
Qed.

Lemma powers_row_spec (count : nat) :
  forall elt a l,
    0 <= elt < p -> 0 <= a < p -> (l < count)%nat ->
    nth l (powers_row count elt a p) 0 = (elt * a ^ Z.of_nat l) mod p.
Proof.
  pose proof p_ge_2 as Hp2.
  induction count as [|count IH]; intros elt a l Helt Ha Hl; [lia|].
  cbn [powers_row]. destruct l as [|l].
  - cbn [nth]. rewrite Z.pow_0_r, Z.mul_1_r, Z.mod_small by lia. reflexivity.
  - cbn [nth]. rewrite int32_small by nia. rewrite Modulo_mod by lia.
    rewrite IH by (try lia; apply Z.mod_pos_bound; lia).
    rewrite Zmult_mod_idemp_l, Nat2Z.inj_succ, Z.pow_succ_r by lia.
    f_equal. ring.
Qed.

(** The computed inverse, and its product with the rows of powers. *)
Lemma VandermondeInverse_spec :
  basis <> [] ->
  exists inv,
    VandermondeInverse basis p = Some (Ok inv) /\
    length inv = length basis /\
    rows_of (length basis) p inv /\
    MatrixProduct inv
                  (map (fun b => powers_row (length basis) 1 b p) basis) p
    = identity (length basis).
Proof.
  intro Hne. pose proof p_ge_2 as Hp2.
  assert (Hm : (1 <= length basis)%nat)
    by (destruct basis; [contradiction | cbn [length]; lia]).
  unfold VandermondeInverse. cbv zeta.
  rewrite inverse_rows_spec
    by (apply Forall_forall; intros i Hi; apply in_seq in Hi; lia).
  set (rows := map (fun i =>
                      map (fun num =>
                             Modulo (int32 (num * inverse_of
                                                    (denominator basis p i) p)) p)
                          (numerator basis
                             (ElementarySymmetricTransform basis (length basis))
                             p i))
                   (seq 0 (length basis))).
  assert (Hrows : length rows = length basis)
    by (unfold rows; rewrite length_map, length_seq; reflexivity).
  assert (Hcell : forall r k, (r < length basis)%nat -> (k < length basis)%nat ->
            nth k (nth r (Transpose rows) []) 0
            = ((evalH (signed_esym basis (length basis)) (length basis - 1 - r)
                      (nth k basis 0) mod p)
               * inverse_of (denominator basis p k) p) mod p).
  { intros r k Hr Hk. unfold Transpose. rewrite Hrows.
    rewrite (nth_map_in _ _ _ O) by (rewrite length_seq; exact Hr).
    rewrite (nth_map_in _ _ _ O) by (rewrite length_seq; exact Hk).
    rewrite !seq_nth by assumption. cbn [Nat.add].
    unfold rows. rewrite (nth_map_in _ _ _ O) by (rewrite length_seq; exact Hk).
    rewrite seq_nth by exact Hk. cbn [Nat.add].
    apply row_cell; assumption. }
  assert (Hlen : length (Transpose rows) = length basis)
    by (unfold Transpose; rewrite length_map, length_seq; exact Hrows).
  assert (Hrowlen : forall r, (r < length basis)%nat ->
            length (nth r (Transpose rows) []) = length basis).
  { intros r Hr. unfold Transpose. rewrite Hrows.
    rewrite (nth_map_in _ _ _ O) by (rewrite length_seq; exact Hr).
    rewrite length_map, length_seq. reflexivity. }
  assert (Hres : forall r k, (r < length basis)%nat -> (k < length basis)%nat ->
            residue p (nth k (nth r (Transpose rows) []) 0)).
  { intros r k Hr Hk. rewrite Hcell by assumption.
    apply Z.mod_pos_bound. lia. }
  exists (Transpose rows). split; [reflexivity|]. split; [exact Hlen|]. split.
  { unfold rows_of. apply Forall_forall. intros row Hrow.
    destruct (In_nth _ _ [] Hrow) as (r & Hr & <-). rewrite Hlen in Hr.
    split; [apply Hrowlen; exact Hr|].
    apply Forall_forall. intros x Hx.
    destruct (In_nth _ _ 0 Hx) as (k & Hk & <-).
    rewrite Hrowlen in Hk by exact Hr. apply Hres; assumption. }
  set (chosen := map (fun b => powers_row (length basis) 1 b p) basis).
  assert (Hchosen : forall k col, (k < length basis)%nat ->
            (col < length basis)%nat ->
            nth col (nth k chosen []) 0 = (nth k basis 0 ^ Z.of_nat col) mod p).
  { intros k col Hk Hcol. unfold chosen.
    rewrite (nth_map_in _ _ _ 0) by exact Hk.
    pose proof (basis_nth k Hk).
    rewrite powers_row_spec by lia. f_equal. ring. }
  assert (Hfirst : length (nth 0 chosen []) = length basis).
  { unfold chosen. rewrite (nth_map_in _ _ _ 0) by lia.
    apply powers_row_length. }
  unfold Vector, Matrix in *.
  apply (nth_ext _ _ (@nil Z) (@nil Z)).
  { rewrite MatrixProduct_length, Hlen. unfold identity.
    rewrite length_map, length_seq. reflexivity. }
  rewrite MatrixProduct_length, Hlen. intros r Hr.
  apply (nth_ext _ _ 0 0).
  { rewrite MatrixProduct_row_length by (rewrite Hlen; exact Hr).
    rewrite Hfirst. unfold identity.
    rewrite (nth_map_in _ _ _ O) by (rewrite length_seq; exact Hr).
    rewrite length_map, length_seq. reflexivity. }
  rewrite MatrixProduct_row_length by (rewrite Hlen; exact Hr).
  rewrite Hfirst. intros col Hcol.
  rewrite identity_cell by assumption.
  rewrite MatrixProduct_cell by (rewrite ?Hlen, ?Hfirst; assumption).
  rewrite Hrowlen by lia.
  rewrite (cell_exact (fun k => nth k (nth r (Transpose rows) []) 0)
                      (fun k => nth col (nth k chosen []) 0)); [|lia|lia|].
  2:{ intros k Hk. split; [apply Hres; assumption|].
      rewrite Hchosen by assumption. apply Z.mod_pos_bound. lia. }
  rewrite (sumZ_mod_congr p _
             (fun k => (inverse_of (denominator basis p k) p
                        * nth k basis 0 ^ Z.of_nat col)
                       * evalH (signed_esym basis (length basis))
                               (length basis - 1 - r) (nth k basis 0))).
  2:{ intros k Hk. rewrite Hcell, Hchosen by assumption.
      rewrite <- Zmult_mod, <- Z.mul_assoc, Zmult_mod_idemp_l.
      f_equal. ring. }
  pose proof (interpolation col (length basis - 1 - r) Hcol ltac:(lia)) as Hint.
  apply cong_sub in Hint. rewrite Hint.
  destruct (Nat.eqb_spec (length basis - 1 - r) (length basis - 1 - col)),
           (Nat.eqb_spec r col); try lia; apply Z.mod_small; lia.
Qed.

End Inverse.

End VandermondeFacts.

(** ** The codec: the round trip *)

Module RoundTrip.
Import IDA IDAArith IDAShape VandermondeFacts.

Lemma vec_eqb_refl (a : Vector) : vec_eqb a a = true.
Proof.
  induction a as [|x a IH]; [reflexivity|]. cbn [vec_eqb].
  rewrite Z.eqb_refl, IH. reflexivity.
Qed.

Lemma mat_eqb_refl (a : Matrix) : mat_eqb a a = true.
Proof.
  induction a as [|x a IH]; [reflexivity|]. cbn [mat_eqb].
  rewrite vec_eqb_refl, IH. reflexivity.
Qed.

Lemma rows_of_well_shaped (m : nat) (p : Z) (matrix : Matrix) :
  length matrix = m -> rows_of m p matrix -> well_shaped m p matrix = true.
Proof.
  intros Hlen Hrows. unfold well_shaped.
  apply andb_true_intro. split; [apply Nat.eqb_eq; exact Hlen|].
  apply forallb_forall. intros row Hrow.
  unfold rows_of in Hrows. rewrite Forall_forall in Hrows.
  destruct (Hrows row Hrow) as [Hl Hres].
  apply andb_true_intro. split; [apply Nat.eqb_eq; exact Hl|].
  apply forallb_forall. intros x Hx. rewrite Forall_forall in Hres.
  specialize (Hres x Hx). unfold residue in Hres. unfold reduced.
  apply andb_true_intro. split; [apply Z.leb_le | apply Z.ltb_lt]; lia.
Qed.

Lemma select_encoding (c : params) (frag_indices : Vector) :
  in_range c frag_indices ->
  select (encoding_matrix_ c) frag_indices
  = map (fun b => powers_row (Z.to_nat (m_ c)) 1 b (p_ c)) frag_indices.
Proof.
  intro Hin. unfold select, encoding_matrix_, ConstructEncodingMatrix.
  apply map_ext_in. intros b Hb.
  unfold in_range in Hin. rewrite Forall_forall in Hin.
  specialize (Hin b Hb).
  rewrite (nth_map_in _ _ _ O) by (rewrite length_seq; lia).
  rewrite seq_nth by lia. f_equal. lia.
Qed.

(** [VandermondeInverse] is exact for distinct fragments whose indices
    keep the elementary symmetric sums inside [int]. *)
Lemma inverse_exact_general (c : params) (frag_indices : Vector) :
  Z.prime (p_ c) -> 1 <= m_ c -> n_ c < p_ c ->
  2 * (p_ c * p_ c) <= 2147483648 ->
  length frag_indices = Z.to_nat (m_ c) ->
  in_range c frag_indices -> NoDup frag_indices ->
  largest_sum frag_indices + p_ c <= 2147483648 ->
  inverse_exact c frag_indices = true.
Proof.
  intros Hp Hm Hn Hsq Hlen Hin Hnd Hspread.
  assert (Hrange : Forall (fun b => 1 <= b < p_ c) frag_indices).
  { unfold in_range in Hin. eapply Forall_impl; [|exact Hin].
    cbv beta. intros b Hb. lia. }
  assert (Hne : frag_indices <> [])
    by (intros ->; cbn [length] in Hlen; lia).
  destruct (VandermondeInverse_spec (p_ c) frag_indices Hp Hsq Hrange Hnd
                                    Hspread Hne)
    as (inv & Hinv & Hil & Hrows & Hprod).
  unfold inverse_exact.
  rewrite firstn_all2 by lia. rewrite Hinv.
  apply andb_true_intro. split.
  - apply rows_of_well_shaped; rewrite <- Hlen; assumption.
  - rewrite select_encoding by exact Hin.
    rewrite <- Hlen, Hprod. apply mat_eqb_refl.
Qed.



(** Primality by trial division, for concrete parameters. *)
Lemma prime_by_trial (p : Z) :
  1 < p ->
  forallb (fun n => negb (p mod Z.of_nat n =? 0))
          (seq 2 (Z.to_nat p - 2)) = true ->
  Z.prime p.
Proof.
  intros Hp Hall. split; [exact Hp|]. intros n Hn Hdiv.
  rewrite forallb_forall in Hall.
  specialize (Hall (Z.to_nat n) ltac:(apply in_seq; lia)).
  rewrite Z2Nat.id in Hall by lia.
  apply Z.mod_divide in Hdiv; [|lia]. rewrite Hdiv in Hall. discriminate.
Qed.

End RoundTrip.

(** ** The codec: runs *)

Module IDAFacts.
Import IDA.

Example round_trip_padded :
  Decode (mkParams 5 3 257)
         (select (Encode (mkParams 5 3 257) [1; 2; 3; 4]) [2; 4; 5]) [2; 4; 5]
  = Decoded [1; 2; 3; 4].
Proof. vm_compute. reflexivity. Qed.

Example decode_of_zeroes_undefined :
  Decode (mkParams 5 3 257)
         (select (Encode (mkParams 5 3 257) [0; 0; 0]) [1; 2; 3]) [1; 2; 3]
  = DecodeUndefined.
Proof. vm_compute. reflexivity. Qed.

(** With fragments 5 to 14 at the reference parameters the elementary
    symmetric sums leave the range of [int] and the block decodes to a
    different sequence. *)
Example decode_after_overflow :
  Decode reference
         (select (Encode reference
                         [104; 101; 108; 108; 111; 32; 119; 111; 114; 108;
                          100; 33; 7])
                 [5; 6; 7; 8; 9; 10; 11; 12; 13; 14])
         [5; 6; 7; 8; 9; 10; 11; 12; 13; 14]
  = Decoded [118; 250; 108; 108; 111; 32; 119; 111; 114; 108; 100; 33; 7].
Proof. vm_compute. reflexivity. Qed.

(** At the reference parameters the computed inverse is exact for every
    choice of ten of the first twelve fragments, in increasing order, and
    for none of the seven choices of [overflowing]. *)
Lemma reference_inverse_exact :
  forallb (inverse_exact reference)
          (subsets 10 [1; 2; 3; 4; 5; 6; 7; 8; 9; 10; 11; 12])
  = true.
Proof. vm_compute. reflexivity. Qed.

Lemma reference_inverse_overflows :
  forallb (fun choice => negb (inverse_exact reference choice)) overflowing
  = true.
Proof. vm_compute. reflexivity. Qed.

(** Of the choices of ten of the fourteen fragments of the reference
    parameters, those with an elementary symmetric sum that does not stay
    inside [int] are the seven of [overflowing]. *)
Lemma reference_sums_overflow :
  filter (fun choice =>
            negb (largest_sum choice + p_ reference <=? 2147483648))
         (subsets 10 [1; 2; 3; 4; 5; 6; 7; 8; 9; 10; 11; 12; 13; 14])
  = overflowing.
Proof. vm_compute. reflexivity. Qed.

End IDAFacts.

(** ** The codec: decoding what was encoded *)

Module DecodeFacts.
Import IDA IDAArith IDAShape IDASegments IDADecode.

(** Decoding what [Encode] produced, with an exact inverse: the segments
    of the block come back, and the two stripping loops run on them. *)
Lemma Decode_of_Encode (c : params) (v frag_indices : Vector) :
  1 <= m_ c -> 1 < p_ c ->
  (m_ c + 1) * (p_ c * p_ c) <= 2147483648 ->
  length frag_indices = Z.to_nat (m_ c) ->
  in_range c frag_indices ->
  inverse_exact c frag_indices = true ->
  Forall (residue (p_ c)) v ->
  Decode c (select (Encode c v) frag_indices) frag_indices
  = match drop_zero_segments (rev (SplitToSegments c v)) with
    | None => DecodeUndefined
    | Some [] => DecodeUndefined
    | Some (back :: rest) =>
        match drop_zeroes (rev back) with
        | None => DecodeUndefined
        | Some rev_back => Decoded (concat (rev (rev rev_back :: rest)))
        end
    end.
Proof.
  intros Hm Hp Hwrap Hlen Hrange Hexact Hres.
  unfold Decode, inverse_exact in *.
  assert (Hcount : length (select (Encode c v) frag_indices)
                   = Z.to_nat (m_ c))
    by (unfold select; rewrite length_map; exact Hlen).
  rewrite Hcount, Hlen, Z2Nat.id by lia.
  rewrite StdFacts.size_t_nonneg, Z.ltb_irrefl by lia.
  rewrite (proj2 (Z.ltb_ge _ 0)) by lia. cbn [orb].
  destruct (VandermondeInverse (firstn (Z.to_nat (m_ c)) frag_indices) (p_ c))
    as [[inv|what]|]; try discriminate.
  apply andb_prop in Hexact. destruct Hexact as [Hshape Hid].
  apply well_shaped_rows in Hshape. destruct Hshape as [Hinv Hrows].
  apply mat_eqb_eq in Hid.
  cbv zeta. rewrite select_Encode by exact Hrange.
  assert (Hsegments : rows_of (Z.to_nat (m_ c)) (p_ c) (SplitToSegments c v))
    by (apply SplitToSegments_loop_rows; [lia|exact Hres]).
  rewrite (decoded_segments (p_ c) (Z.to_nat (m_ c)));
    try assumption; try lia.
  - reflexivity.
  - unfold select. rewrite length_map. exact Hlen.
  - apply select_rows; try assumption. nia.
Qed.

(** A block with a non-zero element comes back without the zeroes it
    ends in. *)
Lemma Decode_trims (c : params) (v frag_indices : Vector) :
  1 <= m_ c -> 1 < p_ c ->
  (m_ c + 1) * (p_ c * p_ c) <= 2147483648 ->
  length frag_indices = Z.to_nat (m_ c) ->
  in_range c frag_indices ->
  inverse_exact c frag_indices = true ->
  Forall (residue (p_ c)) v ->
  AllZeroes v = false ->
  Decode c (select (Encode c v) frag_indices) frag_indices
  = Decoded (trimmed v).
Proof.
  intros Hm Hp Hwrap Hlen Hrange Hexact Hres Hz.
  rewrite Decode_of_Encode by assumption.
  assert (Hne : v <> []) by (intros ->; discriminate Hz).
  destruct (SplitToSegments_loop_concat (Z.to_nat (m_ c)) v ltac:(lia) Hne)
    as [count Hcat].
  fold (SplitToSegments c v) in Hcat.
  rewrite strip_segments.
  - rewrite Hcat, trimmed_app_zeroes by apply AllZeroes_repeat. reflexivity.
  - rewrite Hcat, AllZeroes_app, AllZeroes_repeat, andb_true_r. exact Hz.
Qed.

End DecodeFacts.

(** Decoding with an exact inverse. *)
Lemma round_trip_when_exact (c : IDA.params) (v frag_indices : IDA.Vector) :
  1 <= IDA.m_ c -> 1 < IDA.p_ c ->
  (IDA.m_ c + 1) * (IDA.p_ c * IDA.p_ c) <= 2147483648 ->
  length frag_indices = Z.to_nat (IDA.m_ c) ->
  IDA.in_range c frag_indices ->
  IDA.inverse_exact c frag_indices = true ->
  Forall (IDA.residue (IDA.p_ c)) v ->
  v <> [] -> last v 0 <> 0 ->
  IDA.Decode c (IDA.select (IDA.Encode c v) frag_indices) frag_indices
  = IDA.Decoded v.
Proof.
  intros Hm Hp Hwrap Hlen Hrange Hexact Hres Hne Hlast.
  unfold IDA.Decode, IDA.inverse_exact in *.
  assert (Hcount : length (IDA.select (IDA.Encode c v) frag_indices)
                   = Z.to_nat (IDA.m_ c))
    by (unfold IDA.select; rewrite length_map; exact Hlen).
  rewrite Hcount, Hlen, Z2Nat.id by lia.
  rewrite StdFacts.size_t_nonneg, Z.ltb_irrefl by lia.
  rewrite (proj2 (Z.ltb_ge _ 0)) by lia. cbn [orb].
  destruct (IDA.VandermondeInverse (firstn (Z.to_nat (IDA.m_ c)) frag_indices)
                                   (IDA.p_ c)) as [[inv|what]|];
    try discriminate.
  apply andb_prop in Hexact. destruct Hexact as [Hshape Hid].
  apply IDAShape.well_shaped_rows in Hshape. destruct Hshape as [Hinv Hrows].
  apply IDAShape.mat_eqb_eq in Hid.
  cbv zeta. rewrite IDAShape.select_Encode by exact Hrange.
  assert (Hsegments : IDA.rows_of (Z.to_nat (IDA.m_ c)) (IDA.p_ c)
                                  (IDA.SplitToSegments c v))
    by (apply IDASegments.SplitToSegments_loop_rows; [lia|exact Hres]).
  rewrite (IDADecode.decoded_segments (IDA.p_ c) (Z.to_nat (IDA.m_ c)));
    try assumption; try lia.
  - destruct (IDASegments.SplitToSegments_loop_spec (Z.to_nat (IDA.m_ c))
                ltac:(lia) (length v) v (Nat.le_refl _) Hne)
      as [init [chunk [Hsplit [Hcat [Hchunk Hlast']]]]].
    unfold IDA.SplitToSegments. rewrite Hsplit.
    rewrite IDASegments.strip_padding by (try assumption; congruence).
    rewrite Hcat. reflexivity.
  - unfold IDA.select. rewrite length_map. exact Hlen.
  - apply IDAShape.select_rows; try assumption. nia.
Qed.


(** C1, as amended.  For a prime [p] above [n], parameters whose products
    stay inside [int] and a choice of [m] distinct fragment indices
    between 1 and [n] whose elementary symmetric sums stay inside [int],
    decoding the chosen fragments of an encoded block of residues
    returns the block without the zero elements it ends in, when the
    block has a non-zero element; this is the block itself when its last
    element is not zero. *)
Theorem Decode_Encode_round_trip (c : IDA.params) (v frag_indices : IDA.Vector) :
  Z.prime (IDA.p_ c) -> 1 <= IDA.m_ c -> IDA.n_ c < IDA.p_ c ->
  (IDA.m_ c + 1) * (IDA.p_ c * IDA.p_ c) <= 2147483648 ->
  length frag_indices = Z.to_nat (IDA.m_ c) ->
  IDA.in_range c frag_indices -> NoDup frag_indices ->
  IDA.largest_sum frag_indices + IDA.p_ c <= 2147483648 ->
  Forall (IDA.residue (IDA.p_ c)) v ->
  (IDA.AllZeroes v = false ->
   IDA.Decode c (IDA.select (IDA.Encode c v) frag_indices) frag_indices
   = IDA.Decoded (IDA.trimmed v)) /\
  (v <> [] -> last v 0 <> 0 ->
   IDA.Decode c (IDA.select (IDA.Encode c v) frag_indices) frag_indices
   = IDA.Decoded v).
Proof.
  intros Hp Hm Hn Hwrap Hlen Hrange Hnd Hsums Hres.
  pose proof (Z.prime_ge_2 _ Hp) as Hp2.
  assert (Hexact : IDA.inverse_exact c frag_indices = true).
  { apply RoundTrip.inverse_exact_general; try assumption.
    pose proof (Z.mul_nonneg_nonneg (IDA.p_ c) (IDA.p_ c)). nia. }
  split.
  - intro Hz. apply DecodeFacts.Decode_trims; try assumption; lia.
  - intros Hne Hlast. apply round_trip_when_exact; try assumption; lia.
Qed.

(** C1, as stated, fails: trailing zero elements of the block are
    stripped together with the padding. *)
Lemma Decode_strips_content :
  IDA.Decode (IDA.mkParams 5 3 257)
             (IDA.select (IDA.Encode (IDA.mkParams 5 3 257) [1; 2; 3; 0])
                         [1; 2; 3])
             [1; 2; 3]
  = IDA.Decoded [1; 2; 3].
Proof. vm_compute. reflexivity. Qed.

Lemma Decode_Encode_round_trip_witness :
  IDA.Decode IDA.reference
             (IDA.select (IDA.Encode IDA.reference
                                     [104; 101; 108; 108; 111; 32; 119; 111;
                                      114; 108; 100; 33; 0; 7; 0; 0])
                         [1; 4; 6; 8; 9; 10; 11; 12; 13; 14])
             [1; 4; 6; 8; 9; 10; 11; 12; 13; 14]
  = IDA.Decoded [104; 101; 108; 108; 111; 32; 119; 111; 114; 108; 100; 33;
                 0; 7].
Proof.
  refine (proj1 (Decode_Encode_round_trip
                   IDA.reference
                   [104; 101; 108; 108; 111; 32; 119; 111;
                    114; 108; 100; 33; 0; 7; 0; 0]
                   [1; 4; 6; 8; 9; 10; 11; 12; 13; 14]
                   _ _ _ _ _ _ _ _ _) _).
  - apply RoundTrip.prime_by_trial; [reflexivity | vm_compute; reflexivity].
  - vm_compute. discriminate.
  - reflexivity.
  - vm_compute. discriminate.
  - reflexivity.
  - repeat constructor; vm_compute; discriminate.
  - repeat (constructor; [cbn [In]; intuition discriminate|]). constructor.
  - vm_compute. discriminate.
  - repeat constructor; vm_compute; discriminate.
  - reflexivity.
Defined.

(** ** The entries of a tree, in key order *)

Module EntriesFacts.
Import Merkle MerkleInduction MerkleEquations MapFacts ChildrenFacts
       RangeFacts WellFormed HexFacts HashedFacts LargestFacts FrameFacts.

Section Lists.

Variable V : Type.

Lemma keys_sorted_app (l1 l2 : list (Z * V)) :
  keys_sorted (l1 ++ l2) <->
  keys_sorted l1 /\ keys_sorted l2 /\
  forall kv1 kv2, In kv1 l1 -> In kv2 l2 -> fst kv1 < fst kv2.
Proof.
  unfold keys_sorted. rewrite map_app. split.
  - intro H. apply SuccListFacts.StronglySorted_app_inv in H.
    destruct H as (H1 & H2 & H12). split; [exact H1|]. split; [exact H2|].
    intros kv1 kv2 Hin1 Hin2. rewrite Forall_forall in H12.
    specialize (H12 (fst kv1) (in_map fst _ _ Hin1)).
    rewrite Forall_forall in H12. apply H12. apply in_map. exact Hin2.
  - intros (H1 & H2 & H12). apply SuccListFacts.StronglySorted_app;
      [exact H1 | exact H2 |].
    apply Forall_forall. intros k1 Hk1. apply Forall_forall. intros k2 Hk2.
    apply in_map_iff in Hk1. destruct Hk1 as (kv1 & <- & Hin1).
    apply in_map_iff in Hk2. destruct Hk2 as (kv2 & <- & Hin2).
    apply H12; assumption.
Qed.

Lemma keys_sorted_cons (kv : Z * V) (l : list (Z * V)) :
  keys_sorted (kv :: l) <->
  keys_sorted l /\ forall kv', In kv' l -> fst kv < fst kv'.
Proof.
  change (kv :: l) with ([kv] ++ l). rewrite keys_sorted_app. split.
  - intros (_ & Hl & H). split; [exact Hl|]. intros kv' Hin.
    apply H; [left; reflexivity | exact Hin].
  - intros (Hl & H). split; [repeat constructor|]. split; [exact Hl|].
    intros kv1 kv2 [<-|[]] Hin. apply H. exact Hin.
Qed.

Lemma map_find_below (key : Z) (l : list (Z * V)) :
  (forall kv, In kv l -> key < fst kv) -> map_find key l = None.
Proof.
  intro H. apply map_find_not_in. apply Forall_forall. intros kv Hin.
  specialize (H kv Hin). lia.
Qed.

Lemma map_find_above (key : Z) (l : list (Z * V)) :
  (forall kv, In kv l -> fst kv < key) -> map_find key l = None.
Proof.
  intro H. apply map_find_not_in. apply Forall_forall. intros kv Hin.
  specialize (H kv Hin). lia.
Qed.

Lemma map_find_outside (key mn mx : Z) (l : list (Z * V)) :
  keys_within mn mx l -> ~ mn <= key < mx -> map_find key l = None.
Proof.
  intros Hw Hout. apply map_find_not_in. unfold keys_within in Hw.
  rewrite Forall_forall in *. intros kv Hin. specialize (Hw kv Hin). lia.
Qed.

Lemma map_find_Some_In (key : Z) (v : V) (l : list (Z * V)) :
  keys_sorted l -> In (key, v) l -> map_find key l = Some v.
Proof.
  induction l as [|[k w] l IH]; intros Hs Hin; [contradiction|].
  apply keys_sorted_cons in Hs. destruct Hs as (Hs & Hlt).
  cbn [map_find]. destruct Hin as [[= -> ->]|Hin].
  - rewrite Z.eqb_refl. reflexivity.
  - specialize (Hlt _ Hin). cbn [fst] in Hlt.
    destruct (Z.eqb_spec k key); [lia|]. apply IH; assumption.
Qed.

(** Two maps with the same entries are the same list. *)
Lemma sorted_ext (l1 : list (Z * V)) :
  forall l2, keys_sorted l1 -> keys_sorted l2 ->
             (forall key, map_find key l1 = map_find key l2) -> l1 = l2.
Proof.
  induction l1 as [|[k1 v1] l1 IH]; intros [|[k2 v2] l2] Hs1 Hs2 Hext.
  - reflexivity.
  - specialize (Hext k2). cbn [map_find] in Hext.
    rewrite Z.eqb_refl in Hext. discriminate.
  - specialize (Hext k1). cbn [map_find] in Hext.
    rewrite Z.eqb_refl in Hext. discriminate.
  - apply keys_sorted_cons in Hs1. destruct Hs1 as (Hs1 & Hlt1).
    apply keys_sorted_cons in Hs2. destruct Hs2 as (Hs2 & Hlt2).
    cbn [fst] in Hlt1, Hlt2.
    assert (Hk : k1 = k2).
    { destruct (Z.lt_trichotomy k1 k2) as [Hlt|[Heq|Hgt]]; [|exact Heq|].
      - specialize (Hext k1). cbn [map_find] in Hext.
        rewrite Z.eqb_refl in Hext.
        destruct (Z.eqb_spec k2 k1); [lia|].
        rewrite map_find_below in Hext; [discriminate|].
        intros kv Hin. specialize (Hlt2 kv Hin). lia.
      - specialize (Hext k2). cbn [map_find] in Hext.
        rewrite Z.eqb_refl in Hext.
        destruct (Z.eqb_spec k1 k2); [lia|].
        rewrite map_find_below in Hext; [discriminate|].
        intros kv Hin. specialize (Hlt1 kv Hin). lia. }
    subst k2.
    assert (Hv : v1 = v2).
    { specialize (Hext k1). cbn [map_find] in Hext.
      rewrite Z.eqb_refl in Hext. congruence. }
    subst v2. f_equal. apply IH; [exact Hs1 | exact Hs2 |].
    intro key. destruct (Z.eq_dec key k1) as [->|Hne].
    + rewrite !map_find_below; [reflexivity | exact Hlt2 | exact Hlt1].
    + specialize (Hext key). cbn [map_find] in Hext.
      destruct (Z.eqb_spec k1 key); [congruence | exact Hext].
Qed.

Lemma map_insert_last (data : list (Z * V)) key val :
  (forall kv, In kv data -> fst kv < key) ->
  map_insert key val data = data ++ [(key, val)].
Proof.
  induction data as [|[k v] data IH]; intro H; cbn [map_insert app];
    [reflexivity|].
  assert (Hk : k < key) by (apply (H (k, v)); left; reflexivity).
  destruct (Z.ltb_spec key k); [lia|]. destruct (Z.eqb_spec key k); [lia|].
  rewrite IH; [reflexivity|]. intros kv Hin. apply H. right. exact Hin.
Qed.

Lemma map_insert_all_app (entries : list (Z * V)) :
  forall acc, keys_sorted (acc ++ entries) ->
              map_insert_all entries acc = acc ++ entries.
Proof.
  induction entries as [|[k v] entries IH]; intros acc Hs.
  - unfold map_insert_all. cbn [fold_left]. rewrite app_nil_r. reflexivity.
  - unfold map_insert_all in *. cbn [fold_left fst snd].
    pose proof (proj1 (keys_sorted_app _ _) Hs) as (_ & _ & Hlt).
    rewrite map_insert_last
      by (intros kv Hin; apply (Hlt kv (k, v)); [exact Hin | left; reflexivity]).
    rewrite IH.
    + rewrite <- app_assoc. reflexivity.
    + rewrite <- app_assoc. exact Hs.
Qed.

End Lists.

Section Entries.

Variable V : Type.
Variable sha1 : string -> Z.
Hypothesis sha1_pos : forall str, 0 < sha1 str.

Lemma GetEntries_eq mn mx h pos cs (data : list (Z * V)) lg :
  GetEntries (mkTree mn mx h pos cs data lg) =
  if h =? 0 then []
  else match cs with
       | [] => data
       | _ :: _ =>
           fold_left (fun result c => map_insert_all (GetEntries c) result)
                     cs []
       end.
Proof. destruct cs; reflexivity. Qed.

Lemma GetEntries_zero (t : MerkleTree V) : hash_ t = 0 -> GetEntries t = [].
Proof.
  destruct t as [mn mx h pos cs data lg]. cbn [hash_]. intros ->.
  rewrite GetEntries_eq. reflexivity.
Qed.

(** The loop of [GetEntries] over children with increasing ranges
    concatenates their entries. *)
Lemma fold_entries (cs : list (MerkleTree V)) :
  forall acc,
    keys_sorted (acc ++ concat (map (@GetEntries V) cs)) ->
    fold_left (fun result c => map_insert_all (GetEntries c) result) cs acc
    = acc ++ concat (map (@GetEntries V) cs).
Proof.
  induction cs as [|c cs IH]; intros acc Hs; cbn [fold_left map concat].
  - rewrite app_nil_r. reflexivity.
  - cbn [map concat] in Hs. rewrite app_assoc in Hs.
    rewrite map_insert_all_app.
    + rewrite IH by exact Hs. rewrite <- app_assoc. reflexivity.
    + apply keys_sorted_app in Hs. tauto.
Qed.

Lemma concat_windows (cs : list (MerkleTree V)) (w : Z) :
  forall base,
    0 <= w ->
    (forall i c, nth_error cs i = Some c ->
       keys_sorted (GetEntries c) /\
       keys_within (base + Z.of_nat i * w) (base + (Z.of_nat i + 1) * w)
                   (GetEntries c)) ->
    keys_sorted (concat (map (@GetEntries V) cs)) /\
    keys_within base (base + Z.of_nat (length cs) * w)
                (concat (map (@GetEntries V) cs)).
Proof.
  induction cs as [|c cs IH]; intros base Hw Hcs; cbn [map concat length].
  - split; constructor.
  - destruct (Hcs O c eq_refl) as (Hs0 & Hw0).
    destruct (IH (base + w) Hw) as (Hs & Hwin).
    { intros i c' Hi. destruct (Hcs (S i) c' Hi) as (Hs' & Hw').
      split; [exact Hs'|]. rewrite Nat2Z.inj_succ in Hw'.
      replace (base + w + Z.of_nat i * w) with (base + Z.succ (Z.of_nat i) * w)
        by lia.
      replace (base + w + (Z.of_nat i + 1) * w)
        with (base + (Z.succ (Z.of_nat i) + 1) * w) by lia.
      exact Hw'. }
    unfold keys_within in *. rewrite Forall_forall in Hw0, Hwin. split.
    + apply keys_sorted_app. split; [exact Hs0|]. split; [exact Hs|].
      intros kv1 kv2 Hin1 Hin2. specialize (Hw0 _ Hin1).
      specialize (Hwin _ Hin2). cbn [Z.of_nat] in Hw0. lia.
    + apply Forall_forall. intros kv Hin. apply in_app_or in Hin.
      rewrite Nat2Z.inj_succ.
      destruct Hin as [Hin|Hin];
        [specialize (Hw0 _ Hin); cbn [Z.of_nat] in Hw0 | specialize (Hwin _ Hin)];
        nia.
Qed.

Lemma find_concat (cs : list (MerkleTree V)) (w key : Z) :
  forall base i c,
    0 <= w ->
    (forall j c', nth_error cs j = Some c' ->
       keys_within (base + Z.of_nat j * w) (base + (Z.of_nat j + 1) * w)
                   (GetEntries c')) ->
    nth_error cs i = Some c ->
    base + Z.of_nat i * w <= key < base + (Z.of_nat i + 1) * w ->
    map_find key (concat (map (@GetEntries V) cs)) = map_find key (GetEntries c).
Proof.
  induction cs as [|c0 cs IH]; intros base i c Hw Hcs Hi Hkey.
  - destruct i; discriminate.
  - cbn [map concat]. rewrite map_find_app. destruct i as [|i].
    + injection Hi as <-. destruct (map_find key (GetEntries c0)) eqn:E;
        [reflexivity|].
      apply map_find_not_in. apply Forall_forall. intros kv Hin.
      apply in_concat in Hin. destruct Hin as (l & Hl & Hin).
      apply in_map_iff in Hl. destruct Hl as (c' & <- & Hc').
      apply In_nth_error in Hc'. destruct Hc' as (j & Hj).
      specialize (Hcs (S j) c' Hj). unfold keys_within in Hcs.
      rewrite Forall_forall in Hcs. specialize (Hcs _ Hin).
      rewrite Nat2Z.inj_succ in Hcs. cbn [Z.of_nat] in Hkey. nia.
    + rewrite (map_find_outside V key (base + Z.of_nat 0 * w)
                                (base + (Z.of_nat 0 + 1) * w)).
      * apply (IH (base + w) i c Hw).
        -- intros j c' Hj. specialize (Hcs (S j) c' Hj).
           rewrite Nat2Z.inj_succ in Hcs.
           replace (base + w + Z.of_nat j * w)
             with (base + Z.succ (Z.of_nat j) * w) by lia.
           replace (base + w + (Z.of_nat j + 1) * w)
             with (base + (Z.succ (Z.of_nat j) + 1) * w) by lia.
           exact Hcs.
        -- exact Hi.
        -- rewrite Nat2Z.inj_succ in Hkey. lia.
      * apply (Hcs O c0 eq_refl).
      * rewrite Nat2Z.inj_succ in Hkey. cbn [Z.of_nat]. nia.
Qed.

(** A leaf with the zero hash holds nothing. *)
Lemma leaf_hash_zero (data : list (Z * V)) :
  Rehash_value sha1 [] data = 0 -> data = [].
Proof.
  unfold Rehash_value. destruct data as [|kv data]; [reflexivity|].
  intro H.
  match type of H with sha1 ?s = 0 => pose proof (sha1_pos s) end. lia.
Qed.

(** [GetEntries] lists the entries of the subtree in key order, and
    [Lookup] finds exactly them. *)
Lemma GetEntries_spec (t : MerkleTree V) :
  forall d, wf d t -> hashed sha1 t ->
    keys_sorted (GetEntries t) /\
    keys_within (min_key_ t) (max_key_ t) (GetEntries t) /\
    forall key, min_key_ t <= key < max_key_ t ->
      Lookup t key = match map_find key (GetEntries t) with
                     | Some v => Ok v
                     | None => Throw "Key does not exist in subtree"
                     end.
Proof.
  induction t as [mn mx h pos cs data lg IH] using MerkleTree_ind.
  rewrite Forall_forall in IH. intros d Hwf Hh.
  cbn [min_key_ max_key_]. rewrite GetEntries_eq.
  inversion Hh as [? ? ? ? ? ? ? Ehash Hhcs]; subst.
  inversion Hwf as [? ? ? ? ? ? ? Hpos Hd Hr Hs Hw
                   |? ? ? ? ? ? ? Hpos Hd Hr Hl Hch]; subst.
  - assert (Hdata : (if Rehash_value sha1 [] data =? 0 then [] else data)
                    = data).
    { destruct (Z.eqb_spec (Rehash_value sha1 [] data) 0) as [Hz|_];
        [|reflexivity].
      symmetry. apply leaf_hash_zero. exact Hz. }
    rewrite Hdata. split; [exact Hs|]. split; [exact Hw|].
    intros key _. apply Lookup_leaf.
  - destruct cs as [|c0 cs0]; [discriminate Hl|].
    set (cs := c0 :: cs0) in *.
    assert (Hne : cs <> []) by discriminate.
    assert (Hchild : forall i c, nth_error cs i = Some c ->
               wf (S (length pos)) c /\ hashed sha1 c /\
               min_key_ c = mn + Z.of_nat i * width (S (length pos)) /\
               max_key_ c = mn + (Z.of_nat i + 1) * width (S (length pos))).
    { intros i c Hc.
      destruct (child_window V (length pos) mn mx _ pos cs lg i c Hwf Hne Hc)
        as (Hwfc & _ & _ & _ & _ & Hmin & Hmax).
      split; [exact Hwfc|]. split; [apply Hhcs; eapply nth_error_In; exact Hc|].
      split; assumption. }
    destruct (child_window V (length pos) mn mx _ pos cs lg O c0 Hwf Hne eq_refl)
      as (_ & _ & _ & Hmx & Hwpos & _ & _).
    assert (Hwin : forall i c, nth_error cs i = Some c ->
               keys_sorted (GetEntries c) /\
               keys_within (mn + Z.of_nat i * width (S (length pos)))
                           (mn + (Z.of_nat i + 1) * width (S (length pos)))
                           (GetEntries c)).
    { intros i c Hc. destruct (Hchild i c Hc) as (Hwfc & Hhc & Hmin & Hmax).
      destruct (IH c (nth_error_In _ _ Hc) _ Hwfc Hhc) as (Hsc & Hwc & _).
      rewrite Hmin, Hmax in Hwc. split; assumption. }
    pose proof (ChildNum_wf V (length pos) mn mx
                  (Rehash_value sha1 cs []) pos cs [] lg) as Hnum.
    assert (Hlook : forall key, mn <= key < mx ->
               exists c,
                 nth_error cs (Z.to_nat (ChildNum
                   (mkTree mn mx (Rehash_value sha1 cs []) pos cs [] lg) key))
                 = Some c /\
                 Lookup (mkTree mn mx (Rehash_value sha1 cs []) pos cs [] lg) key
                 = Lookup c key /\
                 min_key_ c <= key < max_key_ c /\
                 map_find key (concat (map (@GetEntries V) cs))
                 = map_find key (GetEntries c)).
    { intros key Hkey.
      destruct (Hnum key eq_refl Hd Hr Hkey) as (Hidx & Hkwin).
      set (index := ChildNum _ key) in *.
      destruct (nth_error cs (Z.to_nat index)) as [c|] eqn:Hc.
      2:{ apply nth_error_None in Hc. rewrite Hl in Hc. lia. }
      exists c. split; [reflexivity|].
      destruct (Hchild _ c Hc) as (_ & _ & Hmin & Hmax).
      rewrite Z2Nat.id in Hmin, Hmax by lia.
      split; [|split; [lia|]].
      - unfold cs. rewrite Lookup_node. fold cs. rewrite at_nth.
        fold index. rewrite Hc. reflexivity.
      - apply (find_concat cs (width (S (length pos))) key mn
                           (Z.to_nat index) c); [lia | | exact Hc |].
        + intros j c' Hj. apply (Hwin j c' Hj).
        + rewrite Z2Nat.id by lia. lia. }
    destruct (Z.eqb_spec (Rehash_value sha1 cs []) 0) as [Hz|Hnz].
    + split; [constructor|]. split; [constructor|].
      intros key Hkey. cbn [map_find].
      destruct (Hlook key Hkey) as (c & Hc & -> & Hrange & _).
      pose proof (nth_error_In _ _ Hc) as Hin.
      destruct (Hchild _ c Hc) as (Hwfc & Hhc & _).
      destruct (IH c Hin _ Hwfc Hhc) as (_ & _ & Hlc).
      rewrite (Hlc key Hrange).
      rewrite (GetEntries_zero c); [reflexivity|].
      apply (node_hash_zero V sha1 sha1_pos cs Hl Hhcs Hz c Hin).
    + destruct (concat_windows cs (width (S (length pos))) mn ltac:(lia) Hwin)
        as (Hsorted & Hwithin).
      unfold cs at 1. fold cs.
      rewrite fold_entries by exact Hsorted. cbn [app].
      split; [exact Hsorted|]. split.
      * rewrite Hl in Hwithin. rewrite Hmx. exact Hwithin.
      * intros key Hkey.
        destruct (Hlook key Hkey) as (c & Hc & -> & Hrange & ->).
        destruct (Hchild _ c Hc) as (Hwfc & Hhc & _).
        destruct (IH c (nth_error_In _ _ Hc) _ Hwfc Hhc) as (_ & _ & Hlc).
        apply Hlc. exact Hrange.
Qed.

End Entries.

End EntriesFacts.

(** ** The store is a map from keys to values *)

Module StoreFacts.
Import Merkle MerkleInduction MerkleEquations MapFacts ChildrenFacts
       RangeFacts WellFormed HexFacts HashedFacts LargestFacts FrameFacts
       CacheFacts FailedInsert EntriesFacts.

Section Maps.

Variable V : Type.

Lemma map_find_assign (data : list (Z * V)) key val key' :
  map_find key' (map_assign key val data) =
  match map_find key' data with
  | Some w => if key' =? key then Some val else Some w
  | None => None
  end.
Proof.
  induction data as [|[k v] data IH]; cbn [map_assign map_find];
    [reflexivity|].
  destruct (Z.eqb_spec k key) as [->|Hne]; cbn [map_find].
  - destruct (Z.eqb_spec key key') as [->|Hne'].
    + rewrite Z.eqb_refl. reflexivity.
    + destruct (map_find key' data); [|reflexivity].
      destruct (Z.eqb_spec key' key); [congruence | reflexivity].
  - destruct (Z.eqb_spec k key') as [->|Hne'].
    + destruct (Z.eqb_spec key' key); [congruence | reflexivity].
    + exact IH.
Qed.

Lemma map_find_erase_other (data : list (Z * V)) key key' :
  key' <> key -> map_find key' (map_erase key data) = map_find key' data.
Proof.
  intro Hne. induction data as [|[k v] data IH]; cbn [map_erase map_find];
    [reflexivity|].
  destruct (Z.eqb_spec k key) as [->|Hk].
  - destruct (Z.eqb_spec key key'); [congruence | reflexivity].
  - cbn [map_find]. rewrite IH. reflexivity.
Qed.

Lemma map_insert_present (data : list (Z * V)) key val w :
  keys_sorted data -> map_find key data = Some w ->
  map_insert key val data = data.
Proof.
  induction data as [|[k v] data IH]; intros Hs Hfind; [discriminate|].
  apply keys_sorted_cons in Hs. destruct Hs as (Hs & Hlt). cbn [fst] in Hlt.
  cbn [map_find] in Hfind. cbn [map_insert].
  destruct (Z.eqb_spec k key) as [->|Hne].
  - rewrite Z.ltb_irrefl, Z.eqb_refl. reflexivity.
  - apply map_find_In in Hfind. specialize (Hlt _ Hfind). cbn [fst] in Hlt.
    destruct (Z.ltb_spec key k); [lia|].
    destruct (Z.eqb_spec key k); [congruence|].
    rewrite IH; [reflexivity | exact Hs |].
    apply map_find_Some_In; assumption.
Qed.

Lemma map_assign_sorted (data : list (Z * V)) key val :
  keys_sorted data -> keys_sorted (map_assign key val data).
Proof. unfold keys_sorted. rewrite map_assign_keys. auto. Qed.

Lemma map_assign_within (data : list (Z * V)) key val mn mx :
  keys_within mn mx data -> keys_within mn mx (map_assign key val data).
Proof.
  intro H. eapply keys_within_map_fst; [apply map_assign_keys | exact H].
Qed.

End Maps.

Section Store.

Variable V : Type.
Variable sha1 : string -> Z.

(** [Update] assigns the value of a key that is present and leaves every
    other answer of [Lookup] as it was. *)
Lemma Update_Lookup (t : MerkleTree V) :
  forall kv key',
    Lookup (fst (Update sha1 t kv)) key' =
    match Lookup t key' with
    | Ok w => if key' =? fst kv then Ok (snd kv) else Ok w
    | Throw what => Throw what
    end.
Proof.
  induction t as [mn mx h pos cs data lg IH] using MerkleTree_ind.
  rewrite Forall_forall in IH. intros kv key'. destruct cs as [|c0 cs0].
  - rewrite Update_leaf. destruct (map_find (fst kv) data) eqn:Efind.
    + cbn [fst Rehash]. rewrite !Lookup_leaf, map_find_assign.
      destruct (map_find key' data); [|reflexivity].
      destruct (key' =? fst kv); reflexivity.
    + cbn [fst]. rewrite Lookup_leaf.
      destruct (map_find key' data) eqn:Efind'; [|reflexivity].
      destruct (Z.eqb_spec key' (fst kv)); [congruence | reflexivity].
  - rewrite Update_node.
    set (t := mkTree mn mx h pos (c0 :: cs0) data lg).
    pose proof (at_update_nth _ _ (fun c => Update sha1 c kv)
                  (c0 :: cs0) (Z.to_nat (ChildNum t (fst kv)))) as Hup.
    assert (Hnode : forall h' lg' (cs' : list (MerkleTree V)),
               length cs' = length (c0 :: cs0) ->
               Lookup (mkTree mn mx h' pos cs' data lg') key'
               = match nth_error cs' (Z.to_nat (ChildNum t key')) with
                 | Some c => Lookup c key'
                 | None => Throw "vector::at"
                 end).
    { intros h' lg' cs' Hlen'. destruct cs' as [|c0' cs0']; [discriminate Hlen'|].
      rewrite Lookup_node, at_nth. reflexivity. }
    rewrite (Hnode h lg (c0 :: cs0) eq_refl : Lookup t key' = _).
    destruct (at_update (fun c => Update sha1 c kv) (c0 :: cs0) _)
      as [[cs' o]|].
    2:{ cbn [fst]. rewrite (Hnode h lg (c0 :: cs0) eq_refl : Lookup t key' = _).
        destruct (nth_error (c0 :: cs0) (Z.to_nat (ChildNum t key')))
          as [c|] eqn:Hc; [|reflexivity].
        destruct (Lookup c key'); [|reflexivity].
        destruct (Z.eqb_spec key' (fst kv)) as [->|_]; [|reflexivity].
        congruence. }
    destruct Hup as (c & Hc & Ho & Hc' & Hlen' & Hoth).
    assert (Hgoal : match nth_error cs' (Z.to_nat (ChildNum t key')) with
                    | Some c => Lookup c key'
                    | None => Throw "vector::at"
                    end
                    = match
                        match nth_error (c0 :: cs0) (Z.to_nat (ChildNum t key'))
                        with
                        | Some c => Lookup c key'
                        | None => Throw "vector::at"
                        end
                      with
                      | Ok w => if key' =? fst kv then Ok (snd kv) else Ok w
                      | Throw what => Throw what
                      end).
    { destruct (Nat.eq_dec (Z.to_nat (ChildNum t key'))
                           (Z.to_nat (ChildNum t (fst kv)))) as [Heq|Hneq].
      - rewrite Heq, Hc', Hc. apply IH. eapply nth_error_In. exact Hc.
      - rewrite Hoth by exact Hneq.
        destruct (nth_error (c0 :: cs0) (Z.to_nat (ChildNum t key')));
          [|reflexivity].
        destruct (Lookup m key'); [|reflexivity].
        destruct (Z.eqb_spec key' (fst kv)) as [->|_]; [|reflexivity].
        contradiction Hneq. reflexivity. }
    destruct o; cbn [fst Rehash]; rewrite (Hnode _ _ cs' Hlen'); exact Hgoal.
Qed.

(** [Delete] leaves the other keys alone. *)
Lemma Delete_Lookup_other (t : MerkleTree V) :
  forall key key', key' <> key ->
    Lookup (fst (Delete sha1 t key)) key' = Lookup t key'.
Proof.
  induction t as [mn mx h pos cs data lg IH] using MerkleTree_ind.
  rewrite Forall_forall in IH. intros key key' Hne. destruct cs as [|c0 cs0].
  - rewrite Delete_leaf. destruct (map_find key data); [|reflexivity].
    cbn [fst Rehash]. rewrite !Lookup_leaf, map_find_erase_other by exact Hne.
    reflexivity.
  - rewrite Delete_node.
    set (t := mkTree mn mx h pos (c0 :: cs0) data lg).
    pose proof (at_update_nth _ _ (fun c => Delete sha1 c key)
                  (c0 :: cs0) (Z.to_nat (ChildNum t key))) as Hup.
    assert (Hnode : forall h' lg' (cs' : list (MerkleTree V)),
               length cs' = length (c0 :: cs0) ->
               Lookup (mkTree mn mx h' pos cs' data lg') key'
               = match nth_error cs' (Z.to_nat (ChildNum t key')) with
                 | Some c => Lookup c key'
                 | None => Throw "vector::at"
                 end).
    { intros h' lg' cs' Hlen'. destruct cs' as [|c0' cs0']; [discriminate Hlen'|].
      rewrite Lookup_node, at_nth. reflexivity. }
    destruct (at_update (fun c => Delete sha1 c key) (c0 :: cs0) _)
      as [[cs' o]|]; [|reflexivity].
    destruct Hup as (c & Hc & Ho & Hc' & Hlen' & Hoth).
    rewrite (Hnode h lg (c0 :: cs0) eq_refl : Lookup t key' = _).
    assert (Hgoal : match nth_error cs' (Z.to_nat (ChildNum t key')) with
                    | Some c => Lookup c key'
                    | None => Throw "vector::at"
                    end
                    = match nth_error (c0 :: cs0) (Z.to_nat (ChildNum t key'))
                      with
                      | Some c => Lookup c key'
                      | None => Throw "vector::at"
                      end).
    { destruct (Nat.eq_dec (Z.to_nat (ChildNum t key'))
                           (Z.to_nat (ChildNum t key))) as [Heq|Hneq].
      - rewrite Heq, Hc', Hc. apply IH; [eapply nth_error_In; exact Hc|exact Hne].
      - rewrite Hoth by exact Hneq. reflexivity. }
    destruct o; cbv zeta; cbn [fst Rehash set_largest];
      rewrite (Hnode _ _ cs' Hlen'); exact Hgoal.
Qed.

(** [Update] of a key that is present returns. *)
Lemma Update_Done (t : MerkleTree V) :
  forall kv, Contains t (fst kv) = true -> snd (Update sha1 t kv) = Done.
Proof.
  induction t as [mn mx h pos cs data lg IH] using MerkleTree_ind.
  rewrite Forall_forall in IH. intros kv. destruct cs as [|c0 cs0].
  - rewrite Contains_leaf, Update_leaf.
    destruct (map_find (fst kv) data); [reflexivity | discriminate].
  - rewrite Contains_node, Update_node, at_nth.
    pose proof (at_update_nth _ _ (fun c => Update sha1 c kv) (c0 :: cs0)
                  (Z.to_nat (ChildNum (mkTree mn mx h pos (c0 :: cs0) data lg)
                                      (fst kv)))) as Hup.
    destruct (nth_error (c0 :: cs0) _) as [c|] eqn:Hc; [|discriminate].
    intro Hcont.
    destruct (at_update (fun c => Update sha1 c kv) (c0 :: cs0) _)
      as [[cs' o]|]; [|congruence].
    destruct Hup as (c' & Hc' & Ho & _). injection Hc' as <-.
    rewrite (IH c (nth_error_In _ _ Hc) kv Hcont) in Ho. subst o. reflexivity.
Qed.

Hypothesis sha1_pos : forall str, 0 < sha1 str.

Lemma find_of_Lookup (r : result V) (l1 l2 : list (Z * V)) (key : Z)
      (s1 s2 : string) :
  r = match map_find key l1 with Some v => Ok v | None => Throw s1 end ->
  r = match map_find key l2 with Some v => Ok v | None => Throw s2 end ->
  map_find key l1 = map_find key l2.
Proof.
  destruct (map_find key l1), (map_find key l2); intros -> H;
    try discriminate; congruence.
Qed.

(** The entries after [Insert]: the pair is added, unless the key was
    present, where the call throws and the entries stay. *)
Lemma Insert_entries (t : MerkleTree V) (d : nat) (key : Z) (val : V) :
  wf d t -> hashed sha1 t -> min_key_ t <= key < max_key_ t ->
  GetEntries (fst (Insert sha1 t (key, val)))
  = map_insert key val (GetEntries t).
Proof.
  intros Hwf Hh Hk.
  destruct (Insert_wf V sha1 t d key val Hwf Hk) as (Hmin & Hwf' & Hdup & Hnew).
  pose proof (wf_max_key V d t _ Hwf Hwf' Hmin) as Hmax.
  pose proof (Insert_hashed V sha1 t (key, val) Hh) as Hh'.
  destruct (GetEntries_spec V sha1 sha1_pos t d Hwf Hh) as (Hs & Hw & Hl).
  destruct (GetEntries_spec V sha1 sha1_pos _ d Hwf' Hh') as (Hs' & Hw' & Hl').
  rewrite Hmin, Hmax in Hw', Hl'.
  apply sorted_ext; [exact Hs' | apply map_insert_sorted; exact Hs |].
  intro key'.
  destruct (Z.eq_dec key' key) as [->|Hne].
  - destruct (Contains t key) eqn:Hc.
    + specialize (Hdup eq_refl).
      destruct (Contains_Lookup V t key Hc) as (w & Hw0).
      pose proof (Hl key Hk) as Hlk. rewrite Hw0 in Hlk.
      destruct (map_find key (GetEntries t)) as [w'|] eqn:Ef; [|discriminate].
      rewrite (map_insert_present V _ key val w' Hs Ef), Ef.
      pose proof (Hl' key Hk) as Hlk'.
      rewrite <- (Lookup_forget V (fst (Insert sha1 t (key, val)))) in Hlk'.
      rewrite (Insert_throw_forget V sha1 t _ _ Hdup), Lookup_forget, Hw0 in Hlk'.
      destruct (map_find key (GetEntries (fst (Insert sha1 t (key, val)))));
        congruence.
    + destruct (Hnew eq_refl) as (_ & Hlook).
      pose proof (Hl' key Hk) as Hlk'. rewrite Hlook in Hlk'.
      rewrite map_find_insert.
      * destruct (map_find key (GetEntries (fst (Insert sha1 t (key, val)))));
          congruence.
      * pose proof (Hl key Hk) as Hlk.
        destruct (map_find key (GetEntries t)) eqn:Ef; [|reflexivity].
        apply Lookup_Ok_Contains in Hlk. congruence.
  - rewrite map_find_insert_other by exact Hne.
    destruct (Z_le_dec (min_key_ t) key') as [Hlo|Hlo];
      [destruct (Z_lt_dec key' (max_key_ t)) as [Hhi|Hhi]|].
    + eapply find_of_Lookup; [apply Hl'; lia|].
      rewrite (Insert_Lookup_other V sha1 t d key val key' Hwf Hk) by (lia || exact Hne).
      apply Hl. lia.
    + rewrite !(map_find_outside V key' (min_key_ t) (max_key_ t));
        [reflexivity | exact Hw | lia | exact Hw' | lia].
    + rewrite !(map_find_outside V key' (min_key_ t) (max_key_ t));
        [reflexivity | exact Hw | lia | exact Hw' | lia].
Qed.

(** The entries after [Delete]. *)
Lemma Delete_entries (t : MerkleTree V) (d : nat) (key : Z) :
  wf d t -> hashed sha1 t ->
  GetEntries (fst (Delete sha1 t key)) = map_erase key (GetEntries t).
Proof.
  intros Hwf Hh.
  destruct (Delete_wf V sha1 t d key Hwf) as (Hmin & Hwf' & Hin & Hout).
  pose proof (wf_max_key V d t _ Hwf Hwf' Hmin) as Hmax.
  pose proof (Delete_hashed V sha1 t key Hh) as Hh'.
  destruct (GetEntries_spec V sha1 sha1_pos t d Hwf Hh) as (Hs & Hw & Hl).
  destruct (GetEntries_spec V sha1 sha1_pos _ d Hwf' Hh') as (Hs' & Hw' & Hl').
  rewrite Hmin, Hmax in Hw', Hl'.
  apply sorted_ext; [exact Hs' | apply map_erase_sorted; exact Hs |].
  intro key'.
  destruct (Z_le_dec (min_key_ t) key') as [Hlo|Hlo];
    [destruct (Z_lt_dec key' (max_key_ t)) as [Hhi|Hhi]|].
  - destruct (Z.eq_dec key' key) as [->|Hne].
    + rewrite map_find_erase by exact Hs.
      destruct (Contains t key) eqn:Hc.
      * destruct (Hin eq_refl) as (_ & Hlook).
        pose proof (Hl' key (conj Hlo Hhi)) as Hlk'. rewrite Hlook in Hlk'.
        destruct (map_find key (GetEntries (fst (Delete sha1 t key))));
          [discriminate | reflexivity].
      * rewrite (Delete_throw_same V sha1 t key _ (Hout eq_refl)).
        pose proof (Hl key (conj Hlo Hhi)) as Hlk.
        destruct (map_find key (GetEntries t)) eqn:Ef; [|reflexivity].
        apply Lookup_Ok_Contains in Hlk. congruence.
    + rewrite map_find_erase_other by exact Hne.
      eapply find_of_Lookup; [apply Hl'; lia|].
      rewrite Delete_Lookup_other by exact Hne. apply Hl. lia.
  - rewrite !(map_find_outside V key' (min_key_ t) (max_key_ t));
      [reflexivity | apply map_erase_within; exact Hw | lia | exact Hw' | lia].
  - rewrite !(map_find_outside V key' (min_key_ t) (max_key_ t));
      [reflexivity | apply map_erase_within; exact Hw | lia | exact Hw' | lia].
Qed.

(** The entries after [Update]. *)
Lemma Update_entries (t : MerkleTree V) (d : nat) (key : Z) (val : V) :
  wf d t -> hashed sha1 t ->
  GetEntries (fst (Update sha1 t (key, val)))
  = map_assign key val (GetEntries t).
Proof.
  intros Hwf Hh.
  destruct (Update_wf V sha1 t d key val Hwf) as (Hmin & Hwf' & _).
  pose proof (wf_max_key V d t _ Hwf Hwf' Hmin) as Hmax.
  pose proof (Update_hashed V sha1 t (key, val) Hh) as Hh'.
  destruct (GetEntries_spec V sha1 sha1_pos t d Hwf Hh) as (Hs & Hw & Hl).
  destruct (GetEntries_spec V sha1 sha1_pos _ d Hwf' Hh') as (Hs' & Hw' & Hl').
  rewrite Hmin, Hmax in Hw', Hl'.
  apply sorted_ext; [exact Hs' | apply map_assign_sorted; exact Hs |].
  intro key'.
  destruct (Z_le_dec (min_key_ t) key') as [Hlo|Hlo];
    [destruct (Z_lt_dec key' (max_key_ t)) as [Hhi|Hhi]|].
  - pose proof (Hl' key' (conj Hlo Hhi)) as Hlk'.
    rewrite Update_Lookup, (Hl key' (conj Hlo Hhi)) in Hlk'. cbn [fst snd] in Hlk'.
    rewrite map_find_assign.
    destruct (map_find key' (GetEntries t)),
             (map_find key' (GetEntries (fst (Update sha1 t (key, val)))));
      try destruct (key' =? key); congruence.
  - rewrite !(map_find_outside V key' (min_key_ t) (max_key_ t));
      [reflexivity | apply map_assign_within; exact Hw | lia | exact Hw' | lia].
  - rewrite !(map_find_outside V key' (min_key_ t) (max_key_ t));
      [reflexivity | apply map_assign_within; exact Hw | lia | exact Hw' | lia].
Qed.

End Store.

End StoreFacts.

(** ** The smallest, the largest and the next entry *)

Module OrderFacts.
Import Merkle MerkleInduction MerkleEquations MapFacts ChildrenFacts
       RangeFacts WellFormed HexFacts HashedFacts LargestFacts FrameFacts
       CacheFacts FailedInsert EntriesFacts StoreFacts.

Section Lists.

Variable V : Type.

Lemma last_entry_app (l1 l2 : list (Z * V)) :
  last_entry (l1 ++ l2) =
  match last_entry l2 with
  | Some e => Some e
  | None => last_entry l1
  end.
Proof.
  induction l1 as [|x l1 IH]; cbn [app].
  - destruct (last_entry l2); reflexivity.
  - destruct l1 as [|y l1].
    + cbn [app]. destruct l2 as [|z l2]; [reflexivity|].
      change (last_entry (x :: z :: l2)) with (last_entry (z :: l2)).
      destruct (last_entry (z :: l2)) eqn:E; [reflexivity|].
      destruct (last_entry_last V (z :: l2) ltac:(discriminate))
        as (kv & Hkv & _). congruence.
    + change (last_entry (x :: (y :: l1) ++ l2))
        with (last_entry ((y :: l1) ++ l2)).
      rewrite IH. reflexivity.
Qed.

Lemma first_above_app (key : Z) (l1 l2 : list (Z * V)) :
  first_above key (l1 ++ l2) =
  match first_above key l1 with
  | Some e => Some e
  | None => first_above key l2
  end.
Proof.
  induction l1 as [|[k v] l1 IH]; cbn [app first_above]; [reflexivity|].
  destruct (k >? key); [reflexivity | exact IH].
Qed.

Lemma first_above_none (key : Z) (l : list (Z * V)) :
  (forall kv, In kv l -> fst kv <= key) -> first_above key l = None.
Proof.
  induction l as [|[k v] l IH]; intro H; cbn [first_above]; [reflexivity|].
  pose proof (H (k, v) (or_introl eq_refl)) as Hk. cbn [fst] in Hk.
  rewrite Z.gtb_ltb. destruct (Z.ltb_spec key k); [lia|].
  apply IH. intros kv Hin. apply H. right. exact Hin.
Qed.

Lemma first_above_some (key : Z) (l : list (Z * V)) (kv : Z * V) :
  In kv l -> key < fst kv -> first_above key l <> None.
Proof.
  induction l as [|[k v] l IH]; intros Hin Hlt; [contradiction|].
  cbn [first_above]. rewrite Z.gtb_ltb. destruct (Z.ltb_spec key k);
    [discriminate|].
  destruct Hin as [<-|Hin]; [cbn [fst] in Hlt; lia|]. apply IH; assumption.
Qed.

Lemma last_entry_keys (V' : Type) (l1 : list (Z * V)) :
  forall l2 : list (Z * V'),
    map fst l1 = map fst l2 ->
    option_map fst (last_entry l1) = option_map fst (last_entry l2).
Proof.
  induction l1 as [|x l1 IH]; intros [|y l2] H; try discriminate;
    [reflexivity|].
  cbn [map] in H. injection H as Hxy Hrest.
  destruct l1 as [|x' l1], l2 as [|y' l2]; try discriminate.
  - cbn. f_equal. exact Hxy.
  - change (last_entry (x :: x' :: l1)) with (last_entry (x' :: l1)).
    change (last_entry (y :: y' :: l2)) with (last_entry (y' :: l2)).
    apply IH. exact Hrest.
Qed.

Lemma last_entry_insert (l : list (Z * V)) (key : Z) (val : V) :
  keys_sorted l ->
  option_map fst (last_entry (map_insert key val l))
  = bump_largest (option_map fst (last_entry l)) key.
Proof.
  induction l as [|[k v] l IH]; intro Hs; [reflexivity|].
  apply keys_sorted_cons in Hs. destruct Hs as (Hs & Hlt). cbn [fst] in Hlt.
  specialize (IH Hs).
  assert (Hlast : exists kl vl, last_entry ((k, v) :: l) = Some (kl, vl) /\
                                k <= kl /\
                                (l <> [] -> last_entry l = Some (kl, vl))).
  { destruct l as [|y l]; [exists k, v; repeat split; [lia | congruence]|].
    change (last_entry ((k, v) :: y :: l)) with (last_entry (y :: l)).
    destruct (last_entry_last V (y :: l) ltac:(discriminate))
      as ([kl vl] & Hkv & Hin & _).
    exists kl, vl. split; [exact Hkv|]. split; [|intros _; exact Hkv].
    specialize (Hlt _ Hin). cbn [fst] in Hlt. lia. }
  destruct Hlast as (kl & vl & Hl & Hkl & Hl').
  rewrite Hl. cbn [option_map fst bump_largest map_insert].
  destruct (Z.ltb_spec key k) as [Hlow|Hhigh].
  - change (last_entry ((key, val) :: (k, v) :: l))
      with (last_entry ((k, v) :: l)).
    rewrite Hl. cbn [option_map fst]. rewrite Z.gtb_ltb.
    destruct (Z.ltb_spec kl key); [lia | reflexivity].
  - destruct (Z.eqb_spec key k) as [->|Hne].
    + rewrite Hl. cbn [option_map fst]. rewrite Z.gtb_ltb.
      destruct (Z.ltb_spec kl k); [lia | reflexivity].
    + destruct l as [|y l].
      * cbn [map_insert last_entry option_map fst].
        injection Hl as <- <-. rewrite Z.gtb_ltb.
        destruct (Z.ltb_spec k key); [reflexivity | lia].
      * rewrite (Hl' ltac:(discriminate)) in IH.
        cbn [option_map fst bump_largest] in IH.
        assert (Hne' : map_insert key val (y :: l) <> []).
        { cbn [map_insert]. destruct y as [ky vy].
          destruct (key <? ky); [discriminate|].
          destruct (key =? ky); discriminate. }
        destruct (map_insert key val (y :: l)) as [|z l'] eqn:E;
          [contradiction|].
        change (last_entry ((k, v) :: z :: l')) with (last_entry (z :: l')).
        exact IH.
Qed.

End Lists.

Section Scans.

Variables A B : Type.

Lemma first_from_skip (f : A -> option B) (cs : list A) :
  forall skip,
    first_from f cs skip = first_from f (skipn skip cs) O.
Proof.
  induction cs as [|c cs IH]; intros [|skip]; cbn [first_from skipn];
    try reflexivity.
  apply IH.
Qed.

End Scans.

Section Order.

Variable V : Type.
Variable sha1 : string -> Z.
Hypothesis sha1_pos : forall str, 0 < sha1 str.

(** The entries of an internal node are those of its children, in
    order. *)
Lemma GetEntries_node (d : nat) mn mx h pos cs lg :
  wf d (mkTree mn mx h pos cs [] lg) ->
  hashed sha1 (mkTree mn mx h pos cs ([] : list (Z * V)) lg) ->
  cs <> [] ->
  GetEntries (mkTree mn mx h pos cs [] lg) = concat (map (@GetEntries V) cs).
Proof.
  intros Hwf Hh Hne.
  inversion Hh as [? ? ? ? ? ? ? Ehash Hhcs]; subst.
  assert (Hwin : forall i c, nth_error cs i = Some c ->
             keys_sorted (GetEntries c) /\
             keys_within (mn + Z.of_nat i * width (S d))
                         (mn + (Z.of_nat i + 1) * width (S d))
                         (GetEntries c)).
  { intros i c Hc.
    destruct (child_window V d mn mx _ pos cs lg i c Hwf Hne Hc)
      as (Hwfc & _ & _ & _ & _ & Hmin & Hmax).
    destruct (GetEntries_spec V sha1 sha1_pos c _ Hwfc
                (Hhcs c (nth_error_In _ _ Hc))) as (Hsc & Hwc & _).
    rewrite Hmin, Hmax in Hwc. split; assumption. }
  assert (Hw : 0 <= width (S d)).
  { destruct cs as [|c0 cs0]; [contradiction|].
    destruct (child_window V d mn mx _ pos (c0 :: cs0) lg O c0 Hwf Hne eq_refl)
      as (_ & _ & _ & _ & Hwpos & _). lia. }
  destruct (concat_windows V cs (width (S d)) mn Hw Hwin) as (Hsorted & _).
  rewrite GetEntries_eq.
  destruct (Z.eqb_spec (Rehash_value sha1 cs []) 0) as [Hz|Hnz].
  - symmetry. apply concat_nil_Forall. apply Forall_forall.
    intros l Hl. apply in_map_iff in Hl. destruct Hl as (c & <- & Hin).
    apply GetEntries_zero.
    inversion Hwf as [|? ? ? ? ? ? ? _ _ _ Hlen _]; subst; [contradiction|].
    apply (node_hash_zero V sha1 sha1_pos cs Hlen Hhcs Hz c Hin).
  - destruct cs as [|c0 cs0]; [contradiction|].
    rewrite (fold_entries V (c0 :: cs0) []) by exact Hsorted. reflexivity.
Qed.

Lemma GetSmallestEntry_eq mn mx h pos cs (data : list (Z * V)) lg :
  GetSmallestEntry (mkTree mn mx h pos cs data lg) =
  if h =? 0 then None
  else match cs with
       | [] => hd_error data
       | _ :: _ => first_from (@GetSmallestEntry V) cs 0
       end.
Proof. destruct cs; reflexivity. Qed.

Lemma Next_eq mn mx h pos cs (data : list (Z * V)) lg key :
  Next (mkTree mn mx h pos cs data lg) key =
  if h =? 0 then None
  else if ge_optional key lg && (match pos with [] => true | _ :: _ => false end)
  then GetSmallestEntry (mkTree mn mx h pos cs data lg)
  else match cs with
       | [] => first_above key data
       | _ :: _ =>
           first_from (fun c => Next c key) cs
             (Z.to_nat (ChildNum (mkTree mn mx h pos cs data lg) key))
       end.
Proof. destruct cs; reflexivity. Qed.

Lemma last_to_first_concat (cs : list (MerkleTree V)) :
  (forall c, In c cs -> GetLargestEntry c = last_entry (GetEntries c)) ->
  last_to_first (@GetLargestEntry V) cs
  = last_entry (concat (map (@GetEntries V) cs)).
Proof.
  induction cs as [|c cs IH]; intro H; [reflexivity|].
  cbn [last_to_first map concat]. rewrite last_entry_app.
  rewrite IH by (intros c' Hin; apply H; right; exact Hin).
  rewrite (H c (or_introl eq_refl)). reflexivity.
Qed.

Lemma first_from_concat (cs : list (MerkleTree V)) :
  (forall c, In c cs -> GetSmallestEntry c = hd_error (GetEntries c)) ->
  first_from (@GetSmallestEntry V) cs 0
  = hd_error (concat (map (@GetEntries V) cs)).
Proof.
  induction cs as [|c cs IH]; intro H; [reflexivity|].
  cbn [first_from map concat]. rewrite (H c (or_introl eq_refl)).
  destruct (GetEntries c) as [|e l]; cbn [hd_error app]; [|reflexivity].
  apply IH. intros c' Hin. apply H. right. exact Hin.
Qed.

(** [GetLargestEntry] and [GetSmallestEntry] return the last and the
    first entry in key order. *)
Lemma GetLargestEntry_last (t : MerkleTree V) :
  forall d, wf d t -> hashed sha1 t ->
            GetLargestEntry t = last_entry (GetEntries t).
Proof.
  induction t as [mn mx h pos cs data lg IH] using MerkleTree_ind.
  rewrite Forall_forall in IH. intros d Hwf Hh.
  inversion Hwf as [? ? ? ? ? ? ? Hpos Hd Hr Hs Hw
                   |? ? ? ? ? ? ? Hpos Hd Hr Hl Hch]; subst.
  - rewrite GetLargestEntry_eq, GetEntries_eq.
    destruct (h =? 0); reflexivity.
  - assert (Hne : cs <> []) by (intros ->; discriminate Hl).
    rewrite (GetEntries_node _ mn mx h pos cs lg Hwf Hh Hne).
    rewrite GetLargestEntry_eq.
    inversion Hh as [? ? ? ? ? ? ? Ehash Hhcs]; subst.
    assert (Hcs : forall c, In c cs ->
               GetLargestEntry c = last_entry (GetEntries c)).
    { intros c Hin. destruct (In_nth_error _ _ Hin) as (i & Hi).
      destruct (Hch i c Hi) as (_ & Hwfc).
      apply (IH c Hin _ Hwfc). apply Hhcs. exact Hin. }
    destruct (Z.eqb_spec (Rehash_value sha1 cs []) 0) as [Hz|Hnz].
    + symmetry. replace (concat (map (@GetEntries V) cs)) with (@nil (Z * V));
        [reflexivity|].
      symmetry. apply concat_nil_Forall. apply Forall_forall.
      intros l Hin. apply in_map_iff in Hin. destruct Hin as (c & <- & Hin).
      apply GetEntries_zero.
      apply (node_hash_zero V sha1 sha1_pos cs Hl Hhcs Hz c Hin).
    + destruct cs as [|c0 cs0]; [contradiction|].
      apply last_to_first_concat. exact Hcs.
Qed.

Lemma GetSmallestEntry_first (t : MerkleTree V) :
  forall d, wf d t -> hashed sha1 t ->
            GetSmallestEntry t = hd_error (GetEntries t).
Proof.
  induction t as [mn mx h pos cs data lg IH] using MerkleTree_ind.
  rewrite Forall_forall in IH. intros d Hwf Hh.
  inversion Hwf as [? ? ? ? ? ? ? Hpos Hd Hr Hs Hw
                   |? ? ? ? ? ? ? Hpos Hd Hr Hl Hch]; subst.
  - rewrite GetSmallestEntry_eq, GetEntries_eq.
    destruct (h =? 0); reflexivity.
  - assert (Hne : cs <> []) by (intros ->; discriminate Hl).
    rewrite (GetEntries_node _ mn mx h pos cs lg Hwf Hh Hne).
    rewrite GetSmallestEntry_eq.
    inversion Hh as [? ? ? ? ? ? ? Ehash Hhcs]; subst.
    assert (Hcs : forall c, In c cs ->
               GetSmallestEntry c = hd_error (GetEntries c)).
    { intros c Hin. destruct (In_nth_error _ _ Hin) as (i & Hi).
      destruct (Hch i c Hi) as (_ & Hwfc).
      apply (IH c Hin _ Hwfc). apply Hhcs. exact Hin. }
    destruct (Z.eqb_spec (Rehash_value sha1 cs []) 0) as [Hz|Hnz].
    + symmetry. replace (concat (map (@GetEntries V) cs)) with (@nil (Z * V));
        [reflexivity|].
      symmetry. apply concat_nil_Forall. apply Forall_forall.
      intros l Hin. apply in_map_iff in Hin. destruct Hin as (c & <- & Hin).
      apply GetEntries_zero.
      apply (node_hash_zero V sha1 sha1_pos cs Hl Hhcs Hz c Hin).
    + destruct cs as [|c0 cs0]; [contradiction|].
      apply first_from_concat. exact Hcs.
Qed.

(** The hash of a subtree is the zero key exactly when it holds no
    entry. *)
Lemma hash_zero_iff_empty (t : MerkleTree V) :
  forall d, wf d t -> hashed sha1 t ->
            (hash_ t = 0 <-> GetEntries t = []).
Proof.
  induction t as [mn mx h pos cs data lg IH] using MerkleTree_ind.
  rewrite Forall_forall in IH. intros d Hwf Hh.
  split; [apply GetEntries_zero|]. cbn [hash_].
  inversion Hwf as [? ? ? ? ? ? ? Hpos Hd Hr Hs Hw
                   |? ? ? ? ? ? ? Hpos Hd Hr Hl Hch]; subst.
  - rewrite GetEntries_eq. destruct (Z.eqb_spec h 0); [auto|].
    intros ->. inversion Hh; subst. contradiction n. reflexivity.
  - assert (Hne : cs <> []) by (intros ->; discriminate Hl).
    rewrite (GetEntries_node _ mn mx h pos cs lg Hwf Hh Hne).
    intro Hnil. inversion Hh as [? ? ? ? ? ? ? Ehash Hhcs]; subst.
    assert (Hall : Forall (fun x => x = 0) (map (@GetHash V) cs)).
    { apply Forall_forall. intros x Hx. apply in_map_iff in Hx.
      destruct Hx as (c & <- & Hin). destruct (In_nth_error _ _ Hin) as (i & Hi).
      destruct (Hch i c Hi) as (_ & Hwfc).
      apply (IH c Hin _ Hwfc (Hhcs c Hin)).
      rewrite concat_nil_Forall in Hnil. rewrite Forall_forall in Hnil.
      apply Hnil. apply in_map. exact Hin. }
    apply concat_hex_all_zero in Hall. rewrite length_map, Hl, map_map in Hall.
    destruct cs as [|c0 cs0]; [contradiction|].
    unfold Rehash_value. cbv zeta.
    change (fun node : MerkleTree V => IntToHexStr (GetHash node))
      with (fun x : MerkleTree V => IntToHexStr (GetHash x)).
    rewrite Hall. reflexivity.
Qed.

End Order.

End OrderFacts.

(** ** The root: its cache and [Next] *)

Module RootFacts.
Import Merkle MerkleInduction MerkleEquations MapFacts ChildrenFacts
       RangeFacts WellFormed HexFacts HashedFacts LargestFacts FrameFacts
       CacheFacts FailedInsert EntriesFacts StoreFacts OrderFacts.

Section Root.

Variable V : Type.
Variable sha1 : string -> Z.

Lemma children_kept (f : MerkleTree V -> MerkleTree V * outcome)
      (cs : list (MerkleTree V)) (index : nat) :
  match at_update f cs index with
  | Some (cs', _) => length cs' = length cs
  | None => True
  end.
Proof.
  pose proof (at_update_nth _ _ f cs index) as H.
  destruct (at_update f cs index) as [[cs' o]|]; [|exact I].
  destruct H as (c & _ & _ & _ & Hlen & _). exact Hlen.
Qed.

Lemma child_nodes_Rehash (t : MerkleTree V) :
  child_nodes_ (Rehash sha1 t) = child_nodes_ t.
Proof. destruct t. reflexivity. Qed.

Lemma child_nodes_set_largest (t : MerkleTree V) lg :
  child_nodes_ (set_largest t lg) = child_nodes_ t.
Proof. destruct t. reflexivity. Qed.

(** An internal node stays one. *)
Lemma apply_op_node (t : MerkleTree V) (o : op V) :
  child_nodes_ t <> [] -> child_nodes_ (fst (apply_op sha1 t o)) <> [].
Proof.
  destruct t as [mn mx h pos cs data lg]. cbn [child_nodes_]. intro Hne.
  destruct cs as [|c0 cs0]; [contradiction|].
  assert (Hlen : forall cs' : list (MerkleTree V),
             length cs' = length (c0 :: cs0) -> cs' <> [])
    by (intros cs' H ->; discriminate H).
  destruct o as [key val|key val|key]; cbn [apply_op].
  - rewrite Insert_node.
    pose proof (children_kept (fun c => Insert sha1 c (key, val)) (c0 :: cs0)
                  (Z.to_nat (ChildNum (mkTree mn mx h pos (c0 :: cs0) data lg)
                                      (fst (key, val))))) as H.
    destruct (at_update _ _ _) as [[cs' [|what]]|]; cbn [fst Rehash child_nodes_];
      auto.
  - rewrite Update_node.
    pose proof (children_kept (fun c => Update sha1 c (key, val)) (c0 :: cs0)
                  (Z.to_nat (ChildNum (mkTree mn mx h pos (c0 :: cs0) data lg)
                                      (fst (key, val))))) as H.
    destruct (at_update _ _ _) as [[cs' [|what]]|]; cbn [fst Rehash child_nodes_];
      auto.
  - rewrite Delete_node.
    pose proof (children_kept (fun c => Delete sha1 c key) (c0 :: cs0)
                  (Z.to_nat (ChildNum (mkTree mn mx h pos (c0 :: cs0) data lg)
                                      key))) as H.
    destruct (at_update _ _ _) as [[cs' [|what]]|]; cbv zeta;
      cbn [fst Rehash set_largest child_nodes_]; auto.
Qed.

Lemma CreateChildren_loop_cons (count : nat) i step last_key pos
      (data : list (Z * V)) :
  fst (CreateChildren_loop sha1 (S count) i step last_key pos data) <> [].
Proof.
  cbn [CreateChildren_loop]. cbv zeta.
  destruct (take_range _ _ _) as [taken left].
  destruct (CreateChildren_loop _ _ _ _ _ _ _) as [children left'].
  cbn [fst]. discriminate.
Qed.

Lemma EmptyTree_node : child_nodes_ (EmptyTree V sha1) <> [].
Proof.
  unfold EmptyTree, CreateChildren.
  change (Z.to_nat num_children_) with 8%nat.
  pose proof (CreateChildren_loop_cons 7 0
                (Key.uint256 (Key.key_base ^ Key.key_len - 0) / num_children_)
                0 [] []) as H.
  destruct (CreateChildren_loop _ _ _ _ _ _ _) as [children left].
  cbn [child_nodes_ app fst] in *. exact H.
Qed.

(** The root of a tree a peer holds is an internal node. *)
Lemma reachable_node (t : MerkleTree V) :
  reachable sha1 t -> child_nodes_ t <> [].
Proof.
  induction 1 as [|t o Hr IH Hk]; [apply EmptyTree_node|].
  apply apply_op_node. exact IH.
Qed.

Hypothesis sha1_pos : forall str, 0 < sha1 str.

Lemma GetLargestEntry_set_largest (t : MerkleTree V) lg :
  GetLargestEntry (set_largest t lg) = GetLargestEntry t.
Proof. destruct t. cbn [set_largest]. rewrite !GetLargestEntry_eq. reflexivity. Qed.

Lemma largest_set_largest (t : MerkleTree V) lg :
  largest_key_ (set_largest t lg) = lg.
Proof. destruct t. reflexivity. Qed.

(** The largest key on record at the root is the largest key present. *)
Lemma reachable_cache_exact (t : MerkleTree V) :
  reachable sha1 t ->
  largest_key_ t = option_map fst (GetLargestEntry t).
Proof.
  induction 1 as [|t o Hr IH Hk].
  - unfold EmptyTree, CreateChildren.
    destruct (CreateChildren_loop _ _ _ _ _ _ _) as [children left].
    rewrite GetLargestEntry_eq. reflexivity.
  - pose proof (reachable_wf V sha1 t Hr) as Hwf.
    pose proof (reachable_hashed V sha1 t Hr) as Hh.
    pose proof (reachable_step sha1 t o Hr Hk) as Hr'.
    pose proof (reachable_wf V sha1 _ Hr') as Hwf'.
    pose proof (reachable_hashed V sha1 _ Hr') as Hh'.
    destruct (root_range V t Hwf) as (Hmin & Hmax).
    destruct (GetEntries_spec V sha1 sha1_pos t 0 Hwf Hh) as (Hs & _ & _).
    rewrite (GetLargestEntry_last V sha1 sha1_pos t 0 Hwf Hh) in IH.
    destruct o as [key val|key val|key]; cbn [apply_op op_key] in *.
    + rewrite Insert_largest_any, IH. cbn [fst].
      rewrite (GetLargestEntry_last V sha1 sha1_pos _ 0 Hwf' Hh').
      rewrite (Insert_entries V sha1 sha1_pos t 0 key val Hwf Hh)
        by (rewrite Hmin, Hmax; exact Hk).
      symmetry. apply last_entry_insert. exact Hs.
    + rewrite Update_largest, IH.
      rewrite (GetLargestEntry_last V sha1 sha1_pos _ 0 Hwf' Hh').
      rewrite (Update_entries V sha1 sha1_pos t 0 key val Hwf Hh).
      symmetry. apply last_entry_keys. apply map_assign_keys.
    + pose proof (reachable_node t Hr) as Hnode.
      destruct t as [mn mx h pos cs data lg]. cbn [child_nodes_] in Hnode.
      destruct cs as [|c0 cs0]; [contradiction|].
      destruct (snd (Delete sha1 (mkTree mn mx h pos (c0 :: cs0) data lg) key))
        as [|what] eqn:Eo.
      2:{ rewrite (Delete_throw_same V sha1 _ key what Eo).
          rewrite (GetLargestEntry_last V sha1 sha1_pos _ 0 Hwf Hh). exact IH. }
      rewrite Delete_node in Eo |- *.
      destruct (at_update _ _ _) as [[cs' [|what]]|]; cbv zeta in Eo |- *;
        cbn [fst snd] in Eo |- *; try discriminate Eo.
      rewrite largest_set_largest, GetLargestEntry_set_largest.
      destruct (GetLargestEntry _); reflexivity.
Qed.

Lemma first_from_above (key : Z) (cs : list (MerkleTree V)) :
  forall idx,
    (forall c, In c cs -> Next c key = first_above key (GetEntries c)) ->
    (forall j c, (j < idx)%nat -> nth_error cs j = Some c ->
                 forall kv, In kv (GetEntries c) -> fst kv <= key) ->
    first_from (fun c => Next c key) cs idx
    = first_above key (concat (map (@GetEntries V) cs)).
Proof.
  induction cs as [|c cs IH]; intros idx Hnext Hskip; [reflexivity|].
  cbn [map concat]. rewrite first_above_app. destruct idx as [|idx].
  - cbn [first_from]. rewrite (Hnext c (or_introl eq_refl)).
    destruct (first_above key (GetEntries c)); [reflexivity|].
    apply IH; [intros c' Hin; apply Hnext; right; exact Hin|].
    intros j c' Hj. lia.
  - cbn [first_from].
    rewrite (first_above_none V key (GetEntries c))
      by (apply (Hskip O c); [lia | reflexivity]).
    apply IH; [intros c' Hin; apply Hnext; right; exact Hin|].
    intros j c' Hj Hc'. apply (Hskip (S j) c'); [lia | exact Hc'].
Qed.

(** The loop of [Next] over the children, from the child of the key. *)
Lemma scan_children (d : nat) mn mx h pos cs lg key :
  wf d (mkTree mn mx h pos cs [] lg) ->
  hashed sha1 (mkTree mn mx h pos cs ([] : list (Z * V)) lg) ->
  cs <> [] ->
  (forall c, In c cs -> Next c key = first_above key (GetEntries c)) ->
  first_from (fun c => Next c key) cs
             (Z.to_nat (ChildNum (mkTree mn mx h pos cs [] lg) key))
  = first_above key (GetEntries (mkTree mn mx h pos cs [] lg)).
Proof.
  intros Hwf Hh Hne Hnext.
  rewrite (GetEntries_node V sha1 sha1_pos d mn mx h pos cs lg Hwf Hh Hne).
  apply first_from_above; [exact Hnext|].
  intros j c Hj Hc kv Hin.
  destruct (child_window V d mn mx h pos cs lg j c Hwf Hne Hc)
    as (Hwfc & Hd & Hj8 & Hmx & Hwpos & Hmin & Hmax).
  inversion Hh as [? ? ? ? ? ? ? Ehash Hhcs]; subst.
  destruct (GetEntries_spec V sha1 sha1_pos c _ Hwfc
              (Hhcs c (nth_error_In _ _ Hc))) as (_ & Hwc & _).
  unfold keys_within in Hwc. rewrite Forall_forall in Hwc.
  specialize (Hwc kv Hin). rewrite Hmin, Hmax in Hwc.
  inversion Hwf as [|? ? ? ? ? ? ? Hpos Hd' Hr Hl Hch]; subst;
    [contradiction|].
  revert Hj. unfold ChildNum. cbn [max_key_ min_key_].
  rewrite Z.geb_leb.
  destruct (Z.leb_spec (mn + 8 * width (S (length pos))) key) as [Hge|Hlt].
  - unfold num_children_. intro Hj. nia.
  - destruct (Z.ltb_spec key mn) as [Hlo|Hhi]; [cbn; lia|].
    pose proof (ChildNum_wf V (length pos) mn (mn + 8 * width (S (length pos)))
                  (Rehash_value sha1 cs []) pos cs [] lg key
                  eq_refl Hd Hr ltac:(lia)) as (Hidx & Hkwin).
    unfold ChildNum in Hidx, Hkwin. cbn [max_key_ min_key_] in Hidx, Hkwin.
    rewrite Z.geb_leb in Hidx, Hkwin.
    destruct (Z.leb_spec (mn + 8 * width (S (length pos))) key); [lia|].
    destruct (Z.ltb_spec key mn); [lia|].
    intro Hj. nia.
Qed.

(** Below the root [Next] returns the first entry above the key. *)
Lemma Next_below (t : MerkleTree V) :
  forall d key, wf d t -> hashed sha1 t -> (1 <= d)%nat ->
                Next t key = first_above key (GetEntries t).
Proof.
  induction t as [mn mx h pos cs data lg IH] using MerkleTree_ind.
  rewrite Forall_forall in IH. intros d key Hwf Hh Hd1.
  rewrite Next_eq.
  assert (Hpos : (match pos with [] => true | _ :: _ => false end) = false).
  { destruct (wf_fields V d _ Hwf) as (Hlen & _). cbn [position_] in Hlen.
    destruct pos; [cbn in Hlen; lia | reflexivity]. }
  rewrite Hpos, andb_false_r.
  destruct (Z.eqb_spec h 0) as [Hz|Hnz].
  - rewrite (GetEntries_zero V (mkTree mn mx h pos cs data lg) Hz).
    reflexivity.
  - inversion Hwf as [? ? ? ? ? ? ? Hp Hd Hr Hs Hw
                     |? ? ? ? ? ? ? Hp Hd Hr Hl Hch]; subst.
    + rewrite GetEntries_eq. destruct (Z.eqb_spec h 0); [contradiction|].
      reflexivity.
    + destruct cs as [|c0 cs0]; [discriminate Hl|].
      apply (scan_children (length pos) mn mx h pos (c0 :: cs0) lg key Hwf Hh
                           ltac:(discriminate)).
      intros c Hin. destruct (In_nth_error _ _ Hin) as (i & Hi).
      destruct (Hch i c Hi) as (_ & Hwfc).
      inversion Hh as [? ? ? ? ? ? ? Ehash Hhcs]; subst.
      apply (IH c Hin (S (length pos)) key Hwfc (Hhcs c Hin)). lia.
Qed.

(** [Next] at the root: the first entry above the key in key order, and
    the first entry of all when there is none. *)
Lemma Next_spec (t : MerkleTree V) (key : Z) :
  reachable sha1 t ->
  Next t key = match first_above key (GetEntries t) with
               | Some e => Some e
               | None => hd_error (GetEntries t)
               end.
Proof.
  intro Hr.
  pose proof (reachable_wf V sha1 t Hr) as Hwf.
  pose proof (reachable_hashed V sha1 t Hr) as Hh.
  pose proof (reachable_node t Hr) as Hnode.
  pose proof (reachable_cache_exact t Hr) as Hcache.
  rewrite (GetLargestEntry_last V sha1 sha1_pos t 0 Hwf Hh) in Hcache.
  pose proof (GetSmallestEntry_first V sha1 sha1_pos t 0 Hwf Hh) as Hsmall.
  pose proof (hash_zero_iff_empty V sha1 sha1_pos t 0 Hwf Hh) as Hzero.
  destruct (GetEntries_spec V sha1 sha1_pos t 0 Hwf Hh) as (Hs & _ & _).
  destruct t as [mn mx h pos cs data lg].
  cbn [child_nodes_ largest_key_ hash_] in *.
  rewrite Next_eq.
  destruct (Z.eqb_spec h 0) as [Hz|Hnz].
  - rewrite (proj1 Hzero Hz). reflexivity.
  - assert (Hpos : pos = []).
    { destruct (wf_fields V 0 _ Hwf) as (Hlen & _). cbn [position_] in Hlen.
      destruct pos; [reflexivity | discriminate Hlen]. }
    subst pos. rewrite andb_true_r.
    assert (Hne : GetEntries (mkTree mn mx h [] cs data lg) <> [])
      by (intro E; apply Hnz; apply Hzero; exact E).
    destruct (last_entry_last V _ Hne) as ([kl vl] & Hlast & Hin & Hmaxk).
    specialize (Hmaxk Hs). rewrite Hlast in Hcache. cbn [option_map fst] in Hcache.
    subst lg. cbn [ge_optional]. rewrite Z.geb_leb.
    destruct (Z.leb_spec kl key) as [Hge|Hlt].
    + rewrite Hsmall.
      rewrite (first_above_none V key)
        by (intros kv Hkv; specialize (Hmaxk kv Hkv); cbn [fst] in Hmaxk; lia).
      reflexivity.
    + inversion Hwf as [? ? ? ? ? ? ? Hp Hd Hrg Hsd Hw
                       |? ? ? ? ? ? ? Hp Hd Hrg Hl Hch]; subst;
        [contradiction Hnode; reflexivity|].
      destruct cs as [|c0 cs0]; [discriminate Hl|].
      rewrite (scan_children 0 mn mx h [] (c0 :: cs0) (Some kl) key Hwf Hh
                             ltac:(discriminate)).
      * destruct (first_above key _) eqn:E; [reflexivity|].
        exfalso. revert E. apply (first_above_some V key _ (kl, vl) Hin).
        exact Hlt.
      * intros c Hc. destruct (In_nth_error _ _ Hc) as (i & Hi).
        destruct (Hch i c Hi) as (_ & Hwfc).
        inversion Hh as [? ? ? ? ? ? ? Ehash Hhcs]; subst.
        apply (Next_below c 1 key Hwfc (Hhcs c Hc)). lia.
Qed.

End Root.

End RootFacts.

(** ** The database: its size and the handlers of a peer *)

Module DatabaseFacts.
Import Merkle MapFacts WellFormed HashedFacts FrameFacts EntriesFacts
       StoreFacts.

Section Lists.

Variable V : Type.

Lemma map_insert_length (data : list (Z * V)) key val :
  map_find key data = None ->
  length (map_insert key val data) = S (length data).
Proof.
  induction data as [|[k v] data IH]; cbn [map_find map_insert];
    [reflexivity|].
  destruct (Z.eqb_spec k key) as [->|Hne]; [discriminate|]. intro Hfind.
  destruct (key <? k); [reflexivity|].
  destruct (Z.eqb_spec key k); [congruence|].
  cbn [length]. rewrite IH by exact Hfind. reflexivity.
Qed.

Lemma map_erase_length (data : list (Z * V)) key v :
  map_find key data = Some v ->
  S (length (map_erase key data)) = length data.
Proof.
  induction data as [|[k w] data IH]; cbn [map_find map_erase];
    [discriminate|].
  destruct (Z.eqb_spec k key) as [->|Hne]; [reflexivity|].
  intro Hfind. cbn [length]. rewrite IH by exact Hfind. reflexivity.
Qed.

End Lists.

Section Size.

Variable V : Type.
Variable sha1 : string -> Z.
Hypothesis sha1_pos : forall str, 0 < sha1 str.

Lemma held_reachable (db : Database.GenericDB V) :
  Database.held V sha1 db -> reachable sha1 (Database.index_ V db).
Proof.
  induction 1 as [|db kv Hheld IH Hk|db key Hheld IH Hk].
  - apply reachable_empty.
  - unfold Database.Insert.
    pose proof (reachable_step sha1 _ (OpInsert (fst kv) (snd kv)) IH Hk) as H.
    cbn [apply_op] in H. rewrite <- surjective_pairing in H.
    destruct (Insert sha1 (Database.index_ V db) kv) as [index' [|what]];
      exact H.
  - unfold Database.Delete.
    pose proof (reachable_step sha1 _ (OpDelete key) IH Hk) as H.
    cbn [apply_op] in H.
    destruct (Contains (Database.index_ V db) key); [|exact IH].
    destruct (Delete sha1 (Database.index_ V db) key) as [index' [|what]];
      exact H.
Qed.

Lemma Contains_entries (t : MerkleTree V) (key : Z) :
  reachable sha1 t -> Key.in_ring key ->
  Contains t key = match map_find key (GetEntries t) with
                   | Some _ => true
                   | None => false
                   end.
Proof.
  intros Hr Hk.
  pose proof (reachable_wf V sha1 t Hr) as Hwf.
  destruct (GetEntries_spec V sha1 sha1_pos t 0 Hwf (reachable_hashed V sha1 t Hr))
    as (_ & _ & Hl).
  destruct (root_range V t Hwf) as (Hmin & Hmax).
  specialize (Hl key ltac:(rewrite Hmin, Hmax; exact Hk)).
  destruct (Contains t key) eqn:Hc.
  - destruct (Contains_Lookup V t key Hc) as (v & Hv). rewrite Hv in Hl.
    destruct (map_find key (GetEntries t)); [reflexivity | discriminate].
  - destruct (map_find key (GetEntries t)); [|reflexivity].
    apply Lookup_Ok_Contains in Hl. congruence.
Qed.

Lemma held_size (db : Database.GenericDB V) :
  Database.held V sha1 db ->
  Database.ulong (Database.size_ V db)
  = Database.ulong (Z.of_nat (length (GetEntries (Database.index_ V db)))).
Proof.
  induction 1 as [|db kv Hheld IH Hk|db key Hheld IH Hk].
  - unfold Database.EmptyDB. cbn [Database.size_ Database.index_].
    rewrite (GetEntries_zero V (EmptyTree V sha1)); [reflexivity|].
    unfold EmptyTree, CreateChildren.
    destruct (CreateChildren_loop _ _ _ _ _ _ _). reflexivity.
  - pose proof (held_reachable db Hheld) as Hr.
    pose proof (reachable_wf V sha1 _ Hr) as Hwf.
    pose proof (reachable_hashed V sha1 _ Hr) as Hh.
    destruct (root_range V _ Hwf) as (Hmin & Hmax).
    assert (Hrange : min_key_ (Database.index_ V db) <= fst kv
                     < max_key_ (Database.index_ V db))
      by (rewrite Hmin, Hmax; exact Hk).
    destruct (Insert_wf V sha1 _ 0 (fst kv) (snd kv) Hwf Hrange)
      as (_ & _ & Hdup & Hnew).
    pose proof (Insert_entries V sha1 sha1_pos _ 0 (fst kv) (snd kv) Hwf Hh
                  Hrange) as He.
    pose proof (Contains_entries _ (fst kv) Hr Hk) as Hc.
    destruct (GetEntries_spec V sha1 sha1_pos _ 0 Hwf Hh) as (Hs & _ & _).
    rewrite <- surjective_pairing in Hdup, Hnew, He.
    unfold Database.Insert.
    destruct (Insert sha1 (Database.index_ V db) kv) as [index' o] eqn:Ei.
    cbn [fst snd] in *.
    destruct (map_find (fst kv) (GetEntries (Database.index_ V db)))
      as [w|] eqn:Ef.
    + rewrite (Hdup Hc). cbn [fst Database.size_ Database.index_].
      rewrite He, (map_insert_present V _ _ _ w Hs Ef). exact IH.
    + destruct (Hnew Hc) as (-> & _). cbn [fst Database.size_ Database.index_].
      rewrite He, map_insert_length by exact Ef.
      rewrite Nat2Z.inj_succ. unfold Database.ulong in *.
      rewrite <- Z.add_1_r, Zplus_mod, IH, <- Zplus_mod. reflexivity.
  - pose proof (held_reachable db Hheld) as Hr.
    pose proof (reachable_wf V sha1 _ Hr) as Hwf.
    pose proof (reachable_hashed V sha1 _ Hr) as Hh.
    destruct (Delete_wf V sha1 _ 0 key Hwf) as (_ & _ & Hin & _).
    pose proof (Delete_entries V sha1 sha1_pos _ 0 key Hwf Hh) as He.
    pose proof (Contains_entries _ key Hr Hk) as Hc.
    unfold Database.Delete.
    destruct (Contains (Database.index_ V db) key); [|exact IH].
    destruct (Hin eq_refl) as (Hdone & _).
    destruct (Delete sha1 (Database.index_ V db) key) as [index' o] eqn:Ed.
    cbn [fst snd] in *. subst o. cbn [fst Database.size_ Database.index_].
    destruct (map_find key (GetEntries (Database.index_ V db))) as [w|] eqn:Ef;
      [|discriminate].
    rewrite He. pose proof (map_erase_length V _ key w Ef) as Hlen.
    unfold Database.ulong in *. rewrite Z.mod_mod by lia.
    rewrite Zminus_mod, IH, <- Zminus_mod. f_equal. lia.
Qed.

End Size.

End DatabaseFacts.

(** X1.  On every tree a peer can hold, [GetEntries] lists the
    entries in strictly increasing key order, every key of the ring, and
    [Lookup] and [Contains] answer from exactly these entries. *)
Theorem GetEntries_is_the_store (V : Type) (sha1 : string -> Z)
        (t : Merkle.MerkleTree V) (key : Z) :
  (forall str, 0 < sha1 str) ->
  Merkle.reachable sha1 t -> Key.in_ring key ->
  Merkle.keys_sorted (Merkle.GetEntries t) /\
  Forall (fun kv => Key.in_ring (fst kv)) (Merkle.GetEntries t) /\
  Merkle.Lookup t key
  = match Merkle.map_find key (Merkle.GetEntries t) with
    | Some v => Ok v
    | None => Throw "Key does not exist in subtree"
    end /\
  Merkle.Contains t key
  = match Merkle.map_find key (Merkle.GetEntries t) with
    | Some _ => true
    | None => false
    end.
Proof.
  intros Hpos Hr Hk.
  pose proof (WellFormed.reachable_wf V sha1 t Hr) as Hwf.
  destruct (EntriesFacts.GetEntries_spec V sha1 Hpos t 0 Hwf
              (HashedFacts.reachable_hashed V sha1 t Hr)) as (Hs & Hw & Hl).
  destruct (WellFormed.root_range V t Hwf) as (Hmin & Hmax).
  rewrite Hmin, Hmax in Hw, Hl.
  split; [exact Hs|]. split; [exact Hw|]. split; [apply Hl; exact Hk|].
  apply (DatabaseFacts.Contains_entries V sha1 Hpos t key Hr Hk).
Qed.

Lemma GetEntries_is_the_store_witness :
  Merkle.Lookup Scenario.store 5
  = match Merkle.map_find 5 (Merkle.GetEntries Scenario.store) with
    | Some v => Ok v
    | None => Throw "Key does not exist in subtree"
    end.
Proof.
  refine (proj1 (proj2 (proj2 (GetEntries_is_the_store string Scenario.sha1
                                 Scenario.store 5 _ _ _)))).
  - intro str. unfold Scenario.sha1. lia.
  - unfold Scenario.store.
    repeat (apply Merkle.reachable_step;
            [|split; [discriminate | reflexivity]]).
    apply Merkle.reachable_empty.
  - split; [discriminate | reflexivity].
Defined.

(** X2.  [Insert] adds the pair to the entries at its place in key
    order; when the key is present the call throws and the entries are
    as before (which is what [std::map::insert] does with a key it
    holds). *)
Theorem Insert_adds_the_entry (V : Type) (sha1 : string -> Z)
        (t : Merkle.MerkleTree V) (key : Z) (val : V) :
  (forall str, 0 < sha1 str) ->
  Merkle.reachable sha1 t -> Key.in_ring key ->
  Merkle.GetEntries (fst (Merkle.Insert sha1 t (key, val)))
  = Merkle.map_insert key val (Merkle.GetEntries t).
Proof.
  intros Hpos Hr Hk.
  pose proof (WellFormed.reachable_wf V sha1 t Hr) as Hwf.
  destruct (WellFormed.root_range V t Hwf) as (Hmin & Hmax).
  apply (StoreFacts.Insert_entries V sha1 Hpos t 0 key val Hwf
           (HashedFacts.reachable_hashed V sha1 t Hr)).
  rewrite Hmin, Hmax. exact Hk.
Qed.

Lemma Insert_adds_the_entry_witness :
  Merkle.GetEntries (fst (Merkle.Insert Scenario.sha1 Scenario.store
                                        (7, "g"%string)))
  = Merkle.map_insert 7 "g"%string (Merkle.GetEntries Scenario.store).
Proof.
  apply Insert_adds_the_entry.
  - intro str. unfold Scenario.sha1. lia.
  - unfold Scenario.store.
    repeat (apply Merkle.reachable_step;
            [|split; [discriminate | reflexivity]]).
    apply Merkle.reachable_empty.
  - split; [discriminate | reflexivity].
Defined.

(** X3.  [Update] assigns the value of the key in the entries and
    changes nothing else; it returns when the key is present. *)
Theorem Update_assigns_the_entry (V : Type) (sha1 : string -> Z)
        (t : Merkle.MerkleTree V) (key : Z) (val : V) :
  (forall str, 0 < sha1 str) ->
  Merkle.reachable sha1 t ->
  Merkle.GetEntries (fst (Merkle.Update sha1 t (key, val)))
  = Merkle.map_assign key val (Merkle.GetEntries t) /\
  (Merkle.Contains t key = true ->
   snd (Merkle.Update sha1 t (key, val)) = Merkle.Done /\
   Merkle.Lookup (fst (Merkle.Update sha1 t (key, val))) key = Ok val).
Proof.
  intros Hpos Hr. split.
  - apply (StoreFacts.Update_entries V sha1 Hpos t 0 key val
             (WellFormed.reachable_wf V sha1 t Hr)
             (HashedFacts.reachable_hashed V sha1 t Hr)).
  - intro Hc. split; [apply (StoreFacts.Update_Done V sha1 t (key, val) Hc)|].
    rewrite StoreFacts.Update_Lookup. cbn [fst snd].
    destruct (FrameFacts.Contains_Lookup V t key Hc) as (w & ->).
    rewrite Z.eqb_refl. reflexivity.
Qed.

Lemma Update_assigns_the_entry_witness :
  Merkle.GetEntries (fst (Merkle.Update Scenario.sha1 Scenario.store
                                        (5, "f"%string)))
  = Merkle.map_assign 5 "f"%string (Merkle.GetEntries Scenario.store).
Proof.
  refine (proj1 (Update_assigns_the_entry string Scenario.sha1
                   Scenario.store 5 "f"%string _ _)).
  - intro str. unfold Scenario.sha1. lia.
  - unfold Scenario.store.
    repeat (apply Merkle.reachable_step;
            [|split; [discriminate | reflexivity]]).
    apply Merkle.reachable_empty.
Defined.

(** X4.  [Delete] erases the entry of the key and changes nothing
    else; when the key is absent the call throws and the entries are as
    before. *)
Theorem Delete_erases_the_entry (V : Type) (sha1 : string -> Z)
        (t : Merkle.MerkleTree V) (key : Z) :
  (forall str, 0 < sha1 str) ->
  Merkle.reachable sha1 t ->
  Merkle.GetEntries (fst (Merkle.Delete sha1 t key))
  = Merkle.map_erase key (Merkle.GetEntries t).
Proof.
  intros Hpos Hr.
  apply (StoreFacts.Delete_entries V sha1 Hpos t 0 key
           (WellFormed.reachable_wf V sha1 t Hr)
           (HashedFacts.reachable_hashed V sha1 t Hr)).
Qed.

Lemma Delete_erases_the_entry_witness :
  Merkle.GetEntries (fst (Merkle.Delete Scenario.sha1 Scenario.store 5))
  = Merkle.map_erase 5 (Merkle.GetEntries Scenario.store).
Proof.
  apply Delete_erases_the_entry.
  - intro str. unfold Scenario.sha1. lia.
  - unfold Scenario.store.
    repeat (apply Merkle.reachable_step;
            [|split; [discriminate | reflexivity]]).
    apply Merkle.reachable_empty.
Defined.

(** X5.  [GetLargestEntry] and [GetSmallestEntry] return the last
    and the first entry in key order, and nothing on an empty tree. *)
Theorem extreme_entries (V : Type) (sha1 : string -> Z)
        (t : Merkle.MerkleTree V) :
  (forall str, 0 < sha1 str) ->
  Merkle.reachable sha1 t ->
  Merkle.GetLargestEntry t = Merkle.last_entry (Merkle.GetEntries t) /\
  Merkle.GetSmallestEntry t = hd_error (Merkle.GetEntries t).
Proof.
  intros Hpos Hr.
  pose proof (WellFormed.reachable_wf V sha1 t Hr) as Hwf.
  pose proof (HashedFacts.reachable_hashed V sha1 t Hr) as Hh.
  split.
  - apply (OrderFacts.GetLargestEntry_last V sha1 Hpos t 0 Hwf Hh).
  - apply (OrderFacts.GetSmallestEntry_first V sha1 Hpos t 0 Hwf Hh).
Qed.

Lemma extreme_entries_witness :
  Merkle.GetLargestEntry Scenario.store
  = Merkle.last_entry (Merkle.GetEntries Scenario.store).
Proof.
  refine (proj1 (extreme_entries string Scenario.sha1 Scenario.store _ _)).
  - intro str. unfold Scenario.sha1. lia.
  - unfold Scenario.store.
    repeat (apply Merkle.reachable_step;
            [|split; [discriminate | reflexivity]]).
    apply Merkle.reachable_empty.
Defined.

(** X6.  [Next] at the root returns the first entry, in key order,
    whose key is greater than the given key, and wraps around to the
    first entry of all when there is none; it returns nothing only on an
    empty tree. *)
Theorem Next_is_the_successor (V : Type) (sha1 : string -> Z)
        (t : Merkle.MerkleTree V) (key : Z) :
  (forall str, 0 < sha1 str) ->
  Merkle.reachable sha1 t ->
  Merkle.Next t key
  = match Merkle.first_above key (Merkle.GetEntries t) with
    | Some e => Some e
    | None => hd_error (Merkle.GetEntries t)
    end /\
  (Merkle.Next t key = None <-> Merkle.GetEntries t = []).
Proof.
  intros Hpos Hr.
  pose proof (RootFacts.Next_spec V sha1 Hpos t key Hr) as Hnext.
  split; [exact Hnext|]. rewrite Hnext. split.
  - destruct (Merkle.first_above key (Merkle.GetEntries t)); [discriminate|].
    destruct (Merkle.GetEntries t); [reflexivity | discriminate].
  - intros ->. reflexivity.
Qed.

Lemma Next_is_the_successor_witness :
  Merkle.Next Scenario.store 9
  = match Merkle.first_above 9 (Merkle.GetEntries Scenario.store) with
    | Some e => Some e
    | None => hd_error (Merkle.GetEntries Scenario.store)
    end.
Proof.
  refine (proj1 (Next_is_the_successor string Scenario.sha1 Scenario.store
                   9 _ _)).
  - intro str. unfold Scenario.sha1. lia.
  - unfold Scenario.store.
    repeat (apply Merkle.reachable_step;
            [|split; [discriminate | reflexivity]]).
    apply Merkle.reachable_empty.
Defined.

(** X7.  The hash of the root is the zero key exactly when the
    tree holds no entry. *)
Theorem root_hash_zero_iff_empty (V : Type) (sha1 : string -> Z)
        (t : Merkle.MerkleTree V) :
  (forall str, 0 < sha1 str) ->
  Merkle.reachable sha1 t ->
  (Merkle.GetHash t = 0 <-> Merkle.GetEntries t = []).
Proof.
  intros Hpos Hr.
  apply (OrderFacts.hash_zero_iff_empty V sha1 Hpos t 0
           (WellFormed.reachable_wf V sha1 t Hr)
           (HashedFacts.reachable_hashed V sha1 t Hr)).
Qed.

Lemma root_hash_zero_iff_empty_witness :
  Merkle.GetHash Scenario.store = 0 <-> Merkle.GetEntries Scenario.store = [].
Proof.
  apply (root_hash_zero_iff_empty string Scenario.sha1).
  - intro str. unfold Scenario.sha1. lia.
  - unfold Scenario.store.
    repeat (apply Merkle.reachable_step;
            [|split; [discriminate | reflexivity]]).
    apply Merkle.reachable_empty.
Defined.

(** X8.  The largest key on record at the root ([GetLargestKey]) is
    the key of the largest entry, and is unset exactly on an empty
    tree. *)
Theorem root_largest_key_is_exact (V : Type) (sha1 : string -> Z)
        (t : Merkle.MerkleTree V) :
  (forall str, 0 < sha1 str) ->
  Merkle.reachable sha1 t ->
  Merkle.largest_key_ t = option_map fst (Merkle.GetLargestEntry t) /\
  (Merkle.largest_key_ t = None <-> Merkle.GetEntries t = []).
Proof.
  intros Hpos Hr.
  pose proof (RootFacts.reachable_cache_exact V sha1 Hpos t Hr) as Hc.
  split; [exact Hc|]. rewrite Hc.
  rewrite (OrderFacts.GetLargestEntry_last V sha1 Hpos t 0
             (WellFormed.reachable_wf V sha1 t Hr)
             (HashedFacts.reachable_hashed V sha1 t Hr)).
  split.
  - intro H. destruct (Merkle.GetEntries t) as [|e l] eqn:E; [reflexivity|].
    destruct (LargestFacts.last_entry_last V (e :: l) ltac:(discriminate))
      as (kv & Hkv & _).
    rewrite Hkv in H. discriminate.
  - intros ->. reflexivity.
Qed.

Lemma root_largest_key_is_exact_witness :
  Merkle.largest_key_ Scenario.store
  = option_map fst (Merkle.GetLargestEntry Scenario.store).
Proof.
  refine (proj1 (root_largest_key_is_exact string Scenario.sha1
                   Scenario.store _ _)).
  - intro str. unfold Scenario.sha1. lia.
  - unfold Scenario.store.
    repeat (apply Merkle.reachable_step;
            [|split; [discriminate | reflexivity]]).
    apply Merkle.reachable_empty.
Defined.

(** X9.  The size counter of a database is the number of its
    entries, as far as an [unsigned long] can tell: [Insert] counts only
    the keys it stores and [Delete] only the keys it erases. *)
Theorem Size_counts_the_entries (V : Type) (sha1 : string -> Z)
        (db : Database.GenericDB V) :
  (forall str, 0 < sha1 str) ->
  Database.held V sha1 db ->
  Database.ulong (Database.Size V db)
  = Database.ulong
      (Z.of_nat (length (Merkle.GetEntries (Database.index_ V db)))).
Proof.
  intros Hpos Hheld. apply (DatabaseFacts.held_size V sha1 Hpos db Hheld).
Qed.

Lemma Size_counts_the_entries_witness :
  Database.ulong (Database.Size DHash.DataFragment Scenario.db_5)
  = Database.ulong
      (Z.of_nat (length (Merkle.GetEntries
                           (Database.index_ DHash.DataFragment
                                            Scenario.db_5)))).
Proof.
  apply (Size_counts_the_entries DHash.DataFragment Scenario.sha1).
  - intro str. unfold Scenario.sha1. lia.
  - unfold Scenario.db_5. apply Database.held_Insert.
    + apply Database.held_empty.
    + split; [discriminate | reflexivity].
Defined.

(** X10.  [CreateKeyHandler] refuses a key the database holds and
    leaves the database as it was; otherwise it stores the fragment
    under the key, counts it, and leaves the other keys alone, so that
    [ReadKeyHandler] returns the fragment. *)
Theorem CreateKeyHandler_contract (sha1 : string -> Z)
        (db : DHash.FragmentDb) (key : Z) (val : DHash.DataFragment) :
  Database.held DHash.DataFragment sha1 db -> Key.in_ring key ->
  (Database.Contains DHash.DataFragment db key = true ->
   DHash.CreateKeyHandler sha1 db key val
   = (db, Merkle.Threw "Key already exists in db.")) /\
  (Database.Contains DHash.DataFragment db key = false ->
   snd (DHash.CreateKeyHandler sha1 db key val) = Merkle.Done /\
   DHash.ReadKeyHandler (fst (DHash.CreateKeyHandler sha1 db key val)) key
   = Ok val /\
   Database.size_ DHash.DataFragment
                  (fst (DHash.CreateKeyHandler sha1 db key val))
   = Database.size_ DHash.DataFragment db + 1 /\
   forall key', Key.in_ring key' -> key' <> key ->
     DHash.ReadKeyHandler (fst (DHash.CreateKeyHandler sha1 db key val)) key'
     = DHash.ReadKeyHandler db key').
Proof.
  intros Hheld Hk.
  pose proof (DatabaseFacts.held_reachable DHash.DataFragment sha1 db Hheld)
    as Hr.
  pose proof (WellFormed.reachable_wf _ sha1 _ Hr) as Hwf.
  destruct (WellFormed.root_range _ _ Hwf) as (Hmin & Hmax).
  unfold DHash.CreateKeyHandler, DHash.ReadKeyHandler, Database.Contains,
    Database.Lookup.
  split; intros Hc; rewrite Hc; [reflexivity|].
  destruct (WellFormed.Insert_wf _ sha1 _ 0 key val Hwf
              ltac:(rewrite Hmin, Hmax; exact Hk)) as (_ & _ & _ & Hnew).
  destruct (Hnew Hc) as (Hdone & Hlook).
  pose proof (fun key' Hk' =>
                FrameFacts.Insert_Lookup_other _ sha1 _ 0 key val key' Hwf
                  ltac:(rewrite Hmin, Hmax; exact Hk)
                  ltac:(rewrite Hmin, Hmax; exact Hk')) as Hother.
  unfold Database.Insert.
  destruct (Merkle.Insert sha1 (Database.index_ DHash.DataFragment db)
                          (key, val)) as [index' o].
  cbn [fst snd] in *. subst o. cbn [fst snd Database.index_ Database.size_].
  repeat split; auto.
Qed.

Lemma CreateKeyHandler_contract_witness :
  DHash.CreateKeyHandler Scenario.sha1 Scenario.db_5 5
                          (DHash.mkFragment [3; 4] 2)
  = (Scenario.db_5, Merkle.Threw "Key already exists in db.").
Proof.
  refine (proj1 (CreateKeyHandler_contract Scenario.sha1 Scenario.db_5 5
                   (DHash.mkFragment [3; 4] 2) _ _) _).
  - unfold Scenario.db_5. apply Database.held_Insert.
    + apply Database.held_empty.
    + split; [discriminate | reflexivity].
  - split; [discriminate | reflexivity].
  - vm_compute. reflexivity.
Defined.

(** ** [ModInverse] on any residue *)

Module EuclidFacts.
Import IDA IDAArith.

Section Euclid.

Variables n p g : Z.
Hypothesis p_small : 2 * p < 2147483648.
Hypothesis n_range : 0 <= n < p.

Lemma euclid_run_step (t new_t r new_r : Z) :
  euclid_run n p g t new_t r new_r -> new_r <> 0 ->
  let quotient := Z.quot r new_r in
  int32 (t - int32 (quotient * new_t)) = t - quotient * new_t /\
  int32 (r - int32 (quotient * new_r)) = r mod new_r /\
  euclid_run n p g new_t (t - quotient * new_t) new_r (r mod new_r).
Proof.
  intros (Hr & Hrp & Ht & Hnt & Hgcd & Hsign) Hnz quotient.
  assert (Hq : quotient = r / new_r)
    by (apply Z.quot_div_nonneg; lia).
  assert (Hmod : r mod new_r = r - quotient * new_r)
    by (rewrite Hq; pose proof (Z.div_mod r new_r Hnz); lia).
  pose proof (Z.mod_pos_bound r new_r ltac:(lia)) as Hbound.
  assert (Hq0 : 0 <= quotient) by (rewrite Hq; apply Z.div_pos; lia).
  assert (Hqr : quotient * new_r <= r) by lia.
  assert (Hqle : quotient <= r) by nia.
  assert (Hprod : - p <= quotient * new_t <= p)
    by (destruct Hsign as [(H1 & H2 & H3 & H4)|(H1 & H2 & H3 & H4)]; nia).
  assert (Htb : - p <= t <= p)
    by (destruct Hsign as [(H1 & H2 & H3 & H4)|(H1 & H2 & H3 & H4)]; nia).
  split; [|split].
  - rewrite (int32_small (quotient * new_t)) by lia. apply int32_small. lia.
  - rewrite (int32_small (quotient * new_r)) by lia.
    rewrite int32_small by lia. lia.
  - unfold euclid_run. split; [lia|]. split; [lia|].
    split; [exact Hnt|]. split.
    + rewrite Hmod. destruct Ht as [k Hk], Hnt as [k' Hk'].
      exists (k - quotient * k').
      replace ((t - quotient * new_t) * n - (r - quotient * new_r))
        with ((t * n - r) - quotient * (new_t * n - new_r)) by ring.
      rewrite Hk, Hk'. ring.
    + split; [rewrite Z.gcd_mod_r; rewrite Z.gcd_comm; exact Hgcd|].
      rewrite Hmod.
      destruct Hsign as [(H1 & H2 & H3 & H4)|(H1 & H2 & H3 & H4)];
        [right | left]; repeat split; nia.
Qed.

Lemma ModInverse_loop_run (fuel : nat) :
  forall t new_t r new_r,
    euclid_run n p g t new_t r new_r -> new_r < Z.of_nat fuel ->
    exists t', ModInverse_loop fuel t new_t r new_r = Some (t', g) /\
               - p <= t' <= p /\ (p | t' * n - g).
Proof.
  induction fuel as [|fuel IH]; intros t new_t r new_r Hstate Hfuel.
  - destruct Hstate as (Hr & _). lia.
  - cbn [ModInverse_loop]. destruct (Z.eqb_spec new_r 0) as [Hz|Hnz].
    + destruct Hstate as (Hr & Hrp & Ht & Hnt & Hgcd & Hsign). subst new_r.
      rewrite Z.gcd_0_r, Z.abs_eq in Hgcd by lia. subst r.
      exists t. split; [reflexivity|]. split; [|exact Ht].
      destruct Hsign as [(H1 & H2 & H3 & H4)|(H1 & H2 & H3 & H4)]; nia.
    + cbv zeta.
      destruct (euclid_run_step t new_t r new_r Hstate Hnz) as (-> & -> & Hnext).
      apply IH; [exact Hnext|].
      destruct Hstate as (Hr & _).
      pose proof (Z.mod_pos_bound r new_r ltac:(lia)). lia.
Qed.

End Euclid.

(** The loop ends with the greatest common divisor. *)
Lemma ModInverse_loop_gcd (n p : Z) :
  2 * p < 2147483648 -> 0 <= n < p ->
  exists t, ModInverse_loop (S (Z.to_nat (Z.abs n))) 0 1 p n
            = Some (t, Z.gcd p n) /\
            - p <= t <= p /\ (p | t * n - Z.gcd p n).
Proof.
  intros Hp Hn.
  apply (ModInverse_loop_run n p (Z.gcd p n) Hp Hn).
  - unfold euclid_run. split; [lia|]. split; [lia|].
    split; [exists (-1); lia|]. split; [exists 0; lia|].
    split; [reflexivity|]. left. lia.
  - rewrite Nat2Z.inj_succ, Z2Nat.id by lia. lia.
Qed.

Lemma ModInverse_coprime (n p : Z) :
  1 < p -> 2 * p < 2147483648 -> 0 <= n < p -> Z.gcd n p = 1 ->
  exists inv, ModInverse n p = Some (Ok inv) /\
              0 <= inv < p /\ (n * inv) mod p = 1.
Proof.
  intros Hp1 Hp Hn Hg. rewrite Z.gcd_comm in Hg.
  destruct (ModInverse_loop_gcd n p Hp Hn) as (t & Hloop & Hbound & Hdiv).
  rewrite Hg in Hloop, Hdiv.
  unfold ModInverse. rewrite Hloop. cbn [Z.gtb Z.compare].
  destruct Hdiv as [k Hk].
  assert (Hne : t <> p).
  { intros ->. assert (Hd : (p | 1)) by (exists (n - k); lia).
    apply Z.divide_1_r in Hd. lia. }
  assert (Hne' : t <> - p).
  { intros ->. assert (Hd : (p | 1)) by (exists (- n - k); lia).
    apply Z.divide_1_r in Hd. lia. }
  destruct (Z.ltb_spec t 0) as [Hneg|Hpos].
  - exists (t + p). rewrite int32_small by lia.
    split; [reflexivity|]. split; [lia|].
    replace (n * (t + p)) with (1 + (k + n) * p) by lia.
    rewrite Z_mod_plus_full. apply Z.mod_small. lia.
  - exists t. split; [reflexivity|]. split; [lia|].
    replace (n * t) with (1 + k * p) by lia.
    rewrite Z_mod_plus_full. apply Z.mod_small. lia.
Qed.

Lemma ModInverse_not_coprime (n p : Z) :
  1 < p -> 2 * p < 2147483648 -> 0 <= n < p -> Z.gcd n p <> 1 ->
  ModInverse n p = Some (Throw "N is not invertible").
Proof.
  intros Hp1 Hp Hn Hg. rewrite Z.gcd_comm in Hg.
  destruct (ModInverse_loop_gcd n p Hp Hn) as (t & Hloop & _).
  unfold ModInverse. rewrite Hloop.
  pose proof (Z.gcd_nonneg p n) as Hg0.
  assert (Hg1 : Z.gcd p n <> 0).
  { intro E. apply Z.gcd_eq_0_l in E. lia. }
  rewrite Z.gtb_ltb. destruct (Z.ltb_spec 1 (Z.gcd p n)); [reflexivity | lia].
Qed.

(** [ModInverse] returns on every residue: a value or the exception. *)
Lemma ModInverse_total (n p : Z) :
  1 < p -> 2 * p < 2147483648 -> 0 <= n < p ->
  (exists inv, ModInverse n p = Some (Ok inv)) \/
  ModInverse n p = Some (Throw "N is not invertible").
Proof.
  intros Hp1 Hp Hn. destruct (Z.eq_dec (Z.gcd n p) 1) as [Hg|Hg].
  - left. destruct (ModInverse_coprime n p Hp1 Hp Hn Hg) as (inv & H & _).
    exists inv. exact H.
  - right. apply ModInverse_not_coprime; assumption.
Qed.

End EuclidFacts.

(** ** [VandermondeInverse] on a basis with a repeated element *)

Module RepeatFacts.
Import IDA IDAArith EuclidFacts.

Lemma Modulo_zero (p : Z) : 1 < p -> 2 * p < 2147483648 -> Modulo 0 p = 0.
Proof.
  intros Hp1 Hp. rewrite Modulo_mod by lia. apply Z.mod_0_l. lia.
Qed.

Section Denominator.

Variable p : Z.
Variable basis : Vector.
Hypothesis p_big : 1 < p.
Hypothesis p_small : 2 * p < 2147483648.

Lemma denominator_fold_residue (elt : Z) (i : nat) (js : list nat) :
  forall prod, residue p prod ->
    residue p (fold_left
                 (fun prod j =>
                    if (j =? i)%nat then prod
                    else Modulo (int32 (prod * int32 (elt - nth j basis 0))) p)
                 js prod).
Proof.
  induction js as [|j js IH]; intros prod Hprod; cbn [fold_left];
    [exact Hprod|].
  apply IH. destruct (j =? i)%nat; [exact Hprod|].
  apply Modulo_residue; lia.
Qed.

Lemma denominator_fold_zero (elt : Z) (i : nat) (js : list nat) :
  fold_left
    (fun prod j =>
       if (j =? i)%nat then prod
       else Modulo (int32 (prod * int32 (elt - nth j basis 0))) p)
    js 0 = 0.
Proof.
  induction js as [|j js IH]; cbn [fold_left]; [reflexivity|].
  destruct (j =? i)%nat; [exact IH|].
  rewrite Z.mul_0_l. change (int32 0) with 0.
  rewrite Modulo_zero by assumption. exact IH.
Qed.

Lemma denominator_residue (i : nat) : residue p (denominator basis p i).
Proof.
  unfold denominator. apply denominator_fold_residue. unfold residue. lia.
Qed.

(** The denominator of a row is zero when its element is repeated. *)
Lemma denominator_repeated (i j : nat) :
  (j < length basis)%nat -> j <> i -> nth i basis 0 = nth j basis 0 ->
  denominator basis p i = 0.
Proof.
  intros Hj Hne Heq. unfold denominator. cbv zeta.
  assert (Hsplit : seq 0 (length basis)
                   = seq 0 j ++ j :: seq (S j) (length basis - S j)).
  { replace (length basis) with (j + S (length basis - S j))%nat at 1 by lia.
    rewrite seq_app. reflexivity. }
  rewrite Hsplit, fold_left_app. cbn [fold_left].
  destruct (Nat.eqb_spec j i) as [E|_]; [contradiction|].
  rewrite Heq, Z.sub_diag. change (int32 0) with 0.
  rewrite Z.mul_0_r. change (int32 0) with 0.
  rewrite Modulo_zero by assumption.
  rewrite <- Heq. apply denominator_fold_zero.
Qed.

Lemma inverse_rows_total (el : Vector) (rows : list nat) :
  (exists result, inverse_rows basis el p rows = Some (Ok result) /\
                  length result = length rows) \/
  inverse_rows basis el p rows = Some (Throw "N is not invertible").
Proof.
  induction rows as [|i rows IH]; cbn [inverse_rows].
  - left. exists []. split; reflexivity.
  - destruct (ModInverse_total (denominator basis p i) p p_big p_small
                (denominator_residue i)) as [(inv & ->)| ->];
      [|right; reflexivity].
    destruct IH as [(result & -> & Hlen)| ->]; [|right; reflexivity].
    left. eexists. split; [reflexivity|]. cbn [length]. rewrite Hlen.
    reflexivity.
Qed.

Lemma inverse_rows_throw (el : Vector) (rows : list nat) (i : nat) :
  In i rows -> denominator basis p i = 0 ->
  inverse_rows basis el p rows = Some (Throw "N is not invertible").
Proof.
  induction rows as [|i0 rows IH]; intros Hin Hzero; [contradiction|].
  cbn [inverse_rows].
  destruct Hin as [->|Hin].
  - rewrite Hzero.
    rewrite (ModInverse_not_coprime 0 p p_big p_small ltac:(lia));
      [reflexivity|].
    rewrite Z.gcd_0_l. lia.
  - destruct (ModInverse_total (denominator basis p i0) p p_big p_small
                (denominator_residue i0)) as [(inv & ->)| ->];
      [|reflexivity].
    rewrite (IH Hin Hzero). reflexivity.
Qed.

End Denominator.

Lemma VandermondeInverse_repeated (p : Z) (basis : Vector) (i j : nat) :
  1 < p -> 2 * p < 2147483648 ->
  (i < length basis)%nat -> (j < length basis)%nat -> i <> j ->
  nth i basis 0 = nth j basis 0 ->
  VandermondeInverse basis p = Some (Throw "N is not invertible").
Proof.
  intros Hp1 Hp Hi Hj Hne Heq. unfold VandermondeInverse. cbv zeta.
  rewrite (inverse_rows_throw p basis Hp1 Hp _ _ i); [reflexivity| |].
  - apply in_seq. lia.
  - apply (denominator_repeated p basis Hp1 Hp i j Hj); [congruence|exact Heq].
Qed.

(** The inverse has as many rows and columns as the basis has
    elements. *)
Lemma VandermondeInverse_size (p : Z) (basis : Vector) (inv : Matrix) :
  1 < p -> 2 * p < 2147483648 ->
  VandermondeInverse basis p = Some (Ok inv) ->
  length inv = length basis /\
  Forall (fun row => length row = length basis) inv.
Proof.
  intros Hp1 Hp. unfold VandermondeInverse. cbv zeta.
  destruct (inverse_rows_total p basis Hp1 Hp
              (ElementarySymmetricTransform basis (length basis))
              (seq 0 (length basis))) as [(result & -> & Hlen)| ->];
    [|discriminate].
  intros [= <-]. rewrite length_seq in Hlen. unfold Transpose.
  rewrite length_map, length_seq. split; [exact Hlen|].
  apply Forall_forall. intros row Hin. apply in_map_iff in Hin.
  destruct Hin as (k & <- & _). rewrite length_map, length_seq. exact Hlen.
Qed.

End RepeatFacts.

(** ** The codec: what [Encode] produces and what [Decode] reads *)

Module CodecFacts.
Import IDA IDAArith IDAShape IDASegments IDADecode EuclidFacts RepeatFacts.

Lemma nth_firstn_lt {A : Type} (l : list A) (d : A) :
  forall k m, (k < m)%nat -> nth k (firstn m l) d = nth k l d.
Proof.
  induction l as [|x l IH]; intros k m Hk.
  - rewrite firstn_nil. reflexivity.
  - destruct m as [|m]; [lia|]. destruct k as [|k]; [reflexivity|].
    cbn [firstn nth]. apply IH. lia.
Qed.

Lemma inverse_rows_length (basis el : Vector) (p : Z) (rows : list nat) :
  forall result,
    inverse_rows basis el p rows = Some (Ok result) ->
    length result = length rows.
Proof.
  induction rows as [|i rows IH]; intros result; cbn [inverse_rows].
  - intros [= <-]. reflexivity.
  - destruct (ModInverse (denominator basis p i) p) as [[inv|what]|];
      try discriminate.
    destruct (inverse_rows basis el p rows) as [[rest|what]|];
      try discriminate.
    intros [= <-]. cbn [length]. rewrite (IH rest eq_refl). reflexivity.
Qed.

Lemma VandermondeInverse_columns (basis : Vector) (p : Z) (inv : Matrix) :
  VandermondeInverse basis p = Some (Ok inv) ->
  (length (nth 0 inv []) <= length basis)%nat.
Proof.
  unfold VandermondeInverse. cbv zeta.
  destruct (inverse_rows basis _ p (seq 0 (length basis)))
    as [[result|what]|] eqn:E; try discriminate.
  intros [= <-]. apply inverse_rows_length in E. rewrite length_seq in E.
  unfold Transpose. rewrite E.
  destruct (length basis) as [|k]; [cbn; lia|].
  rewrite (nth_map_in _ _ _ O) by (rewrite length_seq; lia).
  rewrite length_map, length_seq. lia.
Qed.

(** [MatrixProduct] reads as many rows of its right operand as its left
    operand has columns. *)
Lemma MatrixProduct_prefix (lhs rhs : Matrix) (p : Z) (m : nat) :
  (1 <= m)%nat -> (length (nth 0 lhs []) <= m)%nat ->
  MatrixProduct lhs (firstn m rhs) p = MatrixProduct lhs rhs p.
Proof.
  intros Hm Hcols. unfold MatrixProduct. cbv zeta.
  rewrite nth_firstn_lt by lia.
  apply map_ext. intro row. apply map_ext. intro j.
  apply FailedInsert.fold_left_ext_in. intros cell k Hin.
  apply in_seq in Hin. rewrite nth_firstn_lt by lia. reflexivity.
Qed.

Lemma SplitToSegments_count (m : nat) :
  (1 <= m)%nat ->
  forall (fuel : nat) (v : Vector),
    (length v <= fuel)%nat ->
    (Z.of_nat (length (SplitToSegments_loop fuel m v)) - 1) * Z.of_nat m
    < Z.of_nat (length v)
    <= Z.of_nat (length (SplitToSegments_loop fuel m v)) * Z.of_nat m.
Proof.
  intros Hm. induction fuel as [|fuel IH]; intros v Hlen.
  - destruct v; [cbn [SplitToSegments_loop length]; lia | cbn in Hlen; lia].
  - destruct v as [|x v]; [cbn [SplitToSegments_loop length]; lia|].
    cbn [SplitToSegments_loop length].
    specialize (IH (skipn m (x :: v))).
    rewrite length_skipn in IH. cbn [length] in IH, Hlen.
    specialize (IH ltac:(lia)).
    set (k := length (SplitToSegments_loop fuel m (skipn m (x :: v)))) in *.
    destruct (Nat.le_gt_cases (S (length v)) m) as [Hshort|Hlong].
    + replace (S (length v) - m)%nat with O in IH by lia.
      clearbody k. destruct k as [|k]; [lia|]. exfalso.
      rewrite Nat2Z.inj_succ in IH. change (Z.of_nat 0) with 0 in IH.
      assert (0 <= Z.of_nat k * Z.of_nat m) by (apply Z.mul_nonneg_nonneg; lia).
      lia.
    + rewrite Nat2Z.inj_sub in IH by lia. nia.
Qed.



End CodecFacts.

(** X11.  [ModInverse(n, p)] on a residue [n] of a modulus
    [1 < p < 2^30]: it returns the inverse of [n] modulo [p], a residue,
    when [n] and [p] are coprime, and throws [N is not invertible]
    otherwise; the loop always ends. *)
Theorem ModInverse_inverts_or_throws (n p : Z) :
  1 < p -> 2 * p < 2147483648 -> 0 <= n < p ->
  (Z.gcd n p = 1 ->
   exists inv, IDA.ModInverse n p = Some (Ok inv) /\
               0 <= inv < p /\ (n * inv) mod p = 1) /\
  (Z.gcd n p <> 1 ->
   IDA.ModInverse n p = Some (Throw "N is not invertible")).
Proof.
  intros Hp1 Hp Hn. split; intro Hg.
  - apply EuclidFacts.ModInverse_coprime; assumption.
  - apply EuclidFacts.ModInverse_not_coprime; assumption.
Qed.

Lemma ModInverse_inverts_or_throws_witness :
  IDA.ModInverse 6 15 = Some (Throw "N is not invertible").
Proof.
  refine (proj2 (ModInverse_inverts_or_throws 6 15 _ _ _) _).
  - reflexivity.
  - reflexivity.
  - split; [discriminate | reflexivity].
  - vm_compute. discriminate.
Defined.



(** X13.  [VandermondeInverse] throws [N is not invertible] when an
    element of the basis is repeated, and so does [Decode], given at
    least [m] fragments and at least [m] fragment indices, when two of
    the first [m] indices are equal. *)
Theorem Decode_rejects_repeated_index (c : IDA.params)
        (encoded : IDA.Matrix) (frag_indices : IDA.Vector) (i j : nat) :
  1 < IDA.p_ c -> 2 * IDA.p_ c < 2147483648 ->
  IDA.m_ c <= Z.of_nat (length encoded) ->
  IDA.m_ c <= Z.of_nat (length frag_indices) ->
  (i < j)%nat -> (j < Z.to_nat (IDA.m_ c))%nat ->
  nth i frag_indices 0 = nth j frag_indices 0 ->
  IDA.VandermondeInverse (firstn (Z.to_nat (IDA.m_ c)) frag_indices)
                         (IDA.p_ c)
  = Some (Throw "N is not invertible") /\
  IDA.Decode c encoded frag_indices = IDA.DecodeThrow "N is not invertible".
Proof.
  intros Hp1 Hp Hlen Hidx Hij Hjm Heq.
  assert (Hinv : IDA.VandermondeInverse
                   (firstn (Z.to_nat (IDA.m_ c)) frag_indices) (IDA.p_ c)
                 = Some (Throw "N is not invertible")).
  { apply (RepeatFacts.VandermondeInverse_repeated _ _ i j Hp1 Hp).
    - rewrite length_firstn. lia.
    - rewrite length_firstn. lia.
    - lia.
    - rewrite !CodecFacts.nth_firstn_lt by lia. exact Heq. }
  split; [exact Hinv|]. unfold IDA.Decode.
  rewrite StdFacts.size_t_nonneg by lia.
  destruct (Z.ltb_spec (Z.of_nat (length encoded)) (IDA.m_ c)); [lia|].
  destruct (Z.ltb_spec (IDA.m_ c) 0); [lia|].
  destruct (Z.ltb_spec (Z.of_nat (length frag_indices)) (IDA.m_ c)); [lia|].
  cbv zeta. cbn [orb]. rewrite Hinv. reflexivity.
Qed.

Lemma Decode_rejects_repeated_index_witness :
  IDA.Decode (IDA.mkParams 5 3 257) [[1; 2]; [3; 4]; [5; 6]] [2; 4; 2]
  = IDA.DecodeThrow "N is not invertible".
Proof.
  refine (proj2 (Decode_rejects_repeated_index (IDA.mkParams 5 3 257)
                   [[1; 2]; [3; 4]; [5; 6]] [2; 4; 2] 0 2 _ _ _ _ _ _ _)).
  - reflexivity.
  - reflexivity.
  - vm_compute. discriminate.
  - vm_compute. discriminate.
  - lia.
  - vm_compute. lia.
  - reflexivity.
Defined.

(** X14.  Given at least [m] fragments and at least [m] fragment
    indices, [Decode] reads the first [m] fragments and the first [m]
    indices only: what follows them has no effect on the result. *)
Theorem Decode_reads_m_fragments (c : IDA.params) (encoded : IDA.Matrix)
        (frag_indices : IDA.Vector) :
  1 <= IDA.m_ c -> IDA.m_ c <= Z.of_nat (length encoded) ->
  IDA.m_ c <= Z.of_nat (length frag_indices) ->
  IDA.Decode c encoded frag_indices
  = IDA.Decode c (firstn (Z.to_nat (IDA.m_ c)) encoded)
               (firstn (Z.to_nat (IDA.m_ c)) frag_indices).
Proof.
  intros Hm Hlen Hidx. unfold IDA.Decode.
  rewrite !length_firstn. rewrite firstn_firstn, Nat.min_id.
  rewrite StdFacts.size_t_nonneg by lia.
  destruct (Z.ltb_spec (Z.of_nat (length encoded)) (IDA.m_ c)); [lia|].
  destruct (Z.ltb_spec (Z.of_nat (Nat.min (Z.to_nat (IDA.m_ c))
                                          (length encoded))) (IDA.m_ c));
    [lia|].
  destruct (Z.ltb_spec (IDA.m_ c) 0); [lia|].
  destruct (Z.ltb_spec (Z.of_nat (length frag_indices)) (IDA.m_ c)); [lia|].
  destruct (Z.ltb_spec (Z.of_nat (Nat.min (Z.to_nat (IDA.m_ c))
                                          (length frag_indices)))
                       (IDA.m_ c)); [lia|].
  cbn [orb].
  destruct (IDA.VandermondeInverse
              (firstn (Z.to_nat (IDA.m_ c)) frag_indices) (IDA.p_ c))
    as [[inv|what]|] eqn:Einv; try reflexivity.
  cbv zeta. rewrite CodecFacts.MatrixProduct_prefix; [reflexivity|lia|].
  apply CodecFacts.VandermondeInverse_columns in Einv.
  rewrite length_firstn in Einv. lia.
Qed.

Lemma Decode_reads_m_fragments_witness :
  IDA.Decode (IDA.mkParams 5 3 257)
             (IDA.select (IDA.Encode (IDA.mkParams 5 3 257) [7; 8; 9; 10])
                         [4; 1; 5; 2])
             [4; 1; 5; 2]
  = IDA.Decode (IDA.mkParams 5 3 257)
      (firstn (Z.to_nat (IDA.m_ (IDA.mkParams 5 3 257)))
              (IDA.select (IDA.Encode (IDA.mkParams 5 3 257) [7; 8; 9; 10])
                          [4; 1; 5; 2]))
      (firstn (Z.to_nat (IDA.m_ (IDA.mkParams 5 3 257))) [4; 1; 5; 2]).
Proof.
  apply Decode_reads_m_fragments.
  - vm_compute. discriminate.
  - vm_compute. discriminate.
  - vm_compute. discriminate.
Defined.



(** X16.  [Encode] produces [n] fragments; each holds one residue
    modulo [p] per segment of the block, that is the length of the block
    divided by [m] and rounded up, whatever the integers of the block
    are. *)
Theorem Encode_shape (c : IDA.params) (v : IDA.Vector) (frag : IDA.Vector) :
  1 <= IDA.m_ c -> 0 < IDA.p_ c -> 2 * IDA.p_ c <= 2147483648 ->
  length (IDA.Encode c v) = Z.to_nat (IDA.n_ c) /\
  (In frag (IDA.Encode c v) ->
   (Z.of_nat (length frag) - 1) * IDA.m_ c < Z.of_nat (length v)
   <= Z.of_nat (length frag) * IDA.m_ c /\
   Forall (IDA.residue (IDA.p_ c)) frag).
Proof.
  intros Hm Hp Hp2. unfold IDA.Encode. cbv zeta. rewrite length_map. split.
  - apply IDAShape.encoding_matrix_length.
  - intro Hin. apply in_map_iff in Hin. destruct Hin as (row & <- & _).
    rewrite length_map. split.
    + pose proof (CodecFacts.SplitToSegments_count (Z.to_nat (IDA.m_ c))
                    ltac:(lia) (length v) v (Nat.le_refl _)) as Hcount.
      rewrite Z2Nat.id in Hcount by lia. exact Hcount.
    + apply Forall_forall. intros x Hx. apply in_map_iff in Hx.
      destruct Hx as (segment & <- & _). unfold IDA.InnerProduct.
      apply IDAArith.Modulo_residue; assumption.
Qed.

Lemma Encode_shape_witness :
  length (IDA.Encode IDA.reference [104; 105; 0; 300]) = Z.to_nat 14.
Proof.
  refine (proj1 (Encode_shape IDA.reference [104; 105; 0; 300] [] _ _ _)).
  - vm_compute. discriminate.
  - reflexivity.
  - vm_compute. discriminate.
Defined.

(** ** Numbers subtracted from keys, finger ranges and the peer lists *)

Module RingFacts.
Import Key FingerTable FingerTable.

Lemma mod_wrap_pos (n x : Z) : 0 < n -> n <= x < 2 * n -> x mod n = x - n.
Proof.
  intros Hn Hx. symmetry. apply Z.mod_unique with (q := 1); lia.
Qed.

Lemma uint256_below (x : Z) : 0 <= x < 2 ^ 256 -> uint256 x = x.
Proof. intro Hx. unfold uint256. apply Z.mod_small. exact Hx. Qed.

Lemma uint256_minus_one : uint256 (0 - 1) = 2 ^ 256 - 1.
Proof. reflexivity. Qed.

Lemma sub_num_value (k n : Z) :
  in_ring k -> 0 <= n < 2147483648 ->
  sub_num k n = if n <? k then k - n
                else if n =? k then keys_in_ring
                else 2 ^ 256 + k - n.
Proof.
  unfold in_ring, sub_num. intros Hk Hn.
  pose proof KeyFacts.keys_in_ring_pos as Hpos.
  pose proof KeyFacts.keys_in_ring_lt_256 as H256.
  assert (H31 : 2147483648 < keys_in_ring) by reflexivity.
  cbv zeta. rewrite Z.gtb_ltb.
  destruct (Z.ltb_spec n k) as [Hlt|Hge].
  - rewrite (uint256_below (k - n)) by lia.
    destruct (Z.ltb_spec 0 (k - n)); [|lia]. apply uint256_below. lia.
  - destruct (Z.eqb_spec n k) as [->|Hne].
    + rewrite Z.sub_diag. reflexivity.
    + assert (E : uint256 (k - n) = 2 ^ 256 + k - n).
      { unfold uint256. rewrite KeyFacts.mod_wrap_neg; lia. }
      rewrite E. destruct (Z.ltb_spec 0 (2 ^ 256 + k - n)); [|lia].
      apply uint256_below. lia.
Qed.

Lemma add_sub_num (k n : Z) :
  in_ring k -> 0 <= n < 2147483648 -> add_num (sub_num k n) n = k.
Proof.
  intros Hk Hn. rewrite sub_num_value by assumption.
  unfold in_ring, add_num in *.
  pose proof KeyFacts.keys_in_ring_pos as Hpos.
  pose proof KeyFacts.keys_in_ring_lt_256 as H256.
  assert (H31 : 2147483648 < keys_in_ring) by reflexivity.
  destruct (Z.ltb_spec n k) as [Hlt|Hge].
  - replace (k - n + n) with k by lia.
    rewrite (uint256_below k) by lia. rewrite Z.mod_small by lia.
    apply uint256_below. lia.
  - destruct (Z.eqb_spec n k) as [->|Hne].
    + rewrite (uint256_below (keys_in_ring + k)) by lia.
      rewrite mod_wrap_pos by lia.
      replace (keys_in_ring + k - keys_in_ring) with k by lia.
      apply uint256_below. lia.
    + replace (2 ^ 256 + k - n + n) with (k + 1 * 2 ^ 256) by lia.
      unfold uint256 at 2. rewrite Z.mod_add by lia.
      rewrite (Z.mod_small k (2 ^ 256)) by lia.
      rewrite Z.mod_small by lia. apply uint256_below. lia.
Qed.

(** The range of a finger whose lower bound lies [d] keys after the
    starting key and which holds [d] keys. *)
Lemma range_InBetween (s k d : Z) :
  in_ring s -> in_ring k -> 1 <= d -> 2 * d <= keys_in_ring ->
  InBetween k
    (uint256 ((s + d) mod keys_in_ring))
    (uint256 (uint256 ((s + 2 * d) mod keys_in_ring) - 1)) true
  = (d <=? cw_dist s k) && (cw_dist s k <? 2 * d).
Proof.
  unfold in_ring. intros Hs Hk Hd Hd2.
  pose proof KeyFacts.keys_in_ring_pos as Hpos.
  pose proof KeyFacts.keys_in_ring_lt_256 as H256.
  assert (Hdist : cw_dist s k = if s <=? k then k - s
                                else k - s + keys_in_ring).
  { destruct (Z.leb_spec s k).
    - apply KeyFacts.cw_dist_ge; unfold in_ring; lia.
    - apply KeyFacts.cw_dist_lt; unfold in_ring; lia. }
  assert (Hlb : uint256 ((s + d) mod keys_in_ring)
                = if s + d <? keys_in_ring then s + d
                  else s + d - keys_in_ring).
  { destruct (Z.ltb_spec (s + d) keys_in_ring).
    - rewrite Z.mod_small by lia. apply uint256_below. lia.
    - rewrite mod_wrap_pos by lia. apply uint256_below. lia. }
  assert (Hub : uint256 (uint256 ((s + 2 * d) mod keys_in_ring) - 1)
                = if s + 2 * d <? keys_in_ring then s + 2 * d - 1
                  else if s + 2 * d =? keys_in_ring then 2 ^ 256 - 1
                  else s + 2 * d - keys_in_ring - 1).
  { destruct (Z.ltb_spec (s + 2 * d) keys_in_ring).
    - rewrite Z.mod_small by lia. rewrite (uint256_below (s + 2 * d)) by lia.
      apply uint256_below. lia.
    - destruct (Z.eqb_spec (s + 2 * d) keys_in_ring) as [E|E].
      + rewrite E, Z.mod_same by lia. reflexivity.
      + rewrite mod_wrap_pos by lia.
        rewrite (uint256_below (s + 2 * d - keys_in_ring)) by lia.
        apply uint256_below. lia. }
  rewrite Hlb, Hub, Hdist. clear Hlb Hub Hdist.
  unfold InBetween. cbv zeta.
  rewrite (Z.mod_small k keys_in_ring) by lia.
  destruct (Z.ltb_spec (s + d) keys_in_ring) as [Hl|Hl];
    destruct (Z.ltb_spec (s + 2 * d) keys_in_ring) as [Hu|Hu];
    try lia.
  - rewrite (Z.mod_small (s + d)) by lia.
    rewrite (Z.mod_small (s + 2 * d - 1)) by lia.
    destruct (Z.leb_spec s k); zbool.
  - rewrite (Z.mod_small (s + d)) by lia.
    destruct (Z.eqb_spec (s + 2 * d) keys_in_ring) as [E|E].
    + destruct (Z.eqb_spec (s + d) (2 ^ 256 - 1)); [lia|].
      destruct (Z.ltb_spec (s + d) (2 ^ 256 - 1)); [|lia].
      destruct (Z.leb_spec s k); zbool.
    + rewrite (Z.mod_small (s + 2 * d - keys_in_ring - 1)) by lia.
      destruct (Z.leb_spec s k); zbool.
  - rewrite (Z.mod_small (s + d - keys_in_ring)) by lia.
    destruct (Z.eqb_spec (s + 2 * d) keys_in_ring) as [E|E]; [lia|].
    rewrite (Z.mod_small (s + 2 * d - keys_in_ring - 1)) by lia.
    destruct (Z.leb_spec s k); zbool.
Qed.

Lemma pow2_finger (n : Z) :
  0 <= n < num_entries ->
  1 <= 2 ^ n /\ 2 ^ (n + 1) = 2 * 2 ^ n /\ 2 * 2 ^ n <= keys_in_ring.
Proof.
  unfold num_entries. intro Hn.
  assert (Hpow : 2 ^ (n + 1) = 2 * 2 ^ n)
    by (rewrite Z.pow_add_r by lia; lia).
  split; [|split].
  - pose proof (Z.pow_pos_nonneg 2 n ltac:(lia) ltac:(lia)). lia.
  - exact Hpow.
  - rewrite <- Hpow. change keys_in_ring with (2 ^ 128).
    apply Z.pow_le_mono_r; lia.
Qed.

Lemma Lookup_ReplaceDeadPeer (table_ : list Finger)
      (dead_peer replacement : RemotePeer) (key : Z) :
  Lookup (ReplaceDeadPeer table_ dead_peer replacement) key
  = option_map (fun p => if id_ p =? id_ dead_peer then replacement else p)
               (Lookup table_ key).
Proof.
  induction table_ as [|finger rest IH]; [reflexivity|].
  cbn [ReplaceDeadPeer map Lookup]. fold (ReplaceDeadPeer rest dead_peer replacement).
  destruct (id_ (successor_ finger) =? id_ dead_peer) eqn:E;
    cbn [set_successor lower_bound_ upper_bound_ successor_];
    destruct (InBetween key (lower_bound_ finger) (upper_bound_ finger) true);
    cbn [option_map]; try rewrite E; try reflexivity; exact IH.
Qed.

End RingFacts.

Module PeerListFacts.
Import Key RemotePeerList RemotePeerList.

Lemma last_cons_default (A : Type) (l : list A) :
  forall a d, last (a :: l) d = last l a.
Proof.
  induction l as [|b l IH]; intros a d; [reflexivity|].
  change (last (a :: b :: l) d) with (last (b :: l) d).
  rewrite (IH b d), (IH b a). reflexivity.
Qed.

Lemma Lookup_from_none (o key : Z) (peers : list RemotePeer) :
  in_ring o -> in_ring key ->
  forall prev previous succ,
    in_ring prev ->
    cw_dist o prev <= cw_dist o key ->
    Forall (fun p => in_ring (id_ p)) peers ->
    Forall (fun e => cw_dist o prev <= rank o e) peers ->
    StronglySorted (fun a b => rank o a < rank o b) peers ->
    Forall (fun e => rank o e < cw_dist o key) peers ->
    Lookup_from key prev previous peers succ = None.
Proof.
  intros Ho Hkey.
  induction peers as [|it rest IH];
    intros prev previous succ Hprev Hpk Hring Hfrom Hsorted Hbelow;
    [reflexivity|].
  cbn [Lookup_from].
  inversion Hring as [|? ? Hit Hring']; subst.
  inversion Hfrom as [|? ? Hfit Hfrom']; subst.
  inversion Hsorted as [|? ? Hsorted' Hall]; subst.
  inversion Hbelow as [|? ? Hbit Hbelow']; subst.
  unfold rank in *.
  rewrite (SuccListFacts.InBetween_rank o key prev (id_ it)) by assumption.
  destruct (Z.leb_spec (cw_dist o key) (cw_dist o (id_ it))); [lia|].
  apply IH; try assumption; try lia.
  eapply Forall_impl; [|exact Hall]. cbv beta. intros e He. lia.
Qed.

Lemma Lookup_from_split (o key : Z) (it : RemotePeer)
      (after : list RemotePeer) :
  in_ring o -> in_ring key ->
  forall before prev previous succ,
    in_ring prev ->
    cw_dist o prev <= cw_dist o key ->
    Forall (fun p => in_ring (id_ p)) (before ++ it :: after) ->
    Forall (fun e => cw_dist o prev <= rank o e) (before ++ it :: after) ->
    StronglySorted (fun a b => rank o a < rank o b) (before ++ it :: after) ->
    Forall (fun e => rank o e < cw_dist o key) before ->
    cw_dist o key <= rank o it ->
    Lookup_from key prev previous (before ++ it :: after) succ
    = if succ then Some it else last (map Some before) previous.
Proof.
  intros Ho Hkey.
  induction before as [|b before IH];
    intros prev previous succ Hprev Hpk Hring Hfrom Hsorted Hbelow Hit.
  - cbn [app Lookup_from map last].
    inversion Hring as [|? ? Hiring _]; subst.
    inversion Hfrom as [|? ? Hfit _]; subst.
    unfold rank in *.
    rewrite (SuccListFacts.InBetween_rank o key prev (id_ it)) by assumption.
    destruct (Z.leb_spec (cw_dist o key) (cw_dist o (id_ it))); [|lia].
    reflexivity.
  - rewrite <- app_comm_cons in *. cbn [Lookup_from].
    inversion Hring as [|? ? Hbring Hring']; subst.
    inversion Hfrom as [|? ? Hfb Hfrom']; subst.
    inversion Hsorted as [|? ? Hsorted' Hall]; subst.
    inversion Hbelow as [|? ? Hbb Hbelow']; subst.
    unfold rank in Hfb, Hbb.
    rewrite (SuccListFacts.InBetween_rank o key prev (id_ b)) by assumption.
    destruct (Z.leb_spec (cw_dist o key) (cw_dist o (id_ b))); [lia|].
    rewrite (IH (id_ b) (Some b) succ); try assumption; try lia.
    + cbn [map]. rewrite last_cons_default. reflexivity.
    + eapply Forall_impl; [|exact Hall]. cbv beta. unfold rank.
      intros e He. lia.
Qed.

Lemma rank_from_origin (o : Z) (peers : list RemotePeer) :
  Forall (fun e => cw_dist o o <= rank o e) peers.
Proof.
  apply Forall_forall. intros e _. unfold rank, cw_dist.
  rewrite Z.sub_diag, Z.mod_0_l by (intro X; discriminate X).
  pose proof (KeyFacts.cw_dist_range o (id_ e)) as H. unfold cw_dist in H. lia.
Qed.

Lemma cw_dist_origin (o key : Z) : cw_dist o o <= cw_dist o key.
Proof.
  unfold cw_dist at 1. rewrite Z.sub_diag, Z.mod_0_l by (intro X; discriminate X).
  pose proof (KeyFacts.cw_dist_range o key). lia.
Qed.

Lemma sorted_NoDup (o : Z) (peers : list RemotePeer) :
  StronglySorted (fun a b => rank o a < rank o b) peers ->
  NoDup (map id_ peers).
Proof.
  induction 1 as [|p peers Hsorted IH Hall]; [constructor|].
  cbn [map]. constructor; [|exact IH].
  intro Hin. apply in_map_iff in Hin. destruct Hin as (q & Hid & Hq).
  rewrite Forall_forall in Hall. specialize (Hall q Hq).
  unfold rank in Hall. rewrite Hid in Hall. lia.
Qed.

Lemma Delete_peers_filter (id_to_delete : Z) (peers : list RemotePeer) :
  NoDup (map id_ peers) ->
  Delete_peers id_to_delete peers
  = filter (fun p => negb (id_ p =? id_to_delete)) peers.
Proof.
  induction peers as [|it rest IH]; intro Hnd; [reflexivity|].
  cbn [map] in Hnd. inversion Hnd as [|? ? Hnotin Hnd']; subst.
  cbn [Delete_peers filter].
  destruct (Z.eqb_spec (id_ it) id_to_delete) as [E|E]; cbn [negb].
  - symmetry. apply forallb_filter_id. apply forallb_forall. intros q Hq.
    destruct (Z.eqb_spec (id_ q) id_to_delete) as [E'|E']; [|reflexivity].
    exfalso. apply Hnotin. rewrite E, <- E'. apply in_map. exact Hq.
  - rewrite (IH Hnd'). reflexivity.
Qed.

Lemma Lookup_found (l : t) (key : Z) (before after : list RemotePeer)
      (it : RemotePeer) :
  in_ring (starting_key_ l) -> in_ring key -> invariant l ->
  peers_ l = before ++ it :: after ->
  Forall (fun e => rank (starting_key_ l) e < cw_dist (starting_key_ l) key)
         before ->
  cw_dist (starting_key_ l) key <= rank (starting_key_ l) it ->
  Lookup l key true = Some it /\
  Lookup l key false = last (map Some before) None.
Proof.
  intros Ho Hkey (_ & Hring & Hsorted) Hsplit Hbelow Hit.
  unfold Lookup. rewrite Hsplit in *.
  split; rewrite (Lookup_from_split (starting_key_ l));
    try assumption; try reflexivity;
    try apply cw_dist_origin; apply rank_from_origin.
Qed.

End PeerListFacts.

Module SuccessorFacts.
Import Key Chord Chord.

Section Loop.

Variable ForwardRequest : Peer -> Z -> result RemotePeer.
Variable st : Peer.

Lemma GetNSuccessors_loop_chained (n : nat) :
  forall previous_peer_id succ_ids successors_list r,
    GetNSuccessors_loop ForwardRequest st n previous_peer_id succ_ids
                        successors_list = Ok r ->
    exists found,
      r = successors_list ++ found /\
      (length found <= n)%nat /\
      chained ForwardRequest st previous_peer_id found /\
      (succ_ids = [] -> n <> O -> found <> []).
Proof.
  induction n as [|n IH]; intros prev ids acc r; cbn [GetNSuccessors_loop].
  - intros [= <-]. exists []. rewrite app_nil_r.
    repeat split; [cbn; lia | congruence].
  - unfold bind.
    destruct (GetSuccessor ForwardRequest st (add_num prev 1))
      as [ith_succ|what] eqn:Esucc; [|discriminate].
    destruct (existsb (Z.eqb (id_ ith_succ)) ids) eqn:Eseen.
    + intros [= <-]. exists []. rewrite app_nil_r.
      repeat split; [cbn; lia|].
      intros -> _. discriminate Eseen.
    + intro Hloop. apply IH in Hloop.
      destruct Hloop as (found & -> & Hlen & Hchain & _).
      exists (ith_succ :: found). rewrite <- app_assoc.
      repeat split.
      * cbn [length]. lia.
      * exact Esucc.
      * exact Hchain.
      * intros _ _. discriminate.
Qed.

End Loop.

End SuccessorFacts.

(** X17.  [key - number] for a key of the ring and a non-negative
    [int]: the difference when the number is below the key; the size of
    the ring, which is not a key of the ring, when they are equal; and
    [2^256 + key - number] when the number is larger, the subtraction
    having wrapped in [uint256_t].  Adding the number again gives the key
    back in each case. *)
Theorem sub_num_leaves_ring (k n : Z) :
  Key.in_ring k -> 0 <= n < 2147483648 ->
  Key.sub_num k n = (if n <? k then k - n
                     else if n =? k then Key.keys_in_ring
                     else 2 ^ 256 + k - n) /\
  (Key.in_ring (Key.sub_num k n) <-> n < k) /\
  Key.add_num (Key.sub_num k n) n = k.
Proof.
  intros Hk Hn. split; [|split].
  - apply RingFacts.sub_num_value; assumption.
  - rewrite RingFacts.sub_num_value by assumption.
    unfold Key.in_ring in *.
    pose proof KeyFacts.keys_in_ring_lt_256 as H256.
    destruct (Z.ltb_spec n k); [lia|].
    destruct (Z.eqb_spec n k); lia.
  - apply RingFacts.add_sub_num; assumption.
Qed.

Lemma sub_num_leaves_ring_witness :
  Key.sub_num 0 1 = 2 ^ 256 + 0 - 1 /\ Key.add_num (Key.sub_num 0 1) 1 = 0.
Proof.
  assert (Hk : Key.in_ring 0) by (split; [discriminate | reflexivity]).
  assert (Hn : 0 <= 1 < 2147483648) by lia.
  split.
  - exact (proj1 (sub_num_leaves_ring 0 1 Hk Hn)).
  - exact (proj2 (proj2 (sub_num_leaves_ring 0 1 Hk Hn))).
Defined.

(** X18.  The range of the [n]-th finger, [n] below [num_entries_],
    holds exactly the keys at clockwise distance [2^n] to [2^(n+1) - 1]
    from the starting key, so the ranges of a table are disjoint and
    cover every key but the starting key.  Its lower bound is a key of
    the ring; its upper bound is one too, unless the range ends on the
    last key of the ring: the decrement then wraps to [2^256 - 1]. *)
Theorem GetNthRange_partitions_the_ring (starting_key key n : Z) :
  Key.in_ring starting_key -> Key.in_ring key ->
  0 <= n < FingerTable.num_entries ->
  Key.InBetween key (fst (FingerTable.GetNthRange starting_key n))
                (snd (FingerTable.GetNthRange starting_key n)) true
  = (2 ^ n <=? Key.cw_dist starting_key key)
    && (Key.cw_dist starting_key key <? 2 ^ (n + 1)) /\
  Key.in_ring (fst (FingerTable.GetNthRange starting_key n)) /\
  (if (starting_key + 2 ^ (n + 1)) mod Key.keys_in_ring =? 0
   then snd (FingerTable.GetNthRange starting_key n) = 2 ^ 256 - 1
   else Key.in_ring (snd (FingerTable.GetNthRange starting_key n))).
Proof.
  intros Hs Hk Hn.
  destruct (RingFacts.pow2_finger n Hn) as (Hd & Hpow & Hd2).
  pose proof KeyFacts.keys_in_ring_pos as Hpos.
  pose proof KeyFacts.keys_in_ring_lt_256 as H256.
  unfold FingerTable.GetNthRange. cbv zeta. cbn [fst snd].
  rewrite Hpow. split; [|split].
  - apply RingFacts.range_InBetween; assumption.
  - pose proof (Z.mod_pos_bound (starting_key + 2 ^ n) Key.keys_in_ring Hpos).
    rewrite RingFacts.uint256_below by lia. exact H.
  - pose proof (Z.mod_pos_bound (starting_key + 2 * 2 ^ n)
                                Key.keys_in_ring Hpos) as Hb.
    destruct (Z.eqb_spec ((starting_key + 2 * 2 ^ n) mod Key.keys_in_ring) 0)
      as [E|E].
    + rewrite E. reflexivity.
    + rewrite (RingFacts.uint256_below (_ mod _)) by lia.
      rewrite RingFacts.uint256_below by lia.
      unfold Key.in_ring. lia.
Qed.

Lemma GetNthRange_partitions_the_ring_witness :
  snd (FingerTable.GetNthRange (Key.keys_in_ring - 4) 1) = 2 ^ 256 - 1 /\
  Key.InBetween (Key.keys_in_ring - 1)
                (fst (FingerTable.GetNthRange (Key.keys_in_ring - 4) 1))
                (snd (FingerTable.GetNthRange (Key.keys_in_ring - 4) 1)) true
  = true.
Proof.
  assert (Hs : Key.in_ring (Key.keys_in_ring - 4))
    by (split; [discriminate | reflexivity]).
  assert (Hk : Key.in_ring (Key.keys_in_ring - 1))
    by (split; [discriminate | reflexivity]).
  assert (Hn : 0 <= 1 < FingerTable.num_entries)
    by (split; [discriminate | reflexivity]).
  split.
  - exact (proj2 (proj2 (GetNthRange_partitions_the_ring _ _ 1 Hs Hk Hn))).
  - exact (proj1 (GetNthRange_partitions_the_ring _ _ 1 Hs Hk Hn)).
Defined.

(** X19.  After [ReplaceDeadPeer], [Lookup] answers as before for a
    key whose finger did not point to the dead peer, and with the
    replacement where it did; with a replacement of another ID it never
    returns a peer with the dead peer's ID. *)
Theorem ReplaceDeadPeer_redirects_Lookup (table_ : list FingerTable.Finger)
        (dead_peer replacement : RemotePeer) (key : Z) :
  FingerTable.Lookup (FingerTable.ReplaceDeadPeer table_ dead_peer replacement)
                     key
  = option_map (fun p => if id_ p =? id_ dead_peer then replacement else p)
               (FingerTable.Lookup table_ key) /\
  (id_ replacement <> id_ dead_peer ->
   forall p,
     FingerTable.Lookup
       (FingerTable.ReplaceDeadPeer table_ dead_peer replacement) key = Some p ->
     id_ p <> id_ dead_peer).
Proof.
  split; [apply RingFacts.Lookup_ReplaceDeadPeer|].
  intros Hne p. rewrite RingFacts.Lookup_ReplaceDeadPeer.
  destruct (FingerTable.Lookup table_ key) as [q|]; cbn [option_map];
    [|discriminate].
  destruct (Z.eqb_spec (id_ q) (id_ dead_peer)) as [E|E]; intros [= <-];
    assumption.
Qed.

(** X20.  On a successor list that satisfies its invariant,
    [Lookup(key, true)] returns the first entry at or after the key,
    clockwise from the starting key, and [Lookup(key, false)] the entry
    before that one, or nothing when that one is the first; both return
    nothing when the key lies after every entry. *)
Theorem Lookup_first_entry_from_key (l : RemotePeerList.t) (key : Z) :
  Key.in_ring (RemotePeerList.starting_key_ l) -> Key.in_ring key ->
  RemotePeerList.invariant l ->
  (forall before it after,
     RemotePeerList.peers_ l = before ++ it :: after ->
     Forall (fun e => RemotePeerList.rank (RemotePeerList.starting_key_ l) e
                      < Key.cw_dist (RemotePeerList.starting_key_ l) key)
            before ->
     Key.cw_dist (RemotePeerList.starting_key_ l) key
     <= RemotePeerList.rank (RemotePeerList.starting_key_ l) it ->
     RemotePeerList.Lookup l key true = Some it /\
     RemotePeerList.Lookup l key false = last (map Some before) None) /\
  (Forall (fun e => RemotePeerList.rank (RemotePeerList.starting_key_ l) e
                    < Key.cw_dist (RemotePeerList.starting_key_ l) key)
          (RemotePeerList.peers_ l) ->
   forall succ, RemotePeerList.Lookup l key succ = None).
Proof.
  intros Ho Hkey Hinv. split.
  - intros before it after Hsplit Hbelow Hit.
    apply (PeerListFacts.Lookup_found l key before after it); assumption.
  - destruct Hinv as (_ & Hring & Hsorted). intros Hbelow succ.
    unfold RemotePeerList.Lookup.
    apply (PeerListFacts.Lookup_from_none (RemotePeerList.starting_key_ l));
      try assumption.
    + apply PeerListFacts.cw_dist_origin.
    + apply PeerListFacts.rank_from_origin.
Qed.

Lemma Lookup_first_entry_from_key_witness :
  RemotePeerList.Lookup
    (RemotePeerList.mkList 4 10
       [mkRemotePeer 20 11 "b" 7302; mkRemotePeer 40 21 "d" 7306;
        mkRemotePeer 5 41 "e" 7308]) 33 true
  = Some (mkRemotePeer 40 21 "d" 7306) /\
  RemotePeerList.Lookup
    (RemotePeerList.mkList 4 10
       [mkRemotePeer 20 11 "b" 7302; mkRemotePeer 40 21 "d" 7306;
        mkRemotePeer 5 41 "e" 7308]) 33 false
  = last (map Some [mkRemotePeer 20 11 "b" 7302]) None.
Proof.
  refine (proj1 (Lookup_first_entry_from_key
                   (RemotePeerList.mkList 4 10
                      [mkRemotePeer 20 11 "b" 7302; mkRemotePeer 40 21 "d" 7306;
                       mkRemotePeer 5 41 "e" 7308]) 33 _ _ _)
                [mkRemotePeer 20 11 "b" 7302] (mkRemotePeer 40 21 "d" 7306)
                [mkRemotePeer 5 41 "e" 7308] _ _ _).
  - split; [discriminate | reflexivity].
  - split; [discriminate | reflexivity].
  - split; [cbn; lia|]. split.
    + repeat constructor; discriminate.
    + repeat constructor; vm_compute; reflexivity.
  - reflexivity.
  - repeat constructor; vm_compute; reflexivity.
  - vm_compute. discriminate.
Defined.

(** X21.  A peer that [Insert] reports as inserted into a list
    satisfying its invariant is the entry that [Lookup] then returns for
    its ID. *)
Theorem Insert_then_Lookup (l l' : RemotePeerList.t) (new_peer : RemotePeer) :
  1 <= RemotePeerList.max_entries_ l ->
  Key.in_ring (RemotePeerList.starting_key_ l) ->
  Key.in_ring (id_ new_peer) ->
  RemotePeerList.invariant l ->
  RemotePeerList.Insert l new_peer = Ok (l', true) ->
  RemotePeerList.Lookup l' (id_ new_peer) true = Some new_peer.
Proof.
  intros Hmax Ho Hid Hinv Hins.
  destruct (InsertFacts.Insert_spec l new_peer Hmax Ho Hid Hinv)
    as [Hinv' Hpos].
  unfold RemotePeerList.Insert_positional in Hpos.
  rewrite Hins in Hinv', Hpos.
  destruct Hpos as (_ & Hstart & Hdup & Hnew).
  destruct (in_dec Z.eq_dec (id_ new_peer)
                   (map id_ (RemotePeerList.peers_ l))) as [Hin|Hnotin].
  - destruct (Hdup Hin) as [Hfalse _]. discriminate Hfalse.
  - destruct (Hnew Hnotin) as (before & after & _ & Hbefore & _ & Hpeers & Hflag).
    symmetry in Hflag. apply Z.ltb_lt in Hflag.
    assert (Hcut : RemotePeerList.peers_ l'
                   = before ++ new_peer
                       :: firstn (Z.to_nat (RemotePeerList.max_entries_ l)
                                  - length before - 1) after).
    { rewrite Hpeers, firstn_app.
      rewrite firstn_all2 by lia.
      destruct (Z.to_nat (RemotePeerList.max_entries_ l) - length before)%nat
        as [|j] eqn:Ej; [lia|].
      cbn [firstn]. replace (S j - 1)%nat with j by lia. reflexivity. }
    rewrite <- Hstart in Hbefore. rewrite <- Hstart in Ho.
    apply (PeerListFacts.Lookup_found l' (id_ new_peer) before _ new_peer
             Ho Hid Hinv' Hcut).
    + exact Hbefore.
    + unfold RemotePeerList.rank. lia.
Qed.

Lemma Insert_then_Lookup_witness :
  RemotePeerList.Lookup
    (RemotePeerList.mkList 2 10
       [mkRemotePeer 20 11 "b" 7302; mkRemotePeer 30 21 "c" 7304]) 30 true
  = Some (mkRemotePeer 30 21 "c" 7304).
Proof.
  apply (Insert_then_Lookup
           (RemotePeerList.mkList 2 10
              [mkRemotePeer 20 11 "b" 7302; mkRemotePeer 40 31 "d" 7306])
           (RemotePeerList.mkList 2 10
              [mkRemotePeer 20 11 "b" 7302; mkRemotePeer 30 21 "c" 7304])
           (mkRemotePeer 30 21 "c" 7304)).
  - cbn. lia.
  - split; [discriminate | reflexivity].
  - split; [discriminate | reflexivity].
  - split; [cbn; lia|]. split.
    + repeat constructor; discriminate.
    + repeat constructor; vm_compute; reflexivity.
  - reflexivity.
Defined.

(** X22.  [Delete] on a list satisfying its invariant removes the
    entry with the given ID and nothing else: the other entries stay, in
    their order, [Contains] is false for the peer afterwards, and the
    invariant still holds. *)
Theorem Delete_removes_the_peer (l : RemotePeerList.t)
        (peer_to_delete : RemotePeer) :
  RemotePeerList.invariant l ->
  RemotePeerList.peers_ (RemotePeerList.Delete_peer l peer_to_delete)
  = filter (fun p => negb (id_ p =? id_ peer_to_delete))
           (RemotePeerList.peers_ l) /\
  RemotePeerList.Contains (RemotePeerList.Delete_peer l peer_to_delete)
                          peer_to_delete = false /\
  RemotePeerList.invariant (RemotePeerList.Delete_peer l peer_to_delete).
Proof.
  intro Hinv.
  assert (Hfilter :
            RemotePeerList.peers_ (RemotePeerList.Delete_peer l peer_to_delete)
            = filter (fun p => negb (id_ p =? id_ peer_to_delete))
                     (RemotePeerList.peers_ l)).
  { destruct Hinv as (_ & _ & Hsorted).
    unfold RemotePeerList.Delete_peer, RemotePeerList.Delete.
    cbn [RemotePeerList.with_peers RemotePeerList.peers_].
    apply PeerListFacts.Delete_peers_filter.
    apply (PeerListFacts.sorted_NoDup (RemotePeerList.starting_key_ l)).
    exact Hsorted. }
  split; [exact Hfilter|]. split.
  - unfold RemotePeerList.Contains. rewrite Hfilter.
    destruct (existsb _ _) eqn:E; [|reflexivity].
    apply existsb_exists in E. destruct E as (p & Hp & Hid).
    apply filter_In in Hp. destruct Hp as [_ Hp].
    rewrite Hid in Hp. discriminate Hp.
  - unfold RemotePeerList.Delete_peer.
    apply (SuccListFacts.Delete_invariant (RemotePeerList.starting_key_ l) l).
    exact Hinv.
Qed.

Lemma Delete_removes_the_peer_witness :
  RemotePeerList.peers_
    (RemotePeerList.Delete_peer
       (RemotePeerList.mkList 4 10
          [mkRemotePeer 20 11 "b" 7302; mkRemotePeer 40 21 "d" 7306;
           mkRemotePeer 5 41 "e" 7308])
       (mkRemotePeer 40 0 "" 0))
  = filter (fun p => negb (id_ p =? 40))
      [mkRemotePeer 20 11 "b" 7302; mkRemotePeer 40 21 "d" 7306;
       mkRemotePeer 5 41 "e" 7308].
Proof.
  refine (proj1 (Delete_removes_the_peer
                   (RemotePeerList.mkList 4 10
                      [mkRemotePeer 20 11 "b" 7302; mkRemotePeer 40 21 "d" 7306;
                       mkRemotePeer 5 41 "e" 7308])
                   (mkRemotePeer 40 0 "" 0) _)).
  split; [cbn; lia|]. split.
  - repeat constructor; discriminate.
  - repeat constructor; vm_compute; reflexivity.
Defined.

(** X23.  A list that [GetNSuccessors(key, n)] returns for a key of
    the ring has at most [n] peers with pairwise distinct IDs; for
    [n >= 1] it starts with the peer [GetSuccessor(key)] returns, and each
    further peer is the one [GetSuccessor] returns for the key after the
    ID of the peer before it. *)
Theorem GetNSuccessors_chain
        (ForwardRequest : Chord.Peer -> Z -> result RemotePeer)
        (st : Chord.Peer) (key n : Z) (succ_list : list RemotePeer) :
  Key.in_ring key ->
  Chord.GetNSuccessors ForwardRequest st key n = Ok succ_list ->
  Z.of_nat (length succ_list) <= Z.max 0 n /\
  NoDup (map id_ succ_list) /\
  match succ_list with
  | [] => n <= 0
  | first :: rest =>
      Chord.GetSuccessor ForwardRequest st key = Ok first /\
      Chord.chained ForwardRequest st (id_ first) rest
  end.
Proof.
  intros Hkey Hget.
  pose proof (CreateFacts.GetNSuccessors_NoDup _ _ _ _ _ Hget) as Hnd.
  unfold Chord.GetNSuccessors in Hget.
  apply SuccessorFacts.GetNSuccessors_loop_chained in Hget.
  destruct Hget as (found & Hfound & Hlen & Hchain & Hne).
  cbn [app] in Hfound. subst found.
  split; [lia|]. split; [exact Hnd|].
  destruct succ_list as [|first rest].
  - destruct (Z.le_gt_cases n 0) as [Hn|Hn]; [exact Hn|].
    exfalso. apply (Hne eq_refl); [lia | reflexivity].
  - destruct Hchain as [Hfirst Hrest].
    rewrite RingFacts.add_sub_num in Hfirst by (assumption || lia).
    split; assumption.
Qed.

Lemma GetNSuccessors_chain_witness :
  Chord.GetSuccessor (DHash.ForwardRequest Scenario.net) Scenario.chord_a 11
  = Ok Scenario.peer_b /\
  Chord.chained (DHash.ForwardRequest Scenario.net) Scenario.chord_a
                (id_ Scenario.peer_b) [Scenario.peer_c].
Proof.
  assert (Hkey : Key.in_ring 11) by (split; [discriminate | reflexivity]).
  assert (Hget : Chord.GetNSuccessors (DHash.ForwardRequest Scenario.net)
                   Scenario.chord_a 11 2
                 = Ok [Scenario.peer_b; Scenario.peer_c])
    by (vm_compute; reflexivity).
  exact (proj2 (proj2 (GetNSuccessors_chain _ _ 11 2 _ Hkey Hget))).
Defined.

(** X24.  For the peer that started the ring and is still alone in
    it, [GetNSuccessors] returns the peer itself and nothing else,
    whatever the key and for every [n >= 1], without forwarding a
    request; [Create] therefore throws [Insufficient succs in list to
    complete request.] when [m >= 2], and stores nothing. *)
Theorem solitary_peer_cannot_create
        (sha1 : string -> Z) (net : DHash.Network) (st : DHash.Peer)
        (ForwardRequest : Chord.Peer -> Z -> result RemotePeer)
        (key n : Z) (val : DHash.DataBlock) :
  DHash.chord st = Chord.StartChord (DHash.chord st) ->
  Key.in_ring (Chord.peer_id (DHash.chord st)) ->
  (1 <= n ->
   Chord.GetNSuccessors ForwardRequest (DHash.chord st) key n
   = Ok [Chord.ToRemotePeer (DHash.chord st)]) /\
  (2 <= IDA.m_ (DHash.ida st) ->
   DHash.Create sha1 net st key val
   = (st, [],
      Merkle.Threw "Insufficient succs in list to complete request.")).
Proof.
  intros Hstart Hid.
  assert (Hlocal : forall k, Chord.StoredLocally (DHash.chord st) k = true).
  { intro k. rewrite Hstart. apply ChordFacts.StartChord_owns_ring.
    exact Hid. }
  assert (Hself : forall FR k j, (1 <= j)%nat ->
            Chord.GetNSuccessors_loop FR (DHash.chord st) j k [] []
            = Ok [Chord.ToRemotePeer (DHash.chord st)]).
  { intros FR k j Hj. destruct j as [|j]; [lia|].
    cbn [Chord.GetNSuccessors_loop]. unfold Chord.GetSuccessor at 1.
    rewrite Hlocal. cbn [bind existsb app].
    destruct j as [|j]; [reflexivity|].
    cbn [Chord.GetNSuccessors_loop]. unfold Chord.GetSuccessor.
    rewrite Hlocal. cbn [bind existsb].
    rewrite Z.eqb_refl. reflexivity. }
  split.
  - intro Hn. unfold Chord.GetNSuccessors. apply Hself. lia.
  - intro Hm. unfold DHash.Create, Chord.GetNSuccessors.
    destruct (Z.to_nat (IDA.n_ (DHash.ida st))) as [|j] eqn:En.
    + cbn [Chord.GetNSuccessors_loop length].
      rewrite StdFacts.size_t_nonneg by lia.
      destruct (Z.ltb_spec (Z.of_nat 0) (IDA.m_ (DHash.ida st)));
        [reflexivity | lia].
    + rewrite Hself by lia. cbn [length].
      rewrite StdFacts.size_t_nonneg by lia.
      destruct (Z.ltb_spec (Z.of_nat 1) (IDA.m_ (DHash.ida st)));
        [reflexivity | lia].
Qed.

Lemma solitary_peer_cannot_create_witness :
  DHash.Create Scenario.sha1 Scenario.net
    (DHash.mkPeer
       (Chord.StartChord (Chord.mkPeer 9 9 "127.0.0.1" 7300 [] [] None))
       (Database.EmptyDB DHash.DataFragment Scenario.sha1)
       Scenario.params) 4 Scenario.block
  = (DHash.mkPeer
       (Chord.StartChord (Chord.mkPeer 9 9 "127.0.0.1" 7300 [] [] None))
       (Database.EmptyDB DHash.DataFragment Scenario.sha1)
       Scenario.params, [],
     Merkle.Threw "Insufficient succs in list to complete request.").
Proof.
  refine (proj2 (solitary_peer_cannot_create Scenario.sha1 Scenario.net
                   (DHash.mkPeer
                      (Chord.StartChord
                         (Chord.mkPeer 9 9 "127.0.0.1" 7300 [] [] None))
                      (Database.EmptyDB DHash.DataFragment Scenario.sha1)
                      Scenario.params)
                   (fun _ _ => Throw "Lookup failed") 4 1 Scenario.block _ _) _).
  - reflexivity.
  - split; [discriminate | reflexivity].
  - cbn. lia.
Defined.



(** ** Fragments and blocks as text *)

Module FragmentFacts.
Import Fragment.

Lemma digit_round_trip (d : Z) :
  0 <= d < 64 ->
  char_to_int (nth (Z.to_nat d) BASE_64_ALPHABET zero) = Some d.
Proof.
  intro Hd.
  assert (Hall : forallb
                   (fun k => match char_to_int (nth k BASE_64_ALPHABET zero) with
                             | Some digit => digit =? Z.of_nat k
                             | None => false
                             end) (seq 0 64) = true)
    by (vm_compute; reflexivity).
  rewrite forallb_forall in Hall.
  specialize (Hall (Z.to_nat d)). rewrite in_seq in Hall.
  specialize (Hall ltac:(lia)).
  destruct (char_to_int (nth (Z.to_nat d) BASE_64_ALPHABET zero)) as [digit|];
    [|discriminate].
  apply Z.eqb_eq in Hall. f_equal. lia.
Qed.

Lemma pow64_pos (i : nat) : 0 < 64 ^ Z.of_nat i.
Proof. apply Z.pow_pos_nonneg; lia. Qed.

Lemma pow64_succ (i : nat) : 64 ^ Z.of_nat (S i) = 64 * 64 ^ Z.of_nat i.
Proof. rewrite Nat2Z.inj_succ, Z.pow_succ_r by lia. reflexivity. Qed.

(** The digits of a value below [64 ^ i], and what reading them back
    adds to the element. *)
Lemma Serialize_digits_below (i : nat) :
  64 ^ Z.of_nat i <= 2147483647 ->
  forall val, 0 <= val < 64 ^ Z.of_nat i ->
    exists digits,
      Serialize_digits i val = Some digits /\ length digits = i /\
      forall rest el,
        0 <= el -> el + val < 2147483648 ->
        Parse_element i (digits ++ rest) el = Returned (el + val, rest).
Proof.
  induction i as [|i IH]; intros Hfit val Hval.
  - exists []. cbn [Serialize_digits Parse_element app length].
    change (64 ^ Z.of_nat 0) with 1 in Hval.
    repeat split. intros rest el _ _.
    replace val with 0 by lia. rewrite Z.add_0_r. reflexivity.
  - rewrite pow64_succ in Hfit, Hval.
    pose proof (pow64_pos i) as Hpos.
    cbn [Serialize_digits]. cbv zeta.
    set (pw := 64 ^ Z.of_nat i) in *.
    rewrite Z.quot_div_nonneg by lia.
    assert (Hq : 0 <= val / pw < 64).
    { split; [apply Z.div_pos; lia|]. apply Z.div_lt_upper_bound; lia. }
    assert (Hr : 0 <= val - val / pw * pw < pw).
    { pose proof (Z.mod_pos_bound val pw Hpos) as Hm.
      rewrite Z.mod_eq in Hm by lia. lia. }
    destruct (Z.leb_spec 0 (val / pw)); [|lia].
    destruct (Z.ltb_spec (val / pw) 65); [|lia]. cbn [andb].
    destruct (IH ltac:(lia) _ Hr) as (digits & -> & Hlen & Hparse).
    eexists. split; [reflexivity|]. split; [cbn [length]; lia|].
    intros rest el Hel Hsum. rewrite <- app_comm_cons.
    cbn [Parse_element hd tl].
    rewrite digit_round_trip by lia.
    unfold pow_int. fold pw.
    destruct (Z.leb_spec pw 2147483647); [|lia].
    assert (0 <= val / pw * pw) by (apply Z.mul_nonneg_nonneg; lia).
    set (qp := val / pw * pw) in *. clearbody qp. clearbody pw.
    rewrite (IDAArith.int32_small qp) by (clear - Hr Hval Hfit H2; lia).
    rewrite IDAArith.int32_small by (clear - Hr Hsum Hel H2; lia).
    rewrite Hparse by (clear - Hr Hsum Hel H2; lia).
    replace (el + qp + (val - qp)) with (el + val) by lia. reflexivity.
Qed.

(** The digits of [64 ^ i] begin with the null character that ends
    [BASE_64_ALPHABET]. *)
Lemma Serialize_digits_at_max (i : nat) :
  64 ^ Z.of_nat i <= 2147483647 ->
  exists digits,
    Serialize_digits (S i) (64 ^ Z.of_nat (S i)) = Some (zero :: digits) /\
    length digits = i.
Proof.
  intro Hfit. pose proof (pow64_pos i) as Hpos.
  cbn [Serialize_digits]. cbv zeta. rewrite pow64_succ.
  rewrite Z.quot_mul by lia. cbn [Z.leb Z.ltb Z.compare andb].
  replace (64 * 64 ^ Z.of_nat i - 64 * 64 ^ Z.of_nat i) with 0 by lia.
  destruct (Serialize_digits_below i Hfit 0 ltac:(lia))
    as (digits & -> & Hlen & _).
  exists digits. split; [reflexivity | exact Hlen].
Qed.

Lemma Parse_loop_round_trip (num_digits : nat) (frag : IDA.Vector) :
  (1 <= num_digits)%nat ->
  64 ^ Z.of_nat num_digits <= 2147483647 ->
  Forall (fun val => 0 <= val <= 64 ^ Z.of_nat num_digits) frag ->
  exists res,
    Serialize_loop (Z.of_nat num_digits) (64 ^ Z.of_nat num_digits) frag
    = Returned res /\
    length res = (num_digits * length frag)%nat /\
    forall fuel, (length res <= fuel)%nat ->
      Parse_loop fuel num_digits res
      = Some (if forallb (fun val => val <? 64 ^ Z.of_nat num_digits) frag
              then Returned frag else Raised "map::at").
Proof.
  intros Hnd Hfit. induction 1 as [|val frag Hval _ IH].
  - exists []. cbn [Serialize_loop length forallb]. rewrite Nat.mul_0_r.
    repeat split. intros fuel _. destruct fuel; reflexivity.
  - destruct IH as (res & Hser & Hlen & Hparse).
    cbn [Serialize_loop forallb]. rewrite Z.gtb_ltb.
    destruct (Z.ltb_spec (64 ^ Z.of_nat num_digits) val); [lia|].
    rewrite Nat2Z.id, Hser.
    destruct num_digits as [|i]; [lia|].
    destruct (Z.ltb_spec val (64 ^ Z.of_nat (S i))) as [Hlt|Hge].
    + destruct (Serialize_digits_below (S i) Hfit val ltac:(lia))
        as (digits & -> & Hdlen & Hread).
      exists (digits ++ res). split; [reflexivity|]. split.
      * rewrite length_app, Hlen, Hdlen. cbn [length]. lia.
      * intros fuel Hfuel. rewrite length_app, Hdlen in Hfuel.
        destruct digits as [|c digits]; [discriminate Hdlen|].
        destruct fuel as [|fuel]; [cbn [length] in Hfuel; lia|].
        rewrite <- app_comm_cons. cbn [Parse_loop andb].
        rewrite app_comm_cons, (Hread res 0) by lia.
        rewrite Hparse by lia. cbn [Z.add].
        destruct (forallb _ frag); reflexivity.
    + assert (val = 64 ^ Z.of_nat (S i)) as -> by lia.
      rewrite pow64_succ in Hfit.
      destruct (Serialize_digits_at_max i
                  ltac:(pose proof (pow64_pos i); lia))
        as (digits & -> & Hdlen).
      exists ((zero :: digits) ++ res). split; [reflexivity|]. split.
      * rewrite length_app, Hlen. cbn [length]. lia.
      * intros fuel Hfuel.
        destruct fuel as [|fuel]; [cbn [length app] in Hfuel; lia|].
        rewrite <- app_comm_cons. cbn [Parse_loop Parse_element hd andb].
        reflexivity.
Qed.


Lemma char_of_to_char (val : Z) :
  Z.of_N (N_of_ascii (to_char val)) = val mod 256.
Proof.
  unfold to_char. pose proof (Z.mod_pos_bound val 256 ltac:(lia)) as Hb.
  rewrite N_ascii_embedding by lia. lia.
Qed.



Lemma pop_zeroes_kept (c : ascii) (rest : list ascii) :
  c <> zero -> pop_zeroes (c :: rest) = Some (c :: rest).
Proof.
  intro Hc. cbn [pop_zeroes].
  destruct (Ascii.eqb_spec c zero); [contradiction | reflexivity].
Qed.

Lemma pop_zeroes_all (k : nat) : pop_zeroes (repeat zero k) = None.
Proof. induction k as [|k IH]; [reflexivity | exact IH]. Qed.

Lemma pop_zeroes_padding (k : nat) (c : ascii) (rest : list ascii) :
  c <> zero ->
  pop_zeroes (repeat zero k ++ c :: rest) = Some (c :: rest).
Proof.
  intro Hc. induction k as [|k IH]; [apply pop_zeroes_kept; exact Hc|].
  exact IH.
Qed.


End FragmentFacts.

(** X25.  [ParseFromBase64] reads back what [SerializeToBase64]
    wrote, for one to five digits per value and values from [0] to
    [64 ^ num_digits - 1].  The value [64 ^ num_digits] itself passes the
    test of [SerializeToBase64], which writes the null character that
    ends [BASE_64_ALPHABET] as its first digit; [ParseFromBase64] then
    throws the [std::out_of_range] of [map::at]. *)
Theorem Base64_round_trip (frag : IDA.Vector) (num_digits : Z) :
  1 <= num_digits <= 5 ->
  Forall (fun val => 0 <= val <= 64 ^ num_digits) frag ->
  exists serialized_frag,
    Fragment.SerializeToBase64 frag num_digits
    = Fragment.Returned serialized_frag /\
    Z.of_nat (String.length serialized_frag)
    = num_digits * Z.of_nat (length frag) /\
    Fragment.ParseFromBase64 serialized_frag num_digits
    = Some (if forallb (fun val => val <? 64 ^ num_digits) frag
            then Fragment.Returned frag
            else Fragment.Raised "map::at").
Proof.
  intros Hnd Hfrag.
  assert (Hfit : 64 ^ num_digits <= 2147483647).
  { apply Z.le_trans with (64 ^ 5); [|discriminate].
    apply Z.pow_le_mono_r; lia. }
  rewrite <- (Z2Nat.id num_digits) in Hfit, Hfrag by lia.
  destruct (FragmentFacts.Parse_loop_round_trip (Z.to_nat num_digits) frag
              ltac:(lia) Hfit Hfrag) as (res & Hser & Hlen & Hparse).
  rewrite Z2Nat.id in Hser, Hparse, Hfit by lia.
  exists (string_of_list_ascii res).
  unfold Fragment.SerializeToBase64, Fragment.pow_int.
  destruct (Z.leb_spec (64 ^ num_digits) 2147483647); [|lia].
  rewrite Hser. split; [reflexivity|].
  assert (Hslen : String.length (string_of_list_ascii res) = length res).
  { clear. induction res as [|c res IH]; [reflexivity|].
    cbn [string_of_list_ascii String.length length]. rewrite IH.
    reflexivity. }
  split; [rewrite Hslen, Hlen; lia|].
  unfold Fragment.ParseFromBase64.
  destruct (Z.eqb_spec num_digits 0); [lia|].
  destruct (Z.ltb_spec num_digits 0); [lia|].
  rewrite list_ascii_of_string_of_list_ascii, Hslen.
  apply Hparse. lia.
Qed.

Lemma Base64_round_trip_witness :
  exists serialized_frag,
    Fragment.SerializeToBase64 [0; 256; 4096; 65] 2
    = Fragment.Returned serialized_frag /\
    Z.of_nat (String.length serialized_frag)
    = 2 * Z.of_nat (length [0; 256; 4096; 65]) /\
    Fragment.ParseFromBase64 serialized_frag 2
    = Some (if forallb (fun val => val <? 64 ^ 2) [0; 256; 4096; 65]
            then Fragment.Returned [0; 256; 4096; 65]
            else Fragment.Raised "map::at").
Proof.
  apply (Base64_round_trip [0; 256; 4096; 65] 2).
  - lia.
  - repeat constructor; vm_compute; discriminate.
Defined.

(** X26.  [ParseFromBytes] reads back each value that
    [SerializeToBytes] wrote modulo 256: a fragment comes back unchanged
    exactly when all its values lie in [0 .. 255], and the residue 256 of
    the default modulus 257 comes back as 0. *)
Theorem Bytes_round_trip (frag : IDA.Vector) :
  Fragment.ParseFromBytes (Fragment.SerializeToBytes frag)
  = map (fun val => val mod 256) frag /\
  (Fragment.ParseFromBytes (Fragment.SerializeToBytes frag) = frag <->
   Forall (fun val => 0 <= val < 256) frag).
Proof.
  assert (Hread : Fragment.ParseFromBytes (Fragment.SerializeToBytes frag)
                  = map (fun val => val mod 256) frag).
  { unfold Fragment.ParseFromBytes, Fragment.SerializeToBytes.
    rewrite list_ascii_of_string_of_list_ascii, map_map.
    apply map_ext. intro val. apply FragmentFacts.char_of_to_char. }
  split; [exact Hread|]. rewrite Hread. clear Hread.
  induction frag as [|val frag IH]; [split; [constructor | reflexivity]|].
  cbn [map]. split.
  - intros [= Hval Hrest]. constructor.
    + rewrite <- Hval. apply Z.mod_pos_bound. lia.
    + apply IH. exact Hrest.
  - intro Hall. inversion Hall as [|? ? Hval Hrest]; subst.
    rewrite Z.mod_small by exact Hval. f_equal. apply IH. exact Hrest.
Qed.



(** ** Reading a range of keys *)

Module ReadRangeFacts.
Import Merkle MerkleInduction MerkleEquations MapFacts ChildrenFacts
       RangeFacts WellFormed HexFacts HashedFacts LargestFacts EntriesFacts
       OrderFacts.

Section Lists.

Variables A B : Type.

Lemma filter_concat (P : B -> bool) (g : A -> list B) (cs : list A) :
  filter P (concat (map g cs)) = concat (map (fun c => filter P (g c)) cs).
Proof.
  induction cs as [|c cs IH]; [reflexivity|].
  cbn [map concat]. rewrite filter_app, IH. reflexivity.
Qed.

Lemma concat_all_nil (f : A -> list B) (l : list A) :
  Forall (fun c => f c = []) l -> concat (map f l) = [].
Proof.
  induction 1 as [|c l Hc _ IH]; [reflexivity|].
  cbn [map concat]. rewrite Hc, IH. reflexivity.
Qed.

(** Where [f] is empty outside the [n] elements from the [a]-th on. *)
Lemma concat_middle (f : A -> list B) (cs : list A) (a n : nat) :
  (forall i c, nth_error cs i = Some c -> (i < a \/ a + n <= i)%nat ->
               f c = []) ->
  concat (map f cs) = concat (map f (firstn n (skipn a cs))).
Proof.
  intro Hout.
  rewrite <- (firstn_skipn a cs) at 1.
  rewrite <- (firstn_skipn n (skipn a cs)) at 1.
  rewrite !map_app, !concat_app.
  rewrite (concat_all_nil f (firstn a cs)).
  - rewrite (concat_all_nil f (skipn n (skipn a cs)));
      [rewrite app_nil_r; reflexivity|].
    apply Forall_forall. intros c Hc.
    apply In_nth_error in Hc. destruct Hc as [i Hi].
    rewrite !nth_error_skipn in Hi.
    apply (Hout _ c Hi). lia.
  - apply Forall_forall. intros c Hc.
    apply In_nth_error in Hc. destruct Hc as [i Hi].
    assert (Hlt : (i < a)%nat).
    { assert (Hsome : nth_error (firstn a cs) i <> None) by congruence.
      apply nth_error_Some in Hsome. rewrite length_firstn in Hsome. lia. }
    rewrite nth_error_firstn in Hi.
    destruct (Nat.ltb_spec i a); [|lia].
    apply (Hout i c Hi). lia.
Qed.

End Lists.

Section Ranges.

Variable V : Type.
Variable sha1 : string -> Z.
Hypothesis sha1_pos : forall str, 0 < sha1 str.

Lemma keys_sorted_filter (P : Z * V -> bool) (l : list (Z * V)) :
  keys_sorted l -> keys_sorted (filter P l).
Proof.
  induction l as [|kv l IH]; intro Hs; [exact Hs|].
  apply keys_sorted_cons in Hs. destruct Hs as [Hl Hkv].
  cbn [filter]. destruct (P kv); [|apply IH; exact Hl].
  apply keys_sorted_cons. split; [apply IH; exact Hl|].
  intros kv' Hin. apply filter_In in Hin. apply Hkv. apply Hin.
Qed.

Lemma map_insert_all_sorted (entries : list (Z * V)) :
  keys_sorted entries -> map_insert_all entries [] = entries.
Proof.
  intro Hs. apply (map_insert_all_app V entries []). exact Hs.
Qed.

Lemma between_clamped (lb ub mn mx : Z) (entries : list (Z * V)) :
  keys_within mn mx entries ->
  entries_between (if lb <? mn then mn else lb)
                  (if ub >? mx then mx else ub) entries
  = entries_between lb ub entries.
Proof.
  intro Hw. unfold entries_between. apply filter_ext_in. intros kv Hin.
  unfold keys_within in Hw. rewrite Forall_forall in Hw.
  specialize (Hw kv Hin). rewrite Z.gtb_ltb.
  destruct (Z.ltb_spec lb mn); destruct (Z.ltb_spec mx ub); zbool.
Qed.

Lemma between_outside (lb ub mn mx : Z) (entries : list (Z * V)) :
  keys_within mn mx entries -> (mx <= lb \/ ub < mn) ->
  entries_between lb ub entries = [].
Proof.
  intros Hw Hout. unfold entries_between.
  unfold keys_within in Hw. rewrite Forall_forall in Hw.
  induction entries as [|kv entries IH]; [reflexivity|].
  cbn [filter]. pose proof (Hw kv (or_introl eq_refl)) as Hkv.
  rewrite IH by (intros kv' Hin; apply Hw; right; exact Hin).
  destruct Hout; zbool.
Qed.

Lemma InBetween_between (k lb ub : Z) :
  0 <= k < 2 ^ 128 -> 0 <= lb -> lb <= ub -> ub <= 2 ^ 128 ->
  Key.InBetween k lb ub true = ((lb <=? k) && (k <=? ub)).
Proof.
  intros Hk Hlb Hle Hub. unfold Key.InBetween.
  rewrite <- two_128 in *.
  destruct (Z.eqb_spec lb ub) as [->|Hne].
  - destruct (Z.eqb_spec k ub); zbool.
  - cbv zeta. destruct (Z.ltb_spec lb ub); [|lia].
    rewrite (Z.mod_small lb) by lia. rewrite (Z.mod_small k) by lia.
    reflexivity.
Qed.

(** The index [ChildNum] computes on a node of a well-formed tree, for
    any key. *)
Lemma ChildNum_any d mn mx h pos cs (data : list (Z * V)) lg key :
  length pos = d -> (d <= 41)%nat -> range_ok d mn mx ->
  let index := ChildNum (mkTree mn mx h pos cs data lg) key in
  0 <= index < 8 /\
  (key < mn -> index = 0) /\
  (mx <= key -> index = 7) /\
  (mn <= key < mx ->
   mn + index * width (S d) <= key < mn + (index + 1) * width (S d)).
Proof.
  intros Hpos Hd Hr. cbv zeta.
  split; [apply ChildNum_bound|].
  split; [|split].
  - intro Hlt. unfold ChildNum. cbn [max_key_ min_key_].
    destruct Hr as (Hmx & _). pose proof (width_pos d ltac:(lia)).
    rewrite Z.geb_leb. destruct (Z.leb_spec mx key); [lia|].
    destruct (Z.ltb_spec key mn); [reflexivity | lia].
  - intro Hge. unfold ChildNum. cbn [max_key_].
    rewrite Z.geb_leb. destruct (Z.leb_spec mx key); [reflexivity | lia].
  - intro Hin.
    apply (ChildNum_wf V d mn mx h pos cs data lg key Hpos Hd Hr Hin).
Qed.

Lemma GetEntries_leaf mn mx h pos (data : list (Z * V)) lg :
  hashed sha1 (mkTree mn mx h pos [] data lg) ->
  GetEntries (mkTree mn mx h pos [] data lg) = data.
Proof.
  intro Hh. inversion Hh as [? ? ? ? ? ? ? Ehash _]; subst.
  rewrite GetEntries_eq.
  destruct (Z.eqb_spec (Rehash_value sha1 [] data) 0) as [Hz|_];
    [|reflexivity].
  symmetry. apply (leaf_hash_zero V sha1 sha1_pos). exact Hz.
Qed.

(** The loop of [ReadRange] collects what its rounds read, in order. *)
Lemma ReadRange_loop_spec
      (read : MerkleTree V -> Z -> Z -> option (result (list (Z * V))))
      (lb ub : Z) (cs : list (MerkleTree V)) (rounds : nat) :
  forall i acc,
    (forall j c, (i <= j < i + rounds)%nat -> nth_error cs j = Some c ->
       read c (if lb <? min_key_ c then min_key_ c else lb)
              (if ub >? max_key_ c then max_key_ c else ub)
       = Some (Ok (entries_between lb ub (GetEntries c)))) ->
    (i + rounds <= length cs)%nat ->
    keys_sorted
      (acc ++ concat (map (fun c => entries_between lb ub (GetEntries c))
                          (firstn rounds (skipn i cs)))) ->
    ReadRange_loop read lb ub cs rounds i acc
    = Some (Ok (acc ++ concat
                  (map (fun c => entries_between lb ub (GetEntries c))
                       (firstn rounds (skipn i cs))))).
Proof.
  induction rounds as [|rounds IH]; intros i acc Hread Hlen Hsorted.
  - cbn [ReadRange_loop firstn map concat]. rewrite app_nil_r. reflexivity.
  - cbn [ReadRange_loop].
    destruct (nth_error cs i) as [c|] eqn:Hc.
    2:{ apply nth_error_None in Hc. lia. }
    cbv zeta. rewrite (Hread i c ltac:(lia) Hc).
    assert (Hskip : skipn i cs = c :: skipn (S i) cs)
      by (apply CreateFacts.nth_error_skipn_cons; exact Hc).
    rewrite Hskip in *. cbn [firstn map concat] in *.
    rewrite app_assoc in Hsorted.
    pose proof Hsorted as Hprefix.
    apply keys_sorted_app in Hprefix. destruct Hprefix as (Hprefix & _ & _).
    rewrite (map_insert_all_app V _ acc Hprefix).
    rewrite (IH (S i) (acc ++ entries_between lb ub (GetEntries c)));
      [rewrite <- app_assoc; reflexivity | | lia | exact Hsorted].
    intros j c' Hj Hc'. apply (Hread j); [lia | exact Hc'].
Qed.

(** [ReadRange] on a range that does not wrap. *)
Lemma ReadRange_spec (t : MerkleTree V) :
  forall d fuel lb ub,
    wf d t -> hashed sha1 t ->
    0 <= lb -> lb <= ub -> ub <= 2 ^ 128 ->
    (43 - d < fuel)%nat ->
    ReadRange fuel t lb ub
    = Some (Ok (entries_between lb ub (GetEntries t))).
Proof.
  induction t as [mn mx h pos cs data lg IH] using MerkleTree_ind.
  rewrite Forall_forall in IH. intros d fuel lb ub Hwf Hh Hlb Hle Hub Hfuel.
  destruct fuel as [|fuel]; [lia|]. cbn [ReadRange].
  inversion Hwf as [? ? ? ? ? ? ? Hpos Hd Hr Hs Hw
                   |? ? ? ? ? ? ? Hpos Hd Hr Hl Hch]; subst.
  - cbn [IsLeaf child_nodes_ data_].
    rewrite (GetEntries_leaf _ _ _ _ _ _ Hh).
    assert (Hfilter :
              filter (fun kv => Key.InBetween (fst kv) lb ub true) data
              = entries_between lb ub data).
    { unfold entries_between. apply filter_ext_in. intros kv Hin.
      unfold keys_within in Hw. rewrite Forall_forall in Hw.
      specialize (Hw kv Hin). destruct Hr as (Hmx & Hmn & _ & Htop).
      apply InBetween_between; lia. }
    rewrite Hfilter, map_insert_all_sorted; [reflexivity|].
    apply keys_sorted_filter. exact Hs.
  - destruct cs as [|c0 cs0]; [discriminate Hl|].
    set (cs := c0 :: cs0) in *.
    assert (Hne : cs <> []) by discriminate.
    cbn [IsLeaf child_nodes_]. fold cs. cbv zeta.
    inversion Hh as [? ? ? ? ? ? ? Ehash Hhcs]; subst.
    rewrite (GetEntries_node V sha1 sha1_pos (length pos) mn mx _ pos cs lg
                             Hwf Hh Hne).
    set (t := mkTree mn mx (Rehash_value sha1 cs []) pos cs [] lg) in *.
    destruct (child_window V (length pos) mn mx _ pos cs lg O c0 Hwf Hne eq_refl)
      as (_ & _ & _ & Hmx & Hwpos & _ & _).
    set (w := width (S (length pos))) in *.
    assert (Hchild : forall i c, nth_error cs i = Some c ->
               wf (S (length pos)) c /\ hashed sha1 c /\
               min_key_ c = mn + Z.of_nat i * w /\
               max_key_ c = mn + (Z.of_nat i + 1) * w /\
               keys_sorted (GetEntries c) /\
               keys_within (min_key_ c) (max_key_ c) (GetEntries c)).
    { intros i c Hc.
      destruct (child_window V (length pos) mn mx _ pos cs lg i c Hwf Hne Hc)
        as (Hwfc & _ & _ & _ & _ & Hmin & Hmax).
      assert (Hhc : hashed sha1 c)
        by (apply Hhcs; eapply nth_error_In; exact Hc).
      destruct (GetEntries_spec V sha1 sha1_pos c _ Hwfc Hhc) as (Hsc & Hwc & _).
      repeat split; assumption. }
    destruct (ChildNum_any (length pos) mn mx (Rehash_value sha1 cs []) pos cs
                           [] lg lb eq_refl Hd Hr)
      as (Hab & Halow & Hahigh & Hain).
    destruct (ChildNum_any (length pos) mn mx (Rehash_value sha1 cs []) pos cs
                           [] lg ub eq_refl Hd Hr)
      as (Hbb & Hblow & Hbhigh & Hbin).
    fold t in Hab, Halow, Hahigh, Hain, Hbb, Hblow, Hbhigh, Hbin.
    fold w in Hain, Hbin.
    set (a := ChildNum t lb) in *. set (b := ChildNum t ub) in *.
    assert (Hw0 : 0 <= w) by lia.
    assert (Hmono : a <= b).
    { destruct (Z.lt_ge_cases lb mn); [lia|].
      destruct (Z.le_gt_cases mx ub); [lia|].
      specialize (Hain ltac:(lia)). specialize (Hbin ltac:(lia)).
      destruct (Z.le_gt_cases a b) as [Hle'|Hgt]; [exact Hle'|].
      pose proof (Z.mul_le_mono_nonneg_r (b + 1) a w Hw0 ltac:(lia)). lia. }
    (* entries of the children before [a] and after [b] are outside *)
    assert (Hout : forall i c, nth_error cs i = Some c ->
               (i < Z.to_nat a \/ Z.to_nat a + Z.to_nat (b - a + 1) <= i)%nat ->
               entries_between lb ub (GetEntries c) = []).
    { intros i c Hc Hi.
      destruct (Hchild i c Hc) as (_ & _ & Hmin & Hmax & _ & Hwc).
      apply (between_outside lb ub _ _ _ Hwc).
      rewrite Hmin, Hmax.
      assert (Hi8 : (i < 8)%nat).
      { rewrite <- Hl. apply nth_error_Some. congruence. }
      pose proof (Z.mul_le_mono_nonneg_r (Z.of_nat i + 1) 8 w Hw0 ltac:(lia))
        as Htop.
      pose proof (Z.mul_nonneg_nonneg (Z.of_nat i) w ltac:(lia) Hw0) as Hbot.
      destruct Hi as [Hi|Hi].
      - left. destruct (Z.lt_ge_cases lb mn); [lia|].
        destruct (Z.le_gt_cases mx lb); [lia|].
        specialize (Hain ltac:(lia)).
        pose proof (Z.mul_le_mono_nonneg_r (Z.of_nat i + 1) a w Hw0
                                           ltac:(lia)).
        lia.
      - right. destruct (Z.le_gt_cases mx ub); [lia|].
        destruct (Z.lt_ge_cases ub mn); [lia|].
        specialize (Hbin ltac:(lia)).
        pose proof (Z.mul_le_mono_nonneg_r (b + 1) (Z.of_nat i) w Hw0
                                           ltac:(lia)).
        lia. }
    assert (Hmiddle :
              entries_between lb ub (concat (map (@GetEntries V) cs))
              = concat (map (fun c => entries_between lb ub (GetEntries c))
                            (firstn (Z.to_nat (b - a + 1))
                                    (skipn (Z.to_nat a) cs)))).
    { unfold entries_between at 1. rewrite filter_concat.
      apply (concat_middle _ _
               (fun c => entries_between lb ub (GetEntries c))).
      exact Hout. }
    rewrite Hmiddle.
    assert (Hsorted :
              keys_sorted
                (concat (map (fun c => entries_between lb ub (GetEntries c))
                             (firstn (Z.to_nat (b - a + 1))
                                     (skipn (Z.to_nat a) cs))))).
    { rewrite <- Hmiddle. apply keys_sorted_filter.
      rewrite <- (GetEntries_node V sha1 sha1_pos (length pos) mn mx _ pos cs
                                  lg Hwf Hh Hne).
      apply (GetEntries_spec V sha1 sha1_pos t _ Hwf Hh). }
    destruct (Z.ltb_spec a b) as [Hlt|Hge].
    + (* several children *)
      rewrite (ReadRange_loop_spec (ReadRange fuel) lb ub cs);
        [reflexivity | | rewrite Hl; lia | exact Hsorted].
      intros j c Hj Hc.
      destruct (Hchild j c Hc) as (Hwfc & Hhc & Hmin & Hmax & _ & Hwc).
      pose proof (wf_fields V _ _ Hwfc) as (_ & _ & (_ & Hcmn & _ & Hctop)).
      rewrite (IH c (nth_error_In _ _ Hc) (S (length pos)) fuel);
        try assumption; try lia.
      * rewrite (between_clamped lb ub _ _ _ Hwc). reflexivity.
      * destruct (Z.ltb_spec lb (min_key_ c)); lia.
      * assert (Hj8 : (j < 8)%nat).
        { rewrite <- Hl. apply nth_error_Some. congruence. }
        pose proof (Z.mul_le_mono_nonneg_r (Z.of_nat j) 8 w Hw0 ltac:(lia))
          as Htop.
        pose proof (Z.mul_nonneg_nonneg (Z.of_nat j + 1) w ltac:(lia) Hw0)
          as Hbot.
        assert (Hcub : min_key_ c <= ub).
        { rewrite Hmin.
          destruct (Z.le_gt_cases mx ub); [lia|].
          destruct (Z.lt_ge_cases ub mn); [lia|].
          specialize (Hbin ltac:(lia)).
          pose proof (Z.mul_le_mono_nonneg_r (Z.of_nat j) b w Hw0 ltac:(lia)).
          lia. }
        assert (Hclb : lb <= max_key_ c).
        { rewrite Hmax.
          destruct (Z.lt_ge_cases lb mn); [lia|].
          destruct (Z.le_gt_cases mx lb); [lia|].
          specialize (Hain ltac:(lia)).
          pose proof (Z.mul_le_mono_nonneg_r (a + 1) (Z.of_nat j + 1) w Hw0
                                             ltac:(lia)).
          lia. }
        assert (Hcw : min_key_ c <= max_key_ c) by (rewrite Hmin, Hmax; lia).
        rewrite Z.gtb_ltb.
        destruct (Z.ltb_spec lb (min_key_ c));
          destruct (Z.ltb_spec (max_key_ c) ub); lia.
      * rewrite Z.gtb_ltb. destruct (Z.ltb_spec (max_key_ c) ub); lia.
    + (* one child *)
      rewrite Z.gtb_ltb. destruct (Z.ltb_spec b a); [lia|].
      assert (Hab' : b = a) by lia.
      rewrite Hab' in *. replace (a - a + 1) with 1 in * by lia.
      destruct (nth_error cs (Z.to_nat a)) as [c|] eqn:Hc.
      2:{ apply nth_error_None in Hc. rewrite Hl in Hc. lia. }
      rewrite (CreateFacts.nth_error_skipn_cons _ _ _ _ Hc).
      change (Z.to_nat 1) with 1%nat. cbn [firstn map concat].
      rewrite app_nil_r.
      destruct (Hchild _ c Hc) as (Hwfc & Hhc & _).
      apply (IH c (nth_error_In _ _ Hc) (S (length pos)) fuel);
        try assumption; lia.
Qed.

(** What [ReadRange] returns is held by the subtree, whatever the
    bounds. *)
Lemma map_insert_In (key : Z) (val : V) (data : list (Z * V)) (kv : Z * V) :
  In kv (map_insert key val data) -> kv = (key, val) \/ In kv data.
Proof.
  induction data as [|[k v] data IH]; cbn [map_insert].
  - intros [<-|[]]. left. reflexivity.
  - destruct (key <? k); [intros [<-|Hin]; [left; reflexivity | right; exact Hin]|].
    destruct (key =? k); [intro Hin; right; exact Hin|].
    intros [<-|Hin]; [right; left; reflexivity|].
    destruct (IH Hin) as [->|Hin']; [left; reflexivity | right; right; exact Hin'].
Qed.

Lemma map_insert_all_In (entries : list (Z * V)) :
  forall acc kv, In kv (map_insert_all entries acc) ->
                 In kv entries \/ In kv acc.
Proof.
  unfold map_insert_all.
  induction entries as [|[k v] entries IH]; intros acc kv Hin;
    [right; exact Hin|].
  cbn [fold_left fst snd] in Hin. apply IH in Hin.
  destruct Hin as [Hin|Hin]; [left; right; exact Hin|].
  apply map_insert_In in Hin.
  destruct Hin as [->|Hin]; [left; left; reflexivity | right; exact Hin].
Qed.

Lemma ReadRange_loop_incl
      (read : MerkleTree V -> Z -> Z -> option (result (list (Z * V))))
      (lb ub : Z) (cs : list (MerkleTree V)) (rounds : nat) :
  (forall c lo up r, In c cs -> read c lo up = Some (Ok r) ->
                     incl r (GetEntries c)) ->
  forall i acc r,
    ReadRange_loop read lb ub cs rounds i acc = Some (Ok r) ->
    forall kv, In kv r ->
      In kv acc \/ In kv (concat (map (@GetEntries V) cs)).
Proof.
  intro Hread. induction rounds as [|rounds IH]; intros i acc r Hloop kv Hin.
  - cbn [ReadRange_loop] in Hloop. injection Hloop as <-. left. exact Hin.
  - cbn [ReadRange_loop] in Hloop.
    destruct (nth_error cs i) as [c|] eqn:Hc; [|discriminate Hloop].
    cbv zeta in Hloop.
    destruct (read c _ _) as [[keys_in_node|what]|] eqn:Hr;
      try discriminate Hloop.
    destruct (IH _ _ _ Hloop kv Hin) as [Hacc|Hcat]; [|right; exact Hcat].
    apply map_insert_all_In in Hacc.
    destruct Hacc as [Hnode|Hacc]; [|left; exact Hacc].
    right. apply in_concat. exists (GetEntries c). split.
    + apply in_map. eapply nth_error_In. exact Hc.
    + apply (Hread c _ _ _ (nth_error_In _ _ Hc) Hr). exact Hnode.
Qed.

Lemma ReadRange_incl (fuel : nat) :
  forall (t : MerkleTree V) d lb ub r,
    wf d t -> hashed sha1 t ->
    ReadRange fuel t lb ub = Some (Ok r) -> incl r (GetEntries t).
Proof.
  induction fuel as [|fuel IH]; intros t d lb ub r Hwf Hh Hread;
    [discriminate Hread|].
  destruct t as [mn mx h pos cs data lg]. cbn [ReadRange] in Hread.
  inversion Hwf as [? ? ? ? ? ? ? Hpos Hd Hr Hs Hw
                   |? ? ? ? ? ? ? Hpos Hd Hr Hl Hch]; subst.
  - cbn [IsLeaf child_nodes_ data_] in Hread. injection Hread as <-.
    rewrite (GetEntries_leaf _ _ _ _ _ _ Hh). intros kv Hin.
    apply map_insert_all_In in Hin. destruct Hin as [Hin|[]].
    apply filter_In in Hin. apply Hin.
  - destruct cs as [|c0 cs0]; [discriminate Hl|].
    set (cs := c0 :: cs0) in *.
    assert (Hne : cs <> []) by discriminate.
    cbn [IsLeaf child_nodes_] in Hread. fold cs in Hread. cbv zeta in Hread.
    pose proof Hh as Hh'.
    inversion Hh' as [? ? ? ? ? ? ? Ehash Hhcs]; subst.
    rewrite (GetEntries_node V sha1 sha1_pos (length pos) mn mx _ pos cs lg
                             Hwf Hh Hne).
    assert (Hchildren : forall c lo up r', In c cs ->
               ReadRange fuel c lo up = Some (Ok r') ->
               incl r' (GetEntries c)).
    { intros c lo up r' Hc Hrc.
      apply In_nth_error in Hc. destruct Hc as [i Hc].
      destruct (Hch i c Hc) as [_ Hwfc].
      apply (IH c _ lo up r' Hwfc); [|exact Hrc].
      apply Hhcs. eapply nth_error_In. exact Hc. }
    assert (Hself : forall lo up r',
               ReadRange fuel (mkTree mn mx (Rehash_value sha1 cs []) pos cs
                                      [] lg) lo up = Some (Ok r') ->
               incl r' (concat (map (@GetEntries V) cs))).
    { intros lo up r' Hrt.
      rewrite <- (GetEntries_node V sha1 sha1_pos (length pos) mn mx _ pos cs
                                  lg Hwf Hh Hne).
      apply (IH _ _ lo up r' Hwf Hh Hrt). }
    destruct (_ <? _).
    + intros kv Hin.
      destruct (ReadRange_loop_incl _ lb ub cs _ Hchildren _ _ _ Hread kv Hin)
        as [[]|Hcat].
      exact Hcat.
    + destruct (_ >? _).
      * destruct (ReadRange fuel _ 0 ub) as [[below_ub|what]|] eqn:Hbelow;
          try discriminate Hread.
        destruct (ReadRange fuel _ lb (Key.keys_in_ring - 1))
          as [[above_lb|what]|] eqn:Habove; try discriminate Hread.
        injection Hread as <-. intros kv Hin.
        apply map_insert_all_In in Hin. destruct Hin as [Hin|Hin].
        -- apply (Hself _ _ _ Habove). exact Hin.
        -- apply (Hself _ _ _ Hbelow). exact Hin.
      * destruct (nth_error cs _) as [c|] eqn:Hc; [|discriminate Hread].
        intros kv Hin. apply in_concat. exists (GetEntries c). split.
        -- apply in_map. eapply nth_error_In. exact Hc.
        -- apply (Hchildren c _ _ _ (nth_error_In _ _ Hc) Hread). exact Hin.
Qed.

(** The two halves of a range that wraps. *)
Lemma between_wrapped (lb ub top : Z) (entries : list (Z * V)) :
  keys_sorted entries -> keys_within 0 (top + 1) entries -> ub < lb ->
  entries_between 0 ub entries ++ entries_between lb top entries
  = filter (fun kv => (fst kv <=? ub) || (lb <=? fst kv)) entries.
Proof.
  intros Hs Hw Hlt. unfold entries_between.
  induction entries as [|kv entries IH]; [reflexivity|].
  apply keys_sorted_cons in Hs. destruct Hs as [Hs Hkv].
  inversion Hw as [|? ? Hk Hw']; subst. cbn [filter].
  specialize (IH Hs Hw').
  destruct (Z.leb_spec (fst kv) ub) as [Hle|Hgt].
  - destruct (Z.leb_spec 0 (fst kv)); [|lia].
    destruct (Z.leb_spec lb (fst kv)); [lia|]. cbn [andb orb app].
    rewrite <- IH. reflexivity.
  - rewrite andb_false_r. cbn [orb].
    assert (Hnone : filter (fun kv0 => (0 <=? fst kv0) && (fst kv0 <=? ub))
                           entries = []).
    { apply (between_outside 0 ub (fst kv) (top + 1)); [|right; lia].
      apply Forall_forall. intros kv' Hin.
      unfold keys_within in Hw'. rewrite Forall_forall in Hw'.
      specialize (Hkv kv' Hin). specialize (Hw' kv' Hin). lia. }
    rewrite Hnone in *. cbn [app] in *.
    destruct (Z.leb_spec (fst kv) top); [|lia]. rewrite andb_true_r.
    destruct (Z.leb_spec lb (fst kv)); rewrite IH; reflexivity.
Qed.

(** At the root: a range that wraps and whose bounds fall under
    different children. *)
Lemma ReadRange_wrapped (t : MerkleTree V) (fuel : nat) (lb ub : Z) :
  wf 0 t -> hashed sha1 t -> child_nodes_ t <> [] ->
  Key.in_ring lb -> Key.in_ring ub -> ub < lb ->
  ChildNum t lb <> ChildNum t ub ->
  (44 < fuel)%nat ->
  ReadRange fuel t lb ub
  = Some (Ok (filter (fun kv => (fst kv <=? ub) || (lb <=? fst kv))
                     (GetEntries t))).
Proof.
  intros Hwf Hh Hne Hlb Hub Hlt Hidx Hfuel.
  destruct fuel as [|fuel]; [lia|].
  destruct (root_range V t Hwf) as (Hmin & Hmax).
  destruct (GetEntries_spec V sha1 sha1_pos t 0 Hwf Hh) as (Hs & Hw & _).
  rewrite Hmin, Hmax in Hw.
  destruct t as [mn mx h pos cs data lg].
  cbn [min_key_ max_key_ child_nodes_] in *. subst mn mx.
  inversion Hwf as [? ? ? ? ? ? ? Hpos Hd Hr Hsd Hwd
                   |? ? ? ? ? ? ? Hpos Hd Hr Hl Hch]; subst;
    [contradiction Hne; reflexivity|].
  unfold Key.in_ring in Hlb, Hub. rewrite <- two_128 in *.
  destruct (ChildNum_any 0 0 (2 ^ 128) h pos cs [] lg lb Hpos Hd Hr)
    as (Hab & _ & _ & Hain).
  destruct (ChildNum_any 0 0 (2 ^ 128) h pos cs [] lg ub Hpos Hd Hr)
    as (Hbb & _ & _ & Hbin).
  specialize (Hain ltac:(lia)). specialize (Hbin ltac:(lia)).
  pose proof (width_pos 1 ltac:(lia)) as Hwpos.
  destruct cs as [|c0 cs0]; [discriminate Hl|].
  cbn [ReadRange]. cbn [IsLeaf child_nodes_]. cbv zeta.
  set (t := mkTree 0 (2 ^ 128) h pos (c0 :: cs0) [] lg) in *.
  set (a := ChildNum t lb) in *. set (b := ChildNum t ub) in *.
  destruct (Z.ltb_spec a b) as [Hltab|_]; [nia|].
  rewrite Z.gtb_ltb. destruct (Z.ltb_spec b a) as [_|Hge]; [|nia].
  pose proof two_128 as H128.
  rewrite (ReadRange_spec t 0 fuel 0 ub Hwf Hh); try lia.
  rewrite (ReadRange_spec t 0 fuel lb (Key.keys_in_ring - 1) Hwf Hh);
    try lia.
  f_equal. f_equal. rewrite <- H128.
  assert (Hw' : keys_within 0 (2 ^ 128 - 1 + 1) (GetEntries t))
    by (replace (2 ^ 128 - 1 + 1) with (2 ^ 128) by lia; exact Hw).
  rewrite <- (between_wrapped lb ub (2 ^ 128 - 1) _ Hs Hw' Hlt).
  apply map_insert_all_app.
  rewrite (between_wrapped lb ub (2 ^ 128 - 1) _ Hs Hw' Hlt).
  apply keys_sorted_filter. exact Hs.
Qed.

(** At the root: bounds that fall under the same child are passed on to
    that child, whose entries are all that can come back. *)
Lemma ReadRange_same_child (t : MerkleTree V) (fuel : nat) (lb ub : Z)
      (r : list (Z * V)) (kv : Z * V) :
  wf 0 t -> hashed sha1 t -> child_nodes_ t <> [] ->
  ChildNum t lb = ChildNum t ub ->
  ReadRange fuel t lb ub = Some (Ok r) -> In kv r ->
  In kv (GetEntries t) /\ ChildNum t (fst kv) = ChildNum t lb.
Proof.
  intros Hwf Hh Hne Hidx Hread Hin.
  split; [apply (ReadRange_incl fuel t 0 lb ub r Hwf Hh Hread); exact Hin|].
  destruct fuel as [|fuel]; [discriminate Hread|].
  destruct (root_range V t Hwf) as (Hmin & Hmax).
  destruct t as [mn mx h pos cs data lg].
  cbn [min_key_ max_key_ child_nodes_] in *. subst mn mx.
  inversion Hwf as [? ? ? ? ? ? ? Hpos Hd Hr Hsd Hwd
                   |? ? ? ? ? ? ? Hpos Hd Hr Hl Hch]; subst;
    [contradiction Hne; reflexivity|].
  inversion Hh as [? ? ? ? ? ? ? Ehash Hhcs]; subst.
  destruct cs as [|c0 cs0]; [discriminate Hl|].
  cbn [ReadRange] in Hread. cbn [IsLeaf child_nodes_] in Hread.
  cbv zeta in Hread.
  set (t := mkTree 0 Key.keys_in_ring _ pos (c0 :: cs0) [] lg) in *.
  rewrite <- Hidx in Hread. rewrite Z.ltb_irrefl in Hread.
  rewrite Z.gtb_ltb, Z.ltb_irrefl in Hread.
  destruct (nth_error (c0 :: cs0) (Z.to_nat (ChildNum t lb))) as [c|] eqn:Hc;
    [|discriminate Hread].
  destruct (child_window V 0 0 Key.keys_in_ring _ pos (c0 :: cs0) lg _ c Hwf
                         Hne Hc)
    as (Hwfc & _ & _ & _ & Hwpos & Hcmin & Hcmax).
  assert (Hhc : hashed sha1 c) by (apply Hhcs; eapply nth_error_In; exact Hc).
  pose proof (ReadRange_incl fuel c 1 lb ub r Hwfc Hhc Hread kv Hin) as Hkv.
  destruct (GetEntries_spec V sha1 sha1_pos c 1 Hwfc Hhc) as (_ & Hwc & _).
  unfold keys_within in Hwc. rewrite Forall_forall in Hwc.
  specialize (Hwc kv Hkv). rewrite Hcmin, Hcmax in Hwc.
  pose proof (ChildNum_bound V t lb) as Hab.
  rewrite Z2Nat.id in Hwc by lia.
  pose proof (width_S 0 ltac:(lia)) as Hw8.
  change (width 0) with (2 ^ 128) in Hw8. rewrite two_128 in Hw8.
  destruct (ChildNum_any 0 0 Key.keys_in_ring (Rehash_value sha1 (c0 :: cs0) [])
                         pos (c0 :: cs0) [] lg (fst kv) Hpos Hd Hr)
    as (Hkb & _ & _ & Hkin).
  fold t in Hkb, Hkin. specialize (Hkin ltac:(nia)). nia.
Qed.

(** A call with a range that wraps returns: the bounds fall under one
    child, which is called with them, or the node is called twice with a
    range that does not wrap; fuel for the depth of the tree and one call
    more suffices. *)
Lemma ReadRange_total (t : MerkleTree V) :
  forall d fuel lb ub,
    wf d t -> hashed sha1 t ->
    0 <= ub -> ub < lb -> lb < 2 ^ 128 ->
    (44 - d < fuel)%nat ->
    exists r, ReadRange fuel t lb ub = Some (Ok r).
Proof.
  induction t as [mn mx h pos cs data lg IH] using MerkleTree_ind.
  rewrite Forall_forall in IH. intros d fuel lb ub Hwf Hh Hub Hlt Hlb Hfuel.
  destruct fuel as [|fuel]; [lia|]. cbn [ReadRange].
  inversion Hwf as [? ? ? ? ? ? ? Hpos Hd Hr Hs Hw
                   |? ? ? ? ? ? ? Hpos Hd Hr Hl Hch]; subst.
  - cbn [IsLeaf child_nodes_ data_]. eexists. reflexivity.
  - destruct cs as [|c0 cs0]; [discriminate Hl|].
    set (cs := c0 :: cs0) in *.
    assert (Hne : cs <> []) by discriminate.
    cbn [IsLeaf child_nodes_]. fold cs. cbv zeta.
    inversion Hh as [? ? ? ? ? ? ? Ehash Hhcs]; subst.
    set (t := mkTree mn mx (Rehash_value sha1 cs []) pos cs [] lg) in *.
    destruct (child_window V (length pos) mn mx _ pos cs lg O c0 Hwf Hne eq_refl)
      as (_ & _ & _ & Hmx & Hwpos & _ & _).
    set (w := width (S (length pos))) in *.
    destruct (ChildNum_any (length pos) mn mx (Rehash_value sha1 cs []) pos cs
                           [] lg lb eq_refl Hd Hr)
      as (Hab & Halow & Hahigh & Hain).
    destruct (ChildNum_any (length pos) mn mx (Rehash_value sha1 cs []) pos cs
                           [] lg ub eq_refl Hd Hr)
      as (Hbb & Hblow & Hbhigh & Hbin).
    fold t in Hab, Halow, Hahigh, Hain, Hbb, Hblow, Hbhigh, Hbin.
    fold w in Hain, Hbin.
    set (a := ChildNum t lb) in *. set (b := ChildNum t ub) in *.
    assert (Hw0 : 0 <= w) by lia.
    assert (Hmono : b <= a).
    { destruct (Z.lt_ge_cases ub mn); [lia|].
      destruct (Z.le_gt_cases mx lb); [lia|].
      specialize (Hain ltac:(lia)). specialize (Hbin ltac:(lia)).
      destruct (Z.le_gt_cases b a) as [Hle'|Hgt]; [exact Hle'|].
      pose proof (Z.mul_le_mono_nonneg_r (a + 1) b w Hw0 ltac:(lia)). lia. }
    destruct (Z.ltb_spec a b) as [Hltab|_]; [lia|].
    rewrite Z.gtb_ltb. destruct (Z.ltb_spec b a) as [Hgt|Hge].
    + pose proof two_128 as H128.
      rewrite (ReadRange_spec t (length pos) fuel 0 ub Hwf Hh); try lia.
      rewrite (ReadRange_spec t (length pos) fuel lb (Key.keys_in_ring - 1)
                              Hwf Hh); try lia.
      eexists. reflexivity.
    + assert (Hab' : b = a) by lia.
      destruct (nth_error cs (Z.to_nat a)) as [c|] eqn:Hc.
      2:{ apply nth_error_None in Hc. rewrite Hl in Hc. lia. }
      destruct (child_window V (length pos) mn mx _ pos cs lg _ c Hwf Hne Hc)
        as (Hwfc & _).
      assert (Hhc : hashed sha1 c)
        by (apply Hhcs; eapply nth_error_In; exact Hc).
      apply (IH c (nth_error_In _ _ Hc) (S (length pos)) fuel);
        try assumption; lia.
Qed.

End Ranges.

End ReadRangeFacts.

(** X28.  [ReadRange] at the root of a tree a peer can hold,
    with bounds of the ring.  For [lower_bound <= upper_bound] it returns
    the entries with a key from the one to the other, in key order.
    For a range that wraps, it returns the entries up to the upper bound
    and from the lower bound on when the bounds fall under different
    children of the root; when they fall under the same child, it
    returns a list of entries that all lie under that child, so that the
    entries of the range under the other children are left out.  In each
    case the call returns, and a call depth of 45 suffices. *)
Theorem ReadRange_reads_the_range (V : Type) (sha1 : string -> Z)
        (t : Merkle.MerkleTree V) (lower_bound upper_bound : Z)
        (fuel : nat) :
  (forall str, 0 < sha1 str) ->
  Merkle.reachable sha1 t ->
  Key.in_ring lower_bound -> Key.in_ring upper_bound -> (45 <= fuel)%nat ->
  (lower_bound <= upper_bound ->
   Merkle.ReadRange fuel t lower_bound upper_bound
   = Some (Ok (Merkle.entries_between lower_bound upper_bound
                                      (Merkle.GetEntries t)))) /\
  (upper_bound < lower_bound ->
   Merkle.ChildNum t lower_bound <> Merkle.ChildNum t upper_bound ->
   Merkle.ReadRange fuel t lower_bound upper_bound
   = Some (Ok (filter (fun kv => (fst kv <=? upper_bound)
                                 || (lower_bound <=? fst kv))
                      (Merkle.GetEntries t)))) /\
  (upper_bound < lower_bound ->
   Merkle.ChildNum t lower_bound = Merkle.ChildNum t upper_bound ->
   exists keys_in_range,
     Merkle.ReadRange fuel t lower_bound upper_bound
     = Some (Ok keys_in_range) /\
     forall kv,
       In kv keys_in_range ->
       In kv (Merkle.GetEntries t) /\
       Merkle.ChildNum t (fst kv) = Merkle.ChildNum t lower_bound).
Proof.
  intros Hpos Hreach Hlb Hub Hfuel.
  pose proof (WellFormed.reachable_wf V sha1 t Hreach) as Hwf.
  pose proof (HashedFacts.reachable_hashed V sha1 t Hreach) as Hh.
  pose proof (RootFacts.reachable_node V sha1 t Hreach) as Hne.
  pose proof RangeFacts.two_128 as H128.
  unfold Key.in_ring in Hlb, Hub.
  split; [|split].
  - intro Hle.
    apply (ReadRangeFacts.ReadRange_spec V sha1 Hpos t 0 fuel); try assumption;
      lia.
  - intros Hlt Hidx.
    apply (ReadRangeFacts.ReadRange_wrapped V sha1 Hpos t fuel);
      try assumption; try (unfold Key.in_ring; lia).
  - intros Hlt Hidx.
    destruct (ReadRangeFacts.ReadRange_total V sha1 Hpos t 0 fuel lower_bound
                upper_bound Hwf Hh ltac:(lia) Hlt ltac:(lia) ltac:(lia))
      as [keys_in_range Hread].
    exists keys_in_range. split; [exact Hread|]. intros kv Hin.
    apply (ReadRangeFacts.ReadRange_same_child V sha1 Hpos t fuel lower_bound
             upper_bound keys_in_range kv); assumption.
Qed.

Lemma ReadRange_reads_the_range_witness :
  Merkle.ReadRange 45 Scenario.store 4 9
  = Some (Ok (Merkle.entries_between 4 9 (Merkle.GetEntries Scenario.store))).
Proof.
  refine (proj1 (ReadRange_reads_the_range string Scenario.sha1 Scenario.store
                   4 9 45 _ _ _ _ _) _).
  - intro str. unfold Scenario.sha1. lia.
  - unfold Scenario.store.
    repeat (apply Merkle.reachable_step;
            [|split; [discriminate | reflexivity]]).
    apply Merkle.reachable_empty.
  - split; [discriminate | reflexivity].
  - split; [discriminate | reflexivity].
  - lia.
  - lia.
Defined.

(** ** A populated finger table *)

Module TableFacts.
Import Key FingerTable.

Lemma Lookup_fingers (starting_key key : Z) (successor : Z -> RemotePeer)
      (count : nat) :
  in_ring starting_key -> in_ring key ->
  forall first,
    (first + count <= 128)%nat ->
    cw_dist starting_key key = 0
    \/ 2 ^ Z.of_nat first <= cw_dist starting_key key ->
    Lookup (map (fun n =>
                   let entry_range :=
                     FingerTable.GetNthRange starting_key (Z.of_nat n) in
                   mkFinger (fst entry_range) (snd entry_range)
                            (successor (Z.of_nat n)))
                (seq first count)) key
    = if (0 <? cw_dist starting_key key)
         && (cw_dist starting_key key <? 2 ^ Z.of_nat (first + count))
      then Some (successor (Z.log2 (cw_dist starting_key key)))
      else None.
Proof.
  intros Hs Hk. set (dist := cw_dist starting_key key).
  induction count as [|count IH]; intros first Hlen Hfirst.
  - cbn [seq map Lookup]. rewrite Nat.add_0_r.
    pose proof (Z.pow_pos_nonneg 2 (Z.of_nat first) ltac:(lia) ltac:(lia)).
    destruct (Z.ltb_spec 0 dist); destruct (Z.ltb_spec dist (2 ^ Z.of_nat first));
      cbn [andb]; try reflexivity. lia.
  - cbn [seq map Lookup]. cbv zeta.
    cbn [lower_bound_ upper_bound_ successor_].
    destruct (RingFacts.pow2_finger (Z.of_nat first)
                ltac:(unfold FingerTable.num_entries; lia))
      as (Hd & Hpow & Hd2).
    unfold FingerTable.GetNthRange. cbv zeta. cbn [fst snd].
    rewrite Hpow, RingFacts.range_InBetween by assumption.
    fold dist.
    replace (Z.of_nat (first + S count))
      with (Z.of_nat (S first + count)) by lia.
    assert (Hmono : 2 * 2 ^ Z.of_nat first <= 2 ^ Z.of_nat (S first + count)).
    { rewrite <- Hpow. apply Z.pow_le_mono_r; lia. }
    destruct (Z.leb_spec (2 ^ Z.of_nat first) dist) as [Hge|Hlt].
    + destruct (Z.ltb_spec dist (2 * 2 ^ Z.of_nat first)) as [Hin|Hout];
        cbn [andb].
      * destruct (Z.ltb_spec 0 dist); [|lia].
        destruct (Z.ltb_spec dist (2 ^ Z.of_nat (S first + count))); [|lia].
        cbn [andb]. do 2 f_equal. symmetry.
        apply Z.log2_unique; [lia|]. rewrite Z.pow_succ_r by lia.
        lia.
      * apply (IH (S first)); [lia|]. right.
        rewrite Nat2Z.inj_succ, Z.pow_succ_r by lia. exact Hout.
    + cbn [andb]. apply (IH (S first)); [lia|]. left. lia.
Qed.

End TableFacts.

(** X29.  On a table holding the [num_entries_] ranges of
    [GetNthRange] in order, [Lookup] returns, for every key of the ring
    but the starting key, the successor entered for the range number
    [log2] of the clockwise distance from the starting key to the key;
    for the starting key itself it throws [ChordKey not found]. *)
Theorem Lookup_on_populated_table (starting_key key : Z)
        (successor : Z -> RemotePeer) :
  Key.in_ring starting_key -> Key.in_ring key ->
  FingerTable.Lookup (FingerTable.populated starting_key successor) key
  = if key =? starting_key then None
    else Some (successor (Z.log2 (Key.cw_dist starting_key key))).
Proof.
  intros Hs Hk. unfold FingerTable.populated.
  etransitivity;
    [apply (TableFacts.Lookup_fingers starting_key key successor 128 Hs Hk O);
     [lia|]|].
  2:{ pose proof (KeyFacts.cw_dist_range starting_key key) as Hrange.
    change (2 ^ Z.of_nat (0 + 128)) with Key.keys_in_ring.
    destruct (Z.ltb_spec (Key.cw_dist starting_key key) Key.keys_in_ring);
      [|lia]. rewrite andb_true_r.
    destruct (Z.eqb_spec key starting_key) as [->|Hne].
    + unfold Key.cw_dist. rewrite Z.sub_diag. reflexivity.
    + destruct (Z.ltb_spec 0 (Key.cw_dist starting_key key)) as [_|Hz];
        [reflexivity|].
      exfalso. apply Hne.
      apply (SuccListFacts.cw_dist_inj starting_key); try assumption.
      unfold Key.cw_dist at 2. rewrite Z.sub_diag.
      change (0 mod Key.keys_in_ring) with 0. lia. }
  pose proof (KeyFacts.cw_dist_range starting_key key) as Hrange.
  change (2 ^ Z.of_nat 0) with 1. lia.
Qed.

Lemma Lookup_on_populated_table_witness :
  FingerTable.Lookup
    (FingerTable.populated 10 (fun n => mkRemotePeer n 0 "" 1)) 3
  = if 3 =? 10 then None
    else Some (mkRemotePeer (Z.log2 (Key.cw_dist 10 3)) 0 "" 1).
Proof.
  apply (Lookup_on_populated_table 10 3 (fun n => mkRemotePeer n 0 "" 1)).
  - split; [discriminate | reflexivity].
  - split; [discriminate | reflexivity].
Defined.

(** ** Positions of the nodes *)

Module PositionFacts.
Import Merkle MerkleInduction MerkleEquations MapFacts ChildrenFacts
       RangeFacts WellFormed.

Section Positions.

Variable V : Type.
Variable sha1 : string -> Z.

Lemma positioned_fields mn mx h pos cs (data : list (Z * V)) lg
      mn' mx' h' data' lg' :
  positioned (mkTree mn mx h pos cs data lg) ->
  positioned (mkTree mn' mx' h' pos cs data' lg').
Proof. intro H. inversion H; subst. constructor. assumption. Qed.

Lemma positioned_Rehash (t : MerkleTree V) :
  positioned t -> positioned (Rehash sha1 t).
Proof. destruct t. apply positioned_fields. Qed.

Lemma positioned_set_largest (t : MerkleTree V) lg :
  positioned t -> positioned (set_largest t lg).
Proof. destruct t. apply positioned_fields. Qed.

Lemma position_Rehash (t : MerkleTree V) :
  position_ (Rehash sha1 t) = position_ t.
Proof. destruct t. reflexivity. Qed.

Lemma position_set_largest (t : MerkleTree V) lg :
  position_ (set_largest t lg) = position_ t.
Proof. destruct t. reflexivity. Qed.

Lemma positioned_leaf mn mx h pos (data : list (Z * V)) lg :
  positioned (mkTree mn mx h pos [] data lg).
Proof. constructor. intros [|i] c Hc; discriminate Hc. Qed.

Lemma CreateChildren_loop_positions (count : nat) :
  forall (i step last_key : Z) (pos : list Z) (data : list (Z * V)) j c,
    nth_error (fst (CreateChildren_loop sha1 count i step last_key pos data)) j
    = Some c ->
    position_ c = pos ++ [i + Z.of_nat j] /\ positioned c.
Proof.
  induction count as [|count IH]; intros i step last_key pos data j c Hc.
  - destruct j; discriminate Hc.
  - cbn [CreateChildren_loop] in Hc. cbv zeta in Hc.
    destruct (take_range _ _ data) as [taken left].
    pose proof (IH (i + 1) step (Key.uint256 (last_key + step)) pos left)
      as IHrest.
    destruct (CreateChildren_loop sha1 count (i + 1) step _ pos left)
      as [children left'].
    cbn [fst] in *. destruct j as [|j].
    + injection Hc as <-. cbn [Rehash position_].
      split; [rewrite Z.add_0_r; reflexivity | apply positioned_leaf].
    + cbn [nth_error] in Hc. destruct (IHrest j c Hc) as [Hpos Hp].
      split; [|exact Hp]. rewrite Hpos. do 2 f_equal. lia.
Qed.

Lemma positioned_CreateChildren mn mx h pos (data : list (Z * V)) lg :
  positioned (CreateChildren sha1 (mkTree mn mx h pos [] data lg)) /\
  position_ (CreateChildren sha1 (mkTree mn mx h pos [] data lg)) = pos.
Proof.
  unfold CreateChildren.
  pose proof (CreateChildren_loop_positions (Z.to_nat num_children_) 0
                (Key.uint256 (mx - mn) / num_children_) mn pos data) as Hloop.
  destruct (CreateChildren_loop _ _ _ _ _ _ _) as [children left].
  cbn [fst app position_] in *. split; [|reflexivity].
  constructor. intros i c Hc. destruct (Hloop i c Hc) as [Hpos Hp].
  split; [exact Hpos | exact Hp].
Qed.

(** Replacing one child by a node of the same position. *)
Lemma positioned_replace mn mx h pos cs (data : list (Z * V)) lg
      (f : MerkleTree V -> MerkleTree V * outcome) index cs' o
      mn' mx' h' data' lg' :
  positioned (mkTree mn mx h pos cs data lg) ->
  Forall (fun c => positioned c ->
                   positioned (fst (f c)) /\
                   position_ (fst (f c)) = position_ c) cs ->
  at_update f cs index = Some (cs', o) ->
  positioned (mkTree mn' mx' h' pos cs' data' lg').
Proof.
  intros Hp Hf Hup. inversion Hp as [? ? ? ? ? ? ? Hch]; subst.
  rewrite Forall_forall in Hf.
  pose proof (at_update_nth _ _ f cs index) as Hnth. rewrite Hup in Hnth.
  destruct Hnth as (c & Hc & _ & Hc' & _ & Hother).
  constructor. intros i ci Hi.
  destruct (Nat.eq_dec i index) as [->|Hne].
  - rewrite Hc' in Hi. injection Hi as <-.
    destruct (Hch index c Hc) as [Hpos Hpc].
    destruct (Hf c (nth_error_In _ _ Hc) Hpc) as [Hp' Hpos'].
    split; [rewrite Hpos'; exact Hpos | exact Hp'].
  - rewrite (Hother i Hne) in Hi. apply (Hch i ci Hi).
Qed.

Lemma Insert_positioned (t : MerkleTree V) :
  forall kv, positioned t ->
             positioned (fst (Insert sha1 t kv)) /\
             position_ (fst (Insert sha1 t kv)) = position_ t.
Proof.
  induction t as [mn mx h pos cs data lg IH] using MerkleTree_ind.
  intros kv Hp. destruct cs as [|c0 cs0].
  - rewrite Insert_leaf. destruct (map_find (fst kv) data).
    + split; [apply positioned_leaf | reflexivity].
    + cbv zeta. destruct (_ >? _); cbn [fst].
      * rewrite position_Rehash.
        destruct (positioned_CreateChildren mn mx h pos
                    (map_insert (fst kv) (snd kv) data)
                    (bump_largest lg (fst kv))) as [Hpc Hposc].
        split; [apply positioned_Rehash; exact Hpc | exact Hposc].
      * split; [apply positioned_leaf | reflexivity].
  - rewrite Insert_node.
    assert (Hf : Forall (fun c => positioned c ->
                           positioned (fst (Insert sha1 c kv)) /\
                           position_ (fst (Insert sha1 c kv)) = position_ c)
                        (c0 :: cs0)).
    { eapply Forall_impl; [|exact IH]. cbv beta. intros c Hc. apply Hc. }
    destruct (at_update _ _ _) as [[cs' [|what]]|] eqn:Hup; cbn [fst].
    + split; [|reflexivity].
      eapply positioned_replace; [exact Hp | exact Hf | exact Hup].
    + split; [|reflexivity].
      eapply positioned_replace; [exact Hp | exact Hf | exact Hup].
    + split; [|reflexivity]. eapply positioned_fields. exact Hp.
Qed.

Lemma Update_positioned (t : MerkleTree V) :
  forall kv, positioned t ->
             positioned (fst (Update sha1 t kv)) /\
             position_ (fst (Update sha1 t kv)) = position_ t.
Proof.
  induction t as [mn mx h pos cs data lg IH] using MerkleTree_ind.
  intros kv Hp. destruct cs as [|c0 cs0].
  - rewrite Update_leaf. destruct (map_find (fst kv) data); cbn [fst];
      (split; [apply positioned_leaf | reflexivity]).
  - rewrite Update_node.
    assert (Hf : Forall (fun c => positioned c ->
                           positioned (fst (Update sha1 c kv)) /\
                           position_ (fst (Update sha1 c kv)) = position_ c)
                        (c0 :: cs0)).
    { eapply Forall_impl; [|exact IH]. cbv beta. intros c Hc. apply Hc. }
    destruct (at_update _ _ _) as [[cs' [|what]]|] eqn:Hup; cbn [fst].
    + split; [|reflexivity].
      eapply positioned_replace; [exact Hp | exact Hf | exact Hup].
    + split; [|reflexivity].
      eapply positioned_replace; [exact Hp | exact Hf | exact Hup].
    + split; [exact Hp | reflexivity].
Qed.

Lemma Delete_positioned (t : MerkleTree V) :
  forall key, positioned t ->
              positioned (fst (Delete sha1 t key)) /\
              position_ (fst (Delete sha1 t key)) = position_ t.
Proof.
  induction t as [mn mx h pos cs data lg IH] using MerkleTree_ind.
  intros key Hp. destruct cs as [|c0 cs0].
  - rewrite Delete_leaf. destruct (map_find key data); cbn [fst];
      (split; [apply positioned_leaf | reflexivity]).
  - rewrite Delete_node.
    assert (Hf : Forall (fun c => positioned c ->
                           positioned (fst (Delete sha1 c key)) /\
                           position_ (fst (Delete sha1 c key)) = position_ c)
                        (c0 :: cs0)).
    { eapply Forall_impl; [|exact IH]. cbv beta. intros c Hc. apply Hc. }
    destruct (at_update _ _ _) as [[cs' [|what]]|] eqn:Hup; cbn [fst].
    + cbv zeta. rewrite position_set_largest.
      split; [|reflexivity]. apply positioned_set_largest.
      eapply positioned_replace; [exact Hp | exact Hf | exact Hup].
    + split; [|reflexivity].
      eapply positioned_replace; [exact Hp | exact Hf | exact Hup].
    + split; [exact Hp | reflexivity].
Qed.

Lemma reachable_positioned (t : MerkleTree V) :
  reachable sha1 t -> positioned t /\ position_ t = [].
Proof.
  induction 1 as [|t o Hreach [IHp IHpos] Hkey].
  - unfold EmptyTree. apply positioned_CreateChildren.
  - destruct o as [key val|key val|key]; cbn [apply_op].
    + destruct (Insert_positioned t (key, val) IHp) as [Hp Hpos].
      split; [exact Hp | rewrite Hpos; exact IHpos].
    + destruct (Update_positioned t (key, val) IHp) as [Hp Hpos].
      split; [exact Hp | rewrite Hpos; exact IHpos].
    + destruct (Delete_positioned t key IHp) as [Hp Hpos].
      split; [exact Hp | rewrite Hpos; exact IHpos].
Qed.

Lemma LookupByPosition_position (dirs : list Z) :
  forall (t node : MerkleTree V),
    positioned t ->
    LookupByPosition dirs t = Ok (Some node) ->
    position_ node = position_ t ++ dirs /\ positioned node.
Proof.
  induction dirs as [|front dirs IH]; intros t node Hp Hlook.
  - cbn [LookupByPosition] in Hlook. injection Hlook as <-.
    rewrite app_nil_r. split; [reflexivity | exact Hp].
  - cbn [LookupByPosition] in Hlook.
    destruct (IsLeaf t); [discriminate Hlook|].
    destruct (Z.ltb_spec front 0); [discriminate Hlook|].
    destruct (nth_error (child_nodes_ t) (Z.to_nat front)) as [next|] eqn:Hn;
      [|discriminate Hlook].
    destruct t as [mn mx h pos cs data lg]. cbn [child_nodes_ position_] in *.
    inversion Hp as [? ? ? ? ? ? ? Hch]; subst.
    destruct (Hch _ next Hn) as [Hpos Hpn].
    destruct (IH next node Hpn Hlook) as [Hnode Hpnode].
    split; [|exact Hpnode]. rewrite Hnode, Hpos, Z2Nat.id by lia.
    rewrite <- app_assoc. reflexivity.
Qed.

(** Directions that name children do not make [at] throw, and only a
    leaf met on the way makes [LookupByPosition] return nothing. *)
Lemma LookupByPosition_defined (dirs : list Z) :
  forall (t : MerkleTree V) d,
    wf d t -> Forall (fun dir => 0 <= dir < num_children_) dirs ->
    exists found, LookupByPosition dirs t = Ok found /\
                  (found = None ->
                   exists leaf_dirs rest leaf,
                     dirs = leaf_dirs ++ rest /\ rest <> [] /\
                     LookupByPosition leaf_dirs t = Ok (Some leaf) /\
                     IsLeaf leaf = true).
Proof.
  induction dirs as [|front dirs IH]; intros t d Hwf Hdirs.
  - exists (Some t). split; [reflexivity | discriminate].
  - inversion Hdirs as [|? ? Hfront Hrest]; subst.
    cbn [LookupByPosition].
    destruct (IsLeaf t) eqn:Hleaf.
    + exists None. split; [reflexivity|]. intros _.
      exists [], (front :: dirs), t.
      repeat split; [discriminate | exact Hleaf].
    + destruct (Z.ltb_spec front 0); [lia|].
      inversion Hwf as [? ? ? ? ? ? ? Hpos Hd Hr Hs Hw
                       |? ? ? ? ? ? ? Hpos Hd Hr Hl Hch]; subst;
        [discriminate Hleaf|].
      cbn [child_nodes_].
      destruct (nth_error cs (Z.to_nat front)) as [next|] eqn:Hn.
      2:{ apply nth_error_None in Hn. rewrite Hl in Hn.
          unfold num_children_ in Hfront. lia. }
      destruct (Hch _ next Hn) as [_ Hwfn].
      destruct (IH next _ Hwfn Hrest) as (found & Hfound & Hnone).
      exists found. split; [exact Hfound|]. intro Hf.
      destruct (Hnone Hf) as (leaf_dirs & rest & leaf & -> & Hne & Hl' & Hil).
      exists (front :: leaf_dirs), rest, leaf.
      repeat split; try assumption.
      cbn [LookupByPosition IsLeaf child_nodes_].
      destruct cs as [|c0 cs0]; [discriminate Hl|].
      destruct (Z.ltb_spec front 0); [lia|].
      cbn [child_nodes_]. rewrite Hn. exact Hl'.
Qed.

End Positions.

End PositionFacts.

(** X30.  On a tree a peer can hold, [LookupByPosition(dirs)] at
    the root with directions from [0] to [num_children_ - 1] does not
    throw; a node it returns is the node whose [position_] is [dirs],
    and it returns [std::nullopt] only when a leaf lies on the way with
    directions left over. *)
Theorem LookupByPosition_finds_the_position (V : Type) (sha1 : string -> Z)
        (t : Merkle.MerkleTree V) (dirs : list Z) :
  Merkle.reachable sha1 t ->
  Forall (fun dir => 0 <= dir < Merkle.num_children_) dirs ->
  exists found,
    Merkle.LookupByPosition dirs t = Ok found /\
    match found with
    | Some node => Merkle.position_ node = dirs
    | None =>
        exists leaf_dirs rest leaf,
          dirs = leaf_dirs ++ rest /\ rest <> [] /\
          Merkle.LookupByPosition leaf_dirs t = Ok (Some leaf) /\
          Merkle.IsLeaf leaf = true
    end.
Proof.
  intros Hreach Hdirs.
  pose proof (WellFormed.reachable_wf V sha1 t Hreach) as Hwf.
  destruct (PositionFacts.reachable_positioned V sha1 t Hreach) as [Hp Hroot].
  destruct (PositionFacts.LookupByPosition_defined V dirs t 0 Hwf Hdirs)
    as (found & Hfound & Hnone).
  exists found. split; [exact Hfound|].
  destruct found as [node|].
  - destruct (PositionFacts.LookupByPosition_position V dirs t node Hp Hfound)
      as [Hpos _].
    rewrite Hpos, Hroot. reflexivity.
  - apply Hnone. reflexivity.
Qed.

Lemma LookupByPosition_finds_the_position_witness :
  exists found,
    Merkle.LookupByPosition [0; 0] Scenario.store = Ok found /\
    match found with
    | Some node => Merkle.position_ node = [0; 0]
    | None =>
        exists leaf_dirs rest leaf,
          [0; 0] = leaf_dirs ++ rest /\ rest <> [] /\
          Merkle.LookupByPosition leaf_dirs Scenario.store = Ok (Some leaf) /\
          Merkle.IsLeaf leaf = true
    end.
Proof.
  apply (LookupByPosition_finds_the_position string Scenario.sha1).
  - unfold Scenario.store.
    repeat (apply Merkle.reachable_step;
            [|split; [discriminate | reflexivity]]).
    apply Merkle.reachable_empty.
  - repeat constructor; discriminate.
Defined.
